(* ===== verification/_CoqProject ===== *)
-Q . S2P
Prelude.v
Ints.v
Utf8.v
Tasks.v
RespTypes.v
RespParser.v
RespParserFacts.v
RespSpec.v
DashMap.v
Database.v
DatabaseSpec.v
Command.v
CommandSpec.v
Dispatcher.v
DispatcherSpec.v
Rdb.v
RdbFormat.v
RdbSpec.v
SaveFile.v
SaveFileSpec.v
ActiveExpiration.v
ActiveExpirationSpec.v
Concurrency.v
ConcurrencySpec.v
ClientLoop.v
ClientLoopSpec.v
Server.v
ServerSpec.v
