(* ===== verification/Prelude.v ===== *)
(** * Ember: a verification of the server

    Ember is a Redis-compatible in-memory key-value server written in Rust
    (src/src). This library is a shallow embedding of it: its data types are
    inductive types and records, its functions Rocq functions, its errors and
    panics values, and its state is passed explicitly.

    ** The program

    A connection task (config/client.rs, [Client::handle]) reads bytes from a
    socket into a buffer, parses one RESP value at a time from its front
    (resp/parser.rs), turns it into a command (command/command.rs), dispatches
    the command (command/dispatcher.rs) with the transaction state of the
    connection, and writes the reply (resp/types.rs). The dispatcher queues
    commands inside MULTI and otherwise calls the shared database
    (database/core.rs), two concurrent maps from keys to values and to expiry
    instants. Expired keys are removed when they are read and by a background
    task. SAVE collects the maps and writes them to a snapshot file
    (rdb/writer.rs), which the server loads when it starts (rdb/reader.rs).
    server.rs and main.rs bind the port and spawn the tasks.

    ** The files

    - [Prelude]: bytes, the type [outcome] ([Ok], [Err], [Panic], [Diverge])
      with Rust's [?] as [let?], list lengths, tactics, the hint databases.
    - [Ints]: machine integers. Ranges, casts that wrap, additions that panic
      or wrap by [BuildProfile], byte orders, decimal text and its parsers.
    - [Utf8]: UTF-8 validation by steps, lossy decoding, white space, case.
    - [Tasks]: programs of atomic accesses to a shared state ([prog]), pools of
      them that run by a schedule, and how to reason about them: invariants
      that every access keeps, and tasks confined to cells of their own.
    - [RespTypes] (resp/types.rs): [RespType], [to_string], [to_bytes], and
      [write_to] over the class [AsyncWrite], with [AsyncWriteLaws] for what
      [write_all] promises; [emits] is the refinement of bytes by a writer.
    - [RespParser] (resp/parser.rs): the parser with its errors and panics.
      [RespParserFacts] has its lemmas and [RespSpec] its properties.
    - [DashMap]: the third-party map as the class [DashMap] with
      [DashMapLaws], an implementation of it, and time arithmetic.
    - [Database] (database/core.rs): the state [DB] and its operations over
      any [DashMap]. [DatabaseSpec]: the abstract store [kv], the invariant
      [db_wf], the abstraction [view], the refinement, and the behaviour of
      the operations.
    - [Command] (command/command.rs, utils/mod.rs): [extract_command] and
      [parse_command]. [CommandSpec]: requests and what they are parsed to.
    - [Dispatcher] (command/dispatcher.rs, the struct of config/client.rs,
      [DB::save_rdb]): [dispatch], [execute_command], [exec_queue] on a client
      and a [world] (database, snapshots taken, clock readings).
      [DispatcherSpec]: sessions and transactions.
    - [Rdb] (rdb/writer.rs, rdb/reader.rs, [DB::new]): the writer over any
      [AsyncWrite], the reader over the bytes of the file. [RdbFormat]: the
      format as pure encoders, written by the one and inverted by the other.
      [RdbSpec]: round trip and restart.
    - [SaveFile] (the function [save_rdb] of rdb/writer.rs): the save as a task
      of system calls on a file system, through a [BufWriter]. [SaveFileSpec]:
      crashes, faults and overlapping saves.
    - [ActiveExpiration] (the background task of database/core.rs) and
      [ActiveExpirationSpec].
    - [Concurrency] (database/core.rs again): every operation, the removal loop
      of the expiration task and the collection of a snapshot as programs of
      map accesses. [ConcurrencySpec]: what holds in every interleaving, and
      the races on a key.
    - [ClientLoop] (the loop of config/client.rs): [handle] over the events of
      a socket and any [BufWriter]. [ClientLoopSpec]: the requests of a stream
      and their replies as the reference, and the loop's refinement of it.
    - [Server] (server.rs, main.rs): the command line, the search for a port,
      the listeners, the workers and the accept loop, over what the system
      answers to each call. [ServerSpec]: start-up.

    ** What is shown

    - RESP. The parser inverts the encoder, at any position of a stream
      ([parse_to_bytes]); it never changes its mind when more bytes arrive
      ([parse_stable_under_extension]) and waits on every proper prefix
      ([parse_proper_prefix_incomplete]), which together make parsing
      independent of how the network cuts the stream; it terminates, panics
      on declared lengths beyond what a buffer or a vector can have and on no
      other input ([parse_panics_on_huge_length]), and returns well-formed
      values. [write_to] refines [to_bytes].
    - Database. Any sequence of operations refines the abstract store
      ([db_refines_kv]) and keeps the invariant that a key with an expiry has a
      value; reads lose no live value; ranges, pushes and the options of EXPIRE
      are specified on every branch.
    - Commands. Every request with times that fit is parsed to its command
      ([request_roundtrip]); where too few arguments panic, and what every
      expiry time becomes ([expiry_time_resolution]).
    - Dispatcher. A session refines the abstract store ([session_refines_kv]);
      a transaction that succeeds is equivalent to its commands one by one
      ([transaction_equals_sequence]); DISCARD has no effect; EXEC recurses one
      level only in every reachable state; what a failed EXEC leaves.
    - Snapshots. The reader returns what the writer wrote ([rdb_roundtrip]); a
      restart restores the database up to a millisecond of expiry
      ([restart_restores_database]); the reader answers on every file
      ([load_total]); the snapshots that are not restored.
    - Active expiration. A cycle ends, removes expired keys only, repeats
      exactly above a quarter of its sample, and purges a map whose keys have
      all expired; the task goes on through any number of turns.
    - Saves. A crash or a fault at any system call leaves the old snapshot or
      the complete new one ([save_survives_crashes]); two saves at the same
      time can mix their files ([overlapping_saves_mix]).
    - Concurrency. The programs of accesses, run alone, are the sequential
      operations, so that the refinement of the store carries over; operations
      on different keys give the replies and the state of a sequence
      ([disjoint_keys_serializable]); a live key that nobody writes is read as
      it is in every interleaving, purges included
      ([live_key_read_consistently]); a snapshot is exact for the keys that do
      not change ([snapshot_exact_on_quiet_keys]) and not for others; operations
      on the same key race ([set_lost_to_expiration], [same_key_races]).
    - Connection loop. The replies do not depend on how the stream is cut into
      reads or on pipelining, and are flushed before the loop waits
      ([handle_serves_requests]); every turn returns on any input
      ([handle_returns]); invalid input; a partly arrived request is polled for,
      not awaited ([incomplete_request_polls]).
    - Start-up. The command line is a scan for [--port]
      ([parse_args_scans_flags]); the server gets the first port that is not in
      use ([server_binds_first_free_port], [port_search_ends]), with the loaded
      database and one worker per processor
      ([main_starts_on_first_free_port]); the accept loop serves every socket.

    Several theorems describe behaviour that differs from the documentation or
    from what the code means to do: their comments say so.

    ** Fuel and bounds

    [parse] has the length of the buffer plus one as fuel: an array element is
    parsed on a strictly shorter buffer ([parse_terminates_and_consumes]). The
    reader's loops have the length of the file plus one: every turn takes a
    byte ([load_total]). [execute_command] has depth two
    ([dispatch_terminates]). The expiration cycle needs one more run than there
    are expiries ([active_expiration_sound]). The inner loop of the connection
    takes a byte per turn ([handle_returns]). The loop over the command line has
    the number of arguments plus one ([parse_args_scans_flags]). In each case
    the theorem shows that the fuel is not exhausted. The search for a port has
    its fuel as an argument: with overflow checks 65536 turns are enough, and
    without them it may not end ([port_search_ends]). [usize] has 64 bits.

    ** Parameters

    The writers ([AsyncWrite], [BufWriter]), the socket's events, the answers of
    the system to the calls that make a listener, the faults of the file system,
    the concurrent map ([DashMap]) and its shards, the size of a [RespType] in
    memory ([TargetLayout]), the overflow checks of the build
    ([BuildProfile]), clock readings and random draws are parameters, with laws
    where the program relies on them; each class has an instance.

    ** Not modelled

    What a socket option does, which task the scheduler runs next (theorems
    about interleavings are for every schedule, or exhibit one) and logging;
    allocation failure and stack exhaustion; blocking on the locks of the map;
    read errors of the snapshot file other than its end; what a power failure
    leaves of a file that was not synced. The dispatcher and the connection
    loop run on the database without interference: the interleavings are those
    of database operations.

    ** Plan

    Next are the commands of several connections interleaved over one database,
    with transactions that are not isolated from other connections, and the
    validity of the stored text carried from the parser to the snapshot, so
    that every database the server reaches can be saved and restored. *)
From stdpp Require Export base list gmap sets.
From Stdlib Require Export Lia ZArith Strings.Byte.
From Stdlib Require Strings.String.
Export Strings.String.StringSyntax.
Local Open Scope Z_scope.

(** ** Bytes *)

(** A byte buffer ([&[u8]], [Bytes], [Vec<u8>]) and the bytes of a Rust
    [String] are both lists of bytes; the UTF-8 invariant of [String] is the
    predicate [utf8_valid] of [Utf8.v]. *)
Notation bytes := (list byte).

Definition bz (b : byte) : Z := Z.of_N (Byte.to_N b).

Definition byte_of_Z (z : Z) : byte :=
  match Byte.of_N (Z.to_N (z mod 256)) with Some b => b | None => x00 end.

(** A byte string literal, [b"..."] or [&str]. *)
Definition bs (s : String.string) : bytes := String.list_byte_of_string s.
Arguments bs s%_string_scope.

Definition CR : byte := x0d.
Definition LF : byte := x0a.
Definition CRLF : bytes := [CR; LF].

(** [len] is [.len()] of a slice, a [String] or a [Vec], a [usize]. *)
Definition len {A} (l : list A) : Z := Z.of_nat (length l).

#[global] Instance byte_eq_dec : EqDecision byte := Byte.byte_eq_dec.

#[global] Program Instance byte_countable : Countable byte :=
  inj_countable Byte.to_N Byte.of_N _.
Next Obligation. exact Byte.of_to_N. Qed.

Lemma bz_range b : 0 <= bz b < 256.
Proof.
  unfold bz. pose proof (Byte.to_N_bounded b). lia.
Qed.

Lemma bz_inj b1 b2 : bz b1 = bz b2 -> b1 = b2.
Proof.
  unfold bz. intros H%N2Z.inj.
  pose proof (Byte.of_to_N b1) as E1. pose proof (Byte.of_to_N b2) as E2.
  congruence.
Qed.

Lemma bz_byte_of_Z z : bz (byte_of_Z z) = z mod 256.
Proof.
  unfold byte_of_Z. pose proof (Z.mod_pos_bound z 256 ltac:(lia)) as Hm.
  destruct (Byte.of_N (Z.to_N (z mod 256))) as [b|] eqn:E.
  - apply Byte.to_of_N in E. unfold bz. rewrite E. lia.
  - apply Byte.of_N_None_iff in E. lia.
Qed.

Lemma byte_of_Z_bz b : byte_of_Z (bz b) = b.
Proof.
  apply bz_inj. rewrite bz_byte_of_Z. pose proof (bz_range b).
  apply Z.mod_small; lia.
Qed.

(** ** Outcomes *)

(** Why a Rust computation panicked. *)
Inductive panic : Type :=
| IndexOutOfBounds        (* [v[i]] with [i >= v.len()] *)
| SliceOutOfRange         (* [&v[a..b]] with [a > b] or [b > v.len()] *)
| ArithmeticOverflow      (* checked [+], [*] with overflow checks on *)
| CapacityOverflow        (* [Vec::with_capacity] beyond [isize::MAX] bytes *)
| TimeOverflow            (* [Instant + Duration] out of range *)
| UnwrapOnErr             (* [.unwrap()] of an [Err] *)
| EmptyRange.             (* [random_range] of an empty range *)

(** The outcome of a fallible computation: [Result::Ok], [Result::Err], a
    panic, or [Diverge] when a model with fuel runs out of it. *)
Inductive outcome (E A : Type) : Type :=
| Ok (a : A)
| Err (e : E)
| Panic (p : panic)
| Diverge.
Arguments Ok {E A} a.
Arguments Err {E A} e.
Arguments Panic {E A} p.
Arguments Diverge {E A}.

(** Rust's [?]: sequencing that propagates errors and panics. *)
Definition obind {E A B} (m : outcome E A) (f : A -> outcome E B) : outcome E B :=
  match m with
  | Ok a => f a
  | Err e => Err e
  | Panic p => Panic p
  | Diverge => Diverge
  end.

(** [.map_err(f)] *)
Definition map_err {E F A} (f : E -> F) (m : outcome E A) : outcome F A :=
  match m with
  | Ok a => Ok a
  | Err e => Err (f e)
  | Panic p => Panic p
  | Diverge => Diverge
  end.

(** [opt.ok_or(e)] *)
Definition ok_or {E A} (o : option A) (e : E) : outcome E A :=
  match o with Some a => Ok a | None => Err e end.

(** [v[i]] on a slice: panics out of range. *)
Definition index {E A} (l : list A) (i : nat) : outcome E A :=
  match l !! i with Some a => Ok a | None => Panic IndexOutOfBounds end.

Definition is_Ok {E A} (m : outcome E A) : bool :=
  match m with Ok _ => true | _ => false end.

Definition is_panic {E A} (m : outcome E A) : bool :=
  match m with Panic _ => true | _ => false end.

Declare Scope ember_scope.
Delimit Scope ember_scope with ember.
Notation "'let?' x := m 'in' k" := (obind m (fun x => k))
  (at level 200, x pattern, m at level 100, k at level 200,
   format "'[' 'let?'  x  :=  m  'in' ']' '//' k") : ember_scope.
Open Scope ember_scope.

#[global] Instance panic_eq_dec : EqDecision panic.
Proof. solve_decision. Defined.

#[global] Instance outcome_eq_dec {E A} `{EqDecision E, EqDecision A} :
  EqDecision (outcome E A).
Proof. solve_decision. Defined.

Lemma obind_Ok {E A B} (m : outcome E A) (f : A -> outcome E B) b :
  obind m f = Ok b <-> exists a, m = Ok a /\ f a = Ok b.
Proof.
  destruct m; simpl; (split; [eauto; discriminate|]); intros (? & ? & ?); congruence.
Qed.

Lemma obind_assoc {E A B C} (m : outcome E A) (f : A -> outcome E B)
    (g : B -> outcome E C) :
  obind (obind m f) g = obind m (fun a => obind (f a) g).
Proof. by destruct m. Qed.

Lemma ok_or_Ok {E A} (o : option A) (e : E) a : ok_or o e = Ok a <-> o = Some a.
Proof. destruct o; simpl; naive_solver. Qed.

Lemma index_lookup {E A} (l : list A) i a :
  @index E A l i = Ok a <-> l !! i = Some a.
Proof. unfold index. destruct (l !! i); naive_solver. Qed.

Lemma index_panics {E A} (l : list A) i p :
  @index E A l i = Panic p -> (length l <= i)%nat /\ p = IndexOutOfBounds.
Proof.
  unfold index. destruct (l !! i) eqn:Hi; [done|].
  intros [= <-]. split; [by apply lookup_ge_None|done].
Qed.

(** ** Lists and lengths *)

Lemma len_nonneg {A} (l : list A) : 0 <= len l.
Proof. unfold len; lia. Qed.

Lemma len_nil {A} : len (@nil A) = 0.
Proof. done. Qed.

Lemma len_cons {A} (x : A) l : len (x :: l) = len l + 1.
Proof. unfold len; simpl; lia. Qed.

Lemma len_app {A} (l k : list A) : len (l ++ k) = len l + len k.
Proof. unfold len. rewrite length_app. lia. Qed.

Lemma len_take {A} n (l : list A) : len (take n l) = Z.min (Z.of_nat n) (len l).
Proof. unfold len. rewrite length_take. lia. Qed.

Lemma len_drop {A} n (l : list A) : len (drop n l) = Z.max 0 (len l - Z.of_nat n).
Proof. unfold len. rewrite length_drop. lia. Qed.

Lemma len_zero {A} (l : list A) : len l = 0 <-> l = [].
Proof. unfold len. destruct l; simpl; split; intros; [done|done|lia|done]. Qed.

(** ** Automation *)

Create HintDb ember discriminated.
#[export] Hint Resolve len_nonneg bz_range : ember.
#[export] Hint Rewrite @len_nil @len_cons @len_app @len_take @len_drop : len.

(** Splits an [Ok] equation of a sequenced computation into its steps. *)
Ltac inv_ok :=
  repeat match goal with
  | H : obind _ _ = Ok _ |- _ =>
      apply obind_Ok in H; destruct H as (? & ? & H)
  | H : ok_or _ _ = Ok _ |- _ => apply ok_or_Ok in H
  | H : Ok _ = Ok _ |- _ => injection H; clear H; intros; subst
  | H : Err _ = Ok _ |- _ => discriminate H
  | H : Panic _ = Ok _ |- _ => discriminate H
  | H : Diverge = Ok _ |- _ => discriminate H
  end.

(** Case analysis on the scrutinee of the innermost match of the goal or of a
    hypothesis, keeping its equation. *)
Ltac case_scrutinee :=
  match goal with
  | |- context [match ?x with _ => _ end] =>
      lazymatch x with
      | context [match _ with _ => _ end] => fail
      | _ => destruct x eqn:?
      end
  | H : context [match ?x with _ => _ end] |- _ =>
      lazymatch x with
      | context [match _ with _ => _ end] => fail
      | _ => destruct x eqn:?
      end
  end.

(** Arithmetic over list lengths. *)
Ltac len_lia := autorewrite with len in *; unfold len in *; simpl in *; lia.
