(* ===== verification/Ints.v ===== *)
(** * Machine integers

    The fixed-width integers of the program (u8, u16, u32, u64, usize, i32,
    i64) as [Z] with their range and wrap-around written out: arithmetic that
    panics or wraps by build profile, [as] casts, little- and big-endian byte
    encodings, decimal formatting (the [itoa] and [Display] output) and
    decimal parsing ([FromStr]). [usize] has 64 bits. *)
From S2P Require Import Prelude.
Local Open Scope Z_scope.

(** ** Ranges *)

Definition u16_max : Z := 65535.
Definition u32_max : Z := 4294967295.
Definition u64_max : Z := 18446744073709551615.
Definition usize_max : Z := u64_max.
Definition isize_max : Z := 9223372036854775807.
Definition i32_min : Z := -2147483648.
Definition i32_max : Z := 2147483647.
Definition i64_min : Z := -9223372036854775808.
Definition i64_max : Z := 9223372036854775807.

Definition is_usize (n : Z) : Prop := 0 <= n <= usize_max.
Definition is_i32 (n : Z) : Prop := i32_min <= n <= i32_max.
Definition is_i64 (n : Z) : Prop := i64_min <= n <= i64_max.

(** ** Wrap-around *)

Definition wrap_unsigned (w z : Z) : Z := z mod 2 ^ w.
Definition wrap_signed (w z : Z) : Z := (z + 2 ^ (w - 1)) mod 2 ^ w - 2 ^ (w - 1).

(** [x as u64], [x as usize] of a signed value: sign extension. *)
Definition as_u64 (z : Z) : Z := wrap_unsigned 64 z.
Definition as_usize (z : Z) : Z := wrap_unsigned 64 z.
(** [x as u32], [x as i32]: truncation. *)
Definition as_u32 (z : Z) : Z := wrap_unsigned 32 z.
Definition as_i32 (z : Z) : Z := wrap_signed 32 z.

(** ** Arithmetic by build profile

    With overflow checks (the [dev] profile) an overflowing [+] or [*]
    panics; without them (the [release] profile) it wraps around. Every
    theorem that does not fix the profile holds for both. *)
Class BuildProfile : Type := { overflow_checks : bool }.

Definition debug_profile : BuildProfile := {| overflow_checks := true |}.
Definition release_profile : BuildProfile := {| overflow_checks := false |}.

Section Arith.
Context `{BuildProfile} {E : Type}.

Definition arith_result (lo hi : Z) (wrap : Z -> Z) (z : Z) : outcome E Z :=
  if (lo <=? z) && (z <=? hi) then Ok z
  else if overflow_checks then Panic ArithmeticOverflow
  else Ok (wrap z).

Definition usize_add (a b : Z) : outcome E Z :=
  arith_result 0 usize_max (wrap_unsigned 64) (a + b).
Definition u16_add (a b : Z) : outcome E Z :=
  arith_result 0 u16_max (wrap_unsigned 16) (a + b).
Definition i32_add (a b : Z) : outcome E Z :=
  arith_result i32_min i32_max (wrap_signed 32) (a + b).
Definition i32_mul (a b : Z) : outcome E Z :=
  arith_result i32_min i32_max (wrap_signed 32) (a * b).

Lemma arith_result_ok lo hi wrap z :
  lo <= z <= hi -> arith_result lo hi wrap z = Ok z.
Proof.
  intros [Hl Hh]. unfold arith_result.
  apply Z.leb_le in Hl as ->. by apply Z.leb_le in Hh as ->.
Qed.

Lemma usize_add_ok a b : 0 <= a + b <= usize_max -> usize_add a b = Ok (a + b).
Proof. apply arith_result_ok. Qed.

Lemma i32_add_ok a b : is_i32 (a + b) -> i32_add a b = Ok (a + b).
Proof. apply arith_result_ok. Qed.

Lemma i32_mul_ok a b : is_i32 (a * b) -> i32_mul a b = Ok (a * b).
Proof. apply arith_result_ok. Qed.

(** Whatever the profile, a sum that is produced is the sum modulo [2^64]. *)
Lemma usize_add_inv a b c :
  0 <= a -> 0 <= b -> usize_add a b = Ok c ->
  is_usize c /\ (c = a + b \/ (overflow_checks = false /\ c = (a + b) mod 2 ^ 64 /\ usize_max < a + b)).
Proof.
  unfold usize_add, arith_result, is_usize, wrap_unsigned.
  intros Ha Hb Hc.
  destruct ((0 <=? a + b) && (a + b <=? usize_max)) eqn:E1.
  - apply andb_prop in E1 as [?%Z.leb_le ?%Z.leb_le]. injection Hc as <-. lia.
  - destruct overflow_checks; [discriminate|]. injection Hc as <-.
    apply andb_false_iff in E1.
    pose proof (Z.mod_pos_bound (a + b) (2 ^ 64) ltac:(lia)) as Hm.
    unfold usize_max, u64_max in *. split; [lia|]. right. lia.
Qed.
End Arith.

#[export] Hint Resolve usize_add_ok i32_add_ok i32_mul_ok : ember.

(** ** Casts *)

Lemma as_usize_nonneg z : 0 <= z <= usize_max -> as_usize z = z.
Proof. unfold as_usize, wrap_unsigned, usize_max, u64_max. intros. apply Z.mod_small. lia. Qed.

Lemma as_usize_neg z : - 2 ^ 64 <= z < 0 -> as_usize z = z + 2 ^ 64.
Proof.
  intros H. unfold as_usize, wrap_unsigned.
  replace z with (z + 2 ^ 64 + (-1) * 2 ^ 64) at 1 by lia.
  rewrite Z.mod_add by lia. apply Z.mod_small. lia.
Qed.

Lemma as_i32_small z : is_i32 z -> as_i32 z = z.
Proof.
  unfold is_i32, as_i32, wrap_signed, i32_min, i32_max. intros.
  rewrite Z.mod_small by lia. lia.
Qed.

Lemma wrap_signed_32_range z : is_i32 (wrap_signed 32 z).
Proof.
  unfold is_i32, wrap_signed, i32_min, i32_max.
  pose proof (Z.mod_pos_bound (z + 2 ^ (32 - 1)) (2 ^ 32) ltac:(lia)). lia.
Qed.

(** ** Byte encodings *)

(** [n.to_le_bytes()] of a [w]-byte integer. *)
Fixpoint to_le_bytes (w : nat) (n : Z) : bytes :=
  match w with
  | O => []
  | S w => byte_of_Z n :: to_le_bytes w (n / 256)
  end.

Fixpoint from_le_bytes (l : bytes) : Z :=
  match l with
  | [] => 0
  | b :: l => bz b + 256 * from_le_bytes l
  end.

Definition to_be_bytes (w : nat) (n : Z) : bytes := rev (to_le_bytes w n).
Definition from_be_bytes (l : bytes) : Z := from_le_bytes (rev l).

Lemma length_to_le_bytes w n : length (to_le_bytes w n) = w.
Proof. revert n. induction w; intros; simpl; auto. Qed.

Lemma length_to_be_bytes w n : length (to_be_bytes w n) = w.
Proof. unfold to_be_bytes. rewrite length_rev. apply length_to_le_bytes. Qed.

Lemma from_to_le_bytes w n :
  from_le_bytes (to_le_bytes w n) = n mod 256 ^ Z.of_nat w.
Proof.
  revert n. induction w as [|w IH]; intros n; cbn [to_le_bytes from_le_bytes].
  - by rewrite Z.mod_1_r.
  - rewrite IH, bz_byte_of_Z, Nat2Z.inj_succ, Z.pow_succ_r by lia.
    rewrite Z.rem_mul_r by lia. lia.
Qed.

Lemma from_to_be_bytes w n :
  from_be_bytes (to_be_bytes w n) = n mod 256 ^ Z.of_nat w.
Proof.
  unfold from_be_bytes, to_be_bytes. rewrite rev_involutive. apply from_to_le_bytes.
Qed.

Lemma from_le_bytes_range l : 0 <= from_le_bytes l < 256 ^ Z.of_nat (length l).
Proof.
  induction l as [|b l IH]; cbn [from_le_bytes length]; [lia|].
  rewrite Nat2Z.inj_succ, Z.pow_succ_r by lia. pose proof (bz_range b). lia.
Qed.

(** ** Decimal text *)

Definition ascii_digit (d : Z) : byte := byte_of_Z (48 + d).

(** [char::to_digit(10)] of an ASCII byte. *)
Definition to_digit (b : byte) : option Z :=
  if (48 <=? bz b) && (bz b <=? 57) then Some (bz b - 48) else None.

Fixpoint format_digits (fuel : nat) (n : Z) (acc : bytes) : bytes :=
  match fuel with
  | O => acc
  | S fuel =>
      let acc := ascii_digit (n mod 10) :: acc in
      if n <? 10 then acc else format_digits fuel (n / 10) acc
  end.

(** [itoa::Buffer::format] and [Display] of an integer. Twenty digits cover
    every 64-bit magnitude. *)
Definition format_int (n : Z) : bytes :=
  if n <? 0 then x2d :: format_digits 20 (- n) [] else format_digits 20 n [].

Fixpoint parse_digits (acc : Z) (s : bytes) : option Z :=
  match s with
  | [] => Some acc
  | b :: s =>
      match to_digit b with
      | Some d => parse_digits (acc * 10 + d) s
      | None => None
      end
  end.

Definition in_range (lo hi z : Z) : option Z :=
  if (lo <=? z) && (z <=? hi) then Some z else None.

(** [str::parse] for an integer type with range [lo..=hi]: an optional [+],
    an optional [-] when the type is signed, at least one digit, no overflow. *)
Definition parse_int_range (lo hi : Z) (s : bytes) : option Z :=
  match s with
  | [] => None
  | b :: rest =>
      if decide (b = x2b) then
        match rest with [] => None | _ => v ← parse_digits 0 rest; in_range lo hi v end
      else if decide (b = x2d) then
        match rest with
        | [] => None
        | _ => if lo <? 0 then v ← parse_digits 0 rest; in_range lo hi (- v) else None
        end
      else v ← parse_digits 0 s; in_range lo hi v
  end.

Definition parse_i32 : bytes -> option Z := parse_int_range i32_min i32_max.
Definition parse_i64 : bytes -> option Z := parse_int_range i64_min i64_max.
Definition parse_usize : bytes -> option Z := parse_int_range 0 usize_max.
Definition parse_u16 : bytes -> option Z := parse_int_range 0 u16_max.

Lemma bz_ascii_digit d : 0 <= d <= 9 -> bz (ascii_digit d) = 48 + d.
Proof. intros. unfold ascii_digit. rewrite bz_byte_of_Z. apply Z.mod_small. lia. Qed.

Lemma to_digit_ascii_digit d : 0 <= d <= 9 -> to_digit (ascii_digit d) = Some d.
Proof.
  intros. unfold to_digit. rewrite bz_ascii_digit by done.
  rewrite (proj2 (Z.leb_le _ _)), (proj2 (Z.leb_le _ _)) by lia. simpl. f_equal. lia.
Qed.

Lemma to_digit_range b d : to_digit b = Some d -> 0 <= d <= 9 /\ bz b = 48 + d.
Proof.
  unfold to_digit. destruct (_ && _) eqn:E; [|done]. intros [= <-].
  apply andb_prop in E as [?%Z.leb_le ?%Z.leb_le]. lia.
Qed.

(** Decimal digits of [n], followed by [acc]. *)
Lemma parse_format_digits fuel n acc :
  0 <= n < 10 ^ Z.of_nat fuel ->
  parse_digits 0 (format_digits fuel n acc) = parse_digits n acc.
Proof.
  revert n acc. induction fuel as [|fuel IH]; intros n acc Hn; simpl format_digits.
  - replace n with 0 by lia. done.
  - rewrite Nat2Z.inj_succ, Z.pow_succ_r in Hn by lia.
    pose proof (Z.mod_pos_bound n 10 ltac:(lia)).
    pose proof (Z.div_mod n 10 ltac:(lia)).
    destruct (Z.ltb_spec n 10).
    + simpl. rewrite to_digit_ascii_digit by lia. rewrite Z.mod_small by lia. done.
    + rewrite IH by (split; [apply Z.div_pos; lia|apply Z.div_lt_upper_bound; lia]).
      simpl. rewrite to_digit_ascii_digit by lia. f_equal. lia.
Qed.

(** The first byte is a digit, so it is never mistaken for a sign. *)
Lemma format_digits_head fuel n acc :
  (0 < fuel)%nat ->
  exists d rest, format_digits fuel n acc = ascii_digit d :: rest /\ 0 <= d <= 9.
Proof.
  revert n acc. induction fuel as [|fuel IH]; intros n acc Hf; [lia|].
  simpl. pose proof (Z.mod_pos_bound n 10 ltac:(lia)).
  destruct (n <? 10); [by eauto with lia|].
  destruct fuel as [|fuel]; [by simpl; eauto with lia|].
  apply IH. lia.
Qed.

Definition is_digit (b : byte) : Prop := 48 <= bz b <= 57.

Lemma format_digits_Forall fuel n acc :
  Forall is_digit acc -> Forall is_digit (format_digits fuel n acc).
Proof.
  revert n acc. induction fuel as [|fuel IH]; intros n acc Hacc; [done|]. simpl.
  assert (Forall is_digit (ascii_digit (n mod 10) :: acc)).
  { constructor; [|done]. pose proof (Z.mod_pos_bound n 10 ltac:(lia)).
    unfold is_digit. rewrite bz_ascii_digit; lia. }
  destruct (n <? 10); auto.
Qed.

Lemma in_range_ok lo hi z : lo <= z <= hi -> in_range lo hi z = Some z.
Proof.
  intros [Hl Hh]. unfold in_range. apply Z.leb_le in Hl as ->. by apply Z.leb_le in Hh as ->.
Qed.

Lemma in_range_inv lo hi z v : in_range lo hi z = Some v -> v = z /\ lo <= v <= hi.
Proof.
  unfold in_range. destruct (_ && _) eqn:E; [|done]. intros [= <-].
  apply andb_prop in E as [?%Z.leb_le ?%Z.leb_le]. done.
Qed.

(** What [parse] accepts is in the range of its type. *)
Lemma parse_int_range_range lo hi s v :
  parse_int_range lo hi s = Some v -> lo <= v <= hi.
Proof.
  unfold parse_int_range. destruct s as [|b rest]; [done|].
  intros Hp. repeat case_decide; try (destruct rest; [done|]); try (case_match; [|done]);
    apply bind_Some in Hp as (u & _ & [-> ?]%in_range_inv); done.
Qed.

Lemma ascii_digit_not_sign d : 0 <= d <= 9 -> ascii_digit d <> x2b /\ ascii_digit d <> x2d.
Proof.
  intros Hd. split; intros E%(f_equal bz); rewrite bz_ascii_digit in E by done;
    [change (bz x2b) with 43 in E|change (bz x2d) with 45 in E]; lia.
Qed.

(** Formatting then parsing an integer gives it back if it is of the type, and
    is an error otherwise. *)
Lemma parse_format_range lo hi n :
  lo < 0 \/ 0 <= n -> - u64_max <= n <= u64_max ->
  parse_int_range lo hi (format_int n) = in_range lo hi n.
Proof.
  intros Hlo Hb. unfold u64_max in Hb. unfold format_int. destruct (Z.ltb_spec n 0) as [Hn|Hn].
  - assert (Hp : parse_digits 0 (format_digits 20 (- n) []) = Some (- n)).
    { rewrite parse_format_digits by (simpl Z.of_nat; lia). done. }
    destruct (format_digits_head 20 (- n) [] ltac:(lia)) as (d & rest & E & Hd).
    unfold parse_int_range. rewrite E in *. case_decide; [done|].
    destruct (decide (x2d = x2d)); [|done].
    rewrite (proj2 (Z.ltb_lt _ _)) by lia. rewrite Hp. cbn -[in_range].
    by rewrite Z.opp_involutive.
  - assert (Hp : parse_digits 0 (format_digits 20 n []) = Some n).
    { rewrite parse_format_digits by (simpl Z.of_nat; lia). done. }
    destruct (format_digits_head 20 n [] ltac:(lia)) as (d & rest & E & Hd).
    unfold parse_int_range. rewrite E in *.
    destruct (ascii_digit_not_sign d Hd). do 2 (case_decide; [done|]). by rewrite Hp.
Qed.

Lemma parse_format_int lo hi n :
  lo <= n <= hi -> - u64_max <= n <= u64_max ->
  parse_int_range lo hi (format_int n) = Some n.
Proof. intros Hr Hb. rewrite parse_format_range by lia. by apply in_range_ok. Qed.

Example format_int_ex1 : format_int (-42) = bs "-42". Proof. reflexivity. Qed.
Example format_int_ex2 : format_int u64_max = bs "18446744073709551615". Proof. reflexivity. Qed.
Example parse_i64_ex1 : parse_i64 (bs "+7") = Some 7. Proof. reflexivity. Qed.
Example parse_usize_ex1 : parse_usize (bs "-1") = None. Proof. reflexivity. Qed.
