(* ===== verification/Utf8.v ===== *)
(** * UTF-8 text

    What the program uses of Rust's [str]: UTF-8 validation
    ([std::str::from_utf8]), lossy decoding ([String::from_utf8_lossy]),
    ASCII upper-casing, and the Unicode white space operations
    [split_whitespace] and [trim]. A [String] is the list of its bytes;
    [utf8_valid] is its type invariant. *)
From S2P Require Import Prelude Ints.
Local Open Scope Z_scope.

(** ** Scanning one character *)

Definition byte_in (lo hi : Z) (b : byte) : bool := (lo <=? bz b) && (bz b <=? hi).

Definition is_cont (b : byte) : bool := byte_in 0x80 0xBF b.

(** The admissible second bytes after a three- or four-byte lead. *)
Definition second_of_3 (b0 b1 : byte) : bool :=
  if bz b0 =? 0xE0 then byte_in 0xA0 0xBF b1
  else if bz b0 =? 0xED then byte_in 0x80 0x9F b1
  else is_cont b1.

Definition second_of_4 (b0 b1 : byte) : bool :=
  if bz b0 =? 0xF0 then byte_in 0x90 0xBF b1
  else if bz b0 =? 0xF4 then byte_in 0x80 0x8F b1
  else is_cont b1.

(** Reading past the end gives a zero byte, which continues nothing. *)
Definition get_byte (s : bytes) (i : nat) : byte := default x00 (s !! i).

(** The next chunk of a non-empty string: [(true, n)] for a character of [n]
    bytes, [(false, n)] for a maximal ill-formed part of [n] bytes. *)
Definition utf8_step (s : bytes) : bool * nat :=
  let b0 := get_byte s 0 in
  let b1 := get_byte s 1 in
  let b2 := get_byte s 2 in
  let b3 := get_byte s 3 in
  if bz b0 <? 0x80 then (true, 1%nat)
  else if byte_in 0xC2 0xDF b0 then
    if is_cont b1 then (true, 2%nat) else (false, 1%nat)
  else if byte_in 0xE0 0xEF b0 then
    if second_of_3 b0 b1 then
      if is_cont b2 then (true, 3%nat) else (false, 2%nat)
    else (false, 1%nat)
  else if byte_in 0xF0 0xF4 b0 then
    if second_of_4 b0 b1 then
      if is_cont b2 then
        if is_cont b3 then (true, 4%nat) else (false, 3%nat)
      else (false, 2%nat)
    else (false, 1%nat)
  else (false, 1%nat).

(** A string cut into characters and ill-formed parts. The length of the
    string is enough fuel: every chunk has at least one byte. *)
Fixpoint chunks_fuel (fuel : nat) (s : bytes) : list (bool * bytes) :=
  match fuel with
  | O => []
  | S fuel =>
      match s with
      | [] => []
      | _ =>
          let '(ok, n) := utf8_step s in
          (ok, take n s) :: chunks_fuel fuel (drop n s)
      end
  end.

Definition utf8_chunks (s : bytes) : list (bool * bytes) := chunks_fuel (length s) s.

(** ** The [str] operations *)

Definition utf8_valid (s : bytes) : bool := forallb fst (utf8_chunks s).

(** [std::str::from_utf8]: the string itself, or an error. *)
Definition from_utf8 (s : bytes) : option bytes := if utf8_valid s then Some s else None.

Definition replacement_character : bytes := [xef; xbf; xbd].

Definition from_utf8_lossy (s : bytes) : bytes :=
  concat (map (fun c : bool * bytes => if c.1 then c.2 else replacement_character)
              (utf8_chunks s)).

Definition ascii_upper (b : byte) : byte :=
  if byte_in 97 122 b then byte_of_Z (bz b - 32) else b.

Definition to_ascii_uppercase (s : bytes) : bytes := map ascii_upper s.

(** The characters of a valid string, each as its encoding. *)
Definition chars (s : bytes) : list bytes := map snd (utf8_chunks s).

(** The scalar value of an encoded character. *)
Definition code_point (c : bytes) : Z :=
  let p i m := Z.land (bz (get_byte c i)) m in
  match length c with
  | 1%nat => bz (get_byte c 0)
  | 2%nat => p 0%nat 0x1F * 64 + p 1%nat 0x3F
  | 3%nat => p 0%nat 0x0F * 4096 + p 1%nat 0x3F * 64 + p 2%nat 0x3F
  | _ => p 0%nat 0x07 * 262144 + p 1%nat 0x3F * 4096 + p 2%nat 0x3F * 64 + p 3%nat 0x3F
  end.

(** [char::is_whitespace]: the Unicode White_Space property. *)
Definition is_whitespace (c : bytes) : bool :=
  let u := code_point c in
  ((9 <=? u) && (u <=? 13)) || (u =? 0x20) || (u =? 0x85) || (u =? 0xA0)
  || (u =? 0x1680) || ((0x2000 <=? u) && (u <=? 0x200A))
  || (u =? 0x2028) || (u =? 0x2029) || (u =? 0x202F) || (u =? 0x205F) || (u =? 0x3000).

(** Words of a character sequence; [cur] holds the characters of the word
    being read, latest first. *)
Fixpoint words (cs : list bytes) (cur : list bytes) : list bytes :=
  match cs with
  | [] => match cur with [] => [] | _ => [concat (rev cur)] end
  | c :: cs =>
      if is_whitespace c then
        match cur with [] => words cs [] | _ => concat (rev cur) :: words cs [] end
      else words cs (c :: cur)
  end.

Definition split_whitespace (s : bytes) : list bytes := words (chars s) [].

Fixpoint drop_whitespace (cs : list bytes) : list bytes :=
  match cs with
  | [] => []
  | c :: cs' => if is_whitespace c then drop_whitespace cs' else cs
  end.

Definition trim (s : bytes) : bytes :=
  concat (rev (drop_whitespace (rev (drop_whitespace (chars s))))).

Example from_utf8_ex : utf8_valid [x63; x61; x66; xc3; xa9] = true.
Proof. reflexivity. Qed.
Example from_utf8_surrogate : utf8_valid [xed; xa0; x80] = false.
Proof. reflexivity. Qed.
Example from_utf8_lossy_ex :
  from_utf8_lossy [x61; xe2; x82; x62] = [x61; xef; xbf; xbd; x62].
Proof. reflexivity. Qed.
Example split_whitespace_ex :
  split_whitespace (bs "  SET  foo bar ") = [bs "SET"; bs "foo"; bs "bar"].
Proof. reflexivity. Qed.
Example trim_ex : trim (bs "  -12 ") = bs "-12".
Proof. reflexivity. Qed.

(** ** Facts *)

Lemma utf8_step_pos s : (1 <= (utf8_step s).2 <= 4)%nat.
Proof. unfold utf8_step. repeat case_match; simpl; lia. Qed.

Lemma get_byte_app s t i : (i < length s)%nat -> get_byte (s ++ t) i = get_byte s i.
Proof. intros. unfold get_byte. by rewrite lookup_app_l. Qed.

Lemma get_byte_ge s i : (length s <= i)%nat -> get_byte s i = x00.
Proof. intros. unfold get_byte. by rewrite lookup_ge_None_2. Qed.

(** A character is never cut short: what [utf8_step] accepts is inside [s]. *)
Lemma utf8_step_len s n : s <> [] -> utf8_step s = (true, n) -> (n <= length s)%nat.
Proof.
  intros Hs E. destruct (decide (n <= length s)%nat) as [|Hn]; [done|exfalso].
  assert (length s <> 0%nat) by (destruct s; done).
  pose proof (utf8_step_pos s) as Hp. rewrite E in Hp; simpl in Hp.
  assert (Hz : get_byte s (n - 1) = x00) by (apply get_byte_ge; lia).
  unfold utf8_step in E.
  repeat case_match; simplify_eq; simpl in Hz; try lia;
    match goal with H : is_cont (get_byte s _) = true |- _ => by rewrite Hz in H end.
Qed.

(** [utf8_step] looks at no byte beyond the chunk it accepts. *)
Lemma utf8_step_app s t n :
  utf8_step s = (true, n) -> (n <= length s)%nat -> utf8_step (s ++ t) = (true, n).
Proof.
  intros E Hn. rewrite <- E.
  pose proof (utf8_step_pos s) as Hp. rewrite E in Hp; simpl in Hp.
  unfold utf8_step in *. rewrite (get_byte_app s t 0) by lia.
  destruct (decide (n = 1%nat)) as [->|].
  { repeat case_match; simplify_eq; done. }
  rewrite (get_byte_app s t 1) by lia.
  destruct (decide (n = 2%nat)) as [->|].
  { repeat case_match; simplify_eq; done. }
  rewrite (get_byte_app s t 2) by lia.
  destruct (decide (n = 3%nat)) as [->|].
  { repeat case_match; simplify_eq; done. }
  rewrite (get_byte_app s t 3) by lia. done.
Qed.

Lemma chunks_fuel_irrel f1 f2 s :
  (length s <= f1)%nat -> (length s <= f2)%nat -> chunks_fuel f1 s = chunks_fuel f2 s.
Proof.
  revert f2 s. induction f1 as [|f1 IH]; intros f2 s H1 H2.
  - destruct s; [by destruct f2|simpl in *; lia].
  - destruct f2 as [|f2]; [by destruct s; simpl in *; [|lia]|].
    cbn [chunks_fuel]. destruct s as [|b s]; [done|].
    pose proof (utf8_step_pos (b :: s)) as Hp.
    destruct (utf8_step (b :: s)) as [ok m]. simpl in Hp. f_equal.
    apply IH; rewrite length_drop; simpl in *; lia.
Qed.

Lemma utf8_chunks_step s ok n :
  s <> [] -> utf8_step s = (ok, n) ->
  utf8_chunks s = (ok, take n s) :: utf8_chunks (drop n s).
Proof.
  intros Hs E. destruct s as [|b s]; [done|].
  pose proof (utf8_step_pos (b :: s)) as Hp. rewrite E in Hp. simpl in Hp.
  unfold utf8_chunks at 1. simpl length. cbn [chunks_fuel]. rewrite E. f_equal.
  apply chunks_fuel_irrel; rewrite length_drop; simpl in *; lia.
Qed.

(** Induction on a string by its chunks. *)
Lemma chunk_ind (P : bytes -> Prop) :
  P [] ->
  (forall s ok n, s <> [] -> utf8_step s = (ok, n) -> P (drop n s) -> P s) ->
  forall s, P s.
Proof.
  intros Hnil Hstep s. remember (length s) as k eqn:Hk. revert s Hk.
  induction (lt_wf k) as [k _ IH]. intros s ->.
  destruct (decide (s = [])) as [->|Hs]; [done|].
  destruct (utf8_step s) as [ok n] eqn:E. apply (Hstep s ok n); [done|done|].
  pose proof (utf8_step_pos s) as Hp. rewrite E in Hp. simpl in Hp.
  eapply IH; [|done]. rewrite length_drop. destruct s; [done|simpl in *; lia].
Qed.

(** Cutting a string into chunks loses nothing. *)
Lemma concat_chunks s : concat (map snd (utf8_chunks s)) = s.
Proof.
  induction s as [|s ok n Hs E IH] using chunk_ind; [done|].
  rewrite (utf8_chunks_step s ok n Hs E). simpl. rewrite IH. apply take_drop.
Qed.

(** Lossy decoding leaves a valid string as it is. *)
Lemma from_utf8_lossy_valid s : utf8_valid s = true -> from_utf8_lossy s = s.
Proof.
  unfold utf8_valid, from_utf8_lossy. intros Hv. rewrite <- (concat_chunks s) at 2.
  f_equal. apply map_ext_in. intros [ok c] Hin. simpl.
  rewrite forallb_forall in Hv. by rewrite (Hv _ Hin : ok = true).
Qed.

(** An encoded character. *)
Definition is_char (c : bytes) : Prop := c <> [] /\ utf8_step c = (true, length c).

Lemma utf8_chunks_char c s :
  is_char c -> utf8_chunks (c ++ s) = (true, c) :: utf8_chunks s.
Proof.
  intros [Hc E]. rewrite (utf8_chunks_step _ true (length c)).
  - by rewrite take_app_length, drop_app_length.
  - by destruct c.
  - by apply utf8_step_app.
Qed.

Lemma utf8_chunks_concat cs :
  Forall is_char cs -> utf8_chunks (concat cs) = map (pair true) cs.
Proof. induction 1 as [|c cs Hc _ IH]; simpl; [done|]. by rewrite utf8_chunks_char, IH. Qed.

Lemma utf8_valid_concat cs : Forall is_char cs -> utf8_valid (concat cs) = true.
Proof.
  intros H. unfold utf8_valid. rewrite utf8_chunks_concat by done.
  clear H. by induction cs.
Qed.

(** What [utf8_step] accepts is a character on its own. *)
Lemma utf8_step_take s n :
  s <> [] -> utf8_step s = (true, n) -> is_char (take n s).
Proof.
  intros Hs E. pose proof (utf8_step_len s n Hs E) as Hn.
  pose proof (utf8_step_pos s) as Hp. rewrite E in Hp. simpl in Hp.
  assert (Hl : length (take n s) = n) by (rewrite length_take; lia).
  split; [intros H0; rewrite H0 in Hl; simpl in Hl; lia|].
  rewrite Hl. rewrite <- E. unfold utf8_step in *.
  assert (Hg : forall i, (i < n)%nat -> get_byte (take n s) i = get_byte s i)
    by (intros; unfold get_byte; by rewrite lookup_take_lt).
  rewrite (Hg 0%nat) by lia.
  destruct (decide (n = 1%nat)) as [->|]; [repeat case_match; simplify_eq; done|].
  rewrite (Hg 1%nat) by lia.
  destruct (decide (n = 2%nat)) as [->|]; [repeat case_match; simplify_eq; done|].
  rewrite (Hg 2%nat) by lia.
  destruct (decide (n = 3%nat)) as [->|]; [repeat case_match; simplify_eq; done|].
  rewrite (Hg 3%nat) by lia. done.
Qed.

Lemma chars_valid s : utf8_valid s = true -> Forall is_char (chars s).
Proof.
  unfold chars, utf8_valid. induction s as [|s ok n Hs E IH] using chunk_ind; [done|].
  rewrite (utf8_chunks_step s ok n Hs E). simpl.
  intros [-> Hv]%andb_prop. constructor; auto using utf8_step_take.
Qed.

Lemma concat_chars s : concat (chars s) = s.
Proof. apply concat_chunks. Qed.

Lemma utf8_valid_chars s : utf8_valid s = true <-> exists cs, Forall is_char cs /\ s = concat cs.
Proof.
  split.
  - intros Hv. exists (chars s). split; [by apply chars_valid|]. by rewrite concat_chars.
  - intros (cs & Hcs & ->). by apply utf8_valid_concat.
Qed.

(** Validity of a concatenation whose first part is valid. *)
Lemma utf8_valid_app s t : utf8_valid s = true -> utf8_valid (s ++ t) = utf8_valid t.
Proof.
  intros (cs & Hcs & ->)%utf8_valid_chars. induction Hcs as [|c cs Hc _ IH]; simpl; [done|].
  rewrite <- (assoc_L (++)). unfold utf8_valid in *. rewrite utf8_chunks_char by done. done.
Qed.

(** ** ASCII *)

Definition is_ascii (b : byte) : Prop := bz b < 128.

Lemma ascii_char b : is_ascii b -> is_char [b].
Proof.
  intros Hb. split; [done|]. unfold utf8_step. cbn -[Z.ltb].
  by rewrite (proj2 (Z.ltb_lt _ _)).
Qed.

Lemma ascii_valid s : Forall is_ascii s -> utf8_valid s = true.
Proof.
  intros Hs. apply utf8_valid_chars. exists (map (fun b => [b]) s). split.
  - apply Forall_map. eapply Forall_impl; [exact Hs|]. exact ascii_char.
  - clear Hs. induction s; simpl; congruence.
Qed.

Lemma format_int_ascii n : Forall is_ascii (format_int n).
Proof.
  assert (Hd : forall m, Forall is_ascii (format_digits 20 m [])).
  { intros m. eapply Forall_impl; [by apply format_digits_Forall|].
    unfold is_digit, is_ascii. lia. }
  unfold format_int. destruct (n <? 0); [|done].
  constructor; [|done]. by vm_compute.
Qed.

(** ** White space *)

Lemma words_valid cs cur :
  Forall is_char cs -> Forall is_char cur ->
  Forall (fun w => utf8_valid w = true) (words cs cur).
Proof.
  intros Hcs. revert cur. induction Hcs as [|c cs Hc _ IH]; intros cur Hcur; simpl.
  - destruct cur; [done|]. constructor; [|done]. apply utf8_valid_concat. by apply Forall_rev.
  - destruct (is_whitespace c); [|by auto].
    destruct cur; [by auto|]. constructor; [|by auto].
    apply utf8_valid_concat. by apply Forall_rev.
Qed.

(** The words of a valid string are valid strings. *)
Lemma split_whitespace_valid s :
  utf8_valid s = true -> Forall (fun w => utf8_valid w = true) (split_whitespace s).
Proof. intros. apply words_valid; [by apply chars_valid|done]. Qed.
