(* ===== verification/Tasks.v ===== *)
(** * Tasks and their interleavings

    A task is a program of atomic steps on a shared state: each step reads and
    updates the state at once, and what the task does next depends on what it
    read. A pool of tasks runs by a schedule, the list of the tasks that take
    the next step; the interleavings of the pool are its schedules. The
    components that several tasks use at the same time are modelled as such
    programs.

    The two arguments about all interleavings that the components share are
    here: a pool keeps an invariant that every step of every task keeps
    ([safe]), and a task whose part of the state no other task touches runs as
    if it were alone ([confined_solo]). *)
From S2P Require Import Prelude.

(** ** Programs *)

Inductive prog (St A : Type) : Type :=
| Ret (a : A)
| Atomic (f : St -> St * prog St A).
Arguments Ret {St A} a.
Arguments Atomic {St A} f.

Section Prog.
Context {St : Type}.

Lemma prog_nested_ind {A} (P : prog St A -> Prop) :
  (forall a, P (Ret a)) -> (forall f, (forall s, P (f s).2) -> P (Atomic f)) -> forall p, P p.
Proof.
  intros Hret Hatomic. refine (fix go p := match p with Ret a => Hret a | Atomic f => _ end).
  apply Hatomic. intros s. destruct (f s) as [s' p']. apply go.
Qed.

(** The whole program, without interference. *)
Fixpoint run {A} (p : prog St A) (s : St) : A * St :=
  match p with
  | Ret a => (a, s)
  | Atomic f => match f s with (s', p') => run p' s' end
  end.

(** [n] steps of the program, without interference. *)
Fixpoint solo {A} (n : nat) (p : prog St A) (s : St) : prog St A * St :=
  match n with
  | O => (p, s)
  | S n =>
      match p with
      | Ret a => (Ret a, s)
      | Atomic f => match f s with (s', p') => solo n p' s' end
      end
  end.

Fixpoint bind {A B} (p : prog St A) (k : A -> prog St B) : prog St B :=
  match p with
  | Ret a => k a
  | Atomic f => Atomic (fun s => match f s with (s', p') => (s', bind p' k) end)
  end.

(** A step that reads, and one that updates. *)
Definition read {X A} (g : St -> X) (k : X -> prog St A) : prog St A :=
  Atomic (fun s => (s, k (g s))).
Definition update {A} (g : St -> St) (k : prog St A) : prog St A :=
  Atomic (fun s => (g s, k)).

Lemma run_bind {A B} (p : prog St A) (k : A -> prog St B) s :
  run (bind p k) s = run (k (run p s).1) (run p s).2.
Proof.
  revert s. induction p as [a|f IH] using prog_nested_ind; intros s; simpl; [done|].
  specialize (IH s). destruct (f s) as [s' p']. apply IH.
Qed.

(** A run is a number of steps. *)
Lemma run_solo {A} (p : prog St A) s : exists n, solo n p s = (Ret (run p s).1, (run p s).2).
Proof.
  revert s. induction p as [a|f IH] using prog_nested_ind; intros s; [by exists 0%nat|].
  specialize (IH s). simpl. destruct (f s) as [s' p'] eqn:E. destruct (IH s') as [n Hn].
  exists (S n). simpl. by rewrite E.
Qed.
(** [P] holds of the program and the state after any number of steps alone:
    what a crash can leave. *)
Definition always {A} (P : prog St A -> St -> Prop) (p : prog St A) (s : St) : Prop :=
  forall n, P (solo n p s).1 (solo n p s).2.

Lemma always_ret {A} (P : prog St A -> St -> Prop) a s : P (Ret a) s -> always P (Ret a) s.
Proof. intros HP n. by destruct n. Qed.

Lemma always_atomic {A} (P : prog St A -> St -> Prop) f s :
  P (Atomic f) s -> always P (f s).2 (f s).1 -> always P (Atomic f) s.
Proof. intros HP Hnext [|n]; [done|]. specialize (Hnext n). simpl. by destruct (f s). Qed.

(** ** Pools *)

(** The next step of task [i], if it has one. *)
Definition step {A} (i : nat) (c : list (prog St A) * St) : list (prog St A) * St :=
  match c.1 !! i with
  | Some (Atomic f) => match f c.2 with (s', p') => (<[i := p']> c.1, s') end
  | _ => c
  end.

Definition run_schedule {A} (sched : list nat) (c : list (prog St A) * St) :
    list (prog St A) * St :=
  foldl (fun c i => step i c) c sched.

Lemma run_schedule_cons {A} i sched (c : list (prog St A) * St) :
  run_schedule (i :: sched) c = run_schedule sched (step i c).
Proof. done. Qed.

Lemma run_schedule_app {A} sched1 sched2 (c : list (prog St A) * St) :
  run_schedule (sched1 ++ sched2) c = run_schedule sched2 (run_schedule sched1 c).
Proof. apply foldl_app. Qed.

Lemma run_schedule_snoc {A} i sched (c : list (prog St A) * St) :
  run_schedule (sched ++ [i]) c = step i (run_schedule sched c).
Proof. unfold run_schedule. by rewrite foldl_app. Qed.

Lemma length_step {A} i (c : list (prog St A) * St) : length (step i c).1 = length c.1.
Proof.
  unfold step. destruct (c.1 !! i) as [[a|f]|]; [done| |done]. destruct (f c.2). apply length_insert.
Qed.

Lemma length_run_schedule {A} sched (c : list (prog St A) * St) :
  length (run_schedule sched c).1 = length c.1.
Proof.
  revert c. induction sched as [|i sched IH]; intros c; [done|].
  by rewrite run_schedule_cons, IH, length_step.
Qed.

(** The results of a pool in which every task has finished. *)
Definition finished {A} (pool : list (prog St A)) (rs : list A) : Prop := pool = Ret <$> rs.

(** ** Invariants *)

(** Every step keeps [I], whatever the state is when it is taken, and the
    result satisfies [Q]. *)
Inductive safe {A} (I : St -> Prop) (Q : A -> Prop) : prog St A -> Prop :=
| safe_ret a : Q a -> safe I Q (Ret a)
| safe_atomic f :
    (forall s, I s -> I (f s).1 /\ safe I Q (f s).2) -> safe I Q (Atomic f).

Lemma safe_weaken {A} (I : St -> Prop) (Q Q' : A -> Prop) p :
  (forall a, Q a -> Q' a) -> safe I Q p -> safe I Q' p.
Proof.
  intros HQ. induction p as [a|f IH] using prog_nested_ind; inversion 1 as [? Ha|? Hf]; subst.
  - apply safe_ret. auto.
  - apply safe_atomic. intros s Hs. destruct (Hf s Hs) as [HI Hp]. auto.
Qed.

Lemma safe_bind {A B} (I : St -> Prop) (Q : A -> Prop) (R : B -> Prop) p (k : A -> prog St B) :
  safe I Q p -> (forall a, Q a -> safe I R (k a)) -> safe I R (bind p k).
Proof.
  intros Hp Hk. induction p as [a|f IH] using prog_nested_ind; inversion Hp as [? Ha|? Hf]; subst.
  - by apply Hk.
  - apply safe_atomic. intros s Hs. destruct (Hf s Hs) as [HI Hp']. specialize (IH s).
    destruct (f s). by split; [|apply IH].
Qed.

Lemma safe_read {X A} (I : St -> Prop) (Q : A -> Prop) (g : St -> X) k :
  (forall s, I s -> safe I Q (k (g s))) -> safe I Q (read g k).
Proof. intros Hk. apply safe_atomic. intros s Hs. split; [done|by apply Hk]. Qed.

Lemma safe_update {A} (I : St -> Prop) (Q : A -> Prop) (g : St -> St) k :
  (forall s, I s -> I (g s)) -> safe I Q k -> safe I Q (update g k).
Proof. intros Hg Hk. apply safe_atomic. intros s Hs. split; [by apply Hg|done]. Qed.

(** Tasks with results of their own: [Q i] is what task [i] returns. *)
Lemma pool_safe {A} (I : St -> Prop) (Q : nat -> A -> Prop) sched pool s pool' s' :
  I s -> (forall i p, pool !! i = Some p -> safe I (Q i) p) ->
  run_schedule sched (pool, s) = (pool', s') ->
  I s' /\ (forall i p, pool' !! i = Some p -> safe I (Q i) p).
Proof.
  revert pool s. induction sched as [|j sched IH]; intros pool s Hs Hp.
  - by intros [= <- <-].
  - rewrite run_schedule_cons. unfold step. cbn [fst snd]. destruct (pool !! j) as [[a|f]|] eqn:Hj; [by apply IH| |by apply IH].
    pose proof (Hp _ _ Hj) as Hsafe. inversion Hsafe as [|? Hf]; subst.
    destruct (Hf s Hs) as [HI Hp']. destruct (f s) as [s1 p1]. apply IH; [done|].
    intros i p Hi. destruct (decide (i = j)) as [->|Hne].
    + rewrite list_lookup_insert_eq in Hi by (by eapply lookup_lt_Some). by simplify_eq.
    + rewrite list_lookup_insert_ne in Hi by done. by apply Hp.
Qed.

Lemma pool_safe_result {A} (I : St -> Prop) (Q : nat -> A -> Prop) sched pool s pool' s' i a :
  I s -> (forall i p, pool !! i = Some p -> safe I (Q i) p) ->
  run_schedule sched (pool, s) = (pool', s') -> pool' !! i = Some (Ret a) -> Q i a.
Proof.
  intros Hs Hp Hr Hi. destruct (pool_safe I Q sched pool s pool' s' Hs Hp Hr) as [_ Hp'].
  specialize (Hp' i _ Hi). by inversion Hp'.
Qed.

(** ** Confinement *)

(** The state has a cell for every location. *)
Context {L C : Type} `{EqDecision L} (cell : St -> L -> C).

(** The program reads and writes its own location only. *)
Inductive confined {A} (l : L) : prog St A -> Prop :=
| confined_ret a : confined l (Ret a)
| confined_atomic f :
    (forall s s', cell s l = cell s' l ->
       cell (f s).1 l = cell (f s').1 l /\ (f s).2 = (f s').2) ->
    (forall s l', l' <> l -> cell (f s).1 l' = cell s l') ->
    (forall s, confined l (f s).2) -> confined l (Atomic f).

Lemma confined_bind {A B} l (p : prog St A) (k : A -> prog St B) :
  confined l p -> (forall a, confined l (k a)) -> confined l (bind p k).
Proof.
  intros Hp Hk. induction p as [a|f IH] using prog_nested_ind; [apply Hk|].
  inversion Hp as [|? Hsame Hother Hnext]; subst. cbn [bind]. apply confined_atomic.
  - intros s s' Hc. destruct (Hsame s s' Hc) as [Hc' Hp'].
    destruct (f s), (f s'). simpl in *. split; congruence.
  - intros s l' Hl. specialize (Hother s l' Hl). by destruct (f s).
  - intros s. specialize (Hnext s). specialize (IH s). destruct (f s). by apply IH.
Qed.

Lemma solo_cell {A} l n (p : prog St A) s s' :
  confined l p -> cell s l = cell s' l ->
  (solo n p s).1 = (solo n p s').1 /\ cell (solo n p s).2 l = cell (solo n p s').2 l.
Proof.
  revert p s s'. induction n as [|n IH]; intros p s s' Hp Hc; [done|].
  destruct p as [a|f]; [done|]. inversion Hp as [|? Hsame Hother Hnext]; subst. simpl.
  destruct (Hsame s s' Hc) as [Hc' Hp']. specialize (Hnext s).
  destruct (f s) as [s1 p1], (f s') as [s1' p1']. simpl in *. subst p1'. by apply IH.
Qed.

Lemma run_cell {A} l (p : prog St A) s s' :
  confined l p -> cell s l = cell s' l ->
  (run p s).1 = (run p s').1 /\ cell (run p s).2 l = cell (run p s').2 l.
Proof.
  revert s s'. induction p as [a|f IH] using prog_nested_ind; intros s s' Hp Hc; [done|].
  inversion Hp as [|? Hsame Hother Hnext]; subst. simpl.
  destruct (Hsame s s' Hc) as [Hc' Hp']. specialize (Hnext s). specialize (IH s).
  destruct (f s) as [s1 p1], (f s') as [s1' p1']. simpl in *. subst p1'. by apply IH.
Qed.

Lemma run_other {A} l l' (p : prog St A) s :
  confined l p -> l' <> l -> cell (run p s).2 l' = cell s l'.
Proof.
  intros Hp Hne. revert s Hp. induction p as [a|f IH] using prog_nested_ind; intros s Hp; [done|].
  inversion Hp as [|? Hsame Hother Hnext]; subst. simpl. pose proof (Hother s l' Hne) as Ho.
  specialize (Hnext s). specialize (IH s). destruct (f s) as [s1 p1]. simpl in *.
  rewrite IH by done. done.
Qed.

(** A finished solo run is the run. *)
Lemma solo_run {A} n (p : prog St A) s a :
  (solo n p s).1 = Ret a -> run p s = (a, (solo n p s).2).
Proof.
  revert p s. induction n as [|n IH]; intros p s; simpl; [by intros ->|].
  destruct p as [b|f]; simpl; [congruence|]. destruct (f s). apply IH.
Qed.

Lemma solo_step {A} n (p : prog St A) s :
  solo (S n) p s =
    match (solo n p s).1 with
    | Ret a => (Ret a, (solo n p s).2)
    | Atomic f => match f (solo n p s).2 with (s', p') => (p', s') end
    end.
Proof.
  revert p s. induction n as [|n IH]; intros p s; [simpl; by destruct p as [|f]; [|destruct (f s)]|].
  destruct p as [b|f]; [done|]. cbn [solo] in *. destruct (f s) as [s' p']. apply IH.
Qed.

Lemma solo_confined {A} l n (p : prog St A) s : confined l p -> confined l (solo n p s).1.
Proof.
  revert p s. induction n as [|n IH]; intros p s Hp; [done|]. destruct p as [a|f]; [done|].
  inversion Hp as [|? _ _ Hnext]; subst. simpl. specialize (Hnext s). destruct (f s). by apply IH.
Qed.

Lemma count_occ_snoc_eq j sched :
  count_occ Nat.eq_dec (sched ++ [j]) j = S (count_occ Nat.eq_dec sched j).
Proof. rewrite count_occ_app. simpl. destruct (Nat.eq_dec j j); [lia|done]. Qed.

Lemma count_occ_snoc_ne i j sched :
  i <> j -> count_occ Nat.eq_dec (sched ++ [j]) i = count_occ Nat.eq_dec sched i.
Proof. intros Hne. rewrite count_occ_app. simpl. destruct (Nat.eq_dec j i); [done|lia]. Qed.

(** In a pool of tasks at different locations, a task has got as far as the
    steps it was given take it alone, and its cell is as it left it; a location
    of no task keeps its cell. *)
Lemma confined_solo {A} sched (pool : list (prog St A)) ls s pool' s' :
  NoDup ls -> Forall2 confined ls pool ->
  run_schedule sched (pool, s) = (pool', s') ->
  (forall i l p, ls !! i = Some l -> pool !! i = Some p ->
     let n := count_occ Nat.eq_dec sched i in
     pool' !! i = Some (solo n p s).1 /\ cell s' l = cell (solo n p s).2 l) /\
  (forall l, l ∉ ls -> cell s' l = cell s l).
Proof.
  intros Hnd Hconf. revert pool' s'. induction sched as [|j sched IH] using rev_ind; intros pool' s'.
  { intros [= <- <-]. by split. }
  rewrite run_schedule_snoc. pose proof (length_run_schedule sched (pool, s)) as Hlen.
  destruct (run_schedule sched (pool, s)) as [pool1 s1]. specialize (IH _ _ eq_refl) as [IHin IHout].
  cbn [fst] in Hlen. unfold step. cbn [fst snd]. intros Hstep.
  destruct (ls !! j) as [lj|] eqn:Hlj.
  2: { apply lookup_ge_None in Hlj. pose proof (Forall2_length _ _ _ Hconf) as Hl.
       rewrite (lookup_ge_None_2 pool1 j) in Hstep by lia. simplify_eq. split; [|done].
       intros i l p Hi Hp. assert (i <> j) by (apply lookup_lt_Some in Hi; lia).
       rewrite count_occ_snoc_ne by done. by apply IHin. }
  destruct (Forall2_lookup_l _ _ _ _ _ Hconf Hlj) as (pj & Hpj & Hcj).
  destruct (IHin j lj pj Hlj Hpj) as [Hj Hcellj]. rewrite Hj in Hstep.
  set (n := count_occ Nat.eq_dec sched j) in *.
  pose proof (solo_confined lj n pj s Hcj) as Hcn. pose proof (solo_step n pj s) as Hss.
  destruct (solo n pj s) as [[a|f] sn] eqn:En; cbn [fst snd] in *.
  - simplify_eq. split; [|done]. intros i l p Hi Hp. destruct (decide (i = j)) as [->|Hne].
    + simplify_eq. rewrite count_occ_snoc_eq. fold n. by rewrite Hss.
    + rewrite count_occ_snoc_ne by done. by apply IHin.
  - inversion Hcn as [|? Hsame Hother _]; subst.
    destruct (Hsame s1 sn Hcellj) as [Hc' Hp']. destruct (f s1) as [s2 p2] eqn:Ef.
    destruct (f sn) as [sn2 pn2]. cbn [fst snd] in *. subst pn2. simplify_eq.
    assert (forall l, l <> lj -> cell s' l = cell s1 l) as Hframe
      by (intros l Hl; specialize (Hother s1 l Hl); by rewrite Ef in Hother).
    split.
    + intros i l p Hi Hp. destruct (decide (i = j)) as [->|Hne].
      * simplify_eq. rewrite count_occ_snoc_eq. fold n. rewrite Hss. cbn [fst snd].
        split; [|done]. by rewrite list_lookup_insert_eq by (by eapply lookup_lt_Some).
      * rewrite count_occ_snoc_ne by done. rewrite list_lookup_insert_ne by done.
        destruct (IHin i l p Hi Hp) as [Hpi Hci]. split; [done|]. rewrite Hframe; [done|].
        intros ->. apply Hne. by eapply NoDup_lookup.
    + intros l Hl. rewrite Hframe; [by apply IHout|]. intros ->. apply Hl.
      by eapply list_elem_of_lookup_2.
Qed.
End Prog.
