(* ===== verification/RespTypes.v ===== *)
(** * RESP values and their serialisation (src/src/resp/types.rs)

    The value type [RespType], its textual encoding ([to_string],
    [to_bytes]) and the streaming encoder [write_to], which writes to any
    [AsyncWrite]. The writer is a parameter of the model: the class
    [AsyncWrite] has its one operation and [AsyncWriteLaws] what tokio
    documents of [write_all]. [write_to] is proved to refine [to_bytes] over
    every lawful writer. *)
From S2P Require Import Prelude Ints Utf8.
Local Open Scope Z_scope.

(** The kinds of [std::io::Error] the program tells apart. *)
Inductive io_error : Type :=
| WouldBlock
| AddrInUse
| UnexpectedEof
| OtherIo (code : Z).

Inductive RespType : Type :=
| SimpleString (s : bytes)
| SimpleError (s : bytes)
| Integer (n : Z)
| BulkString (s : bytes)
| Array (arr : list RespType)
| Null
| Boolean (b : bool).

Definition RESP_OK : bytes := Eval compute in bs "+Ok" ++ CRLF.
Definition RESP_PONG : bytes := Eval compute in bs "+Pong" ++ CRLF.
Definition RESP_NIL : bytes := Eval compute in bs "$3" ++ CRLF ++ bs "nil" ++ CRLF.
Definition RESP_QUEUED : bytes := Eval compute in bs "+QUEUED" ++ CRLF.
Definition RESP_CRLF : bytes := CRLF.

(** ** Textual encoding *)

Fixpoint to_string (r : RespType) : bytes :=
  match r with
  | SimpleString ss => bs "+" ++ ss ++ CRLF
  | Integer int => bs ":" ++ format_int int ++ CRLF
  | BulkString b => bs "$" ++ format_int (len b) ++ CRLF ++ b ++ CRLF
  | Array arr =>
      (fix push_all (acc : bytes) (l : list RespType) : bytes :=
         match l with
         | [] => acc
         | a :: l => push_all (acc ++ to_string a) l
         end) (bs "*" ++ format_int (len arr) ++ CRLF) arr
  | Null => bs "_" ++ CRLF
  | Boolean b => bs "#" ++ (if b then bs "t" else bs "f") ++ CRLF
  | SimpleError se => bs "-" ++ se ++ CRLF
  end.

Definition to_bytes (r : RespType) : bytes := to_string r.

(** ** Streaming encoder *)

Class AsyncWrite (W : Type) : Type := {
  write_all : bytes -> W -> outcome io_error unit * W
}.

(** [write_all] either writes all of its argument and succeeds, or fails
    after writing some prefix of it. *)
Class AsyncWriteLaws (W : Type) `{AsyncWrite W} : Type := {
  written : W -> bytes;
  write_all_cases : forall b w,
    (exists w', write_all b w = (Ok tt, w') /\ written w' = written w ++ b) \/
    (exists e w' p, write_all b w = (Err e, w') /\ p `prefix_of` b /\
       written w' = written w ++ p)
}.

(** [m.await?; k] in the writer's state. *)
Definition and_then {W} (m k : W -> outcome io_error unit * W) (w : W) :
    outcome io_error unit * W :=
  match m w with
  | (Ok _, w') => k w'
  | (Err e, w') => (Err e, w')
  | (Panic p, w') => (Panic p, w')
  | (Diverge, w') => (Diverge, w')
  end.

Notation "m ?; k" := (and_then m k)
  (at level 60, right associativity, format "m ?;  k") : ember_scope.

Section WriteTo.
Context {W : Type} `{AsyncWrite W}.

Fixpoint write_to (r : RespType) : W -> outcome io_error unit * W :=
  match r with
  | SimpleString ss =>
      if decide (ss = bs "Ok") then write_all RESP_OK
      else if decide (ss = bs "Pong") then write_all RESP_PONG
      else if decide (ss = bs "QUEUED") then write_all RESP_QUEUED
      else write_all (bs "+") ?; write_all ss ?; write_all RESP_CRLF
  | SimpleError se =>
      write_all (bs "-") ?; write_all se ?; write_all RESP_CRLF
  | Integer n =>
      let s := format_int n in
      write_all (bs ":") ?; write_all s ?; write_all RESP_CRLF
  | BulkString b =>
      if decide (b = bs "nil") then write_all RESP_NIL
      else
        let len_str := format_int (len b) in
        write_all (bs "$") ?; write_all len_str ?; write_all RESP_CRLF ?;
        write_all b ?; write_all RESP_CRLF
  | Array arr =>
      let len_str := format_int (len arr) in
      write_all (bs "*") ?; write_all len_str ?; write_all RESP_CRLF ?;
      (fix write_items (l : list RespType) : W -> outcome io_error unit * W :=
         match l with
         | [] => fun w => (Ok tt, w)
         | item :: l => write_to item ?; write_items l
         end) arr
  | Null => write_all (bs "_" ++ CRLF)
  | Boolean b => if b then write_all (bs "#t" ++ CRLF) else write_all (bs "#f" ++ CRLF)
  end.

(** The element loop of [write_to], as a definition of its own. *)
Fixpoint write_items (l : list RespType) : W -> outcome io_error unit * W :=
  match l with
  | [] => fun w => (Ok tt, w)
  | item :: l => write_to item ?; write_items l
  end.

Lemma write_to_Array arr :
  write_to (Array arr) =
    (write_all (bs "*") ?; write_all (format_int (len arr)) ?; write_all RESP_CRLF ?;
     write_items arr).
Proof. done. Qed.
End WriteTo.

(** ** Induction and decidable equality *)

Section RespInd.
Context (P : RespType -> Prop).
Hypothesis Hss : forall s, P (SimpleString s).
Hypothesis Hse : forall s, P (SimpleError s).
Hypothesis Hint : forall n, P (Integer n).
Hypothesis Hbs : forall s, P (BulkString s).
Hypothesis Harr : forall arr, Forall P arr -> P (Array arr).
Hypothesis Hnull : P Null.
Hypothesis Hbool : forall b, P (Boolean b).

Fixpoint RespType_rect_nested (r : RespType) : P r :=
  match r with
  | SimpleString s => Hss s
  | SimpleError s => Hse s
  | Integer n => Hint n
  | BulkString s => Hbs s
  | Array arr =>
      Harr arr ((fix go (l : list RespType) : Forall P l :=
                   match l with
                   | [] => Forall_nil_2 _
                   | x :: l => Forall_cons_2 _ _ _ (RespType_rect_nested x) (go l)
                   end) arr)
  | Null => Hnull
  | Boolean b => Hbool b
  end.
End RespInd.

#[global] Instance RespType_eq_dec : EqDecision RespType.
Proof.
  refine (fix go (x y : RespType) : Decision (x = y) :=
    match x, y with
    | SimpleString a, SimpleString b => cast_if (decide (a = b))
    | SimpleError a, SimpleError b => cast_if (decide (a = b))
    | Integer a, Integer b => cast_if (decide (a = b))
    | BulkString a, BulkString b => cast_if (decide (a = b))
    | Array a, Array b => cast_if (@list_eq_dec _ go a b)
    | Null, Null => left eq_refl
    | Boolean a, Boolean b => cast_if (decide (a = b))
    | _, _ => right _
    end); clear go; abstract congruence.
Defined.

(** ** The encoding of an array is its header followed by its elements *)

Lemma to_string_Array arr :
  to_string (Array arr) =
    bs "*" ++ format_int (len arr) ++ CRLF ++ concat (map to_string arr).
Proof.
  cbn [to_string]. rewrite !(assoc_L (++)).
  generalize ((bs "*" ++ format_int (len arr)) ++ CRLF) as acc.
  induction arr as [|a arr IH]; intros acc; simpl; [by rewrite (right_id_L [] (++))|].
  rewrite IH. by rewrite (assoc_L (++)).
Qed.

Lemma to_bytes_nonempty r : to_bytes r <> [].
Proof. unfold to_bytes. destruct r; [..|rewrite to_string_Array| |]; done. Qed.

(** ** Refinement of the textual encoding by the streaming one *)

Section Refinement.
Context {W : Type} `{AsyncWriteLaws W}.

(** [m] emits [b]: it writes [b] and succeeds, or fails having written a
    prefix of [b]. *)
Definition emits (m : W -> outcome io_error unit * W) (b : bytes) : Prop :=
  forall w,
    (exists w', m w = (Ok tt, w') /\ written w' = written w ++ b) \/
    (exists e w' p, m w = (Err e, w') /\ p `prefix_of` b /\ written w' = written w ++ p).

Lemma emits_write_all b : emits (write_all b) b.
Proof. intros w. apply write_all_cases. Qed.

Lemma emits_done : emits (fun w => (Ok tt, w)) [].
Proof. intros w. left. exists w. by rewrite (right_id_L [] (++)). Qed.

Lemma emits_and_then m k b c : emits m b -> emits k c -> emits (m ?; k) (b ++ c).
Proof.
  intros Hm Hk w. unfold and_then.
  destruct (Hm w) as [(w' & -> & Hw)|(e & w' & p & -> & Hp & Hw)].
  - destruct (Hk w') as [(w'' & -> & Hw')|(e & w'' & p & -> & Hp & Hw')].
    + left. exists w''. by rewrite Hw', Hw, (assoc_L (++)).
    + right. exists e, w'', (b ++ p). split_and!; [done|by apply prefix_app|].
      by rewrite Hw', Hw, (assoc_L (++)).
  - right. exists e, w', p. split_and!; [done|by apply prefix_app_r|done].
Qed.

#[local] Hint Resolve emits_write_all emits_done emits_and_then : emits.

Lemma emits_items arr :
  Forall (fun r => emits (write_to r) (to_bytes r)) arr ->
  emits (write_items arr) (concat (map to_string arr)).
Proof. induction 1; simpl; auto with emits. Qed.

Lemma write_to_emits r : emits (write_to r) (to_bytes r).
Proof.
  induction r as [s|s|n|s|arr IH| |b] using RespType_rect_nested;
    unfold to_bytes in *; cbn [write_to].
  - repeat case_decide; subst; try apply (emits_write_all RESP_OK);
      try apply (emits_write_all RESP_PONG); try apply (emits_write_all RESP_QUEUED);
      cbn [to_string]; auto with emits.
  - cbn [to_string]; auto with emits.
  - cbn [to_string]; auto with emits.
  - case_decide; subst; [apply (emits_write_all RESP_NIL)|].
    cbn [to_string]; auto with emits.
  - rewrite to_string_Array. fold (@write_items W _).
    repeat apply emits_and_then; auto with emits. by apply emits_items.
  - cbn [to_string]; auto with emits.
  - destruct b; apply emits_write_all.
Qed.
End Refinement.
