(* ===== verification/RespParser.v ===== *)
(** * The RESP parser (src/src/resp/parser.rs)

    [Parser::parse] and its helpers, byte for byte: the seven RESP types, the
    inline commands, the [Incomplete]/[Invalid] errors, and the panics the
    code can raise on a declared length near [usize::MAX].

    Positions inside a buffer ([len + 1], [i + 2], [bytes_consumed + len])
    never exceed the length of the buffer plus two and are plain sums; the
    sums with a declared length ([data_start + bulk_str_len],
    [data_end + 2]) are [usize] sums that panic or wrap by build profile.
    Allocation failure and stack exhaustion, which abort the process, are not
    modelled. *)
From S2P Require Import Prelude Ints Utf8 RespTypes.
Local Open Scope Z_scope.

Inductive ParseError : Type :=
| Incomplete
| Invalid (msg : bytes).

#[global] Instance ParseError_eq_dec : EqDecision ParseError.
Proof. solve_decision. Defined.

(** [impl Display for ParseError] *)
Definition ParseError_fmt (e : ParseError) : bytes :=
  match e with
  | Incomplete => bs "Incomplete data"
  | Invalid msg => msg
  end.

Notation parse_result := (outcome ParseError (RespType * Z)).

(** [std::mem::size_of::<RespType>()]: layout is the compiler's choice. *)
Class TargetLayout : Type := {
  size_of_RespType : Z;
  size_of_RespType_pos : 0 < size_of_RespType
}.

(** ** Slices and allocation *)

(** [&buf[a..b]] *)
Definition slice {E} (buf : bytes) (a b : Z) : outcome E bytes :=
  if (a <=? b) && (b <=? len buf)
  then Ok (take (Z.to_nat (b - a)) (drop (Z.to_nat a) buf))
  else Panic SliceOutOfRange.

(** [&buf[a..]] *)
Definition slice_from {E} (buf : bytes) (a : Z) : outcome E bytes :=
  slice buf a (len buf).

(** [Vec::with_capacity(n)] of a vector of [RespType]s. *)
Definition with_capacity {E} `{TargetLayout} (n : Z) : outcome E unit :=
  if n * size_of_RespType <=? isize_max then Ok tt else Panic CapacityOverflow.

(** ** Helpers *)

(** The first [i] with [buf[i] = '\r'] and [buf[i + 1] = '\n']. *)
Fixpoint find_crlf (buf : bytes) : option nat :=
  match buf with
  | b0 :: ((b1 :: _) as rest) =>
      if decide (b0 = CR /\ b1 = LF) then Some 0%nat
      else option_map S (find_crlf rest)
  | _ => None
  end.

Definition read_until_crlf (buf : bytes) : option (bytes * Z) :=
  match find_crlf buf with
  | Some i => Some (take i buf, Z.of_nat i + 2)
  | None => None
  end.

Definition parse_usize_from_buf (buf : bytes) : outcome ParseError Z :=
  let? s := ok_or (from_utf8 buf) (Invalid (bs "Invalid UTF-8 string.")) in
  ok_or (parse_usize s) (Invalid (bs "Invalid value for an integer.")).

Definition is_inline (buf : bytes) : outcome ParseError bool :=
  let? b := index buf 0 in
  Ok (negb (bool_decide (b ∈ bs "+-:$*_#"))).

Section Parser.
Context `{BuildProfile} `{TargetLayout}.

(** ** The parsers of the types *)

Definition parse_simple (buf : bytes) : parse_result :=
  let? rest := slice_from buf 1 in
  match read_until_crlf rest with
  | Some (data, n) =>
      let? s := ok_or (from_utf8 data)
                  (Invalid (bs "Simple string value is not a valid utf8 string.")) in
      Ok (SimpleString s, n + 1)
  | None => Err Incomplete
  end.

Definition parse_integer (buf : bytes) : parse_result :=
  let? rest := slice_from buf 1 in
  match read_until_crlf rest with
  | Some (data, n) =>
      let? s := ok_or (from_utf8 data) (Invalid (bs "Integer value is not valid.")) in
      let? int := ok_or (parse_i64 s) (Invalid (bs "Invalid integer value.")) in
      Ok (Integer int, n + 1)
  | None => Err Incomplete
  end.

Definition parse_bulk_string (buf : bytes) : parse_result :=
  let? rest := slice_from buf 1 in
  let? (bulk_str_len, bytes_consumed) :=
    match read_until_crlf rest with
    | Some (data, n) =>
        let? bulk_str_len := parse_usize_from_buf data in
        Ok (bulk_str_len, n + 1)
    | None => Err Incomplete
    end in
  let data_start := bytes_consumed in
  let? data_end := usize_add data_start bulk_str_len in
  let? data_end_2 := usize_add data_end 2 in
  if len buf <? data_end_2 then Err Incomplete
  else
    let? data := slice buf data_start data_end in
    let? data_end_2 := usize_add data_end 2 in
    let? tail := slice buf data_end data_end_2 in
    if negb (bool_decide (tail = CRLF)) then
      Err (Invalid (bs "Missing CRLF after bulk string"))
    else
      let? s := ok_or (from_utf8 data) (Invalid (bs "Invalid UTF-8")) in
      let? consumed := usize_add data_end 2 in
      Ok (BulkString s, consumed).

Definition parse_null (buf : bytes) : parse_result :=
  let? rest := slice_from buf 1 in
  match read_until_crlf rest with
  | Some (_, n) => Ok (Null, n + 1)
  | None => Err Incomplete
  end.

Definition invalid_boolean : bytes :=
  Eval compute in
    bs "Invalid value for boolean. Only " ++ [x22] ++ bs "t" ++ [x22] ++ bs " or "
    ++ [x22] ++ bs "f" ++ [x22] ++ bs " is accepted.".

Definition parse_bool (buf : bytes) : parse_result :=
  let? rest := slice_from buf 1 in
  match read_until_crlf rest with
  | Some (data, n) =>
      match data with
      | [d] =>
          if decide (d = x74) then Ok (Boolean true, n + 1)
          else if decide (d = x66) then Ok (Boolean false, n + 1)
          else Err (Invalid invalid_boolean)
      | _ => Err (Invalid invalid_boolean)
      end
  | None => Err Incomplete
  end.

Definition parse_inline (buf : bytes) : parse_result :=
  match read_until_crlf buf with
  | Some (data, n) =>
      let? line := ok_or (from_utf8 data) (Invalid (bs "Invalid inline command")) in
      let parts := map BulkString (split_whitespace line) in
      Ok (Array parts, n)
  | None => Err Incomplete
  end.

(** The element loop of [parse_array]: [n] elements are still to be read,
    [consumed] bytes have been, [arr] holds the elements read. [parse] is the
    parser of one element. An element takes at least one byte, so more turns
    than bytes never happen and the fuel is the length of the buffer plus
    one. *)
Fixpoint parse_elements (parse : bytes -> parse_result) (fuel : nat)
    (n : Z) (buf : bytes) (consumed : Z) (arr : list RespType) :
    outcome ParseError (list RespType * Z) :=
  if n <=? 0 then Ok (arr, consumed)
  else
    match fuel with
    | O => Diverge
    | S fuel =>
        let? rest := slice_from buf consumed in
        let? (resptype_el, l) := parse rest in
        parse_elements parse fuel (n - 1) buf (consumed + l) (arr ++ [resptype_el])
    end.

Definition parse_array (parse : bytes -> parse_result) (buf : bytes) : parse_result :=
  let? rest := slice_from buf 1 in
  let? (arr_len, bytes_consumed) :=
    match read_until_crlf rest with
    | Some (data, n) =>
        let? arr_len := parse_usize_from_buf data in
        Ok (arr_len, n + 1)
    | None => Err Incomplete
    end in
  let? _ := with_capacity arr_len in
  let? (arr, consumed) :=
    parse_elements parse (S (length buf)) arr_len buf bytes_consumed [] in
  Ok (Array arr, consumed).

Definition invalid_type (b : byte) : ParseError :=
  Invalid (bs "Invalid RESP type: " ++ (if bz b <? 128 then [b] else
     [byte_of_Z (192 + bz b / 64); byte_of_Z (128 + bz b mod 64)])).

(** [Parser::parse], with the recursive call of [parse_array] as an argument. *)
Definition parse_body (parse : bytes -> parse_result) (buf : bytes) : parse_result :=
  if bool_decide (buf = []) then Err Incomplete
  else
    let? inline := is_inline buf in
    if (inline : bool) then parse_inline buf
    else
      let? b0 := index buf 0 in
      if decide (b0 = x2b) then parse_simple buf            (* '+' *)
      else if decide (b0 = x2d) then parse_simple buf       (* '-' *)
      else if decide (b0 = x3a) then parse_integer buf      (* ':' *)
      else if decide (b0 = x24) then parse_bulk_string buf  (* '$' *)
      else if decide (b0 = x2a) then parse_array parse buf  (* '*' *)
      else if decide (b0 = x5f) then parse_null buf         (* '_' *)
      else if decide (b0 = x23) then parse_bool buf         (* '#' *)
      else Err (invalid_type b0).

Fixpoint parse_fuel (fuel : nat) (buf : bytes) : parse_result :=
  match fuel with
  | O => Diverge
  | S fuel => parse_body (parse_fuel fuel) buf
  end.

(** [Parser::parse]. An element of an array is parsed on a strictly shorter
    buffer, so the length of the buffer plus one is enough fuel. *)
Definition parse (buf : bytes) : parse_result := parse_fuel (S (length buf)) buf.
End Parser.
