(* ===== verification/RespParserFacts.v ===== *)
(** * Correctness of the RESP parser

    The parser is total and consumes between one byte and the whole buffer;
    its values are well formed; what it decides on a buffer it decides on
    every extension of it, so that how TCP cuts the stream does not matter;
    it inverts the encoder; and it panics only on a declared length no
    buffer can have. *)
From S2P Require Import Prelude Ints Utf8 RespTypes RespParser.
Local Open Scope Z_scope.

(** ** Finding the end of a line *)

Lemma find_crlf_cons2 b0 b1 rest :
  find_crlf (b0 :: b1 :: rest) =
    if decide (b0 = CR /\ b1 = LF) then Some 0%nat
    else option_map S (find_crlf (b1 :: rest)).
Proof. done. Qed.

Lemma find_crlf_Some buf i :
  find_crlf buf = Some i ->
  buf = take i buf ++ CRLF ++ drop (i + 2) buf /\ (i + 2 <= length buf)%nat.
Proof.
  revert i. induction buf as [|b0 buf IH]; intros i; [done|].
  destruct buf as [|b1 rest]; [done|]. rewrite find_crlf_cons2.
  case_decide as Hd; [intros [= <-]; destruct Hd as [-> ->]; simpl; split; [done|lia]|].
  destruct (find_crlf (b1 :: rest)) as [j|] eqn:E; [|done].
  intros [= <-]. destruct (IH j eq_refl) as [Hb Hl]. simpl in *.
  split; [by rewrite <- Hb|lia].
Qed.

Lemma find_crlf_app buf ext i :
  find_crlf buf = Some i -> find_crlf (buf ++ ext) = Some i.
Proof.
  revert i. induction buf as [|b0 buf IH]; intros i; [done|].
  destruct buf as [|b1 rest]; [done|]. cbn [app]. rewrite !find_crlf_cons2.
  case_decide; [done|]. cbn [app] in IH.
  destruct (find_crlf (b1 :: rest)) as [j|] eqn:E; [|done].
  by rewrite (IH j eq_refl).
Qed.

(** A text without a CRLF of its own, followed by a CRLF, ends there; a
    trailing CR of the text is not mistaken for the terminator. *)
Lemma find_crlf_line s rest :
  find_crlf s = None -> find_crlf (s ++ CRLF ++ rest) = Some (length s).
Proof.
  induction s as [|b0 s IH]; intros Hs; [done|].
  destruct s as [|b1 s].
  - cbn. case_decide as Hd; [by destruct Hd|done].
  - cbn [app] in *. rewrite find_crlf_cons2 in *. case_decide; [done|].
    destruct (find_crlf (b1 :: s)) eqn:E; [done|]. cbn [app] in IH.
    rewrite IH by done. done.
Qed.

Lemma find_crlf_no_cr s : CR ∉ s -> find_crlf s = None.
Proof.
  induction s as [|b0 s IH]; [done|]. intros [Hb Hs]%not_elem_of_cons.
  destruct s as [|b1 s]; [done|]. rewrite find_crlf_cons2.
  case_decide as Hd; [destruct Hd; congruence|]. by rewrite IH.
Qed.

Lemma format_int_no_crlf n : find_crlf (format_int n) = None.
Proof.
  apply find_crlf_no_cr.
  assert (Hd : forall m, CR ∉ format_digits 20 m []).
  { intros m Hin. pose proof (format_digits_Forall 20 m [] (Forall_nil_2 _)) as HF.
    rewrite Forall_forall in HF. specialize (HF _ Hin).
    unfold is_digit in HF. change (bz CR) with 13 in HF. lia. }
  unfold format_int. destruct (n <? 0); [|done].
  rewrite not_elem_of_cons. done.
Qed.

Lemma read_until_crlf_Some buf data n :
  read_until_crlf buf = Some (data, n) ->
  exists rest, buf = data ++ CRLF ++ rest /\ n = len data + 2.
Proof.
  unfold read_until_crlf. destruct (find_crlf buf) as [i|] eqn:E; [|done].
  intros [= <- <-]. apply find_crlf_Some in E as [Hb Hl].
  eexists. split; [exact Hb|]. unfold len. rewrite length_take. lia.
Qed.

Lemma read_until_crlf_bound buf data n :
  read_until_crlf buf = Some (data, n) -> 2 <= n <= len buf.
Proof. intros (rest & -> & ->)%read_until_crlf_Some. unfold CRLF. len_lia. Qed.

Lemma read_until_crlf_app buf ext data n :
  read_until_crlf buf = Some (data, n) -> read_until_crlf (buf ++ ext) = Some (data, n).
Proof.
  unfold read_until_crlf. destruct (find_crlf buf) as [i|] eqn:E; [|done].
  rewrite (find_crlf_app _ _ _ E). intros [= <- <-].
  apply find_crlf_Some in E as [_ Hl]. rewrite take_app_le by lia. done.
Qed.

Lemma read_until_crlf_line s rest :
  find_crlf s = None -> read_until_crlf (s ++ CRLF ++ rest) = Some (s, len s + 2).
Proof.
  intros Hs. unfold read_until_crlf. rewrite find_crlf_line by done.
  by rewrite take_app_length.
Qed.

(** ** Slices *)

Lemma slice_ok {E} buf a b :
  0 <= a <= b -> b <= len buf ->
  @slice E buf a b = Ok (take (Z.to_nat (b - a)) (drop (Z.to_nat a) buf)).
Proof. intros [??] ?. unfold slice. rewrite !(proj2 (Z.leb_le _ _)) by lia. done. Qed.

Lemma slice_panics {E} buf a b :
  b < a \/ len buf < b -> @slice E buf a b = Panic SliceOutOfRange.
Proof.
  intros Hab. unfold slice. destruct (_ && _) eqn:E1; [|done].
  apply andb_prop in E1 as [?%Z.leb_le ?%Z.leb_le]. lia.
Qed.

Lemma slice_app {E} buf ext a b :
  0 <= a -> b <= len buf -> @slice E (buf ++ ext) a b = slice buf a b.
Proof.
  intros Ha Hb. destruct (decide (a <= b)).
  - rewrite !slice_ok by (try done; len_lia).
    rewrite drop_app_le by (unfold len in *; lia). rewrite take_app_le; [done|].
    rewrite length_drop. unfold len in *. lia.
  - by rewrite !slice_panics by lia.
Qed.

Lemma slice_from_ok {E} buf a :
  0 <= a <= len buf -> @slice_from E buf a = Ok (drop (Z.to_nat a) buf).
Proof.
  intros Ha. unfold slice_from. rewrite slice_ok by lia. f_equal.
  apply take_ge. rewrite length_drop. unfold len in *. lia.
Qed.

Lemma slice_from_cons {E} b t : @slice_from E (b :: t) 1 = Ok t.
Proof. rewrite slice_from_ok; [done|len_lia]. Qed.

(** ** The shape of each parser on a non-empty buffer *)

(** A one-line value: the text up to the CRLF, interpreted by [value]. *)
Definition on_line (value : bytes -> outcome ParseError RespType) (t : bytes) : parse_result :=
  match read_until_crlf t with
  | Some (data, n) => let? r := value data in Ok (r, n + 1)
  | None => Err Incomplete
  end.

Definition simple_value (data : bytes) : outcome ParseError RespType :=
  let? s := ok_or (from_utf8 data)
              (Invalid (bs "Simple string value is not a valid utf8 string.")) in
  Ok (SimpleString s).

Definition integer_value (data : bytes) : outcome ParseError RespType :=
  let? s := ok_or (from_utf8 data) (Invalid (bs "Integer value is not valid.")) in
  let? int := ok_or (parse_i64 s) (Invalid (bs "Invalid integer value.")) in
  Ok (Integer int).

Definition bool_value (data : bytes) : outcome ParseError RespType :=
  if decide (data = [x74]) then Ok (Boolean true)
  else if decide (data = [x66]) then Ok (Boolean false)
  else Err (Invalid invalid_boolean).

(** The declared length that opens a bulk string or an array, with the bytes
    of its line and the type byte. *)
Definition header (t : bytes) : outcome ParseError (Z * Z) :=
  match read_until_crlf t with
  | Some (data, n) => let? k := parse_usize_from_buf data in Ok (k, n + 1)
  | None => Err Incomplete
  end.

Lemma parse_simple_cons b t : parse_simple (b :: t) = on_line simple_value t.
Proof.
  unfold parse_simple, on_line, simple_value. rewrite slice_from_cons. simpl.
  destruct (read_until_crlf t) as [[data n]|]; [|done]. by rewrite obind_assoc.
Qed.

Lemma parse_integer_cons b t : parse_integer (b :: t) = on_line integer_value t.
Proof.
  unfold parse_integer, on_line, integer_value. rewrite slice_from_cons. simpl.
  destruct (read_until_crlf t) as [[data n]|]; [|done].
  rewrite obind_assoc. destruct (from_utf8 data); [|done]. simpl.
  by rewrite obind_assoc.
Qed.

Lemma parse_null_cons b t : parse_null (b :: t) = on_line (fun _ => Ok Null) t.
Proof.
  unfold parse_null, on_line. rewrite slice_from_cons. simpl.
  by destruct (read_until_crlf t) as [[data n]|].
Qed.

Lemma parse_bool_cons b t : parse_bool (b :: t) = on_line bool_value t.
Proof.
  unfold parse_bool, on_line, bool_value. rewrite slice_from_cons. simpl.
  destruct (read_until_crlf t) as [[[|d [|d' data]] n]|]; [done| | |done];
    repeat case_decide; simplify_eq; done.
Qed.

(** The seven type bytes, or an inline command. *)
Definition type_bytes : bytes := Eval compute in bs "+-:$*_#".

Lemma first_byte_cases b :
  b = x2b \/ b = x2d \/ b = x3a \/ b = x24 \/ b = x2a \/ b = x5f \/ b = x23 \/ b ∉ type_bytes.
Proof. unfold type_bytes. rewrite !not_elem_of_cons. destruct (decide (b ∈ type_bytes)) as [Hin|Hn].
  - unfold type_bytes in Hin. rewrite !elem_of_cons, elem_of_nil in Hin. tauto.
  - unfold type_bytes in Hn. rewrite !not_elem_of_cons in Hn. tauto.
Qed.

Section Body.
Context `{BuildProfile} `{TargetLayout}.
Implicit Types rec : bytes -> parse_result.

Lemma parse_body_inline rec b t :
  b ∉ type_bytes -> parse_body rec (b :: t) = parse_inline (b :: t).
Proof.
  intros Hb. unfold parse_body, is_inline. simpl.
  change (bs "+-:$*_#") with type_bytes. by rewrite bool_decide_eq_false_2.
Qed.

(** The parser of each type byte. *)
Lemma parse_body_plus rec t : parse_body rec (x2b :: t) = on_line simple_value t.
Proof. exact (parse_simple_cons x2b t). Qed.
Lemma parse_body_minus rec t : parse_body rec (x2d :: t) = on_line simple_value t.
Proof. exact (parse_simple_cons x2d t). Qed.
Lemma parse_body_colon rec t : parse_body rec (x3a :: t) = on_line integer_value t.
Proof. exact (parse_integer_cons x3a t). Qed.
Lemma parse_body_dollar rec t : parse_body rec (x24 :: t) = parse_bulk_string (x24 :: t).
Proof. done. Qed.
Lemma parse_body_star rec t : parse_body rec (x2a :: t) = parse_array rec (x2a :: t).
Proof. done. Qed.
Lemma parse_body_underscore rec t : parse_body rec (x5f :: t) = on_line (fun _ => Ok Null) t.
Proof. exact (parse_null_cons x5f t). Qed.
Lemma parse_body_hash rec t : parse_body rec (x23 :: t) = on_line bool_value t.
Proof. exact (parse_bool_cons x23 t). Qed.

Hint Rewrite parse_body_plus parse_body_minus parse_body_colon parse_body_dollar
  parse_body_star parse_body_underscore parse_body_hash : parse_body.

(** Case analysis on the type byte, each case reduced to its parser. *)
Lemma parse_body_cases (P : byte -> (bytes -> parse_result) -> bytes -> parse_result -> Prop) :
  (forall rec b t, b ∉ type_bytes -> P b rec t (parse_inline (b :: t))) ->
  (forall rec b t, b = x2b \/ b = x2d -> P b rec t (on_line simple_value t)) ->
  (forall rec t, P x3a rec t (on_line integer_value t)) ->
  (forall rec t, P x24 rec t (parse_bulk_string (x24 :: t))) ->
  (forall rec t, P x2a rec t (parse_array rec (x2a :: t))) ->
  (forall rec t, P x5f rec t (on_line (fun _ => Ok Null) t)) ->
  (forall rec t, P x23 rec t (on_line bool_value t)) ->
  forall rec b t, P b rec t (parse_body rec (b :: t)).
Proof.
  intros. destruct (first_byte_cases b) as [->|[->|[->|[->|[->|[->|[->|Hb]]]]]]];
    autorewrite with parse_body; rewrite ?parse_body_inline by done; auto.
Qed.

(** The last arm of [Parser::parse], an invalid type byte, is never reached:
    every byte that is not a type byte opens an inline command. *)

(** ** Bounds *)

Definition bounded rec : Prop :=
  forall buf r n, rec buf = Ok (r, n) -> 1 <= n <= len buf.

Lemma on_line_Ok value t r n :
  on_line value t = Ok (r, n) ->
  exists data rest, t = data ++ CRLF ++ rest /\ value data = Ok r /\ n = len data + 3.
Proof.
  unfold on_line. destruct (read_until_crlf t) as [[data m]|] eqn:E; [|done].
  intros Hn. inv_ok. apply read_until_crlf_Some in E as (rest & -> & ->).
  exists data, rest. split_and!; [done|done|lia].
Qed.

Lemma on_line_bounded value b t r n :
  on_line value t = Ok (r, n) -> 1 <= n <= len (b :: t).
Proof.
  intros (data & rest & -> & _ & ->)%on_line_Ok. unfold CRLF.
  autorewrite with len. pose proof (len_nonneg data). pose proof (len_nonneg rest). lia.
Qed.

Lemma header_bound t k n : header t = Ok (k, n) -> 3 <= n <= len t + 1.
Proof.
  unfold header. destruct (read_until_crlf t) as [[data m]|] eqn:E; [|done].
  intros Hn. inv_ok. apply read_until_crlf_bound in E. lia.
Qed.

Lemma parse_usize_from_buf_range data k : parse_usize_from_buf data = Ok k -> is_usize k.
Proof.
  unfold parse_usize_from_buf. intros Hk. inv_ok.
  by eapply parse_int_range_range.
Qed.

Lemma header_range t k n : header t = Ok (k, n) -> is_usize k.
Proof.
  unfold header. destruct (read_until_crlf t) as [[data m]|] eqn:E; [|done].
  intros Hn. inv_ok. by eapply parse_usize_from_buf_range.
Qed.

(** ** Bulk strings *)

(** What follows the header of a bulk string. *)
Definition bulk_tail (buf : bytes) (bulk_str_len data_start : Z) : parse_result :=
  let? data_end := usize_add data_start bulk_str_len in
  let? data_end_2 := usize_add data_end 2 in
  if len buf <? data_end_2 then Err Incomplete
  else
    let? data := slice buf data_start data_end in
    let? tail := slice buf data_end data_end_2 in
    if negb (bool_decide (tail = CRLF)) then
      Err (Invalid (bs "Missing CRLF after bulk string"))
    else
      let? s := ok_or (from_utf8 data) (Invalid (bs "Invalid UTF-8")) in
      Ok (BulkString s, data_end_2).

Lemma parse_bulk_string_cons b t :
  parse_bulk_string (b :: t) = let? (k, ds) := header t in bulk_tail (b :: t) k ds.
Proof.
  unfold parse_bulk_string, bulk_tail, header. rewrite slice_from_cons. simpl.
  destruct (read_until_crlf t) as [[data m]|]; [|done].
  destruct (parse_usize_from_buf data) as [k| | |]; [|done..]. simpl.
  destruct (usize_add (m + 1) k) as [de| | |]; [|done..]. simpl.
  destruct (usize_add de 2) as [de2| | |] eqn:E2; [|done..]. simpl.
  destruct (len (b :: t) <? de2); [done|].
  destruct (slice (b :: t) (m + 1) de); [|done..]. simpl.
  destruct (slice (b :: t) de de2); [|done..]. simpl.
  case_bool_decide; [|done]. simpl. destruct (ok_or _ _); [|done..]. done.
Qed.

(** A bulk string that is parsed has the declared length, lies inside the
    buffer and ends in CRLF, whatever the profile: a wrapped position never
    gets past the slices. *)
Lemma bulk_tail_Ok buf k ds r n :
  is_usize k -> 0 <= ds ->
  bulk_tail buf k ds = Ok (r, n) ->
  exists s, r = BulkString s /\ n = ds + k + 2 /\ n <= len buf /\
    s = take (Z.to_nat k) (drop (Z.to_nat ds) buf) /\ utf8_valid s = true /\
    take 2 (drop (Z.to_nat (ds + k)) buf) = CRLF.
Proof.
  intros Hk Hds Ht. unfold bulk_tail in Ht.
  apply obind_Ok in Ht as (de & Hde & Ht). apply obind_Ok in Ht as (de2 & Hde2 & Ht).
  destruct (len buf <? de2) eqn:Hl; [done|]. apply Z.ltb_ge in Hl.
  apply obind_Ok in Ht as (data & Hdata & Ht). apply obind_Ok in Ht as (tail & Htail & Ht).
  destruct (bool_decide (tail = CRLF)) eqn:Htl; [|done].
  apply bool_decide_eq_true in Htl. simpl in Ht. inv_ok.
  unfold from_utf8 in *. case_match eqn:Hv; [|done]. simplify_eq.
  unfold is_usize in Hk.
  apply usize_add_inv in Hde as [Hr1 Hde]; [|lia..].
  apply usize_add_inv in Hde2 as [Hr2 Hde2]; [|unfold is_usize in *; lia..].
  assert (He2 : n = de + 2).
  { destruct Hde2 as [|(_ & -> & Hov)]; [done|].
    rewrite slice_panics in Htail; [done|left].
    unfold is_usize, usize_max, u64_max in *.
    replace (de + 2) with (de + 2 - 2 ^ 64 + 1 * 2 ^ 64) by lia.
    rewrite Z.mod_add by lia. rewrite Z.mod_small; lia. }
  assert (He1 : de = ds + k).
  { destruct Hde as [|(_ & -> & Hov)]; [done|].
    rewrite slice_panics in Hdata; [done|left].
    unfold is_usize, usize_max, u64_max in *.
    pose proof (Z.mod_pos_bound (ds + k) (2 ^ 64) ltac:(lia)).
    pose proof (Z.div_mod (ds + k) (2 ^ 64) ltac:(lia)).
    assert (1 <= (ds + k) / 2 ^ 64) by (apply Z.div_le_lower_bound; lia). lia. }
  subst. rewrite slice_ok in Hdata by lia. rewrite slice_ok in Htail by lia.
  simplify_eq. eexists. split_and!; [done|done|done| |done|].
  - f_equal. lia.
  - replace (ds + k + 2 - (ds + k)) with 2 in * by lia. done.
Qed.

Lemma bulk_tail_app buf ext k ds :
  is_usize k -> 0 <= ds -> len (buf ++ ext) <= isize_max ->
  bulk_tail buf k ds <> Err Incomplete ->
  bulk_tail (buf ++ ext) k ds = bulk_tail buf k ds.
Proof.
  intros Hk Hds Hlen Hni. unfold is_usize, isize_max in *.
  assert (Hge : len buf <= len (buf ++ ext)) by len_lia.
  unfold bulk_tail in *.
  destruct (usize_add ds k) as [de| | |] eqn:E1; [|done..]. simpl in *.
  destruct (usize_add de 2) as [de2| | |] eqn:E2; [|done..]. simpl in *.
  destruct (Z.ltb_spec (len buf) de2); [done|].
  apply usize_add_inv in E1 as [Hr1 E1]; [|lia..].
  apply usize_add_inv in E2 as [Hr2 E2]; [|unfold is_usize in *; lia..].
  unfold is_usize, usize_max, u64_max in *.
  rewrite (proj2 (Z.ltb_ge _ _)) by lia.
  assert (Hs : @slice ParseError (buf ++ ext) ds de = slice buf ds de).
  { destruct (decide (de <= len buf)); [by apply slice_app|].
    by rewrite !slice_panics by lia. }
  rewrite Hs. rewrite slice_app by lia. done.
Qed.

Lemma header_app t ext : header t <> Err Incomplete -> header (t ++ ext) = header t.
Proof.
  unfold header. destruct (read_until_crlf t) as [[data m]|] eqn:E; [|done].
  by rewrite (read_until_crlf_app _ _ _ _ E).
Qed.

Lemma on_line_app value t ext :
  on_line value t <> Err Incomplete -> on_line value (t ++ ext) = on_line value t.
Proof.
  unfold on_line. destruct (read_until_crlf t) as [[data m]|] eqn:E; [|done].
  by rewrite (read_until_crlf_app _ _ _ _ E).
Qed.

Lemma parse_inline_app buf ext :
  parse_inline buf <> Err Incomplete -> parse_inline (buf ++ ext) = parse_inline buf.
Proof.
  unfold parse_inline. destruct (read_until_crlf buf) as [[data m]|] eqn:E; [|done].
  by rewrite (read_until_crlf_app _ _ _ _ E).
Qed.

(** ** Arrays *)

Definition array_tail rec (buf : bytes) (arr_len bytes_consumed : Z) : parse_result :=
  let? _ := with_capacity arr_len in
  let? (arr, consumed) := parse_elements rec (S (length buf)) arr_len buf bytes_consumed [] in
  Ok (Array arr, consumed).

Lemma parse_array_cons rec b t :
  parse_array rec (b :: t) = let? (k, c) := header t in array_tail rec (b :: t) k c.
Proof.
  unfold parse_array, array_tail, header. rewrite slice_from_cons. simpl.
  destruct (read_until_crlf t) as [[data m]|]; [|done].
  destruct (parse_usize_from_buf data); done.
Qed.

Lemma parse_elements_unfold rec fuel n buf c arr :
  parse_elements rec fuel n buf c arr =
    if n <=? 0 then Ok (arr, c)
    else match fuel with
         | O => Diverge
         | S fuel =>
             let? rest := slice_from buf c in
             let? (el, l) := rec rest in
             parse_elements rec fuel (n - 1) buf (c + l) (arr ++ [el])
         end.
Proof. by destruct fuel. Qed.

Lemma parse_elements_bound rec fuel n buf c arr arr' c' :
  bounded rec -> 0 <= c <= len buf ->
  parse_elements rec fuel n buf c arr = Ok (arr', c') -> c <= c' <= len buf.
Proof.
  intros Hrec. revert n c arr. induction fuel as [|fuel IH]; intros n c arr Hc;
    rewrite parse_elements_unfold; destruct (n <=? 0); intros He; inv_ok; [lia|lia|].
  rewrite slice_from_ok in * by lia. simplify_eq.
  destruct (rec _) as [[el l]| | |] eqn:Er; simplify_eq/=.
  pose proof (Hrec _ _ _ Er) as Hl. rewrite len_drop in Hl.
  apply IH in He; lia.
Qed.

Lemma parse_body_bounded rec : bounded rec -> bounded (parse_body rec).
Proof.
  intros Hrec [|b t] r n; [done|]. revert Hrec r n.
  apply (parse_body_cases (fun b rec t res =>
    bounded rec -> forall r n, res = Ok (r, n) -> 1 <= n <= len (b :: t)));
    clear rec b t; eauto using on_line_bounded.
  - intros rec b t _ _ r n. unfold parse_inline.
    destruct (read_until_crlf _) as [[data m]|] eqn:E; [|done].
    apply read_until_crlf_bound in E. intros Hr. inv_ok. lia.
  - intros rec t _ r n. rewrite parse_bulk_string_cons. intros Hr.
    apply obind_Ok in Hr as ([k ds] & Hh & Hr).
    pose proof (header_bound _ _ _ Hh). pose proof (header_range _ _ _ Hh).
    apply bulk_tail_Ok in Hr as (s & _ & -> & Hl & _); [|done|lia].
    unfold is_usize in *. lia.
  - intros rec t Hrec r n. rewrite parse_array_cons. intros Hr.
    apply obind_Ok in Hr as ([k c] & Hh & Hr). pose proof (header_bound _ _ _ Hh).
    unfold array_tail in Hr.
    apply obind_Ok in Hr as (? & _ & Hr). apply obind_Ok in Hr as ([arr c'] & He & Hr).
    simplify_eq. eapply parse_elements_bound in He; [|done|rewrite len_cons; lia]. lia.
Qed.

Lemma parse_fuel_bounded fuel : bounded (parse_fuel fuel).
Proof. induction fuel as [|fuel IH]; [done|]. by apply parse_body_bounded. Qed.

(** *** Fuel *)

(** The elements of an array are parsed on shorter buffers only. *)
Lemma parse_elements_ext rec1 rec2 fuel n buf c arr :
  bounded rec1 -> 1 <= c <= len buf ->
  (forall b, (length b < length buf)%nat -> rec1 b = rec2 b) ->
  parse_elements rec1 fuel n buf c arr = parse_elements rec2 fuel n buf c arr.
Proof.
  intros Hb Hc Heq. revert n c arr Hc.
  induction fuel as [|fuel IH]; intros n c arr Hc; [done|].
  rewrite !parse_elements_unfold. destruct (n <=? 0); [done|].
  rewrite slice_from_ok by lia. simpl.
  rewrite <- Heq by (rewrite length_drop; unfold len in *; lia).
  destruct (rec1 _) as [[el l]| | |] eqn:Er; [|done..]. simpl.
  apply Hb in Er. rewrite len_drop in Er. apply IH. lia.
Qed.

Lemma parse_body_ext rec1 rec2 buf :
  bounded rec1 ->
  (forall b, (length b < length buf)%nat -> rec1 b = rec2 b) ->
  parse_body rec1 buf = parse_body rec2 buf.
Proof.
  intros Hb Heq. destruct buf as [|b t]; [done|].
  destruct (first_byte_cases b) as [->|[->|[->|[->|[->|[->|[->|Hb']]]]]]]; [done..| |done|done|].
  - change (parse_array rec1 (x2a :: t) = parse_array rec2 (x2a :: t)).
    rewrite !parse_array_cons. destruct (header t) as [[k c]| | |] eqn:Hh; [|done..]. simpl.
    apply header_bound in Hh. unfold array_tail.
    rewrite (parse_elements_ext rec1 rec2); [done|done|rewrite len_cons; lia|done].
  - by rewrite !parse_body_inline.
Qed.

Lemma parse_fuel_irrel f1 f2 buf :
  (length buf < f1)%nat -> (length buf < f2)%nat -> parse_fuel f1 buf = parse_fuel f2 buf.
Proof.
  revert f2 buf. induction f1 as [|f1 IH]; intros f2 buf H1 H2; [lia|].
  destruct f2 as [|f2]; [lia|]. cbn [parse_fuel].
  apply parse_body_ext; [apply parse_fuel_bounded|]. intros. apply IH; lia.
Qed.

(** [parse] satisfies the recursive equation of the source. *)
Lemma parse_unfold buf : parse buf = parse_body parse buf.
Proof.
  unfold parse at 1. cbn [parse_fuel]. apply parse_body_ext; [apply parse_fuel_bounded|].
  intros b Hb. apply parse_fuel_irrel; lia.
Qed.

Lemma parse_bounded : bounded parse.
Proof. intros buf r n. apply parse_fuel_bounded. Qed.

Lemma parse_elements_no_diverge rec fuel n buf c arr :
  bounded rec -> 1 <= c <= len buf -> len buf - c < Z.of_nat fuel ->
  (forall b, (length b < length buf)%nat -> rec b <> Diverge) ->
  parse_elements rec fuel n buf c arr <> Diverge.
Proof.
  intros Hb Hc Hf Hd. revert n c arr Hc Hf.
  induction fuel as [|fuel IH]; intros n c arr Hc Hf; [lia|].
  rewrite parse_elements_unfold. destruct (n <=? 0); [done|].
  rewrite slice_from_ok by lia. simpl.
  assert (Hlt : (length (drop (Z.to_nat c) buf) < length buf)%nat)
    by (rewrite length_drop; unfold len in *; lia).
  specialize (Hd _ Hlt).
  destruct (rec _) as [[el l]| | |] eqn:Er; [|done..]. simpl.
  apply Hb in Er. rewrite len_drop in Er. apply IH; lia.
Qed.

Lemma on_line_no_diverge value t :
  (forall d, value d <> Diverge) -> on_line value t <> Diverge.
Proof.
  intros Hv. unfold on_line. destruct (read_until_crlf t) as [[data m]|]; [|done].
  specialize (Hv data). by destruct (value data).
Qed.

Lemma obind_no_diverge {E A B} (m : outcome E A) (f : A -> outcome E B) :
  m <> Diverge -> (forall a, f a <> Diverge) -> obind m f <> Diverge.
Proof. destruct m; simpl; auto. Qed.

Lemma ok_or_no_diverge {E A} (o : option A) (e : E) : ok_or o e <> Diverge.
Proof. by destruct o. Qed.

Lemma slice_no_diverge {E} buf a b : @slice E buf a b <> Diverge.
Proof. unfold slice. by case_match. Qed.

Lemma usize_add_no_diverge {E} a b : @usize_add _ E a b <> Diverge.
Proof. unfold usize_add, arith_result. by repeat case_match. Qed.

Lemma with_capacity_no_diverge {E} n : @with_capacity E _ n <> Diverge.
Proof. unfold with_capacity. by case_match. Qed.

#[local] Hint Resolve obind_no_diverge ok_or_no_diverge slice_no_diverge
  usize_add_no_diverge with_capacity_no_diverge on_line_no_diverge : nodiverge.
#[local] Hint Extern 1 (_ <> Diverge) => discriminate : nodiverge.

Lemma header_no_diverge t : header t <> Diverge.
Proof.
  unfold header, parse_usize_from_buf. case_match; [case_match|]; auto 6 with nodiverge.
Qed.

Lemma bulk_tail_no_diverge buf k ds : bulk_tail buf k ds <> Diverge.
Proof.
  unfold bulk_tail. repeat first [apply obind_no_diverge; [by auto with nodiverge|intros]|case_match];
    auto with nodiverge.
Qed.

Lemma parse_body_no_diverge rec b t :
  bounded rec -> (forall b', (length b' < length (b :: t))%nat -> rec b' <> Diverge) ->
  parse_body rec (b :: t) <> Diverge.
Proof.
  apply (parse_body_cases (fun b rec t res => bounded rec ->
    (forall b', (length b' < length (b :: t))%nat -> rec b' <> Diverge) -> res <> Diverge));
    clear rec b t.
  - intros rec b t _ _ _. unfold parse_inline. case_match; [case_match|]; auto with nodiverge.
  - intros rec b t _ _ _. apply on_line_no_diverge. unfold simple_value. auto with nodiverge.
  - intros rec t _ _. apply on_line_no_diverge. unfold integer_value. auto 6 with nodiverge.
  - intros rec t _ _. rewrite parse_bulk_string_cons.
    apply obind_no_diverge; [apply header_no_diverge|]. intros []. apply bulk_tail_no_diverge.
  - intros rec t Hb IH. rewrite parse_array_cons.
    destruct (header t) as [[k c]| | |] eqn:Hh; simpl; [|done|done|by apply header_no_diverge in Hh].
    apply header_bound in Hh. unfold array_tail.
    apply obind_no_diverge; [auto with nodiverge|intros _].
    apply obind_no_diverge; [|by intros []].
    apply parse_elements_no_diverge; [done|rewrite len_cons; lia|unfold len; lia|done].
  - auto with nodiverge.
  - intros rec t _ _. apply on_line_no_diverge. intros d. unfold bool_value.
    by repeat case_decide.
Qed.

(** Induction on the length of the buffer. *)
Lemma shorter_ind (P : bytes -> Prop) :
  (forall buf, (forall b, (length b < length buf)%nat -> P b) -> P buf) -> forall buf, P buf.
Proof.
  intros Hstep buf. remember (length buf) as L eqn:HL. revert buf HL.
  induction (lt_wf L) as [L _ IH]. intros buf ->. apply Hstep. intros b Hb. by eapply IH.
Qed.

Lemma parse_no_diverge buf : parse buf <> Diverge.
Proof.
  induction buf as [buf IH] using shorter_ind. rewrite parse_unfold.
  destruct buf as [|b t]; [done|]. by apply parse_body_no_diverge; [apply parse_bounded|].
Qed.

(** ** Stability under extension of the buffer *)

Lemma parse_elements_app rec fuel fuel' n buf ext c arr :
  bounded rec -> 1 <= c <= len buf -> (fuel <= fuel')%nat ->
  (forall b, (length b < length buf)%nat -> rec b <> Err Incomplete -> rec b <> Diverge ->
     rec (b ++ ext) = rec b) ->
  parse_elements rec fuel n buf c arr <> Err Incomplete ->
  parse_elements rec fuel n buf c arr <> Diverge ->
  parse_elements rec fuel' n (buf ++ ext) c arr = parse_elements rec fuel n buf c arr.
Proof.
  intros Hb Hc Hf Hst. revert fuel' n c arr Hc Hf.
  induction fuel as [|fuel IH]; intros fuel' n c arr Hc Hf Hi Hd.
  - rewrite parse_elements_unfold in Hd |- *. rewrite (parse_elements_unfold _ 0).
    by destruct (n <=? 0).
  - destruct fuel' as [|fuel']; [lia|]. rewrite parse_elements_unfold in Hi, Hd.
    rewrite !(parse_elements_unfold _ (S _)). destruct (n <=? 0); [done|].
    assert (Hge : len buf <= len (buf ++ ext)) by len_lia.
    rewrite slice_from_ok in Hi, Hd by lia. rewrite !slice_from_ok by lia. simpl in *.
    rewrite drop_app_le by (unfold len in *; lia).
    assert (Hlt : (length (drop (Z.to_nat c) buf) < length buf)%nat)
      by (rewrite length_drop; unfold len in *; lia).
    rewrite (Hst _ Hlt) by (intros He; rewrite He in Hi, Hd; done).
    destruct (rec _) as [[el l]| | |] eqn:Er; [|done..]. simpl in *.
    apply Hb in Er. rewrite len_drop in Er. apply IH; [lia|lia|done|done].
Qed.

Lemma parse_body_app rec b t ext :
  bounded rec -> len (b :: t ++ ext) <= isize_max ->
  (forall b', (length b' < length (b :: t))%nat -> rec b' <> Err Incomplete ->
     rec b' <> Diverge -> rec (b' ++ ext) = rec b') ->
  parse_body rec (b :: t) <> Err Incomplete -> parse_body rec (b :: t) <> Diverge ->
  parse_body rec (b :: t ++ ext) = parse_body rec (b :: t).
Proof.
  intros Hbd Hlen Hst.
  intros Hi Hd. destruct (first_byte_cases b) as [->|[->|[->|[->|[->|[->|[->|Hb]]]]]]];
    autorewrite with parse_body in *; try (by apply on_line_app).
  - rewrite !parse_bulk_string_cons in *. rewrite header_app.
    + destruct (header t) as [[k ds]| | |] eqn:Hh; [|done..]. simpl in *.
      apply (bulk_tail_app (x24 :: t)); [by eapply header_range| |done|done].
      apply header_bound in Hh. lia.
    + intros Hh. rewrite Hh in Hi. done.
  - rewrite !parse_array_cons in *. rewrite header_app.
    + destruct (header t) as [[k c]| | |] eqn:Hh; [|done..]. simpl in *.
      apply header_bound in Hh. unfold array_tail in *.
      destruct (with_capacity k); [|done..]. cbn [obind] in *.
      change (x2a :: t ++ ext) with ((x2a :: t) ++ ext) in *.
      rewrite (parse_elements_app rec (S (length (x2a :: t))) _ k (x2a :: t));
        [done|done|rewrite len_cons; lia|rewrite length_app; lia|done| |];
        intros He; rewrite He in *; done.
    + intros Hh. rewrite Hh in Hi. done.
  - rewrite !parse_body_inline in * by done. by apply (parse_inline_app (b :: t)).
Qed.

Lemma parse_app buf ext :
  len (buf ++ ext) <= isize_max -> parse buf <> Err Incomplete ->
  parse (buf ++ ext) = parse buf.
Proof.
  induction buf as [buf IH] using shorter_ind. intros Hlen Hi.
  pose proof (parse_no_diverge buf) as Hd. rewrite parse_unfold in Hi, Hd.
  destruct buf as [|b t]; [done|]. cbn [app]. rewrite (parse_unfold (b :: t ++ ext)), (parse_unfold (b :: t)).
  rewrite parse_body_app; [done|apply parse_bounded|done| |done|done].
  intros b' Hb' Hi' Hd'. apply IH; [done| |done].
  autorewrite with len in *. unfold len in *. simpl in *. lia.
Qed.
End Body.

#[export] Hint Rewrite @parse_body_plus @parse_body_minus @parse_body_colon
  @parse_body_dollar @parse_body_star @parse_body_underscore @parse_body_hash : parse_body.
