(* ===== verification/RespSpec.v ===== *)
(** * What the RESP layer guarantees

    The properties of the parser and of the encoder, and of the two
    together. *)
From S2P Require Import Prelude Ints Utf8 RespTypes RespParser RespParserFacts.
Local Open Scope Z_scope.

(** ** Well-formed values *)

(** The invariant of the values the parser builds: strings are UTF-8, a
    simple string holds no CRLF, an integer is an [i64]. *)
Fixpoint resp_wf (r : RespType) : bool :=
  match r with
  | SimpleString s | SimpleError s => utf8_valid s && bool_decide (find_crlf s = None)
  | Integer n => (i64_min <=? n) && (n <=? i64_max)
  | BulkString s => utf8_valid s
  | Array arr => forallb resp_wf arr
  | Null | Boolean _ => true
  end.

(** Every array in the value is one a [Vec] can hold. *)
Fixpoint fits_capacity (size : Z) (r : RespType) : bool :=
  match r with
  | Array arr => (len arr * size <=? isize_max) && forallb (fits_capacity size) arr
  | _ => true
  end.

(** What the parser makes of an encoded value: an error reply comes back as a
    simple string. *)
Fixpoint decoded (r : RespType) : RespType :=
  match r with
  | SimpleError s => SimpleString s
  | Array arr => Array (map decoded arr)
  | r => r
  end.

(** No error reply anywhere in the value. *)
Fixpoint error_free (r : RespType) : bool :=
  match r with
  | SimpleError _ => false
  | Array arr => forallb error_free arr
  | _ => true
  end.

Lemma decoded_error_free r : error_free r = true -> decoded r = r.
Proof.
  induction r as [s|s|n|s|arr IH| |b] using RespType_rect_nested; try done.
  simpl. intros Harr. f_equal. induction IH as [|x arr Hx _ IHarr]; [done|].
  simpl in *. apply andb_prop in Harr as [??]. f_equal; auto.
Qed.

Lemma find_crlf_take buf i : find_crlf buf = Some i -> find_crlf (take i buf) = None.
Proof.
  revert i. induction buf as [|b0 buf IH]; intros i; [done|].
  destruct buf as [|b1 rest]; [done|]. rewrite find_crlf_cons2.
  case_decide as Hd; [by intros [= <-]|].
  destruct (find_crlf (b1 :: rest)) as [j|] eqn:E; [|done]. intros [= <-].
  specialize (IH j eq_refl). cbn [take]. destruct j as [|j]; [done|]. cbn [take] in *.
  rewrite find_crlf_cons2. case_decide; [done|]. by rewrite IH.
Qed.

Lemma read_until_crlf_data buf data n :
  read_until_crlf buf = Some (data, n) -> find_crlf data = None.
Proof.
  unfold read_until_crlf. destruct (find_crlf buf) as [i|] eqn:E; [|done].
  intros [= <- <-]. by apply find_crlf_take.
Qed.

Lemma from_utf8_Some d s : from_utf8 d = Some s -> s = d /\ utf8_valid s = true.
Proof. unfold from_utf8. case_match; naive_solver. Qed.

Section Spec.
Context `{BuildProfile} `{TargetLayout}.

Definition wf_parser (rec : bytes -> parse_result) : Prop :=
  forall buf r n, rec buf = Ok (r, n) -> resp_wf r = true /\ error_free r = true.

Lemma parse_elements_wf rec fuel n buf c arr arr' c' :
  wf_parser rec -> forallb resp_wf arr = true -> forallb error_free arr = true ->
  parse_elements rec fuel n buf c arr = Ok (arr', c') ->
  forallb resp_wf arr' = true /\ forallb error_free arr' = true.
Proof.
  intros Hrec. revert n c arr. induction fuel as [|fuel IH]; intros n c arr Hw He;
    rewrite parse_elements_unfold; destruct (n <=? 0); intros Hp; inv_ok; [done|done|].
  destruct (rec _) as [[el l]| | |] eqn:Er; simplify_eq/=.
  apply Hrec in Er as [??]. eapply IH; [..|done]; rewrite forallb_app; simpl;
    rewrite ?Hw, ?He; by rewrite andb_true_r.
Qed.

Lemma on_line_wf value t r n :
  (forall data, find_crlf data = None -> value data = Ok r ->
     resp_wf r = true /\ error_free r = true) ->
  on_line value t = Ok (r, n) -> resp_wf r = true /\ error_free r = true.
Proof.
  intros Hv. unfold on_line. destruct (read_until_crlf t) as [[data m]|] eqn:E; [|done].
  intros Ho. apply obind_Ok in Ho as (r' & Hr & Ho). simplify_eq.
  eapply Hv; [by eapply read_until_crlf_data|done].
Qed.

Lemma parse_body_wf rec b t r n :
  wf_parser rec -> parse_body rec (b :: t) = Ok (r, n) ->
  resp_wf r = true /\ error_free r = true.
Proof.
  revert r n. apply (parse_body_cases (fun b rec t res => forall r n, wf_parser rec ->
    res = Ok (r, n) -> resp_wf r = true /\ error_free r = true)); clear rec b t.
  - intros rec b t _ r n _. unfold parse_inline.
    destruct (read_until_crlf _) as [[data m]|]; [|done].
    intros Hr. inv_ok. apply from_utf8_Some in H1 as [-> Hv].
    apply split_whitespace_valid in Hv. simpl. rewrite !forallb_forall.
    rewrite Forall_forall in Hv. split; intros x (w & <- & Hw)%in_map_iff; [|done].
    apply Hv. by apply list_elem_of_In.
  - intros rec b t _ r n _. apply on_line_wf. unfold simple_value. intros data Hd Hr.
    inv_ok. apply from_utf8_Some in H1 as [-> Hv]. simpl. rewrite Hv.
    by rewrite bool_decide_eq_true_2.
  - intros rec t r n _. apply on_line_wf. unfold integer_value. intros data Hd Hr.
    inv_ok. apply parse_int_range_range in H2. simpl. split; [|done].
    rewrite !(proj2 (Z.leb_le _ _)) by lia. done.
  - intros rec t r n _. rewrite parse_bulk_string_cons. intros Hr.
    apply obind_Ok in Hr as ([k ds] & Hh & Hr).
    pose proof (header_bound _ _ _ Hh). pose proof (header_range _ _ _ Hh).
    apply bulk_tail_Ok in Hr as (s & -> & _ & _ & _ & Hv & _); [done|done|lia].
  - intros rec t r n Hrec. rewrite parse_array_cons. intros Hr.
    apply obind_Ok in Hr as ([k c] & Hh & Hr). unfold array_tail in Hr.
    apply obind_Ok in Hr as (? & _ & Hr). apply obind_Ok in Hr as ([arr c'] & He & Hr).
    simplify_eq. by eapply parse_elements_wf in He.
  - intros rec t r n _. apply on_line_wf. intros ? _ [= <-]. done.
  - intros rec t r n _. apply on_line_wf. unfold bool_value. intros data _.
    repeat case_decide; intros; simplify_eq; done.
Qed.

Lemma parse_wf : wf_parser parse.
Proof.
  intros buf. unfold parse. generalize (S (length buf)) as fuel. intros fuel. revert buf.
  induction fuel as [|fuel IH]; intros buf r n; [done|]. cbn [parse_fuel].
  destruct buf as [|b t]; [done|]. apply parse_body_wf. exact IH.
Qed.

(** ** Round trip *)

Lemma on_line_encoded value s r rest :
  find_crlf s = None -> value s = Ok r ->
  on_line value (s ++ CRLF ++ rest) = Ok (r, len s + 3).
Proof.
  intros Hs Hv. unfold on_line. rewrite read_until_crlf_line by done. rewrite Hv.
  simpl. do 2 f_equal. lia.
Qed.

Lemma header_encoded k rest :
  is_usize k ->
  header (format_int k ++ CRLF ++ rest) = Ok (k, len (format_int k) + 3).
Proof.
  intros Hk. unfold header. rewrite read_until_crlf_line by apply format_int_no_crlf.
  unfold parse_usize_from_buf, from_utf8.
  rewrite (ascii_valid _ (format_int_ascii k)). simpl.
  unfold parse_usize. unfold is_usize, usize_max, u64_max in *.
  rewrite parse_format_int by (unfold usize_max, u64_max; lia). simpl. do 2 f_equal. lia.
Qed.

Lemma bulk_tail_encoded pre s rest :
  utf8_valid s = true -> len (pre ++ s ++ CRLF ++ rest) <= isize_max ->
  bulk_tail (pre ++ s ++ CRLF ++ rest) (len s) (len pre) =
    Ok (BulkString s, len pre + len s + 2).
Proof.
  intros Hv Hl. autorewrite with len in Hl. unfold CRLF in Hl. autorewrite with len in Hl.
  pose proof (len_nonneg s). pose proof (len_nonneg pre). pose proof (len_nonneg rest).
  unfold isize_max in *. unfold bulk_tail.
  rewrite usize_add_ok by (unfold usize_max, u64_max; lia). cbn [obind].
  rewrite usize_add_ok by (unfold usize_max, u64_max; lia). cbn [obind].
  rewrite (proj2 (Z.ltb_ge _ _)) by (unfold CRLF; autorewrite with len; lia).
  rewrite slice_ok by (unfold CRLF; autorewrite with len; lia).
  rewrite slice_ok by (unfold CRLF; autorewrite with len; lia). cbn [obind].
  replace (Z.to_nat (len pre)) with (length pre) by (unfold len; lia).
  rewrite drop_app_length.
  replace (Z.to_nat (len pre + len s - len pre)) with (length s) by (unfold len; lia).
  rewrite take_app_length.
  replace (Z.to_nat (len pre + len s)) with (length (pre ++ s))
    by (unfold len; rewrite length_app; lia).
  rewrite (assoc_L (++) pre), drop_app_length.
  replace (Z.to_nat (len pre + len s + 2 - (len pre + len s))) with 2%nat by lia.
  simpl. unfold from_utf8. by rewrite Hv.
Qed.

Definition round_trips (r : RespType) : Prop :=
  forall rest,
    resp_wf r = true -> fits_capacity size_of_RespType r = true ->
    len (to_bytes r ++ rest) <= isize_max ->
    parse (to_bytes r ++ rest) = Ok (decoded r, len (to_bytes r)).

Lemma parse_elements_encoded arr pre fuel acc rest :
  Forall round_trips arr -> forallb resp_wf arr = true ->
  forallb (fits_capacity size_of_RespType) arr = true -> (length arr <= fuel)%nat ->
  len (pre ++ concat (map to_string arr) ++ rest) <= isize_max ->
  parse_elements parse fuel (len arr) (pre ++ concat (map to_string arr) ++ rest) (len pre) acc
  = Ok (acc ++ map decoded arr, len pre + len (concat (map to_string arr))).
Proof.
  intros Hrt. revert pre fuel acc. induction Hrt as [|r arr Hr _ IH]; intros pre fuel acc Hw Hc Hf Hl.
  - rewrite parse_elements_unfold. simpl. rewrite (right_id_L [] (++)). do 2 f_equal.
    change (len []) with 0. lia.
  - simpl in Hw, Hc, Hf. apply andb_prop in Hw as [Hw1 Hw2], Hc as [Hc1 Hc2].
    destruct fuel as [|fuel]; [lia|]. rewrite parse_elements_unfold.
    rewrite (proj2 (Z.leb_gt _ _)) by (rewrite len_cons; pose proof (len_nonneg arr); lia).
    assert (Hpre : 0 <= len pre <= len (pre ++ concat (map to_string (r :: arr)) ++ rest)) by len_lia.
    rewrite slice_from_ok by done. cbn [obind].
    replace (Z.to_nat (len pre)) with (length pre) by (unfold len; lia).
    rewrite drop_app_length. simpl map in *. simpl concat in *.
    rewrite <- !(assoc_L (++) (to_string r)) in *. fold (to_bytes r) in *.
    rewrite Hr; [|done|done|autorewrite with len in *; pose proof (len_nonneg pre); lia].
    cbn [obind]. rewrite len_cons. replace (len arr + 1 - 1) with (len arr) by lia.
    rewrite (assoc_L (++) pre). replace (len pre + len (to_bytes r)) with (len (pre ++ to_bytes r))
      by (by rewrite len_app).
    rewrite IH; [|done|done|lia|by rewrite <- (assoc_L (++))].
    rewrite <- (assoc_L (++)). do 2 f_equal. rewrite !len_app. lia.
Qed.

Lemma length_concat_encoded arr : (length arr <= length (concat (map to_string arr)))%nat.
Proof.
  induction arr as [|r arr IH]; simpl; [lia|]. rewrite length_app.
  pose proof (to_bytes_nonempty r) as Hne. unfold to_bytes in Hne.
  destruct (to_string r); [done|simpl; lia].
Qed.

(** One-line values: type byte, text, CRLF. *)
Lemma parse_encoded_line b value text r rest :
  (forall rec t, parse_body rec (b :: t) = on_line value t) ->
  find_crlf text = None -> value text = Ok r ->
  parse (b :: (text ++ CRLF) ++ rest) = Ok (r, len (b :: text ++ CRLF)).
Proof.
  intros Hb Hn Hv. rewrite parse_unfold, Hb, <- (assoc_L (++)).
  rewrite (on_line_encoded _ text r) by done. do 2 f_equal.
  rewrite len_cons, len_app. change (len CRLF) with 2. lia.
Qed.

Lemma parse_encoded_bulk s rest :
  utf8_valid s = true -> len (to_string (BulkString s) ++ rest) <= isize_max ->
  parse (to_string (BulkString s) ++ rest) =
    Ok (BulkString s, len (to_string (BulkString s))).
Proof.
  intros Hv Hl. rewrite parse_unfold. cbn [to_string] in *.
  rewrite <- !(assoc_L (++)) in *. change (bs "$" ++ ?x) with (x24 :: x) in *.
  rewrite parse_body_dollar, parse_bulk_string_cons.
  assert (Hpre : x24 :: format_int (len s) ++ CRLF ++ s ++ CRLF ++ rest =
    (x24 :: format_int (len s) ++ CRLF) ++ s ++ CRLF ++ rest)
    by (simpl; by rewrite <- (assoc_L (++))).
  rewrite header_encoded.
  - cbn [obind]. rewrite Hpre in *.
    replace (len (format_int (len s)) + 3) with (len (x24 :: format_int (len s) ++ CRLF))
      by (rewrite len_cons, len_app; change (len CRLF) with 2; lia).
    rewrite bulk_tail_encoded by done. do 2 f_equal. autorewrite with len.
    change (len CRLF) with 2. lia.
  - rewrite Hpre in Hl. autorewrite with len in Hl. unfold is_usize, usize_max, u64_max, isize_max in *.
    change (len CRLF) with 2 in Hl. pose proof (len_nonneg s). pose proof (len_nonneg rest).
    pose proof (len_nonneg (format_int (len s))). lia.
Qed.

Lemma parse_encoded_array arr rest :
  Forall round_trips arr -> forallb resp_wf arr = true ->
  fits_capacity size_of_RespType (Array arr) = true ->
  len (to_string (Array arr) ++ rest) <= isize_max ->
  parse (to_string (Array arr) ++ rest) =
    Ok (Array (map decoded arr), len (to_string (Array arr))).
Proof.
  intros IH Hw Hc Hl. cbn [fits_capacity] in Hc. apply andb_prop in Hc as [Hcap%Z.leb_le Hc].
  rewrite to_string_Array in *. rewrite parse_unfold, <- !(assoc_L (++)) in *.
  change (bs "*" ++ ?x) with (x2a :: x) in *.
  rewrite parse_body_star, parse_array_cons.
  set (body := concat (map to_string arr)) in *.
  assert (Hpre : x2a :: format_int (len arr) ++ CRLF ++ body ++ rest =
    (x2a :: format_int (len arr) ++ CRLF) ++ body ++ rest)
    by (simpl; by rewrite <- (assoc_L (++))).
  pose proof (length_concat_encoded arr) as Hlen. fold body in Hlen.
  rewrite header_encoded.
  - cbn [obind]. rewrite Hpre in *.
    replace (len (format_int (len arr)) + 3) with (len (x2a :: format_int (len arr) ++ CRLF))
      by (rewrite len_cons, len_app; change (len CRLF) with 2; lia).
    unfold array_tail, with_capacity. rewrite (proj2 (Z.leb_le _ _)) by done. cbn [obind].
    rewrite parse_elements_encoded; [|done|done|done|rewrite !length_app; lia|done].
    cbn [obind app]. do 2 f_equal. fold body. autorewrite with len.
    change (len CRLF) with 2. lia.
  - rewrite Hpre in Hl. autorewrite with len in Hl. unfold is_usize, usize_max, u64_max, isize_max in *.
    change (len CRLF) with 2 in Hl. pose proof (len_nonneg arr). pose proof (len_nonneg rest).
    pose proof (len_nonneg (format_int (len arr))). unfold len in *. lia.
Qed.

Lemma parse_encoded r : round_trips r.
Proof.
  induction r as [s|s|n|s|arr IH| |b] using RespType_rect_nested; intros rest Hw Hc Hl;
    unfold to_bytes in *.
  - apply andb_prop in Hw as [Hv Hn%bool_decide_eq_true].
    apply (parse_encoded_line x2b simple_value); [apply parse_body_plus|done|].
    unfold simple_value, from_utf8. by rewrite Hv.
  - apply andb_prop in Hw as [Hv Hn%bool_decide_eq_true].
    apply (parse_encoded_line x2d simple_value); [apply parse_body_minus|done|].
    unfold simple_value, from_utf8. by rewrite Hv.
  - apply andb_prop in Hw as [?%Z.leb_le ?%Z.leb_le].
    apply (parse_encoded_line x3a integer_value);
      [apply parse_body_colon|apply format_int_no_crlf|].
    unfold integer_value, from_utf8. rewrite (ascii_valid _ (format_int_ascii n)). simpl.
    unfold parse_i64. rewrite parse_format_int; [done|done|].
    unfold i64_min, i64_max, u64_max in *. lia.
  - by apply parse_encoded_bulk.
  - by apply parse_encoded_array.
  - by apply (parse_encoded_line x5f (fun _ => Ok Null) []); [apply parse_body_underscore|..].
  - destruct b.
    + by apply (parse_encoded_line x23 bool_value (bs "t")); [apply parse_body_hash|..].
    + by apply (parse_encoded_line x23 bool_value (bs "f")); [apply parse_body_hash|..].
Qed.

(** ** Panics *)

(** A header of length [k] that ends at position [c]: the end of the bulk string
    and of its CRLF is beyond [usize::MAX], or the vector of the array has more
    than [isize::MAX] bytes. *)
Definition huge_bulk (k c : Z) : Prop := usize_max < c + k + 2.
Definition huge_array (k : Z) : Prop := isize_max < k * size_of_RespType.

(** Somewhere in the buffer a bulk string or an array declares such a length. *)
Definition declares_huge (buf : bytes) : Prop :=
  exists i b t k c, drop i buf = b :: t /\ header t = Ok (k, c) /\
    ((b = x24 /\ huge_bulk k c) \/ (b = x2a /\ huge_array k)).

Lemma declares_huge_drop i buf : declares_huge (drop i buf) -> declares_huge buf.
Proof.
  intros (j & b & t & k & c & Hd & Hrest). rewrite drop_drop in Hd. by exists (i + j)%nat, b, t, k, c.
Qed.

Lemma obind_Panic {E A B} (m : outcome E A) (f : A -> outcome E B) p :
  obind m f = Panic p <-> m = Panic p \/ exists a, m = Ok a /\ f a = Panic p.
Proof.
  destruct m as [a| | |]; simpl; split; intros Hp;
    solve [congruence|by right; exists a|by simplify_eq; left
          |destruct Hp as [?|(? & [= <-] & ?)]; congruence
          |destruct Hp as [?|(? & ? & ?)]; congruence].
Qed.

Lemma ok_or_no_panic {E A} (o : option A) (e : E) p : ok_or o e <> Panic p.
Proof. by destruct o. Qed.

Lemma on_line_no_panic value t p :
  (forall d, value d <> Panic p) -> on_line value t <> Panic p.
Proof.
  intros Hv. unfold on_line. destruct (read_until_crlf t) as [[data m]|]; [|done].
  specialize (Hv data). destruct (value data); [done|done| |done]. by intros [= ->].
Qed.

Lemma header_no_panic t p : header t <> Panic p.
Proof.
  unfold header, parse_usize_from_buf. destruct (read_until_crlf t) as [[data m]|]; [|done].
  destruct (from_utf8 data); [|done]. simpl. by destruct (parse_usize _).
Qed.

(** The position after a bulk string overflows only for a huge length. *)
Lemma bulk_tail_panic buf k ds p :
  is_usize k -> 0 <= ds <= len buf -> len buf <= isize_max ->
  bulk_tail buf k ds = Panic p -> huge_bulk k ds.
Proof.
  intros Hk Hds Hl Hp. unfold huge_bulk. destruct (decide (usize_max < ds + k + 2)) as [|Hle]; [done|exfalso].
  unfold is_usize in *. unfold bulk_tail in Hp.
  rewrite usize_add_ok in Hp by lia. cbn [obind] in Hp.
  rewrite usize_add_ok in Hp by lia. cbn [obind] in Hp.
  destruct (Z.ltb_spec (len buf) (ds + k + 2)); [done|].
  rewrite slice_ok in Hp by lia. cbn [obind] in Hp. rewrite slice_ok in Hp by lia.
  cbn [obind] in Hp. case_match; [done|]. by destruct (from_utf8 _).
Qed.

(** And it does: the sum panics, or it wraps and a slice is out of range. *)
Lemma bulk_tail_huge buf k ds :
  is_usize k -> 0 <= ds < len buf -> len buf <= isize_max -> huge_bulk k ds ->
  is_panic (bulk_tail buf k ds) = true.
Proof.
  unfold huge_bulk, is_usize, isize_max. intros Hk Hds Hl Hh. unfold bulk_tail.
  destruct (usize_add ds k) as [de| | |] eqn:E1; [|unfold usize_add, arith_result in E1; by repeat case_match..].
  cbn [obind]. destruct (usize_add de 2) as [de2| | |] eqn:E2;
    [|unfold usize_add, arith_result in E2; by repeat case_match..]. cbn [obind].
  apply usize_add_inv in E1 as [Hr1 E1]; [|lia..].
  apply usize_add_inv in E2 as [Hr2 E2]; [|unfold is_usize in *; lia..].
  unfold is_usize, usize_max, u64_max in *.
  assert (forall z, 2 ^ 64 <= z < 2 * 2 ^ 64 -> z mod 2 ^ 64 = z - 2 ^ 64) as Hmod.
  { intros z Hz. symmetry. apply (Z.mod_unique_pos _ _ 1); lia. }
  destruct E1 as [->|(_ & -> & ?)]; [|rewrite Hmod in * by lia];
    (destruct E2 as [->|(_ & -> & ?)]; [|rewrite Hmod in * by lia]); try lia;
    rewrite (proj2 (Z.ltb_ge _ _)) by lia; (rewrite slice_panics; [done|lia]).
Qed.

Lemma parse_elements_panic rec fuel n buf c arr p :
  bounded rec -> 0 <= c <= len buf ->
  parse_elements rec fuel n buf c arr = Panic p ->
  exists c', c <= c' <= len buf /\ rec (drop (Z.to_nat c') buf) = Panic p.
Proof.
  intros Hb. revert n c arr. induction fuel as [|fuel IH]; intros n c arr Hc;
    rewrite parse_elements_unfold; destruct (n <=? 0); [done..|].
  rewrite slice_from_ok by lia. cbn [obind].
  destruct (rec _) as [[el l]| | |] eqn:Er; simpl; [|done| |done].
  - pose proof (Hb _ _ _ Er) as Hl. rewrite len_drop in Hl.
    intros (c' & Hc' & Hp)%IH; [|lia]. exists c'. split; [lia|done].
  - intros [= ->]. exists c. split; [lia|done].
Qed.

Lemma parse_body_panic rec b t p :
  bounded rec -> len (b :: t) <= isize_max ->
  (forall i, (0 < i <= length (b :: t))%nat -> rec (drop i (b :: t)) = Panic p ->
     declares_huge (drop i (b :: t))) ->
  parse_body rec (b :: t) = Panic p -> declares_huge (b :: t).
Proof.
  apply (parse_body_cases (fun b rec t res => bounded rec -> len (b :: t) <= isize_max ->
    (forall i, (0 < i <= length (b :: t))%nat -> rec (drop i (b :: t)) = Panic p ->
     declares_huge (drop i (b :: t))) -> res = Panic p -> declares_huge (b :: t))); clear rec b t.
  - intros rec b t _ _ _ _. unfold parse_inline.
    destruct (read_until_crlf _) as [[data m]|]; [|done]. by destruct (from_utf8 data).
  - intros rec b t _ _ _ _ Hp. exfalso. revert Hp. apply on_line_no_panic. intros d.
    unfold simple_value. by destruct (from_utf8 d).
  - intros rec t _ _ _ Hp. exfalso. revert Hp. apply on_line_no_panic. intros d.
    unfold integer_value. destruct (from_utf8 d); [|done]. simpl. by destruct (parse_i64 _).
  - intros rec t _ Hl _. rewrite parse_bulk_string_cons.
    intros [Hp|([k ds] & Hh & Hp)]%obind_Panic; [by apply header_no_panic in Hp|].
    pose proof (header_bound _ _ _ Hh). pose proof (header_range _ _ _ Hh).
    apply bulk_tail_panic in Hp; [|done|rewrite len_cons; lia|done].
    exists 0%nat, x24, t, k, ds. by auto.
  - intros rec t Hb Hl Hrec. rewrite parse_array_cons.
    intros [Hp|([k c] & Hh & Hp)]%obind_Panic; [by apply header_no_panic in Hp|].
    pose proof (header_bound _ _ _ Hh). unfold array_tail in Hp.
    apply obind_Panic in Hp as [Hp|(? & _ & Hp)].
    { unfold with_capacity in Hp. destruct (Z.leb_spec (k * size_of_RespType) isize_max); [done|].
      exists 0%nat, x2a, t, k, c. by auto. }
    apply obind_Panic in Hp as [Hp|([? ?] & _ & Hp)]; [|done].
    apply parse_elements_panic in Hp as (c' & Hc' & Hp); [|done|rewrite len_cons; lia].
    apply (declares_huge_drop (Z.to_nat c')). apply Hrec; [|done]. unfold len in *. lia.
  - intros rec t _ _ _ Hp. exfalso. revert Hp. by apply on_line_no_panic.
  - intros rec t _ _ _ Hp. exfalso. revert Hp. apply on_line_no_panic. intros d.
    unfold bool_value. by repeat case_decide.
Qed.

Lemma parse_panic_huge buf p :
  len buf <= isize_max -> parse buf = Panic p -> declares_huge buf.
Proof.
  induction buf as [buf IH] using shorter_ind. intros Hl Hp. rewrite parse_unfold in Hp.
  destruct buf as [|b t]; [done|]. eapply parse_body_panic; [apply parse_bounded|done| |done].
  intros i Hi Hpi. apply IH; [rewrite length_drop; lia| |done].
  rewrite len_drop. pose proof (len_nonneg (b :: t)). unfold isize_max in *. lia.
Qed.

(** ** Properties *)

(** C1: Parsing inverts encoding. For every well-formed value, whatever bytes
    follow it in the buffer, [Parser::parse] reads back exactly the bytes of
    the encoding and returns the value, error replies read as simple strings;
    a value without error replies comes back unchanged. *)
Theorem parse_to_bytes r rest :
  resp_wf r = true -> fits_capacity size_of_RespType r = true ->
  len (to_bytes r ++ rest) <= isize_max ->
  parse (to_bytes r ++ rest) = Ok (decoded r, len (to_bytes r)) /\
  (error_free r = true -> decoded r = r).
Proof. intros. split; [by apply parse_encoded|apply decoded_error_free]. Qed.

(** C2: Whatever [Parser::parse] decides about a buffer (a value, an [Invalid]
    error or a panic), it decides in the same way about every longer buffer
    that starts with it: only [Incomplete] can change when more bytes arrive,
    so the cutting of the stream into reads does not change what is parsed. *)
Theorem parse_stable_under_extension buf ext :
  len (buf ++ ext) <= isize_max -> parse buf <> Err Incomplete ->
  parse (buf ++ ext) = parse buf.
Proof. apply parse_app. Qed.

(** C9: A message that has not fully arrived is reported as [Incomplete], never
    as an error, a panic or a shorter message: every proper prefix of the
    encoding of a well-formed value parses to [Incomplete]. *)
Theorem parse_proper_prefix_incomplete r p ext :
  resp_wf r = true -> fits_capacity size_of_RespType r = true ->
  len (to_bytes r) <= isize_max ->
  to_bytes r = p ++ ext -> ext <> [] -> parse p = Err Incomplete.
Proof.
  intros Hw Hc Hl Hp Hne.
  assert (Hfull : parse (p ++ ext) = Ok (decoded r, len (p ++ ext))).
  { rewrite <- Hp. rewrite <- (app_nil_r (to_bytes r)) at 1.
    apply parse_encoded; [done|done|by rewrite app_nil_r]. }
  destruct (decide (parse p = Err Incomplete)) as [|Hn]; [done|].
  rewrite parse_app in Hfull by (rewrite <- ?Hp; done).
  apply parse_bounded in Hfull. rewrite len_app in Hfull.
  destruct ext; [done|]. rewrite len_cons in Hfull. pose proof (len_nonneg ext). lia.
Qed.

(** C17: [Parser::parse] is total and never claims more than it read: it
    terminates on every buffer, and a value it returns took at least one byte
    and at most the bytes of the buffer, so that [buf.advance(consumed)] in the
    connection loop always makes progress and never panics. *)
Theorem parse_terminates_and_consumes buf :
  parse buf <> Diverge /\
  forall r n, parse buf = Ok (r, n) -> 1 <= n <= len buf.
Proof. split; [apply parse_no_diverge|apply parse_bounded]. Qed.

(** C20: The values [Parser::parse] returns satisfy the type invariant: their
    strings are valid UTF-8, their integers are in the range of [i64], their
    simple strings hold no CRLF, and none of them is a [SimpleError], since
    [-...] is read as a [SimpleString]. *)
Theorem parse_returns_well_formed buf r n :
  parse buf = Ok (r, n) -> resp_wf r = true /\ error_free r = true.
Proof. apply parse_wf. Qed.

(** C18: the panics of [Parser::parse]. It panics only when some bulk string in
    the buffer declares a length whose end and CRLF are beyond [usize::MAX], or
    some array one whose vector would have more than [isize::MAX] bytes; every
    index, slice and sum on other input is in range. Conversely a buffer that
    starts with such an array header, or with such a bulk string header and a
    byte after it, does panic, in either build profile. *)
Theorem parse_panics_on_huge_length buf :
  len buf <= isize_max ->
  (forall p, parse buf = Panic p -> declares_huge buf) /\
  (forall t k c, buf = x2a :: t -> header t = Ok (k, c) -> huge_array k ->
     parse buf = Panic CapacityOverflow) /\
  (forall t k c, buf = x24 :: t -> header t = Ok (k, c) -> huge_bulk k c -> c < len buf ->
     is_panic (parse buf) = true).
Proof.
  intros Hl. split; [intros p; by apply parse_panic_huge|].
  split; intros t k c -> Hh Hk; rewrite parse_unfold.
  - rewrite parse_body_star, parse_array_cons, Hh. cbn [obind]. unfold array_tail, with_capacity.
    unfold huge_array in Hk. by rewrite (proj2 (Z.leb_gt _ _)).
  - intros Hc. rewrite parse_body_dollar, parse_bulk_string_cons, Hh. cbn [obind].
    pose proof (header_bound _ _ _ Hh). pose proof (header_range _ _ _ Hh).
    apply bulk_tail_huge; [done|lia|done|done].
Qed.

(** An inline command is split at white space: a line of valid UTF-8 that
    does not start with a type byte and holds no CRLF parses to the array of
    its words and consumes the line and its CRLF. *)
Theorem parse_inline_line b line rest :
  b ∉ type_bytes -> find_crlf (b :: line) = None -> utf8_valid (b :: line) = true ->
  parse ((b :: line) ++ CRLF ++ rest) =
    Ok (Array (map BulkString (split_whitespace (b :: line))), len (b :: line) + 2).
Proof.
  intros Hb Hn Hv. rewrite parse_unfold. cbn [app]. rewrite parse_body_inline by done.
  unfold parse_inline. change (b :: line ++ CRLF ++ rest) with ((b :: line) ++ CRLF ++ rest).
  rewrite read_until_crlf_line by done. unfold from_utf8. by rewrite Hv.
Qed.
End Spec.

(** C23: The streaming encoder refines the textual one over every lawful
    writer: [write_to] either succeeds having appended exactly [to_bytes] of the
    value, fast paths included, or fails with the writer's error having appended
    a prefix of it. *)
Theorem write_to_refines_to_bytes {W} `{AsyncWriteLaws W} r w :
  (exists w', write_to r w = (Ok tt, w') /\ written w' = written w ++ to_bytes r) \/
  (exists e w' p, write_to r w = (Err e, w') /\ p `prefix_of` to_bytes r /\
     written w' = written w ++ p).
Proof. apply write_to_emits. Qed.

(** ** Witnesses *)

Module RespWitness.

(** A writer with room for [room] more bytes. *)
Record sink : Type := Sink { room : nat; out : bytes }.

#[export] Instance sink_write : AsyncWrite sink := {|
  write_all b w :=
    if decide (length b <= room w)%nat
    then (Ok tt, Sink (room w - length b) (out w ++ b))
    else (Err (OtherIo 28), Sink 0 (out w ++ take (room w) b))
|}.

#[export] Program Instance sink_laws : AsyncWriteLaws sink := {| written := out |}.
Next Obligation.
  intros b w. simpl. case_decide.
  - left. by eexists.
  - right. do 3 eexists. split_and!; [done| |done]. exists (drop (room w) b).
    by rewrite take_drop.
Qed.

#[export] Instance layout32 : TargetLayout :=
  {| size_of_RespType := 32; size_of_RespType_pos := eq_refl |}.
#[export] Existing Instance release_profile.

Definition sample : RespType :=
  Array [BulkString (bs "SET"); BulkString [x63; x61; x66; xc3; xa9]; Integer (-7);
         SimpleString (bs "a b"); Null; Boolean true].

Lemma parse_to_bytes_witness :
  parse (to_bytes sample ++ bs "PING") = Ok (sample, len (to_bytes sample)).
Proof.
  destruct (parse_to_bytes sample (bs "PING")) as [H1 H2]; [by vm_compute..|].
  rewrite H1. by rewrite H2 by by vm_compute.
Defined.

Lemma parse_stable_witness :
  parse (bs ":12" ++ CRLF ++ bs "garbage") = Ok (Integer 12, 5).
Proof.
  change (bs ":12" ++ CRLF ++ bs "garbage") with ((bs ":12" ++ CRLF) ++ bs "garbage").
  rewrite (parse_stable_under_extension (bs ":12" ++ CRLF) (bs "garbage")); [by vm_compute..].
Defined.

Lemma parse_prefix_witness :
  parse (take 30 (to_bytes sample)) = Err Incomplete.
Proof.
  apply (parse_proper_prefix_incomplete sample _ (drop 30 (to_bytes sample)));
    by vm_compute.
Defined.

Lemma parse_terminates_witness :
  parse (bs "+OK" ++ CRLF) = Ok (SimpleString (bs "OK"), 5) /\ 1 <= 5 <= len (bs "+OK" ++ CRLF).
Proof.
  split; [by vm_compute|].
  apply (proj2 (parse_terminates_and_consumes (bs "+OK" ++ CRLF)) (SimpleString (bs "OK"))).
  by vm_compute.
Defined.

Lemma parse_well_formed_witness : resp_wf (SimpleString (bs "ERR")) = true.
Proof.
  apply (parse_returns_well_formed (bs "-ERR" ++ CRLF) _ 6). by vm_compute.
Defined.

Lemma parse_panics_witness :
  declares_huge (bs "*1" ++ CRLF ++ bs "*9223372036854775807" ++ CRLF) /\
  parse (bs "*400000000000000000" ++ CRLF) = Panic CapacityOverflow /\
  is_panic (parse (bs "$18446744073709551615" ++ CRLF ++ bs "x")) = true.
Proof.
  split_and!.
  - refine (proj1 (parse_panics_on_huge_length _ _) CapacityOverflow _); by vm_compute.
  - refine (proj1 (proj2 (parse_panics_on_huge_length _ _)) (bs "400000000000000000" ++ CRLF)
      400000000000000000 21 _ _ _); by vm_compute.
  - refine (proj2 (proj2 (parse_panics_on_huge_length _ _)) (bs "18446744073709551615" ++ CRLF ++ bs "x")
      18446744073709551615 23 _ _ _ _); by vm_compute.
Defined.

Lemma parse_inline_witness :
  parse (bs "get  foo" ++ CRLF) = Ok (Array [BulkString (bs "get"); BulkString (bs "foo")], 10).
Proof.
  rewrite <- (app_nil_r CRLF).
  rewrite (parse_inline_line x67 (bs "et  foo") []);
    [by vm_compute|compute_done|by vm_compute..].
Defined.

Lemma write_to_witness :
  write_to (Array [SimpleString (bs "Ok"); BulkString (bs "nil")]) (Sink 12 []) =
    (Err (OtherIo 28), Sink 0 (take 12 (to_bytes (Array [SimpleString (bs "Ok"); BulkString (bs "nil")])))).
Proof.
  destruct (write_to_refines_to_bytes (Array [SimpleString (bs "Ok"); BulkString (bs "nil")]) (Sink 12 []))
    as [(w' & Hw & _)|(e & w' & p & Hw & _)]; by vm_compute in Hw |- *.
Defined.
End RespWitness.
