(* ===== verification/DashMap.v ===== *)
(** * The concurrent map, and clocks

    The database keeps its state in two [DashMap]s, a third-party map. The
    class [DashMap] has the operations the program calls, as functions on the
    contents of the map, and [DashMapLaws] what the crate documents of them:
    it is a map. The database is modelled and verified against this interface;
    [gmap_dashmap] shows that it can be implemented.

    The second part is the time arithmetic of [std::time]. *)
From S2P Require Import Prelude Ints.
Local Open Scope Z_scope.

(** ** Interface *)

Class DashMap (M : Type -> Type) : Type := {
  dm_new : forall {V}, M V;
  dm_get : forall {V}, M V -> bytes -> option V;
  (** The value under a key with the store of a new value in its place. *)
  dm_get_mut : forall {V}, M V -> bytes -> option (V * (V -> M V));
  dm_insert : forall {V}, M V -> bytes -> V -> M V;
  dm_remove : forall {V}, M V -> bytes -> M V;
  dm_contains_key : forall {V}, M V -> bytes -> bool;
  dm_len : forall {V}, M V -> nat;
  (** The entries, in the order of the map's own iteration. *)
  dm_iter : forall {V}, M V -> list (bytes * V);
  dm_from_iter : forall {V}, list (bytes * V) -> M V
}.

Class DashMapLaws (M : Type -> Type) `{DashMap M} : Prop := {
  dm_get_new : forall V k, dm_get (@dm_new M _ V) k = None;
  dm_get_insert : forall V (m : M V) k v k',
    dm_get (dm_insert m k v) k' = if decide (k = k') then Some v else dm_get m k';
  dm_get_remove : forall V (m : M V) k k',
    dm_get (dm_remove m k) k' = if decide (k = k') then None else dm_get m k';
  dm_get_mut_get : forall V (m : M V) k, fst <$> dm_get_mut m k = dm_get m k;
  dm_get_mut_put : forall V (m : M V) k v put v' k',
    dm_get_mut m k = Some (v, put) ->
    dm_get (put v') k' = if decide (k = k') then Some v' else dm_get m k';
  dm_contains_key_get : forall V (m : M V) k,
    dm_contains_key m k = bool_decide (is_Some (dm_get m k));
  dm_iter_get : forall V (m : M V) k v, (k, v) ∈ dm_iter m <-> dm_get m k = Some v;
  dm_iter_NoDup : forall V (m : M V), NoDup (dm_iter m).*1;
  dm_len_iter : forall V (m : M V), dm_len m = length (dm_iter m);
  dm_get_from_iter : forall V (l : list (bytes * V)) k,
    NoDup l.*1 -> dm_get (dm_from_iter l) k = (list_to_map l : gmap bytes V) !! k
}.

(** ** Equivalence of maps: the same entries *)

Section Equiv.
Context {M : Type -> Type} `{DashMapLaws M}.

Definition dm_equiv {V} (m1 m2 : M V) : Prop := forall k, dm_get m1 k = dm_get m2 k.

#[global] Instance dm_equiv_equivalence V : Equivalence (@dm_equiv V).
Proof.
  split; [by intros m k|by intros m1 m2 Hm k|].
  intros m1 m2 m3 H1 H2 k. by rewrite H1, H2.
Qed.

#[global] Instance dm_get_proper V : Proper (dm_equiv ==> eq ==> eq) (@dm_get M _ V).
Proof. intros m1 m2 Hm k ? <-. apply Hm. Qed.

#[global] Instance dm_insert_proper V :
  Proper (dm_equiv ==> eq ==> eq ==> dm_equiv) (@dm_insert M _ V).
Proof. intros m1 m2 Hm k ? <- v ? <- k'. rewrite !dm_get_insert. by rewrite Hm. Qed.

#[global] Instance dm_remove_proper V :
  Proper (dm_equiv ==> eq ==> dm_equiv) (@dm_remove M _ V).
Proof. intros m1 m2 Hm k ? <- k'. rewrite !dm_get_remove. by rewrite Hm. Qed.

#[global] Instance dm_contains_key_proper V :
  Proper (dm_equiv ==> eq ==> eq) (@dm_contains_key M _ V).
Proof. intros m1 m2 Hm k ? <-. rewrite !dm_contains_key_get. by rewrite Hm. Qed.

Lemma dm_get_mut_None V (m : M V) k : dm_get m k = None -> dm_get_mut m k = None.
Proof. rewrite <- dm_get_mut_get. by destruct (dm_get_mut m k). Qed.

(** Writing through [get_mut] is an insertion. *)
Lemma dm_get_mut_Some V (m : M V) k v :
  dm_get m k = Some v ->
  exists put, dm_get_mut m k = Some (v, put) /\
    forall v', dm_equiv (put v') (dm_insert m k v').
Proof.
  intros Hg. rewrite <- dm_get_mut_get in Hg.
  destruct (dm_get_mut m k) as [[u put]|] eqn:E; simplify_eq/=.
  exists put. split; [done|]. intros v' k'.
  by rewrite (dm_get_mut_put _ _ _ _ _ _ _ E), dm_get_insert.
Qed.

Lemma dm_iter_keys V (m : M V) k : k ∈ (dm_iter m).*1 <-> is_Some (dm_get m k).
Proof.
  rewrite list_elem_of_fmap. split.
  - intros ([k' v] & -> & Hin%dm_iter_get). by eexists.
  - intros [v Hv%dm_iter_get]. by exists (k, v).
Qed.
End Equiv.

(** ** An implementation *)

#[global] Instance gmap_dashmap : DashMap (gmap bytes) := {|
  dm_new V := ∅;
  dm_get V m k := m !! k;
  dm_get_mut V m k := v ← m !! k; Some (v, fun v' => <[k:=v']> m);
  dm_insert V m k v := <[k:=v]> m;
  dm_remove V m k := delete k m;
  dm_contains_key V m k := bool_decide (is_Some (m !! k));
  dm_len V m := size m;
  dm_iter V m := map_to_list m;
  dm_from_iter V l := list_to_map l
|}.

#[global] Instance gmap_dashmap_laws : DashMapLaws (gmap bytes).
Proof.
  split; simpl.
  - intros. apply lookup_empty.
  - intros. apply lookup_insert.
  - intros. apply lookup_delete.
  - intros V m k. by destruct (m !! k).
  - intros V m k v put v' k' Hm. destruct (m !! k); simplify_eq/=. apply lookup_insert.
  - done.
  - intros. apply elem_of_map_to_list.
  - intros. apply NoDup_fst_map_to_list.
  - intros. by rewrite length_map_to_list.
  - done.
Qed.

(** ** Time *)

(** [Instant] and [SystemTime] are nanosecond counts from their origin, and
    [Duration] a nanosecond count; on Unix the seconds of an instant are an
    [i64], and an addition beyond it panics. *)
Notation Instant := Z (only parsing).
Notation Duration := Z (only parsing).

Definition nanos_per_milli : Z := 1000000.
Definition nanos_per_sec : Z := 1000000000.

Definition instant_max : Z := (i64_max + 1) * nanos_per_sec - 1.

(** [Duration::from_millis(ms)] with [ms : u64] *)
Definition from_millis (ms : Z) : Duration := ms * nanos_per_milli.

(** [instant + duration] *)
Definition time_add {E} (t : Instant) (d : Duration) : outcome E Instant :=
  if t + d <=? instant_max then Ok (t + d) else Panic TimeOverflow.

Lemma time_add_ok {E} t d : t + d <= instant_max -> @time_add E t d = Ok (t + d).
Proof. intros Ht. unfold time_add. by rewrite (proj2 (Z.leb_le _ _)). Qed.

#[export] Hint Resolve time_add_ok : ember.
