(* ===== verification/Database.v ===== *)
(** * The database core (src/src/database/core.rs)

    The state [DB], two concurrent maps, and its operations [set], [get],
    [delete], [lpush], [rpush], [lrange], [expire] and [is_expired]. An
    operation takes the state and returns its result with the new state;
    [Instant::now()] is the argument [now]. An [anyhow::Error] is its message.

    The operations are modelled over any [DashMap]; each runs here without
    interference from other tasks. *)
From S2P Require Import Prelude Ints DashMap.
Local Open Scope Z_scope.

Module RedisObject.
Inductive t : Type :=
| String (s : bytes)
| List (l : list t).
End RedisObject.
Notation RedisObject := RedisObject.t.

Notation message := bytes (only parsing).

(** [RedisObject::String("nil".to_string())], what a missing key reads as. *)
Definition nil_object : RedisObject := RedisObject.String (bs "nil").

Definition err_not_list_push : message :=
  Eval compute in bs "Wrong data type. Expected List, got String.".
Definition err_not_list_range : message := Eval compute in bs "Wrong type. Expected list.".
Definition err_no_entry : message := Eval compute in bs "Entry not found.".
Definition err_expire_option : message :=
  Eval compute in bs "Invalid option for expire command.".

Record DB (M : Type -> Type) : Type := mkDB {
  data : M RedisObject;
  expirations : M Instant
}.
Arguments mkDB {M} data expirations.
Arguments data {M} d.
Arguments expirations {M} d.

Section Operations.
Context {M : Type -> Type} `{DashMap M} `{BuildProfile}.
Implicit Types db : DB M.

Definition with_data db (d : M RedisObject) : DB M := mkDB d (expirations db).
Definition with_expirations db (e : M Instant) : DB M := mkDB (data db) e.

Definition new_in_memory : DB M := mkDB dm_new dm_new.

Definition is_expired db (now : Instant) (key : bytes) : bool :=
  match dm_get (expirations db) key with
  | Some expires_at => expires_at <? now
  | None => false
  end.

Definition set db (key : bytes) (val : RedisObject) (expires_at : option Instant) :
    outcome message unit * DB M :=
  let db := with_expirations db (dm_remove (expirations db) key) in
  let db := with_data db (dm_insert (data db) key val) in
  let db :=
    match expires_at with
    | Some exp => with_expirations db (dm_insert (expirations db) key exp)
    | None => db
    end in
  (Ok tt, db).

(** The lazy expiration check that opens [get] and [lrange]: [true] when the
    key had expired and was removed. *)
Definition expire_lazily db (now : Instant) (key : bytes) : bool * DB M :=
  match dm_get (expirations db) key with
  | Some exp =>
      if is_expired db now key then
        let db := with_data db (dm_remove (data db) key) in
        let db := with_expirations db (dm_remove (expirations db) key) in
        (true, db)
      else (false, db)
  | None => (false, db)
  end.

Definition get db (now : Instant) (key : bytes) : outcome message RedisObject * DB M :=
  match expire_lazily db now key with
  | (true, db) => (Ok nil_object, db)
  | (false, db) =>
      match dm_get (data db) key with
      | Some ro => (Ok ro, db)
      | None => (Ok nil_object, db)
      end
  end.

Definition delete db (key : bytes) : outcome message unit * DB M :=
  let db := with_data db (dm_remove (data db) key) in
  let db := with_expirations db (dm_remove (expirations db) key) in
  (Ok tt, db).

Definition lpush db (key : bytes) (values : list RedisObject) :
    outcome message unit * DB M :=
  match dm_get_mut (data db) key with
  | None => (Ok tt, with_data db (dm_insert (data db) key (RedisObject.List (rev values))))
  | Some (entry, put) =>
      match entry with
      | RedisObject.List items =>
          let new_head := values ++ items in
          (Ok tt, with_data db (put (RedisObject.List new_head)))
      | RedisObject.String _ => (Err err_not_list_push, db)
      end
  end.

Definition rpush db (key : bytes) (values : list RedisObject) :
    outcome message unit * DB M :=
  match dm_get_mut (data db) key with
  | None => (Ok tt, with_data db (dm_insert (data db) key (RedisObject.List values)))
  | Some (entry, put) =>
      match entry with
      | RedisObject.List items => (Ok tt, with_data db (put (RedisObject.List (items ++ values))))
      | RedisObject.String _ => (Err err_not_list_push, db)
      end
  end.

(** [iter().enumerate().filter(|(idx, _)| idx >= lo && idx <= hi)] from index
    [idx] on. *)
Fixpoint filter_index {A} (lo hi idx : Z) (l : list A) : list A :=
  match l with
  | [] => []
  | v :: l =>
      if (lo <=? idx) && (idx <=? hi) then v :: filter_index lo hi (idx + 1) l
      else filter_index lo hi (idx + 1) l
  end.

(** [if i < 0 { i += list.len() as i32; }] *)
Definition resolve_index (n : Z) (i : Z) : outcome message Z :=
  if i <? 0 then i32_add i (as_i32 n) else Ok i.

Definition select_range {A} (vals : list A) (start stop : Z) : outcome message (list A) :=
  let? start := resolve_index (len vals) start in
  let? stop := resolve_index (len vals) stop in
  Ok (filter_index (as_usize start) (as_usize stop) 0 vals).

Definition lrange db (now : Instant) (key : bytes) (start stop : Z) :
    outcome message RedisObject * DB M :=
  match expire_lazily db now key with
  | (true, db) => (Ok nil_object, db)
  | (false, db) =>
      match dm_get (data db) key with
      | None => (Ok nil_object, db)
      | Some (RedisObject.List items) =>
          (let? vals := select_range items start stop in Ok (RedisObject.List vals), db)
      | Some (RedisObject.String _) => (Err err_not_list_range, db)
      end
  end.

Definition expire db (key : bytes) (expires_at : Instant) (opt_arg : option bytes) :
    outcome message unit * DB M :=
  if negb (dm_contains_key (data db) key) then (Err err_no_entry, db)
  else
    let update_expiry : outcome message bool :=
      match opt_arg with
      | Some opt =>
          if decide (opt = bs "NX") then Ok (negb (dm_contains_key (expirations db) key))
          else if decide (opt = bs "XX") then Ok (dm_contains_key (expirations db) key)
          else if decide (opt = bs "GT") then
            Ok (match dm_get (expirations db) key with
                | Some e => e <? expires_at | None => false end)
          else if decide (opt = bs "LT") then
            Ok (match dm_get (expirations db) key with
                | Some e => expires_at <? e | None => false end)
          else Err err_expire_option
      | None => Ok true
      end in
    match update_expiry with
    | Ok true => (Ok tt, with_expirations db (dm_insert (expirations db) key expires_at))
    | Ok false => (Ok tt, db)
    | Err e => (Err e, db)
    | Panic p => (Panic p, db)
    | Diverge => (Diverge, db)
    end.
End Operations.
