(* ===== verification/DatabaseSpec.v ===== *)
(** * What the database guarantees

    An abstract key-value store with expiry times ([kv], [spec_exec]) and the
    refinement of it by the two-map implementation; then the behaviour of the
    operations one by one: reading, expiry, ranges and pushes. *)
From S2P Require Import Prelude Ints DashMap Database.
Local Open Scope Z_scope.

(** ** The abstract store *)

(** A store maps a key to its value and the time it expires at, if any. *)
Definition kv : Type := bytes -> option (RedisObject * option Instant).

Definition kv_equiv (s1 s2 : kv) : Prop := forall k, s1 k = s2 k.

#[global] Instance kv_equiv_equivalence : Equivalence kv_equiv.
Proof.
  split; [by intros s k|by intros s1 s2 Hs k|]. intros s1 s2 s3 H1 H2 k. by rewrite H1, H2.
Qed.

Definition kv_empty : kv := fun _ => None.

Definition kv_update (s : kv) (k : bytes) (o : option (RedisObject * option Instant)) : kv :=
  fun k' => if decide (k = k') then o else s k'.

#[global] Instance kv_update_proper :
  Proper (kv_equiv ==> eq ==> eq ==> kv_equiv) kv_update.
Proof. intros s1 s2 Hs k ? <- o ? <- k'. unfold kv_update. case_decide; [done|apply Hs]. Qed.

Definition past (now : Instant) (e : option Instant) : bool :=
  match e with Some t => t <? now | None => false end.

(** The value of a key that has not expired. *)
Definition live (now : Instant) (s : kv) (k : bytes) : option RedisObject :=
  match s k with
  | Some (v, e) => if past now e then None else Some v
  | None => None
  end.

(** The store after an access to [k] at [now]: gone if it has expired. *)
Definition kv_touch (now : Instant) (s : kv) (k : bytes) : kv :=
  match s k with
  | Some (_, e) => if past now e then kv_update s k None else s
  | None => s
  end.

Definition expiry_allowed (opt : option bytes) (old : option Instant) (new : Instant) :
    outcome message bool :=
  match opt with
  | None => Ok true
  | Some o =>
      if decide (o = bs "NX") then Ok (bool_decide (old = None))
      else if decide (o = bs "XX") then Ok (bool_decide (old <> None))
      else if decide (o = bs "GT") then Ok (match old with Some e => e <? new | None => false end)
      else if decide (o = bs "LT") then Ok (match old with Some e => new <? e | None => false end)
      else Err err_expire_option
  end.

Inductive op : Type :=
| OpSet (k : bytes) (v : RedisObject) (e : option Instant)
| OpGet (k : bytes)
| OpDelete (k : bytes)
| OpLPush (k : bytes) (vs : list RedisObject)
| OpRPush (k : bytes) (vs : list RedisObject)
| OpLRange (k : bytes) (start stop : Z)
| OpExpire (k : bytes) (t : Instant) (opt : option bytes).

Inductive reply : Type :=
| Done
| Value (o : RedisObject).

Section Spec.
Context {M : Type -> Type} `{DashMapLaws M} `{BuildProfile}.
Implicit Types db : DB M.

(** What each operation does to the abstract store, at time [now]. *)
Definition spec_exec (now : Instant) (o : op) (s : kv) : outcome message reply * kv :=
  match o with
  | OpSet k v e => (Ok Done, kv_update s k (Some (v, e)))
  | OpGet k => (Ok (Value (default nil_object (live now s k))), kv_touch now s k)
  | OpDelete k => (Ok Done, kv_update s k None)
  | OpLPush k vs =>
      match s k with
      | None => (Ok Done, kv_update s k (Some (RedisObject.List (rev vs), None)))
      | Some (RedisObject.List l, e) => (Ok Done, kv_update s k (Some (RedisObject.List (vs ++ l), e)))
      | Some (RedisObject.String _, _) => (Err err_not_list_push, s)
      end
  | OpRPush k vs =>
      match s k with
      | None => (Ok Done, kv_update s k (Some (RedisObject.List vs, None)))
      | Some (RedisObject.List l, e) => (Ok Done, kv_update s k (Some (RedisObject.List (l ++ vs), e)))
      | Some (RedisObject.String _, _) => (Err err_not_list_push, s)
      end
  | OpLRange k a b =>
      (match live now s k with
       | None => Ok (Value nil_object)
       | Some (RedisObject.List l) =>
           let? vals := select_range l a b in Ok (Value (RedisObject.List vals))
       | Some (RedisObject.String _) => Err err_not_list_range
       end, kv_touch now s k)
  | OpExpire k t opt =>
      match s k with
      | None => (Err err_no_entry, s)
      | Some (v, e) =>
          match expiry_allowed opt e t with
          | Ok true => (Ok Done, kv_update s k (Some (v, Some t)))
          | Ok false => (Ok Done, s)
          | Err m => (Err m, s)
          | Panic p => (Panic p, s)
          | Diverge => (Diverge, s)
          end
      end
  end.

(** The same operations on the implementation. *)
Definition as_done (r : outcome message unit * DB M) : outcome message reply * DB M :=
  (let? _ := r.1 in Ok Done, r.2).
Definition as_value (r : outcome message RedisObject * DB M) : outcome message reply * DB M :=
  (let? o := r.1 in Ok (Value o), r.2).

Definition db_exec (now : Instant) (o : op) db : outcome message reply * DB M :=
  match o with
  | OpSet k v e => as_done (set db k v e)
  | OpGet k => as_value (get db now k)
  | OpDelete k => as_done (delete db k)
  | OpLPush k vs => as_done (lpush db k vs)
  | OpRPush k vs => as_done (rpush db k vs)
  | OpLRange k a b => as_value (lrange db now k a b)
  | OpExpire k t opt => as_done (expire db k t opt)
  end.

(** ** Invariant and abstraction *)

(** Every key with an expiry time has a value. *)
Definition db_wf db : Prop :=
  forall k, is_Some (dm_get (expirations db) k) -> is_Some (dm_get (data db) k).

Definition view db : kv := fun k =>
  match dm_get (data db) k with
  | Some v => Some (v, dm_get (expirations db) k)
  | None => None
  end.

Lemma new_in_memory_wf : db_wf (new_in_memory (M := M)).
Proof. intros k. simpl. rewrite !dm_get_new. by intros [? ?]. Qed.

Lemma view_new_in_memory : kv_equiv (view (new_in_memory (M := M))) kv_empty.
Proof. intros k. unfold view. simpl. by rewrite dm_get_new. Qed.

Lemma db_wf_None db k :
  db_wf db -> dm_get (data db) k = None -> dm_get (expirations db) k = None.
Proof.
  intros Hwf Hd. destruct (dm_get (expirations db) k) as [e|] eqn:E; [|done].
  destruct (Hwf k); [by eexists|congruence].
Qed.

(** Two-map updates seen through [view]. *)
Lemma view_lookup db k :
  dm_get (data db) k = fst <$> view db k.
Proof. unfold view. by destruct (dm_get (data db) k). Qed.

Ltac map_lookup :=
  rewrite ?dm_get_insert, ?dm_get_remove, ?dm_contains_key_get;
  repeat case_decide; subst; try done.

Lemma remove_both_wf db k :
  db_wf db -> db_wf (mkDB (dm_remove (data db) k) (dm_remove (expirations db) k)).
Proof. intros Hwf k'. simpl. map_lookup. apply Hwf. Qed.

Lemma view_remove_both db k :
  kv_equiv (view (mkDB (dm_remove (data db) k) (dm_remove (expirations db) k)))
           (kv_update (view db) k None).
Proof. intros k'. unfold view, kv_update. simpl. map_lookup. Qed.

Lemma insert_data_wf db k v : db_wf db -> db_wf (with_data db (dm_insert (data db) k v)).
Proof. intros Hwf k'. simpl. map_lookup. apply Hwf. Qed.

Lemma view_insert_data db k v :
  kv_equiv (view (with_data db (dm_insert (data db) k v)))
           (kv_update (view db) k (Some (v, dm_get (expirations db) k))).
Proof. intros k'. unfold view, kv_update. simpl. map_lookup. Qed.

Lemma insert_expiry_wf db k t :
  db_wf db -> is_Some (dm_get (data db) k) ->
  db_wf (with_expirations db (dm_insert (expirations db) k t)).
Proof. intros Hwf Hk k'. simpl. map_lookup. apply Hwf. Qed.

Lemma view_insert_expiry db k t v :
  dm_get (data db) k = Some v ->
  kv_equiv (view (with_expirations db (dm_insert (expirations db) k t)))
           (kv_update (view db) k (Some (v, Some t))).
Proof. intros Hk k'. unfold view, kv_update. simpl. map_lookup. by rewrite Hk. Qed.

(** States with the same entries. *)
Definition db_equiv db1 db2 : Prop :=
  dm_equiv (data db1) (data db2) /\ dm_equiv (expirations db1) (expirations db2).

#[local] Instance view_proper : Proper (db_equiv ==> kv_equiv) view.
Proof. intros db1 db2 [Hd He] k. unfold view. by rewrite (Hd k), (He k). Qed.

#[local] Instance db_wf_proper : Proper (db_equiv ==> iff) db_wf.
Proof.
  intros db1 db2 [Hd He]. unfold db_wf. split; intros Hwf k; specialize (Hwf k);
    [rewrite (Hd k), (He k) in Hwf|rewrite <- (Hd k), <- (He k) in Hwf]; done.
Qed.

Lemma with_data_equiv db d1 d2 : dm_equiv d1 d2 -> db_equiv (with_data db d1) (with_data db d2).
Proof. by split. Qed.

(** ** Refinement, operation by operation *)

(** An implementation step and an abstract step agree: the same reply, the
    invariant, and the same abstract state. *)
Definition refines (r : outcome message reply * DB M) (a : outcome message reply * kv) : Prop :=
  r.1 = a.1 /\ db_wf r.2 /\ kv_equiv (view r.2) a.2.

Lemma is_expired_past db now k :
  is_expired db now k = past now (dm_get (expirations db) k).
Proof. done. Qed.

(** Lazy expiration removes the key exactly when it has expired. *)
Lemma expire_lazily_spec db now k :
  db_wf db ->
  exists b db', expire_lazily db now k = (b, db') /\ db_wf db' /\
    kv_equiv (view db') (kv_touch now (view db) k) /\
    (if b then live now (view db) k = None
     else db' = db /\ live now (view db) k = dm_get (data db) k).
Proof.
  intros Hwf. unfold expire_lazily, kv_touch, live. rewrite is_expired_past.
  change (view db k) with (match dm_get (data db) k with
    | Some v => Some (v, dm_get (expirations db) k) | None => None end).
  destruct (dm_get (expirations db) k) as [e|] eqn:He.
  - destruct (Hwf k) as [v Hv]; [by eexists|]. rewrite Hv. cbn [past].
    destruct (e <? now) eqn:Hp.
    + do 2 eexists. split_and!; [done|exact (remove_both_wf db k Hwf)|exact (view_remove_both db k)|done].
    + by do 2 eexists.
  - exists false, db. by destruct (dm_get (data db) k).
Qed.

Lemma set_refines now k v e db :
  db_wf db -> refines (db_exec now (OpSet k v e) db) (spec_exec now (OpSet k v e) (view db)).
Proof.
  intros Hwf. split_and!; [done| |]; destruct e as [t|]; intros k'; simpl;
    unfold view, kv_update; simpl; map_lookup; apply Hwf.
Qed.

Lemma delete_refines now k db :
  db_wf db -> refines (db_exec now (OpDelete k) db) (spec_exec now (OpDelete k) (view db)).
Proof. intros Hwf. split_and!; [done|exact (remove_both_wf db k Hwf)|exact (view_remove_both db k)]. Qed.

Lemma get_refines now k db :
  db_wf db -> refines (db_exec now (OpGet k) db) (spec_exec now (OpGet k) (view db)).
Proof.
  intros Hwf. simpl. unfold get.
  destruct (expire_lazily_spec db now k Hwf) as (b & db' & -> & Hwf' & Hv & Hb).
  destruct b; simpl.
  - rewrite Hb. by split_and!.
  - destruct Hb as [-> ->]. by destruct (dm_get (data db) k); split_and!.
Qed.

Lemma lrange_refines now k a b db :
  db_wf db -> refines (db_exec now (OpLRange k a b) db) (spec_exec now (OpLRange k a b) (view db)).
Proof.
  intros Hwf. simpl. unfold lrange.
  destruct (expire_lazily_spec db now k Hwf) as (x & db' & -> & Hwf' & Hv & Hb).
  destruct x; simpl.
  - rewrite Hb. by split_and!.
  - destruct Hb as [-> ->]. destruct (dm_get (data db) k) as [[s|l]|]; split_and!; try done.
    simpl. by destruct (select_range l a b).
Qed.

(** A push through [get_mut]. *)
Lemma put_refines db k v put v' :
  db_wf db -> dm_get (data db) k = Some v ->
  (forall u, dm_equiv (put u) (dm_insert (data db) k u)) ->
  refines (Ok Done, with_data db (put v'))
          (Ok Done, kv_update (view db) k (Some (v', dm_get (expirations db) k))).
Proof.
  intros Hwf Hv Hput. split_and!; simpl; [done| |].
  - rewrite (with_data_equiv db _ _ (Hput v')). by apply insert_data_wf.
  - rewrite (with_data_equiv db _ _ (Hput v')). apply view_insert_data.
Qed.

Lemma push_new_refines db k v' :
  db_wf db -> dm_get (data db) k = None ->
  refines (Ok Done, with_data db (dm_insert (data db) k v'))
          (Ok Done, kv_update (view db) k (Some (v', None))).
Proof.
  intros Hwf Hd. split_and!; simpl; [done|by apply insert_data_wf|].
  rewrite view_insert_data. by rewrite (db_wf_None db k Hwf Hd).
Qed.

Lemma lpush_refines now k vs db :
  db_wf db -> refines (db_exec now (OpLPush k vs) db) (spec_exec now (OpLPush k vs) (view db)).
Proof.
  intros Hwf. simpl. unfold lpush. unfold view at 1.
  destruct (dm_get (data db) k) as [v|] eqn:Hd.
  - destruct (dm_get_mut_Some _ _ _ _ Hd) as (put & -> & Hput).
    destruct v; [done|]. by eapply put_refines.
  - rewrite dm_get_mut_None by done. by apply push_new_refines.
Qed.

Lemma rpush_refines now k vs db :
  db_wf db -> refines (db_exec now (OpRPush k vs) db) (spec_exec now (OpRPush k vs) (view db)).
Proof.
  intros Hwf. simpl. unfold rpush. unfold view at 1.
  destruct (dm_get (data db) k) as [v|] eqn:Hd.
  - destruct (dm_get_mut_Some _ _ _ _ Hd) as (put & -> & Hput).
    destruct v; [done|]. by eapply put_refines.
  - rewrite dm_get_mut_None by done. by apply push_new_refines.
Qed.

Lemma expire_refines now k t opt db :
  db_wf db -> refines (db_exec now (OpExpire k t opt) db) (spec_exec now (OpExpire k t opt) (view db)).
Proof.
  intros Hwf. simpl. unfold expire. unfold view at 1. rewrite !dm_contains_key_get.
  destruct (dm_get (data db) k) as [v|] eqn:Hd; [|done].
  rewrite bool_decide_eq_true_2 by eauto. simpl.
  assert (Hyes : refines (Ok Done, with_expirations db (dm_insert (expirations db) k t))
      (Ok Done, kv_update (view db) k (Some (v, Some t)))).
  { split_and!; [done|apply insert_expiry_wf; [done|by eexists]|by apply view_insert_expiry]. }
  assert (Hno : refines (Ok Done, db) (Ok Done, view db)) by done.
  unfold expiry_allowed. destruct opt as [o|]; [|done].
  destruct (dm_get (expirations db) k) as [e|];
    repeat first [case_decide|case_bool_decide]; simpl; try done;
    repeat case_match; try done; try (by exfalso; eauto).
Qed.

Lemma exec_refines now o db :
  db_wf db -> refines (db_exec now o db) (spec_exec now o (view db)).
Proof.
  intros Hwf. destruct o.
  - by apply set_refines.
  - by apply get_refines.
  - by apply delete_refines.
  - by apply lpush_refines.
  - by apply rpush_refines.
  - by apply lrange_refines.
  - by apply expire_refines.
Qed.

Lemma live_proper now s1 s2 k : kv_equiv s1 s2 -> live now s1 k = live now s2 k.
Proof. intros Hs. unfold live. by rewrite (Hs k). Qed.

#[local] Instance kv_touch_proper : Proper (eq ==> kv_equiv ==> eq ==> kv_equiv) kv_touch.
Proof.
  intros now ? <- s1 s2 Hs k ? <-. unfold kv_touch. rewrite (Hs k).
  destruct (s2 k) as [[v e]|]; [|done]. destruct (past now e); [|done]. by rewrite Hs.
Qed.

(** The abstract operations respect equality of stores. *)
Lemma spec_exec_proper now o s1 s2 :
  kv_equiv s1 s2 ->
  (spec_exec now o s1).1 = (spec_exec now o s2).1 /\
  kv_equiv (spec_exec now o s1).2 (spec_exec now o s2).2.
Proof.
  intros Hs. destruct o as [k v e|k|k|k vs|k vs|k a b|k t opt]; simpl;
    rewrite ?(Hs k), ?(live_proper now s1 s2 k Hs).
  - by rewrite Hs.
  - by rewrite Hs.
  - by rewrite Hs.
  - destruct (s2 k) as [[[s|l] e]|]; simpl; [done|by rewrite Hs..].
  - destruct (s2 k) as [[[s|l] e]|]; simpl; [done|by rewrite Hs..].
  - by rewrite Hs.
  - destruct (s2 k) as [[v e]|]; [|done].
    destruct (expiry_allowed opt e t) as [[]| | |]; simpl; [by rewrite Hs|done..].
Qed.

(** ** Sequences of operations *)

Fixpoint db_run (tr : list (Instant * op)) db : list (outcome message reply) * DB M :=
  match tr with
  | [] => ([], db)
  | (now, o) :: tr =>
      let '(r, db) := db_exec now o db in
      let '(rs, db) := db_run tr db in
      (r :: rs, db)
  end.

Fixpoint spec_run (tr : list (Instant * op)) (s : kv) : list (outcome message reply) * kv :=
  match tr with
  | [] => ([], s)
  | (now, o) :: tr =>
      let '(r, s) := spec_exec now o s in
      let '(rs, s) := spec_run tr s in
      (r :: rs, s)
  end.

Lemma run_refines tr db s :
  db_wf db -> kv_equiv (view db) s ->
  (db_run tr db).1 = (spec_run tr s).1 /\ db_wf (db_run tr db).2 /\
  kv_equiv (view (db_run tr db).2) (spec_run tr s).2.
Proof.
  revert db s. induction tr as [|[now o] tr IH]; intros db s Hwf Hs; [done|]. simpl.
  destruct (exec_refines now o db Hwf) as (Hr & Hwf' & Hv).
  destruct (spec_exec_proper now o _ _ Hs) as [Hr2 Hs2].
  destruct (db_exec now o db) as [r db'], (spec_exec now o (view db)) as [r1 s1],
    (spec_exec now o s) as [r2 s2]. simpl in *. subst.
  destruct (IH db' s2 Hwf') as (H1' & H2' & H3'); [by rewrite Hv|].
  destruct (db_run tr db') as [rs db''], (spec_run tr s2) as [rs2 s3]. simpl in *.
  by subst.
Qed.

(** ** Ranges *)

Lemma filter_index_spec {A} lo hi idx (l : list A) :
  filter_index lo hi idx l =
    take (Z.to_nat (hi + 1 - Z.max lo idx)) (drop (Z.to_nat (lo - idx)) l).
Proof.
  revert idx. induction l as [|v l IH]; intros idx; simpl filter_index.
  - by rewrite drop_nil, take_nil.
  - rewrite IH. destruct (Z.leb_spec lo idx); simpl.
    + replace (Z.to_nat (lo - idx)) with 0%nat by lia.
      replace (Z.to_nat (lo - (idx + 1))) with 0%nat by lia. rewrite !drop_0.
      destruct (Z.leb_spec idx hi).
      * replace (Z.to_nat (hi + 1 - Z.max lo idx))
          with (S (Z.to_nat (hi + 1 - Z.max lo (idx + 1)))) by lia. done.
      * replace (Z.to_nat (hi + 1 - Z.max lo (idx + 1))) with 0%nat by lia.
        by replace (Z.to_nat (hi + 1 - Z.max lo idx)) with 0%nat by lia.
    + replace (Z.to_nat (lo - idx)) with (S (Z.to_nat (lo - (idx + 1)))) by lia.
      simpl. f_equal. lia.
Qed.

(** An index counted from the end when negative. *)
Definition from_end (n i : Z) : Z := if i <? 0 then i + n else i.

Lemma resolve_index_ok n i :
  0 <= n <= i32_max -> is_i32 i -> resolve_index n i = Ok (from_end n i).
Proof.
  intros Hn Hi. unfold resolve_index, from_end. destruct (Z.ltb_spec i 0); [|done].
  rewrite as_i32_small by (unfold is_i32, i32_min in *; lia).
  apply i32_add_ok. unfold is_i32, i32_min, i32_max in *. lia.
Qed.

Lemma from_end_usize n i :
  0 <= n <= i32_max -> is_i32 i ->
  as_usize (from_end n i) =
    if from_end n i <? 0 then from_end n i + 2 ^ 64 else from_end n i.
Proof.
  intros Hn Hi. unfold from_end, is_i32, i32_min, i32_max in *.
  destruct (Z.ltb_spec i 0); case_match eqn:Hc;
    [apply Z.ltb_lt in Hc; apply as_usize_neg; lia
    |apply Z.ltb_ge in Hc; apply as_usize_nonneg; unfold usize_max, u64_max; lia
    |apply Z.ltb_lt in Hc; lia
    |apply as_usize_nonneg; unfold usize_max, u64_max; lia].
Qed.

Lemma select_range_spec {A} (l : list A) start stop :
  len l <= i32_max -> is_i32 start -> is_i32 stop ->
  let s := from_end (len l) start in let e := from_end (len l) stop in
  select_range l start stop =
    Ok (if s <? 0 then []
        else if e <? 0 then drop (Z.to_nat s) l
        else take (Z.to_nat (e + 1 - s)) (drop (Z.to_nat s) l)).
Proof.
  intros Hl Hs He s e. pose proof (len_nonneg l) as Hn. unfold select_range.
  rewrite !resolve_index_ok by done. cbn [obind]. fold s e.
  rewrite filter_index_spec. unfold s, e. rewrite !from_end_usize by done. fold s e.
  assert (Hsr : - 2 ^ 32 <= s <= 2 ^ 32 /\ - 2 ^ 32 <= e <= 2 ^ 32).
  { unfold s, e, from_end, is_i32, i32_min, i32_max in *.
    destruct (start <? 0), (stop <? 0); lia. }
  unfold i32_max in *. f_equal.
  destruct (Z.ltb_spec s 0).
  - rewrite drop_ge by (unfold len in *; lia). apply take_nil.
  - rewrite !Z.sub_0_r, Z.max_l by lia. destruct (Z.ltb_spec e 0); [|done].
    apply take_ge. rewrite length_drop. unfold len in *. lia.
Qed.

(** [LRANGE] as Redis documents it: an index below the first element counts
    as the first for the start, and selects nothing for the stop. *)
Definition redis_range {A} (l : list A) (start stop : Z) : list A :=
  let s := Z.max 0 (from_end (len l) start) in
  let e := from_end (len l) stop in
  take (Z.to_nat (e + 1 - s)) (drop (Z.to_nat s) l).

Lemma select_range_redis {A} (l : list A) start stop :
  len l <= i32_max -> is_i32 start -> is_i32 stop -> - len l <= start -> - len l <= stop ->
  select_range l start stop = Ok (redis_range l start stop).
Proof.
  intros Hl Hs He Hs' He'. rewrite select_range_spec by done. unfold redis_range.
  assert (Hn : forall i, - len l <= i -> 0 <= from_end (len l) i).
  { intros i Hi. unfold from_end. destruct (Z.ltb_spec i 0); lia. }
  pose proof (Hn _ Hs') as Hns. pose proof (Hn _ He') as Hne.
  rewrite Z.max_r by done. by rewrite !(proj2 (Z.ltb_ge _ _)) by done.
Qed.

(** ** Reads *)

Lemma kv_touch_live now later s k k' :
  now <= later -> live later (kv_touch now s k) k' = live later s k'.
Proof.
  intros Hle. unfold kv_touch, live. destruct (s k) as [[v e]|] eqn:Hk; [|done].
  destruct (past now e) eqn:Hp; [|done]. unfold kv_update. case_decide; [subst|done].
  rewrite Hk. destruct e as [t|]; [|done]. simpl in *.
  apply Z.ltb_lt in Hp. by rewrite (proj2 (Z.ltb_lt _ _)) by lia.
Qed.

(** ** Pushes *)

(** [LPUSH key v] once per value. *)
Fixpoint lpush_each db (k : bytes) (vs : list RedisObject) : DB M :=
  match vs with
  | [] => db
  | v :: vs => lpush_each (lpush db k [v]).2 k vs
  end.

Lemma lpush_existing db k l vs :
  dm_get (data db) k = Some (RedisObject.List l) ->
  (lpush db k vs).1 = Ok tt /\
  dm_get (data (lpush db k vs).2) k = Some (RedisObject.List (vs ++ l)).
Proof.
  intros Hk. unfold lpush. destruct (dm_get_mut_Some _ _ _ _ Hk) as (put & -> & Hput).
  simpl. split; [done|]. rewrite (Hput _ k), dm_get_insert. by case_decide.
Qed.

Lemma lpush_new db k vs :
  dm_get (data db) k = None ->
  (lpush db k vs).1 = Ok tt /\
  dm_get (data (lpush db k vs).2) k = Some (RedisObject.List (rev vs)).
Proof.
  intros Hk. unfold lpush. rewrite dm_get_mut_None by done. simpl. split; [done|].
  rewrite dm_get_insert. by case_decide.
Qed.

Lemma lpush_each_existing db k l vs :
  dm_get (data db) k = Some (RedisObject.List l) ->
  dm_get (data (lpush_each db k vs)) k = Some (RedisObject.List (rev vs ++ l)).
Proof.
  revert db l. induction vs as [|v vs IH]; intros db l Hk; [done|]. simpl.
  rewrite (IH _ (v :: l)); [by rewrite <- (assoc_L (++))|].
  by apply (lpush_existing db k l [v]).
Qed.

(** ** Properties *)

(** C3: The database refines the abstract store: started in any state where
    every expiry time belongs to a stored key, a sequence of [set], [get],
    [delete], [lpush], [rpush], [lrange] and [expire] calls at any times returns
    the replies of the abstract store, keeps that invariant, and ends in the
    abstract store's state. *)
Theorem db_refines_kv tr db :
  db_wf db ->
  (db_run tr db).1 = (spec_run tr (view db)).1 /\ db_wf (db_run tr db).2 /\
  kv_equiv (view (db_run tr db).2) (spec_run tr (view db)).2.
Proof. intros Hwf. by apply run_refines. Qed.

(** C24: Lazy expiration cannot be observed: a [get] or [lrange] at time [now],
    which may delete an expired key, changes the unexpired value of no key at
    [now] or at any later time. *)
Theorem reads_preserve_live_values db now later k start stop k' :
  db_wf db -> now <= later ->
  live later (view (get db now k).2) k' = live later (view db) k' /\
  live later (view (lrange db now k start stop).2) k' = live later (view db) k'.
Proof.
  intros Hwf Hle.
  destruct (get_refines now k db Hwf) as (_ & _ & Hg).
  destruct (lrange_refines now k start stop db Hwf) as (_ & _ & Hr).
  simpl in Hg, Hr. rewrite (live_proper later _ _ k' Hg), (live_proper later _ _ k' Hr).
  by rewrite kv_touch_live.
Qed.

(** A [get] after a [set] of the same key returns the value set until the
    expiry time given with it and [nil] after it, whatever the key held before
    and whatever expiry it had; a [set] leaves every other key as it was. *)
Theorem get_after_set db k v e now k' :
  (get (set db k v e).2 now k).1 = Ok (if past now e then nil_object else v) /\
  (k' <> k -> view (set db k v e).2 k' = view db k').
Proof.
  split.
  - unfold get, expire_lazily. rewrite is_expired_past.
    assert (He : dm_get (expirations (set db k v e).2) k = e).
    { destruct e; simpl; map_lookup. }
    assert (Hd : dm_get (data (set db k v e).2) k = Some v).
    { destruct e; simpl; map_lookup. }
    rewrite He. destruct e as [t|]; cbn [past].
    + destruct (t <? now); [done|]. by rewrite Hd.
    + by rewrite Hd.
  - intros Hne. unfold view. destruct e; simpl; map_lookup.
Qed.

(** C25: [LRANGE] on a list of up to [i32::MAX] elements never panics or
    overflows and selects the contiguous elements from start to stop, negative
    indices counted from the end, exactly as Redis does, for all indices that
    are not below the first element of the list. *)
Theorem lrange_selects_range db now k l start stop :
  live now (view db) k = Some (RedisObject.List l) -> db_wf db ->
  len l <= i32_max -> is_i32 start -> is_i32 stop ->
  - len l <= start -> - len l <= stop ->
  (lrange db now k start stop).1 = Ok (RedisObject.List (redis_range l start stop)).
Proof.
  intros Hlive Hwf Hl Hs He Hs' He'. unfold lrange.
  destruct (expire_lazily_spec db now k Hwf) as (b & db' & -> & _ & _ & Hb).
  destruct b; [congruence|]. destruct Hb as [-> Hb]. rewrite <- Hb, Hlive. simpl.
  by rewrite select_range_redis.
Qed.

(** For an index below the first element [LRANGE] departs from Redis: a
    stop before the list selects every element from the start on, where Redis
    selects none, and a start before the list selects nothing, where Redis
    starts at the first element. *)
Theorem lrange_index_below_list {A} (l : list A) stop start :
  l <> [] -> len l <= i32_max -> is_i32 stop -> stop < - len l -> is_i32 start -> start < - len l ->
  select_range l 0 stop = Ok l /\ redis_range l 0 stop = [] /\
  select_range l start (-1) = Ok [] /\ redis_range l start (-1) = l.
Proof.
  intros Hne Hl Hst Hlt Hsa Hlt'.
  assert (Hpos : 0 < len l) by (pose proof (len_nonneg l); destruct (decide (len l = 0)) as [Hz|];
    [by apply len_zero in Hz|lia]).
  assert (H01 : is_i32 0 /\ is_i32 (-1)) by (unfold is_i32, i32_min, i32_max; lia).
  rewrite !select_range_spec by tauto. unfold redis_range, from_end. simpl.
  rewrite !(proj2 (Z.ltb_lt stop _)), !(proj2 (Z.ltb_lt start _)) by lia.
  rewrite !(proj2 (Z.ltb_lt (_ + len l) _)) by lia. split_and!; [done| |done|].
  - rewrite Z.max_l by lia. by replace (Z.to_nat (stop + len l + 1 - 0)) with 0%nat by lia.
  - rewrite Z.max_l by lia. replace (Z.to_nat (-1 + len l + 1 - 0)) with (length l) by (unfold len; lia).
    simpl. by rewrite drop_0, firstn_all.
Qed.

(** C13: [LPUSH] of several values depends on whether the list exists: on a
    new key they end up reversed, as when pushed one by one, but on an existing
    list they are prepended in the order given, which differs from pushing them
    one by one. *)
Theorem lpush_order db k l v1 v2 vs :
  dm_get (data db) k = Some (RedisObject.List l) ->
  dm_get (data (lpush db k (v1 :: v2 :: vs)).2) k = Some (RedisObject.List (v1 :: v2 :: vs ++ l)) /\
  dm_get (data (lpush_each db k (v1 :: v2 :: vs))) k
    = Some (RedisObject.List (rev (v1 :: v2 :: vs) ++ l)) /\
  (forall db0, dm_get (data db0) k = None ->
     dm_get (data (lpush db0 k (v1 :: v2 :: vs)).2) k = Some (RedisObject.List (rev (v1 :: v2 :: vs))) /\
     dm_get (data (lpush_each db0 k (v1 :: v2 :: vs))) k
       = Some (RedisObject.List (rev (v1 :: v2 :: vs)))).
Proof.
  intros Hk. split_and!.
  - by apply (lpush_existing db k l (v1 :: v2 :: vs)).
  - by apply lpush_each_existing.
  - intros db0 Hnew. split; [by apply lpush_new|]. cbn [lpush_each].
    apply (lpush_each_existing _ k [v1] (v2 :: vs)). by apply (lpush_new db0 k [v1]).
Qed.

(** The options of [EXPIRE] on a stored key: with an expiry [e] in place,
    [NX] keeps it, [XX] replaces it, [GT] keeps the later and [LT] the earlier of
    the two; without one, [NX] sets it and [XX], [GT] and [LT] leave the key
    persistent; no option always replaces it. The value is never touched. *)
Theorem expire_options db k v t :
  dm_get (data db) k = Some v ->
  let after opt := dm_get (expirations (expire db k t opt).2) k in
  after None = Some t /\
  (forall e, dm_get (expirations db) k = Some e ->
     after (Some (bs "NX")) = Some e /\ after (Some (bs "XX")) = Some t /\
     after (Some (bs "GT")) = Some (Z.max e t) /\ after (Some (bs "LT")) = Some (Z.min e t)) /\
  (dm_get (expirations db) k = None ->
     after (Some (bs "NX")) = Some t /\ after (Some (bs "XX")) = None /\
     after (Some (bs "GT")) = None /\ after (Some (bs "LT")) = None) /\
  (forall opt, data (expire db k t opt).2 = data db).
Proof.
  intros Hk after. unfold after, expire. rewrite !dm_contains_key_get.
  rewrite bool_decide_eq_true_2 by (rewrite Hk; eauto). simpl.
  split_and!.
  - map_lookup.
  - intros e He. rewrite He. rewrite bool_decide_eq_true_2 by eauto. simpl.
    split_and!; [done|map_lookup| |]; destruct (Z.ltb_spec e t), (Z.ltb_spec t e);
      simpl; map_lookup; rewrite ?He; f_equal; lia.
  - intros He. rewrite He. rewrite bool_decide_eq_false_2 by (by intros [? ?]). simpl.
    split_and!; [map_lookup|done..].
  - intros opt. by repeat case_match.
Qed.

(** Neither [LPUSH] nor [RPUSH] looks at the expiry of the key: values
    pushed onto a list that has expired are accepted and then lost with it at
    the next read. *)
Theorem push_to_expired_key_is_lost db k l e vs now :
  dm_get (data db) k = Some (RedisObject.List l) -> dm_get (expirations db) k = Some e ->
  e < now ->
  (rpush db k vs).1 = Ok tt /\ (get (rpush db k vs).2 now k).1 = Ok nil_object /\
  (lpush db k vs).1 = Ok tt /\ (get (lpush db k vs).2 now k).1 = Ok nil_object.
Proof.
  intros Hk He Hlt. unfold rpush, lpush.
  destruct (dm_get_mut_Some _ _ _ _ Hk) as (put & -> & Hput). simpl.
  unfold get, expire_lazily. rewrite !is_expired_past. simpl. rewrite He. simpl.
  by rewrite (proj2 (Z.ltb_lt _ _)).
Qed.
End Spec.

(** ** Witnesses *)

Module DatabaseWitness.
#[export] Existing Instance release_profile.

Notation memdb := (DB (gmap bytes)).

Definition str (s : bytes) : RedisObject := RedisObject.String s.

(** A database with a list that expires at 100 and a string that does not. *)
Definition db0 : memdb :=
  (set (set (new_in_memory (M := gmap bytes)) (bs "l")
         (RedisObject.List [str (bs "a"); str (bs "b"); str (bs "c")]) (Some 100)).2
       (bs "s") (str (bs "x")) None).2.

Lemma db0_wf : db_wf db0.
Proof.
  intros k [t Ht]. unfold db0 in *. simpl in *.
  rewrite lookup_delete in Ht. case_decide; [done|]. rewrite lookup_insert in Ht.
  case_decide; subst.
  - rewrite lookup_insert_ne by done. rewrite lookup_insert_eq. by eexists.
  - by rewrite lookup_delete in Ht; case_decide.
Qed.

Definition trace : list (Instant * op) :=
  [(1, OpGet (bs "l")); (50, OpRPush (bs "l") [str (bs "d")]);
   (60, OpLRange (bs "l") (-2) (-1)); (101, OpLRange (bs "l") 0 (-1));
   (102, OpExpire (bs "s") 500 (Some (bs "GT"))); (103, OpGet (bs "s"));
   (104, OpLPush (bs "s") []); (105, OpDelete (bs "s")); (106, OpGet (bs "s"))].

Lemma db_refines_kv_witness :
  (spec_run trace (view db0)).1 =
    [Ok (Value (RedisObject.List [str (bs "a"); str (bs "b"); str (bs "c")])); Ok Done;
     Ok (Value (RedisObject.List [str (bs "c"); str (bs "d")])); Ok (Value nil_object);
     Ok Done; Ok (Value (str (bs "x"))); Err err_not_list_push; Ok Done; Ok (Value nil_object)].
Proof.
  destruct (db_refines_kv trace db0 db0_wf) as (Hr & _ & _).
  rewrite <- Hr. vm_compute. reflexivity.
Defined.

Lemma reads_preserve_live_values_witness :
  live 300 (view (get db0 200 (bs "l")).2) (bs "s") = Some (str (bs "x")).
Proof.
  destruct (reads_preserve_live_values db0 200 300 (bs "l") 0 0 (bs "s") db0_wf) as [H1 _].
  - lia.
  - rewrite H1. by vm_compute.
Defined.

Lemma get_after_set_witness :
  (get (set db0 (bs "l") (str (bs "v")) (Some 10)).2 11 (bs "l")).1 = Ok nil_object /\
  view (set db0 (bs "l") (str (bs "v")) (Some 10)).2 (bs "s") = Some (str (bs "x"), None).
Proof.
  destruct (get_after_set db0 (bs "l") (str (bs "v")) (Some 10) 11 (bs "s")) as [H1 H2].
  split; [by rewrite H1|]. rewrite H2 by done. by vm_compute.
Defined.

Lemma lrange_selects_range_witness :
  (lrange db0 50 (bs "l") (-2) 7).1 = Ok (RedisObject.List [str (bs "b"); str (bs "c")]).
Proof.
  rewrite (lrange_selects_range db0 50 (bs "l") [str (bs "a"); str (bs "b"); str (bs "c")]);
    [by vm_compute|by vm_compute|exact db0_wf|by vm_compute..].
Defined.

Lemma lrange_index_below_list_witness :
  select_range [1; 2; 3] 0 (-100) = Ok [1; 2; 3] /\ redis_range [1; 2; 3] 0 (-100) = [].
Proof.
  destruct (lrange_index_below_list [1; 2; 3] (-100) (-100)) as (H1 & H2 & _);
    by vm_compute.
Defined.

Lemma lpush_order_witness :
  dm_get (data (lpush db0 (bs "l") [str (bs "y"); str (bs "z")]).2) (bs "l") =
    Some (RedisObject.List [str (bs "y"); str (bs "z"); str (bs "a"); str (bs "b"); str (bs "c")]) /\
  dm_get (data (lpush_each db0 (bs "l") [str (bs "y"); str (bs "z")])) (bs "l") =
    Some (RedisObject.List [str (bs "z"); str (bs "y"); str (bs "a"); str (bs "b"); str (bs "c")]).
Proof.
  destruct (lpush_order db0 (bs "l") [str (bs "a"); str (bs "b"); str (bs "c")]
    (str (bs "y")) (str (bs "z")) []) as (H1 & H2 & _); [by vm_compute|].
  by rewrite H1, H2.
Defined.

Lemma expire_options_witness :
  dm_get (expirations (expire db0 (bs "l") 70 (Some (bs "LT"))).2) (bs "l") = Some 70.
Proof.
  destruct (expire_options db0 (bs "l") (RedisObject.List [str (bs "a"); str (bs "b"); str (bs "c")]) 70)
    as (_ & Hsome & _ & _); [by vm_compute|].
  destruct (Hsome 100) as (_ & _ & _ & HLT); [by vm_compute|]. exact HLT.
Defined.

Lemma push_to_expired_key_is_lost_witness :
  (get (rpush db0 (bs "l") [str (bs "d")]).2 101 (bs "l")).1 = Ok nil_object.
Proof.
  apply (push_to_expired_key_is_lost db0 (bs "l") [str (bs "a"); str (bs "b"); str (bs "c")] 100);
    [by vm_compute..|lia].
Defined.
End DatabaseWitness.
