(* ===== verification/Command.v ===== *)
(** * Commands (src/src/command/command.rs, src/src/utils/mod.rs)

    The type [Command], [parse_int], and the translation of a RESP request
    into a command, [extract_command] and [parse_command], with its error
    messages and its panics: [args[i]] out of range, [* 1000] on an [i32], and
    an instant out of range. [now] is [Instant::now()] at the call. *)
From S2P Require Import Prelude Ints Utf8 RespTypes DashMap.
Local Open Scope Z_scope.

Inductive Command : Type :=
| PING
| ECHO (msg : bytes)
| SET (key val : bytes) (expires_at : option Instant)
| GET (key : bytes)
| DELETE (key : bytes)
| LPUSH (key : bytes) (values : list bytes)
| RPUSH (key : bytes) (values : list bytes)
| LRANGE (key : bytes) (start stop : Z)
| EXPIRE (key : bytes) (expires_at : Instant) (opt : option bytes)
| MULTI
| DISCARD
| EXEC
| SAVE.

#[global] Instance Command_eq_dec : EqDecision Command.
Proof. solve_decision. Defined.

(** [s.trim().parse::<i32>().unwrap_or(0)] *)
Definition parse_int (s : bytes) : Z := default 0 (parse_i32 (trim s)).

(** The payloads of the bulk strings among the arguments; the loops of
    [LPUSH] and [RPUSH] skip the other types. *)
Fixpoint bulk_strings (args : list RespType) : list bytes :=
  match args with
  | [] => []
  | BulkString s :: args => s :: bulk_strings args
  | _ :: args => bulk_strings args
  end.

Section Parse.
Context `{BuildProfile}.

(** [Instant::now() + Duration::from_millis(exp as u64)] *)
Definition expiry_instant (now : Instant) (millis : Z) : outcome bytes Instant :=
  time_add now (from_millis (as_u64 millis)).

(** The [SET] arm of [parse_command]. *)
Definition parse_set (now : Instant) (args : list RespType) : outcome bytes Command :=
  if (length args <? 2)%nat then Err (bs "SET command requires two arguments.")
  else
    let? a0 := index args 0 in
    let? a1 := index args 1 in
    match a0, a1 with
    | BulkString k, BulkString v =>
        if (length args <? 4)%nat then Ok (SET k v None)
        else
          let? a2 := index args 2 in
          let? a3 := index args 3 in
          let? expires_in_millis :=
            match a2, a3 with
            | BulkString flag, BulkString expires_in =>
                let expires_in_int := parse_int expires_in in
                if decide (to_ascii_uppercase flag = bs "EX") then
                  let? ms := i32_mul expires_in_int 1000 in Ok (Some ms)
                else if decide (to_ascii_uppercase flag = bs "PX") then
                  Ok (Some expires_in_int)
                else Err (bs "Invalid expiry flag. Only EX and PX are supported.")
            | _, _ =>
                Err (bs "Invalid SET command format for expiry. Expected EX or PX followed by expiry time.")
            end in
          let? expires_at :=
            match expires_in_millis with
            | Some exp => let? t := expiry_instant now exp in Ok (Some t)
            | None => Ok None
            end in
          Ok (SET k v expires_at)
    | _, _ => Err (bs "SET arguments must be bulk strings.")
    end.

(** The [EXPIRE] arm of [parse_command]. *)
Definition parse_expire (now : Instant) (args : list RespType) : outcome bytes Command :=
  let? a0 := index args 0 in
  let? a1 := index args 1 in
  match a0, a1 with
  | BulkString k, BulkString expires_in =>
      let? opt :=
        if (2 <? length args)%nat then
          let? a2 := index args 2 in
          match a2 with
          | BulkString opt =>
              if decide (opt ∈ [bs "NX"; bs "XX"; bs "GT"; bs "LT"]) then Ok (Some opt)
              else Err (bs "Invalid option in expire command. Only NX, XX, GT, LT are supported.")
          | _ => Err (bs "Invalid option format in expire command. Expected a bulk string.")
          end
        else Ok None in
      let expires_in_int := parse_int expires_in in
      let? expires_at := expiry_instant now expires_in_int in
      Ok (EXPIRE k expires_at opt)
  | _, _ => Err (bs "EXPIRE command requires an argument.")
  end.

(** The [LRANGE] arm of [parse_command]. *)
Definition parse_lrange (args : list RespType) : outcome bytes Command :=
  let? a0 := index args 0 in
  let? a1 := index args 1 in
  let? a2 := index args 2 in
  match a0, a1, a2 with
  | BulkString key, BulkString start, BulkString stop =>
      let start_int := parse_int start in
      let stop_int := parse_int stop in
      Ok (LRANGE key start_int stop_int)
  | _, _, _ => Err (bs "LRANGE command requires an argument.")
  end.

(** The arms that take one bulk string, or one and a list of values. *)
Definition parse_keyed (args : list RespType) (mk : bytes -> Command) (err : bytes) :
    outcome bytes Command :=
  let? a0 := index args 0 in
  match a0 with
  | BulkString k => Ok (mk k)
  | _ => Err err
  end.

Definition parse_command (now : Instant) (cmd : bytes) (args : list RespType) :
    outcome bytes Command :=
  if decide (cmd = bs "PING") then Ok PING
  else if decide (cmd = bs "ECHO") then
    parse_keyed args ECHO (bs "ECHO command requires an argument.")
  else if decide (cmd = bs "SET") then parse_set now args
  else if decide (cmd = bs "GET") then
    parse_keyed args GET (bs "GET command requires an argument.")
  else if decide (cmd = bs "DELETE") then
    parse_keyed args DELETE (bs "DELETE command requires an argument.")
  else if decide (cmd = bs "LPUSH") then
    parse_keyed args (fun k => LPUSH k (bulk_strings (drop 1 args)))
      (bs "LPUSH command requires an argument.")
  else if decide (cmd = bs "RPUSH") then
    parse_keyed args (fun k => RPUSH k (bulk_strings (drop 1 args)))
      (bs "RPUSH command requires an argument.")
  else if decide (cmd = bs "LRANGE") then parse_lrange args
  else if decide (cmd = bs "EXPIRE") then parse_expire now args
  else if decide (cmd = bs "MULTI") then Ok MULTI
  else if decide (cmd = bs "DISCARD") then Ok DISCARD
  else if decide (cmd = bs "EXEC") then Ok EXEC
  else if decide (cmd = bs "SAVE") then Ok SAVE
  else if decide (cmd = bs "COMMAND") then Ok PING
  else Err (bs "Unknown command: " ++ cmd).

Definition err_format : bytes := Eval compute in bs "Invalid command format.".

Definition extract_command (now : Instant) (resp : RespType) : outcome bytes Command :=
  match resp with
  | Array arr =>
      match arr with
      | [] => Err err_format
      | a0 :: _ =>
          let? command :=
            match a0 with
            | BulkString cmd => Ok (to_ascii_uppercase cmd)
            | _ => Err err_format
            end in
          let args := drop 1 arr in
          let? command_enum := parse_command now command args in
          Ok command_enum
      end
  | _ => Err err_format
  end.
End Parse.
