(* ===== verification/CommandSpec.v ===== *)
(** * What command extraction guarantees

    The meaning of every well-formed request, from its bytes on the wire to
    its command; which requests panic; and what becomes of expiry times that do
    not fit. *)
From S2P Require Import Prelude Ints Utf8 RespTypes RespParser RespParserFacts RespSpec DashMap Command.
Local Open Scope Z_scope.

(** ** Integers in requests *)

Definition no_space (b : byte) : Prop := is_ascii b /\ is_whitespace [b] = false.

Lemma chars_ascii s : Forall is_ascii s -> chars s = map (fun b => [b]) s.
Proof.
  intros Hs. unfold chars.
  assert (Hc : s = concat (map (fun b => [b]) s)) by (clear Hs; induction s; simpl; congruence).
  rewrite Hc at 1. rewrite utf8_chunks_concat.
  - rewrite map_map. simpl. apply map_id.
  - apply Forall_map. eapply Forall_impl; [exact Hs|]. exact ascii_char.
Qed.

Lemma drop_whitespace_id cs :
  Forall (fun c => is_whitespace c = false) cs -> drop_whitespace cs = cs.
Proof. intros Hcs. destruct Hcs as [|c cs Hc Hcs]; [done|]. cbn [drop_whitespace]. by rewrite Hc. Qed.

Lemma trim_no_space s : Forall no_space s -> trim s = s.
Proof.
  intros Hs. unfold trim.
  assert (Ha : Forall is_ascii s) by (eapply Forall_impl; [exact Hs|by intros b [? ?]]).
  assert (Hw : Forall (fun c => is_whitespace c = false) (map (fun b => [b]) s))
    by (apply Forall_map; eapply Forall_impl; [exact Hs|by intros b [? ?]]).
  rewrite chars_ascii by done. rewrite (drop_whitespace_id (map _ s)) by done.
  rewrite drop_whitespace_id by (by apply Forall_rev). rewrite rev_involutive.
  clear. induction s; simpl; congruence.
Qed.

Lemma format_int_no_space n : Forall no_space (format_int n).
Proof.
  assert (Hb : forall b, 45 <= bz b <= 57 -> no_space b).
  { intros b Hb. split; [unfold is_ascii; lia|]. unfold is_whitespace. simpl code_point.
    change (code_point [b]) with (bz b).
    repeat (rewrite orb_false_iff; split); try (apply andb_false_iff);
      rewrite ?Z.eqb_neq, ?Z.leb_gt; lia. }
  assert (Hd : forall m, Forall no_space (format_digits 20 m [])).
  { intros m. eapply Forall_impl; [by apply format_digits_Forall|].
    unfold is_digit. intros b ?. apply Hb. lia. }
  unfold format_int. destruct (n <? 0); [|done].
  constructor; [|done]. apply Hb. by vm_compute.
Qed.

(** A number is read if it is an [i32], and as zero otherwise. *)
Lemma parse_int_number n :
  - u64_max <= n <= u64_max -> parse_int (format_int n) = default 0 (in_range i32_min i32_max n).
Proof.
  intros Hn. unfold parse_int. rewrite trim_no_space by apply format_int_no_space.
  unfold parse_i32. by rewrite parse_format_range by (unfold i32_min; lia).
Qed.

Lemma parse_int_format n : is_i32 n -> parse_int (format_int n) = n.
Proof.
  intros Hn. unfold is_i32, i32_min, i32_max in *.
  rewrite parse_int_number by (unfold u64_max; lia). by rewrite in_range_ok.
Qed.

Lemma parse_int_i32 w : is_i32 (parse_int w).
Proof.
  unfold parse_int. destruct (parse_i32 (trim w)) as [v|] eqn:E; [by apply parse_int_range_range in E|].
  done.
Qed.

Lemma bulk_strings_map l : bulk_strings (map BulkString l) = l.
Proof. induction l; simpl; congruence. Qed.

(** ** Requests *)

(** The requests a client can make. *)
Inductive client_request : Type :=
| ReqPing
| ReqEcho (msg : bytes)
| ReqSet (k v : bytes)
| ReqSetEx (k v : bytes) (seconds : Z)
| ReqSetPx (k v : bytes) (millis : Z)
| ReqGet (k : bytes)
| ReqDelete (k : bytes)
| ReqLPush (k : bytes) (vs : list bytes)
| ReqRPush (k : bytes) (vs : list bytes)
| ReqLRange (k : bytes) (start stop : Z)
| ReqExpire (k : bytes) (millis : Z) (opt : option bytes)
| ReqMulti
| ReqDiscard
| ReqExec
| ReqSave.

Definition request_words (r : client_request) : list bytes :=
  match r with
  | ReqPing => [bs "PING"]
  | ReqEcho m => [bs "ECHO"; m]
  | ReqSet k v => [bs "SET"; k; v]
  | ReqSetEx k v n => [bs "SET"; k; v; bs "EX"; format_int n]
  | ReqSetPx k v n => [bs "SET"; k; v; bs "PX"; format_int n]
  | ReqGet k => [bs "GET"; k]
  | ReqDelete k => [bs "DELETE"; k]
  | ReqLPush k vs => bs "LPUSH" :: k :: vs
  | ReqRPush k vs => bs "RPUSH" :: k :: vs
  | ReqLRange k a b => [bs "LRANGE"; k; format_int a; format_int b]
  | ReqExpire k n None => [bs "EXPIRE"; k; format_int n]
  | ReqExpire k n (Some o) => [bs "EXPIRE"; k; format_int n; o]
  | ReqMulti => [bs "MULTI"]
  | ReqDiscard => [bs "DISCARD"]
  | ReqExec => [bs "EXEC"]
  | ReqSave => [bs "SAVE"]
  end.

(** The command a request asks for, at time [now]. *)
Definition request_command (now : Instant) (r : client_request) : Command :=
  match r with
  | ReqPing => PING
  | ReqEcho m => ECHO m
  | ReqSet k v => SET k v None
  | ReqSetEx k v n => SET k v (Some (now + n * nanos_per_sec))
  | ReqSetPx k v n => SET k v (Some (now + n * nanos_per_milli))
  | ReqGet k => GET k
  | ReqDelete k => DELETE k
  | ReqLPush k vs => LPUSH k vs
  | ReqRPush k vs => RPUSH k vs
  | ReqLRange k a b => LRANGE k a b
  | ReqExpire k n o => EXPIRE k (now + n * nanos_per_milli) o
  | ReqMulti => MULTI
  | ReqDiscard => DISCARD
  | ReqExec => EXEC
  | ReqSave => SAVE
  end.

(** Times that fit: not negative, and within an [i32] of milliseconds. *)
Definition request_ok (now : Instant) (r : client_request) : Prop :=
  match r with
  | ReqSetEx _ _ n => 0 <= n <= 2147483 /\ now + n * nanos_per_sec <= instant_max
  | ReqSetPx _ _ n => 0 <= n <= i32_max /\ now + n * nanos_per_milli <= instant_max
  | ReqLRange _ a b => is_i32 a /\ is_i32 b
  | ReqExpire _ n o => 0 <= n <= i32_max /\ now + n * nanos_per_milli <= instant_max /\
      match o with Some o => o ∈ [bs "NX"; bs "XX"; bs "GT"; bs "LT"] | None => True end
  | _ => True
  end.

Definition request_value (r : client_request) : RespType := Array (map BulkString (request_words r)).

Definition option_list {A} (o : option A) : list A :=
  match o with Some a => [a] | None => [] end.

Section Spec.
Context `{BuildProfile}.

Lemma expiry_instant_ok now n :
  0 <= n <= i32_max -> now + n * nanos_per_milli <= instant_max ->
  expiry_instant now n = Ok (now + n * nanos_per_milli).
Proof.
  intros Hn Ht. unfold expiry_instant, from_millis, as_u64.
  fold (as_usize n). rewrite as_usize_nonneg by (unfold usize_max, u64_max, i32_max in *; lia).
  by apply time_add_ok.
Qed.

(** The name of a command selects its arm, in any case. *)
Lemma extract_command_name now w args :
  extract_command now (Array (BulkString w :: args)) =
    parse_command now (to_ascii_uppercase w) args.
Proof.
  unfold extract_command. cbn [obind]. change (drop 1 (BulkString w :: args)) with args.
  by destruct (parse_command now (to_ascii_uppercase w) args).
Qed.

Lemma parse_set_flag now k v flag n ms :
  is_i32 n -> 0 <= ms <= i32_max -> now + ms * nanos_per_milli <= instant_max ->
  flag = bs "EX" /\ ms = n * 1000 \/ flag = bs "PX" /\ ms = n ->
  parse_set now (map BulkString [k; v; flag; format_int n]) =
    Ok (SET k v (Some (now + ms * nanos_per_milli))).
Proof.
  intros Hn Hms Ht Hf. unfold parse_set. simpl. rewrite parse_int_format by done.
  destruct Hf as [[-> ->]|[-> ->]]; simpl.
  - rewrite i32_mul_ok by (unfold is_i32, i32_min, i32_max in *; lia). cbn [obind].
    by rewrite expiry_instant_ok.
  - by rewrite expiry_instant_ok.
Qed.

Lemma parse_expire_request now k n o :
  0 <= n <= i32_max -> now + n * nanos_per_milli <= instant_max ->
  match o with Some o => o ∈ [bs "NX"; bs "XX"; bs "GT"; bs "LT"] | None => True end ->
  parse_expire now (map BulkString (k :: format_int n :: option_list o)) =
    Ok (EXPIRE k (now + n * nanos_per_milli) o).
Proof.
  intros Hn Ht Ho. unfold parse_expire.
  destruct o as [o|]; simpl; [rewrite decide_True by done; simpl|];
    rewrite parse_int_format by (unfold is_i32, i32_min, i32_max in *; lia);
    by rewrite expiry_instant_ok.
Qed.

Lemma extract_request now r :
  request_ok now r -> extract_command now (request_value r) = Ok (request_command now r).
Proof.
  intros Hok. destruct r as [|m|k v|k v n|k v n|k|k|k vs|k vs|k a b|k n o| | | |];
    try done; simpl in Hok; unfold request_value; simpl map; rewrite ?extract_command_name.
  - assert (He : n * nanos_per_sec = n * 1000 * nanos_per_milli)
      by (unfold nanos_per_sec, nanos_per_milli; lia).
    simpl request_command. rewrite He in *.
    apply (parse_set_flag now k v (bs "EX") n); [..|by left]; unfold is_i32, i32_min, i32_max; lia.
  - apply (parse_set_flag now k v (bs "PX") n); [..|by right];
      unfold is_i32, i32_min, i32_max in *; lia.
  - change (Ok (LPUSH k (bulk_strings (map BulkString vs))) = Ok (E := bytes) (LPUSH k vs)).
    by rewrite bulk_strings_map.
  - change (Ok (RPUSH k (bulk_strings (map BulkString vs))) = Ok (E := bytes) (RPUSH k vs)).
    by rewrite bulk_strings_map.
  - destruct Hok. change (Ok (LRANGE k (parse_int (format_int a)) (parse_int (format_int b))) =
      Ok (E := bytes) (LRANGE k a b)). by rewrite !parse_int_format.
  - destruct Hok as (Hn & Ht & Ho). destruct o as [o|]; simpl map; rewrite extract_command_name.
    + by apply (parse_expire_request now k n (Some o)).
    + by apply (parse_expire_request now k n None).
Qed.

(** ** Arity *)

(** How many arguments the arm of a command indexes without a check. *)
Definition required_args (cmd : bytes) : nat :=
  if decide (cmd ∈ [bs "ECHO"; bs "GET"; bs "DELETE"; bs "LPUSH"; bs "RPUSH"]) then 1
  else if decide (cmd = bs "LRANGE") then 3
  else if decide (cmd = bs "EXPIRE") then 2
  else 0.

Lemma parse_keyed_panic args mk err p :
  parse_keyed args mk err = Panic p <-> (length args < 1)%nat /\ p = IndexOutOfBounds.
Proof.
  destruct args as [|a args]; simpl; [split; [by intros [= <-]; split; [lia|]|by intros [_ ->]]|].
  split; [by destruct a|lia].
Qed.

Lemma parse_lrange_panic args p :
  parse_lrange args = Panic p <-> (length args < 3)%nat /\ p = IndexOutOfBounds.
Proof.
  destruct args as [|a0 [|a1 [|a2 args]]]; simpl;
    try (split; [by intros [= <-]; split; [lia|]|by intros [_ ->]]).
  split; [by destruct a0, a1, a2|lia].
Qed.

Lemma expiry_instant_no_index_panic now ms : expiry_instant now ms <> Panic IndexOutOfBounds.
Proof. unfold expiry_instant, time_add. by case_match. Qed.

Lemma parse_set_no_index_panic now args : parse_set now args <> Panic IndexOutOfBounds.
Proof.
  pose proof (expiry_instant_no_index_panic now) as Hexp.
  destruct args as [|a0 [|a1 args]]; [done|done|].
  destruct a0, a1; try done. destruct args as [|a2 [|a3 args]]; try done.
  destruct a2, a3; try done. unfold parse_set. simpl. repeat case_decide; simpl.
  - unfold i32_mul, arith_result. repeat case_match; simpl; try done;
      match goal with |- obind (obind ?e _) _ <> _ =>
        pose proof (Hexp _ : e <> _); by destruct e as [| |[]|] end.
  - match goal with |- obind (obind ?e _) _ <> _ =>
      pose proof (Hexp _ : e <> _); by destruct e as [| |[]|] end.
  - done.
Qed.

Lemma parse_expire_index_panic now args :
  parse_expire now args = Panic IndexOutOfBounds <-> (length args < 2)%nat.
Proof.
  pose proof (expiry_instant_no_index_panic now) as Hexp.
  destruct args as [|a0 [|a1 args]]; simpl; [split; [lia|done]..|].
  split; [|lia]. intros Hp. exfalso. revert Hp. unfold parse_expire. simpl.
  destruct a0, a1; try done.
  assert (Hfin : forall o s s0, (let? t := expiry_instant now (parse_int s0) in Ok (EXPIRE s t o))
      <> Panic IndexOutOfBounds).
  { intros o k n. specialize (Hexp (parse_int n)). by destruct (expiry_instant _ _) as [| |[]|]. }
  destruct args as [|a2 args]; simpl; [apply Hfin|].
  destruct a2; simpl; try done. case_decide; simpl; [apply Hfin|done].
Qed.

Lemma parse_command_index_panic now cmd args :
  parse_command now cmd args = Panic IndexOutOfBounds <-> (length args < required_args cmd)%nat.
Proof.
  assert (Hkeyed : forall mk err, parse_keyed args mk err = Panic IndexOutOfBounds <->
    (length args < 1)%nat) by (intros; rewrite parse_keyed_panic; tauto).
  assert (Hok : forall c : Command, @Ok bytes _ c = Panic IndexOutOfBounds <-> (length args < 0)%nat)
    by (split; [discriminate|lia]).
  unfold parse_command.
  case_decide; [subst; apply Hok|]. case_decide; [subst; apply Hkeyed|].
  case_decide; [subst; split; [intros Hp; by apply parse_set_no_index_panic in Hp|by intros ?%Nat.nlt_0_r]|].
  do 4 (case_decide; [subst; apply Hkeyed|]).
  case_decide; [subst; rewrite parse_lrange_panic; change (required_args _) with 3%nat; tauto|].
  case_decide; [subst; apply parse_expire_index_panic|].
  do 5 (case_decide; [subst; apply Hok|]).
  assert (Hr : required_args cmd = 0%nat).
  { unfold required_args. rewrite !decide_False; [done|done|done|].
    rewrite !not_elem_of_cons. repeat split; try done. apply not_elem_of_nil. }
  rewrite Hr. split; [done|lia].
Qed.

(** ** Properties *)

(** C21: From the wire to the command: for every request a client library can
    send, with times that fit, the bytes of the request followed by anything
    parse to the request's array, and the array is extracted to the command the
    request asks for, its expiry resolved against the clock ([EX] in seconds,
    [PX] and [EXPIRE] in milliseconds). *)
Theorem request_roundtrip `{TargetLayout} now r rest :
  request_ok now r -> Forall (fun w => utf8_valid w = true) (request_words r) ->
  len (request_words r) * size_of_RespType <= isize_max ->
  len (to_bytes (request_value r) ++ rest) <= isize_max ->
  parse (to_bytes (request_value r) ++ rest) =
    Ok (request_value r, len (to_bytes (request_value r))) /\
  extract_command now (request_value r) = Ok (request_command now r).
Proof.
  intros Hok Hutf Hcap Hlen. split; [|by apply extract_request].
  assert (Hdec : decoded (request_value r) = request_value r).
  { apply decoded_error_free. simpl. clear. induction (request_words r); done. }
  rewrite <- Hdec at 2. apply parse_encoded; [| |done].
  - simpl. clear -Hutf. induction Hutf; simpl; [done|]. by apply andb_true_intro.
  - simpl. apply andb_true_intro. split; [apply Z.leb_le; unfold len in *; by rewrite length_map|].
    clear. by induction (request_words r).
Qed.

(** C28: A request with too few arguments panics exactly for the commands whose
    arms index their arguments without checking: [ECHO], [GET], [DELETE],
    [LPUSH] and [RPUSH] without a key, [LRANGE] with fewer than three and
    [EXPIRE] with fewer than two arguments; no other request ever indexes out of
    range. *)
Theorem extract_panics_iff_arguments_missing now c args :
  extract_command now (Array (BulkString c :: args)) = Panic IndexOutOfBounds <->
  (length args < required_args (to_ascii_uppercase c))%nat.
Proof. rewrite extract_command_name. apply parse_command_index_panic. Qed.
End Spec.

(** ** Expiry times *)

(** The instant a number of milliseconds stands for: a negative one is cast to
    an unsigned integer, and so lies at least [2^63] milliseconds ahead. *)
Definition resolved (now : Instant) (ms : Z) : Instant :=
  now + (if ms <? 0 then ms + 2 ^ 64 else ms) * nanos_per_milli.

Lemma expiry_instant_resolved now z :
  0 <= now <= i64_max -> is_i32 z -> expiry_instant now z = Ok (resolved now z).
Proof.
  intros Hnow Hz. unfold expiry_instant, from_millis, as_u64, resolved. fold (as_usize z).
  unfold is_i32, i32_min, i32_max in Hz.
  destruct (Z.ltb_spec z 0); [rewrite as_usize_neg by lia|rewrite as_usize_nonneg by (unfold usize_max, u64_max; lia)];
    apply time_add_ok; unfold instant_max, i64_max, nanos_per_sec, nanos_per_milli in *; lia.
Qed.

(** [expires_in_int * 1000], by build profile. *)
Lemma seconds_to_millis (P : BuildProfile) z :
  @i32_mul P bytes z 1000 =
    match in_range i32_min i32_max (z * 1000) with
    | Some ms => Ok ms
    | None => if overflow_checks then Panic ArithmeticOverflow else Ok (wrap_signed 32 (z * 1000))
    end.
Proof. unfold i32_mul, arith_result, in_range. by destruct (_ && _). Qed.

Lemma parse_set_time (P : BuildProfile) now k v flag w :
  0 <= now <= i64_max ->
  parse_set now (map BulkString [k; v; flag; w]) =
    (let? ms :=
       if decide (to_ascii_uppercase flag = bs "EX") then i32_mul (parse_int w) 1000
       else if decide (to_ascii_uppercase flag = bs "PX") then Ok (parse_int w)
       else Err (bs "Invalid expiry flag. Only EX and PX are supported.") in
     Ok (SET k v (Some (resolved now ms)))).
Proof.
  intros Hnow. unfold parse_set. cbn [map length Nat.ltb Nat.leb index lookup list_lookup obind].
  pose proof (parse_int_i32 w) as Hw. case_decide; [|case_decide; [|done]]; cbn [obind].
  - rewrite seconds_to_millis. destruct (in_range _ _ _) as [ms|] eqn:E; cbn [obind].
    + apply in_range_inv in E as [_ E]. by rewrite expiry_instant_resolved.
    + destruct overflow_checks; [done|]. cbn [obind].
      by rewrite expiry_instant_resolved by (done || apply wrap_signed_32_range).
  - by rewrite expiry_instant_resolved.
Qed.

Definition words (l : list bytes) : RespType := Array (map BulkString l).

(** C30: what every expiry time becomes, whatever its text [w]. It is read as an
    [i32], and as zero when it is not one. [PX] and [EXPIRE] take it in
    milliseconds, and a negative one puts the expiry at least [2^63]
    milliseconds ahead. [EX] multiplies by 1000: a product that is not an [i32]
    panics with overflow checks, and without them wraps around to any time, in
    the near or the far future. *)
Theorem expiry_time_resolution now k v w :
  0 <= now <= i64_max ->
  let z := parse_int w in
  (forall n, - u64_max <= n <= u64_max -> w = format_int n ->
     z = default 0 (in_range i32_min i32_max n)) /\
  (forall P : BuildProfile,
     extract_command now (words [bs "SET"; k; v; bs "PX"; w]) = Ok (SET k v (Some (resolved now z))) /\
     extract_command now (words [bs "EXPIRE"; k; w]) = Ok (EXPIRE k (resolved now z) None)) /\
  (forall P : BuildProfile,
     extract_command now (words [bs "SET"; k; v; bs "EX"; w]) =
       match in_range i32_min i32_max (z * 1000) with
       | Some ms => Ok (SET k v (Some (resolved now ms)))
       | None =>
           if overflow_checks then Panic ArithmeticOverflow
           else Ok (SET k v (Some (resolved now (wrap_signed 32 (z * 1000)))))
       end) /\
  (forall ms, is_i32 ms -> ms < 0 -> now + 2 ^ 63 * nanos_per_milli <= resolved now ms).
Proof.
  intros Hnow z. split_and!.
  - intros n Hn Hw. unfold z. rewrite Hw. by apply parse_int_number.
  - intros P. unfold words. cbn [map]. rewrite !extract_command_name. split.
    + exact (parse_set_time P now k v (bs "PX") w Hnow).
    + change (parse_command now (to_ascii_uppercase (bs "EXPIRE")) ?a) with (parse_expire now a).
      unfold parse_expire. cbn. by rewrite expiry_instant_resolved by (done || apply parse_int_i32).
  - intros P. unfold words. cbn [map]. rewrite extract_command_name.
    etrans; [exact (parse_set_time P now k v (bs "EX") w Hnow)|].
    rewrite decide_True by done. rewrite seconds_to_millis. fold z.
    destruct (in_range _ _ _); [done|]. by destruct overflow_checks.
  - intros ms Hms Hneg. unfold resolved, is_i32, i32_min, nanos_per_milli in *.
    rewrite (proj2 (Z.ltb_lt _ _)) by done. lia.
Qed.

(** ** Witnesses *)

Module CommandWitness.
#[export] Existing Instance release_profile.
#[export] Existing Instance RespWitness.layout32.

Lemma request_roundtrip_witness :
  parse (to_bytes (request_value (ReqSetEx (bs "k") (bs "v") 60)) ++ bs "*1") =
    Ok (request_value (ReqSetEx (bs "k") (bs "v") 60),
        len (to_bytes (request_value (ReqSetEx (bs "k") (bs "v") 60)))) /\
  extract_command 7 (request_value (ReqSetEx (bs "k") (bs "v") 60)) =
    Ok (SET (bs "k") (bs "v") (Some 60000000007)).
Proof.
  destruct (request_roundtrip 7 (ReqSetEx (bs "k") (bs "v") 60) (bs "*1")) as [H1 H2];
    [by vm_compute|by repeat constructor|by vm_compute..|]. by rewrite H1, H2.
Defined.

Lemma extract_panics_witness :
  extract_command 0 (Array [BulkString (bs "lrange"); BulkString (bs "k"); BulkString (bs "0")])
  = Panic IndexOutOfBounds.
Proof.
  apply extract_panics_iff_arguments_missing. vm_compute. lia.
Defined.

(** [EX 3000000] panics or lives for half a billion years; [EX 4294968] expires
    after 704 milliseconds, and a time that is not an [i32] at once. *)
Lemma expiry_time_witness :
  @extract_command debug_profile 0 (words [bs "SET"; bs "k"; bs "v"; bs "EX"; bs "3000000"]) =
    Panic ArithmeticOverflow /\
  @extract_command release_profile 0 (words [bs "SET"; bs "k"; bs "v"; bs "EX"; bs "4294968"]) =
    Ok (SET (bs "k") (bs "v") (Some 704000000)) /\
  extract_command 0 (words [bs "EXPIRE"; bs "k"; bs "99999999999"]) = Ok (EXPIRE (bs "k") 0 None).
Proof.
  split_and!.
  - destruct (expiry_time_resolution 0 (bs "k") (bs "v") (bs "3000000")) as (_ & _ & He & _);
      [by vm_compute|]. exact (He debug_profile).
  - destruct (expiry_time_resolution 0 (bs "k") (bs "v") (bs "4294968")) as (_ & _ & He & _);
      [by vm_compute|]. exact (He release_profile).
  - destruct (expiry_time_resolution 0 (bs "k") (bs "v") (bs "99999999999")) as (_ & He & _);
      [by vm_compute|]. exact (proj2 (He release_profile)).
Defined.
End CommandWitness.
