(* ===== verification/Dispatcher.v ===== *)
(** * The dispatcher (src/src/command/dispatcher.rs)

    The per-connection [Client] state (src/src/config/client.rs) and the two
    functions of the dispatcher: [dispatch], which queues commands while a
    transaction is open, and [execute_command], which runs one, [EXEC] running
    the whole queue.

    The shared state is a [world]: the database, the clock ([Instant::now()]
    is read once per command that may need it, from an arbitrary sequence of
    readings), and the snapshots handed to background tasks by [SAVE]. *)
From S2P Require Import Prelude Ints RespTypes DashMap Database Command.
Local Open Scope Z_scope.

Record Client : Type := mkClient {
  in_transaction : bool;
  queued_commands : list Command
}.

(** [Client::new()] *)
Definition Client_new : Client := mkClient false [].

(** The entries of the two maps as [DB::save_rdb] collects them. *)
Record snapshot : Type := mkSnapshot {
  data_snapshot : gmap bytes RedisObject;
  exp_snapshot : gmap bytes Instant
}.

Record world (M : Type -> Type) : Type := mkWorld {
  w_db : DB M;
  w_saves : list snapshot;
  w_clock : nat -> Instant;
  w_ticks : nat
}.
Arguments mkWorld {M} w_db w_saves w_clock w_ticks.
Arguments w_db {M} w.
Arguments w_saves {M} w.
Arguments w_clock {M} w.
Arguments w_ticks {M} w.

Section Dispatch.
Context {M : Type -> Type} `{DashMap M} `{BuildProfile}.
Implicit Types w : world M.

(** [Instant::now()] *)
Definition now w : Instant := w_clock w (w_ticks w).
Definition tick w : world M := mkWorld (w_db w) (w_saves w) (w_clock w) (S (w_ticks w)).
Definition with_db w (db : DB M) : world M := mkWorld db (w_saves w) (w_clock w) (w_ticks w).

(** [DB::save_rdb]: the entries of both maps are collected into hash maps and
    handed to a spawned task; the call itself always succeeds. *)
Definition save_rdb w : outcome message unit * world M :=
  let data_snapshot := list_to_map (dm_iter (data (w_db w))) in
  let exp_snapshot := list_to_map (dm_iter (expirations (w_db w))) in
  (Ok tt, mkWorld (w_db w) (w_saves w ++ [mkSnapshot data_snapshot exp_snapshot])
                  (w_clock w) (w_ticks w)).

Definition failed (e : message) : message := bs "Failed to execute command. E: " ++ e.

(** [match r { Ok(()) => Ok(reply), Err(e) => Err(anyhow!("Failed ...")) }] *)
Definition reply_unit (r : outcome message unit) (reply : RespType) : outcome message RespType :=
  match r with
  | Ok _ => Ok reply
  | Err e => Err (failed e)
  | Panic p => Panic p
  | Diverge => Diverge
  end.

(** The strings of a list reply. *)
Fixpoint string_items (l : list RedisObject) : list RespType :=
  match l with
  | [] => []
  | RedisObject.String s :: l => BulkString s :: string_items l
  | RedisObject.List _ :: l => string_items l
  end.

Definition ok_reply : RespType := SimpleString (bs "Ok").

Definition reply_get (r : outcome message RedisObject) : outcome message RespType :=
  match r with
  | Ok (RedisObject.String s) => Ok (BulkString s)
  | Ok (RedisObject.List _) => Err (bs "Wrong data type. Expected String, got List.")
  | Err e => Err (failed e)
  | Panic p => Panic p
  | Diverge => Diverge
  end.

Definition reply_lrange (r : outcome message RedisObject) : outcome message RespType :=
  match r with
  | Ok (RedisObject.List items) => Ok (Array (string_items items))
  | Ok (RedisObject.String s) => Ok (BulkString s)
  | Err e => Err (failed e)
  | Panic p => Panic p
  | Diverge => Diverge
  end.

(** The loop of [EXEC] over the queued commands, [exec] executing one. *)
Fixpoint exec_queue
    (exec : Client -> world M -> Command -> outcome message RespType * (Client * world M))
    (client : Client) w (queued : list Command) (replies : list RespType) :
    outcome message (list RespType) * (Client * world M) :=
  match queued with
  | [] => (Ok replies, (client, w))
  | c :: queued =>
      let '(r, (client, w)) := exec client w c in
      match r with
      | Ok rep => exec_queue exec client w queued (replies ++ [rep])
      | Err e => (Err (bs "Failed to execute queued commands. E: " ++ e), (client, w))
      | Panic p => (Panic p, (client, w))
      | Diverge => (Diverge, (client, w))
      end
  end.

(** [execute_command]. The recursion is through [EXEC] only; [fuel] bounds its
    depth. *)
Fixpoint execute_command (fuel : nat) (client : Client) w (cmd : Command) :
    outcome message RespType * (Client * world M) :=
  match fuel with
  | O => (Diverge, (client, w))
  | S fuel =>
      match cmd with
      | PING => (Ok (SimpleString (bs "Pong")), (client, w))
      | ECHO msg => (Ok (BulkString msg), (client, w))
      | SET key value expires_in =>
          let val := RedisObject.String value in
          let '(r, db) := set (w_db w) key val expires_in in
          (reply_unit r ok_reply, (client, with_db w db))
      | GET key =>
          let '(r, db) := get (w_db w) (now w) key in
          (reply_get r, (client, with_db (tick w) db))
      | DELETE key =>
          let '(r, db) := delete (w_db w) key in
          (reply_unit r (BulkString (bs "Ok")), (client, with_db w db))
      | EXPIRE key expires_at opt =>
          let '(r, db) := expire (w_db w) key expires_at opt in
          (reply_unit r ok_reply, (client, with_db w db))
      | LPUSH key vals =>
          let values := map RedisObject.String vals in
          let '(r, db) := lpush (w_db w) key values in
          (reply_unit r ok_reply, (client, with_db w db))
      | RPUSH key vals =>
          let values := map RedisObject.String vals in
          let '(r, db) := rpush (w_db w) key values in
          (reply_unit r ok_reply, (client, with_db w db))
      | LRANGE key start stop =>
          let '(r, db) := lrange (w_db w) (now w) key start stop in
          (reply_lrange r, (client, with_db (tick w) db))
      | MULTI => (Ok ok_reply, (mkClient true [], w))
      | DISCARD => (Ok ok_reply, (mkClient false [], w))
      | EXEC =>
          let queued_cmds := queued_commands client in
          let '(r, (client, w)) := exec_queue (execute_command fuel) client w queued_cmds [] in
          match r with
          | Ok replies => (Ok (Array replies), (mkClient false [], w))
          | Err e => (Err e, (client, w))
          | Panic p => (Panic p, (client, w))
          | Diverge => (Diverge, (client, w))
          end
      | SAVE =>
          let '(r, w) := save_rdb w in
          (match r with
           | Ok _ => Ok ok_reply
           | Err _ => Err (bs "Error while saving rdb snapshot.")
           | Panic p => Panic p
           | Diverge => Diverge
           end, (client, w))
      end
  end.

(** The queue of a client never holds [EXEC] (see [DispatcherSpec.v]), so the
    recursion is one level deep. *)
Definition exec_depth : nat := 2.

Definition dispatch (client : Client) w (cmd : Command) :
    outcome message RespType * (Client * world M) :=
  if in_transaction client then
    if decide (cmd = MULTI) then (Err (bs "Can not nest multi"), (client, w))
    else if decide (cmd = EXEC \/ cmd = DISCARD) then execute_command exec_depth client w cmd
    else
      let client := mkClient (in_transaction client) (queued_commands client ++ [cmd]) in
      (Ok (SimpleString (bs "QUEUED")), (client, w))
  else execute_command exec_depth client w cmd.
End Dispatch.
