(* ===== verification/DispatcherSpec.v ===== *)
(** * What the dispatcher guarantees

    The invariant of a client's transaction state and the termination of the
    recursion of [EXEC]; a session of commands as a refinement of the abstract
    store; and transactions: queueing, [DISCARD], a successful [EXEC] and a
    failed one. *)
From S2P Require Import Prelude Ints RespTypes DashMap Database DatabaseSpec Command Dispatcher.
Local Open Scope Z_scope.

(** The database operation of a command. *)
Definition command_op (cmd : Command) : option op :=
  match cmd with
  | SET k v e => Some (OpSet k (RedisObject.String v) e)
  | GET k => Some (OpGet k)
  | DELETE k => Some (OpDelete k)
  | LPUSH k vs => Some (OpLPush k (map RedisObject.String vs))
  | RPUSH k vs => Some (OpRPush k (map RedisObject.String vs))
  | LRANGE k a b => Some (OpLRange k a b)
  | EXPIRE k t o => Some (OpExpire k t o)
  | _ => None
  end.

(** The reply of a command from the reply of its operation on the store. *)
Definition command_reply (cmd : Command) (r : outcome message reply) : outcome message RespType :=
  match r with
  | Ok o =>
      match cmd, o with
      | GET _, Value (RedisObject.String s) => Ok (BulkString s)
      | GET _, Value (RedisObject.List _) => Err (bs "Wrong data type. Expected String, got List.")
      | LRANGE _ _ _, Value (RedisObject.String s) => Ok (BulkString s)
      | LRANGE _ _ _, Value (RedisObject.List l) =>
          Ok (Array (omap (fun o => match o with
                                    | RedisObject.String s => Some (BulkString s)
                                    | RedisObject.List _ => None
                                    end) l))
      | DELETE _, _ => Ok (BulkString (bs "Ok"))
      | _, _ => Ok (SimpleString (bs "Ok"))
      end
  | Err e => Err (bs "Failed to execute command. E: " ++ e)
  | Panic p => Panic p
  | Diverge => Diverge
  end.

(** The commands that read the clock. *)
Definition reads_clock (cmd : Command) : bool :=
  match cmd with GET _ | LRANGE _ _ _ => true | _ => false end.

(** A command that acts on the database, not on the transaction. *)
Definition is_plain (cmd : Command) : bool :=
  match cmd with MULTI | DISCARD | EXEC => false | _ => true end.

(** The queue holds plain commands only, and none outside a transaction. *)
Definition client_wf (c : Client) : Prop :=
  Forall (fun cmd => is_plain cmd = true) (queued_commands c) /\
  (in_transaction c = false -> queued_commands c = []).

Section Spec.
Context {M : Type -> Type} `{DashMapLaws M} `{BuildProfile}.
Implicit Types w : world M.

(** ** Plain commands *)

(** A plain command, on its own. *)
Definition run_plain w (cmd : Command) : outcome message RespType * world M :=
  let '(r, (_, w)) := execute_command 1 Client_new w cmd in (r, w).

Lemma execute_plain fuel c w cmd :
  is_plain cmd = true ->
  execute_command (S fuel) c w cmd =
    ((run_plain w cmd).1, (c, (run_plain w cmd).2)).
Proof.
  destruct cmd; try done; intros _; unfold run_plain; cbn [execute_command];
    repeat case_match; done.
Qed.

(** The plain commands of a list, in order, up to the first that fails. *)
Fixpoint run_all w (cmds : list Command) (replies : list RespType) :
    outcome message (list RespType) * world M :=
  match cmds with
  | [] => (Ok replies, w)
  | c :: cmds =>
      match (run_plain w c).1 with
      | Ok rep => run_all (run_plain w c).2 cmds (replies ++ [rep])
      | Err e => (Err (bs "Failed to execute queued commands. E: " ++ e), (run_plain w c).2)
      | Panic p => (Panic p, (run_plain w c).2)
      | Diverge => (Diverge, (run_plain w c).2)
      end
  end.

Lemma exec_queue_plain fuel c w queued replies :
  Forall (fun cmd => is_plain cmd = true) queued ->
  exec_queue (execute_command (S fuel)) c w queued replies =
    ((run_all w queued replies).1, (c, (run_all w queued replies).2)).
Proof.
  intros Hq. revert w replies. induction Hq as [|cmd queued Hc _ IH]; intros w replies; [done|].
  cbn [exec_queue run_all]. rewrite execute_plain by done.
  by destruct (run_plain w cmd) as [[] ?]; simpl.
Qed.

Lemma select_range_no_diverge {A} (l : list A) a b : select_range l a b <> Diverge.
Proof.
  unfold select_range, resolve_index, i32_add, arith_result.
  repeat case_match; simpl; done.
Qed.

Lemma get_no_diverge db t k : (get (M := M) db t k).1 <> Diverge.
Proof. unfold get. destruct (expire_lazily db t k) as [[] db']; [done|]. by case_match. Qed.

Lemma push_no_diverge db k vs :
  (lpush (M := M) db k vs).1 <> Diverge /\ (rpush (M := M) db k vs).1 <> Diverge.
Proof.
  unfold lpush, rpush. destruct (dm_get_mut (data db) k) as [[[] ?]|]; done.
Qed.

Lemma lrange_no_diverge db t k a b : (lrange (M := M) db t k a b).1 <> Diverge.
Proof.
  unfold lrange. destruct (expire_lazily db t k) as [[] db']; [done|].
  destruct (dm_get (data db') k) as [[|l]|]; [done| |done]. simpl.
  pose proof (select_range_no_diverge l a b). by destruct (select_range l a b).
Qed.

Lemma expire_no_diverge db k t o : (expire (M := M) db k t o).1 <> Diverge.
Proof. unfold expire. by repeat case_match; simplify_eq/=. Qed.

Lemma run_plain_no_diverge w cmd : is_plain cmd = true -> (run_plain w cmd).1 <> Diverge.
Proof.
  destruct cmd as [| | |k|k|k vs|k vs|k a b|k t o| | | |]; try done; intros _;
    unfold run_plain; cbn [execute_command].
  - pose proof (get_no_diverge (w_db w) (now w) k). by destruct (get _ _ _) as [[[]| | |] ?].
  - pose proof (proj1 (push_no_diverge (w_db w) k (map RedisObject.String vs))).
    by destruct (lpush _ _ _) as [[] ?].
  - pose proof (proj2 (push_no_diverge (w_db w) k (map RedisObject.String vs))).
    by destruct (rpush _ _ _) as [[] ?].
  - pose proof (lrange_no_diverge (w_db w) (now w) k a b).
    by destruct (lrange _ _ _ _ _) as [[[]| | |] ?].
  - pose proof (expire_no_diverge (w_db w) k t o). by destruct (expire _ _ _ _) as [[] ?].
Qed.

Lemma run_all_no_diverge w cmds replies :
  Forall (fun cmd => is_plain cmd = true) cmds -> (run_all w cmds replies).1 <> Diverge.
Proof.
  intros Hc. revert w replies. induction Hc as [|cmd cmds Hp _ IH]; intros w replies; [done|].
  cbn [run_all]. pose proof (run_plain_no_diverge w cmd Hp) as Hd.
  destruct (run_plain w cmd) as [r w']. simpl in *. by destruct r.
Qed.

(** ** The control commands *)

Lemma execute_EXEC fuel c w :
  client_wf c ->
  execute_command (S (S fuel)) c w EXEC =
    match run_all w (queued_commands c) [] with
    | (Ok replies, w) => (Ok (Array replies), (Client_new, w))
    | (Err e, w) => (Err e, (c, w))
    | (Panic p, w) => (Panic p, (c, w))
    | (Diverge, w) => (Diverge, (c, w))
    end.
Proof.
  intros [Hq _]. remember (S fuel) as f eqn:Hf. cbn [execute_command]. subst f.
  rewrite exec_queue_plain by done. by destruct (run_all _ _ _) as [[] ?].
Qed.

Lemma dispatch_outside c w cmd :
  in_transaction c = false -> dispatch c w cmd = execute_command exec_depth c w cmd.
Proof. intros Hc. unfold dispatch. by rewrite Hc. Qed.

Lemma dispatch_plain_outside c w cmd :
  in_transaction c = false -> is_plain cmd = true ->
  dispatch c w cmd = ((run_plain w cmd).1, (c, (run_plain w cmd).2)).
Proof. intros Hc Hp. rewrite dispatch_outside by done. by apply execute_plain. Qed.

Lemma dispatch_queue c w cmd :
  in_transaction c = true -> is_plain cmd = true ->
  dispatch c w cmd = (Ok (SimpleString (bs "QUEUED")),
                      (mkClient true (queued_commands c ++ [cmd]), w)).
Proof.
  intros Hc Hp. unfold dispatch. rewrite Hc.
  rewrite decide_False by (by intros ->). rewrite decide_False by (by intros [->| ->]). done.
Qed.

Lemma Client_new_wf : client_wf Client_new.
Proof. by split. Qed.

Lemma dispatch_EXEC c w : dispatch c w EXEC = execute_command exec_depth c w EXEC.
Proof. unfold dispatch. by destruct (in_transaction c). Qed.

Lemma execute_EXEC_wf c w r c' w' :
  client_wf c -> execute_command exec_depth c w EXEC = (r, (c', w')) ->
  client_wf c' /\ r <> Diverge.
Proof.
  intros Hwf He. unfold exec_depth in He. rewrite execute_EXEC in He by done.
  pose proof (run_all_no_diverge w _ [] (proj1 Hwf)) as Hnd.
  destruct (run_all w (queued_commands c) []) as [[] ?]; simplify_eq; done.
Qed.

Lemma dispatch_wf c w cmd r c' w' :
  client_wf c -> dispatch c w cmd = (r, (c', w')) -> client_wf c' /\ r <> Diverge.
Proof.
  intros Hwf Hd. destruct (in_transaction c) eqn:Hc, (is_plain cmd) eqn:Hp.
  - rewrite dispatch_queue in Hd by done. simplify_eq. split; [|done]. split; [|done]. simpl.
    destruct Hwf. apply Forall_app. by split; [|constructor].
  - destruct cmd; try done; [unfold dispatch in Hd; rewrite Hc in Hd; by simplify_eq/=..|].
    rewrite dispatch_EXEC in Hd. by eapply execute_EXEC_wf.
  - rewrite dispatch_plain_outside in Hd by done. simplify_eq.
    split; [done|by apply run_plain_no_diverge].
  - rewrite dispatch_outside in Hd by done. destruct cmd; try done; [by simplify_eq/=..|].
    by eapply execute_EXEC_wf.
Qed.

(** The states of a connection: a new client, a dispatched command, and any
    change other connections and tasks make to the shared world. *)
Inductive reachable : Client -> world M -> Prop :=
| reach_new w : reachable Client_new w
| reach_dispatch c w cmd r c' w' :
    reachable c w -> dispatch c w cmd = (r, (c', w')) -> reachable c' w'
| reach_world c w w' : reachable c w -> reachable c w'.

Lemma reachable_wf c w : reachable c w -> client_wf c.
Proof.
  induction 1 as [w|c w cmd r c' w' _ IH Hd|c w w' _ IH]; [apply Client_new_wf| |done].
  by eapply dispatch_wf in Hd as [? _].
Qed.

(** ** Sessions *)

(** Commands dispatched one after the other on one connection. *)
Fixpoint dispatch_all (c : Client) w (cmds : list Command) :
    list (outcome message RespType) * (Client * world M) :=
  match cmds with
  | [] => ([], (c, w))
  | cmd :: cmds =>
      let '(r, (c, w)) := dispatch c w cmd in
      let '(rs, cw) := dispatch_all c w cmds in
      (r :: rs, cw)
  end.

Lemma dispatch_all_app c w cmds1 cmds2 :
  dispatch_all c w (cmds1 ++ cmds2) =
    let '(rs1, (c, w)) := dispatch_all c w cmds1 in
    let '(rs2, cw) := dispatch_all c w cmds2 in
    (rs1 ++ rs2, cw).
Proof.
  revert c w. induction cmds1 as [|cmd cmds1 IH]; intros c w; simpl.
  - by destruct (dispatch_all c w cmds2).
  - destruct (dispatch c w cmd) as [r [c1 w1]]. rewrite IH.
    destruct (dispatch_all c1 w1 cmds1) as [rs1 [c2 w2]].
    by destruct (dispatch_all c2 w2 cmds2).
Qed.

(** Inside a transaction plain commands are only queued. *)
Lemma dispatch_all_queue c w cmds :
  in_transaction c = true -> Forall (fun cmd => is_plain cmd = true) cmds ->
  dispatch_all c w cmds =
    (replicate (length cmds) (Ok (SimpleString (bs "QUEUED"))),
     (mkClient true (queued_commands c ++ cmds), w)).
Proof.
  intros Hc Hp. revert c Hc. induction Hp as [|cmd cmds Hcmd _ IH]; intros c Hc; simpl.
  - rewrite app_nil_r. destruct c; simpl in *. by subst.
  - rewrite dispatch_queue by done. rewrite IH by done. simpl. by rewrite <- (assoc_L (++)).
Qed.

(** Outside a transaction they run one by one. *)
Lemma dispatch_all_run c w cmds rs replies c' w' :
  in_transaction c = false -> Forall (fun cmd => is_plain cmd = true) cmds ->
  dispatch_all c w cmds = (map Ok rs, (c', w')) ->
  run_all w cmds replies = (Ok (replies ++ rs), w').
Proof.
  intros Hc Hp. revert w rs replies. induction Hp as [|cmd cmds Hcmd _ IH]; intros w rs replies; simpl.
  - intros [= Hrs <- <-]. destruct rs; [by rewrite app_nil_r|done].
  - rewrite dispatch_plain_outside by done. destruct (run_plain w cmd) as [r w1]. simpl.
    destruct (dispatch_all c w1 cmds) as [rs1 [c1 w2]] eqn:Hd.
    destruct rs as [|rep rs]; [done|]. intros [= -> -> -> ->].
    rewrite (IH w1 rs (replies ++ [rep])) by done. by rewrite <- (assoc_L (++)).
Qed.

Lemma run_all_app w cmds1 cmds2 replies :
  run_all w (cmds1 ++ cmds2) replies =
    match run_all w cmds1 replies with
    | (Ok replies, w) => run_all w cmds2 replies
    | r => r
    end.
Proof.
  revert w replies. induction cmds1 as [|cmd cmds1 IH]; intros w replies; [done|]. simpl.
  destruct (run_plain w cmd) as [[] ?]; simpl; auto.
Qed.

Lemma execute_fuel fuel c w cmd :
  client_wf c -> (2 <= fuel)%nat ->
  execute_command fuel c w cmd = execute_command exec_depth c w cmd.
Proof.
  intros Hwf Hf. destruct fuel as [|[|fuel]]; [lia|lia|]. unfold exec_depth.
  destruct (is_plain cmd) eqn:Hp; [by rewrite !execute_plain|].
  destruct cmd; try done. by rewrite !execute_EXEC.
Qed.

(** ** Refinement of the abstract store *)

(** A plain command on the abstract store. *)
Definition spec_command (t : Instant) (cmd : Command) (s : kv) : outcome message RespType * kv :=
  match command_op cmd with
  | Some o => (command_reply cmd (spec_exec t o s).1, (spec_exec t o s).2)
  | None =>
      (match cmd with
       | PING => Ok (SimpleString (bs "Pong"))
       | ECHO m => Ok (BulkString m)
       | _ => Ok ok_reply
       end, s)
  end.

(** A session of plain commands on the abstract store, with the clock from its
    [ticks]-th reading on. *)
Fixpoint spec_session (clock : nat -> Instant) (ticks : nat) (s : kv) (cmds : list Command) :
    list (outcome message RespType) * kv :=
  match cmds with
  | [] => ([], s)
  | cmd :: cmds =>
      let '(r, s) := spec_command (clock ticks) cmd s in
      let '(rs, s) := spec_session clock (if reads_clock cmd then S ticks else ticks) s cmds in
      (r :: rs, s)
  end.

Lemma string_items_omap l :
  string_items l = omap (fun o => match o with
                                  | RedisObject.String s => Some (BulkString s)
                                  | RedisObject.List _ => None
                                  end) l.
Proof. induction l as [|[s|l'] l IH]; simpl; [done|by f_equal|done]. Qed.

Lemma run_plain_op w cmd o :
  command_op cmd = Some o ->
  run_plain w cmd =
    (command_reply cmd (db_exec (now w) o (w_db w)).1,
     with_db (if reads_clock cmd then tick w else w) (db_exec (now w) o (w_db w)).2).
Proof.
  intros Ho. destruct cmd; try discriminate Ho; injection Ho as <-; unfold run_plain;
    cbn [execute_command command_reply db_exec reads_clock]; unfold as_done, as_value; cbn [fst snd].
  - by destruct (set _ _ _ _) as [[] ?].
  - by destruct (get _ _ _) as [[[]| | |] ?].
  - by destruct (delete _ _) as [[] ?].
  - by destruct (lpush _ _ _) as [[] ?].
  - by destruct (rpush _ _ _) as [[] ?].
  - destruct (lrange _ _ _ _ _) as [[[]| | |] ?]; try done. simpl. by rewrite string_items_omap.
  - by destruct (expire _ _ _ _) as [[] ?].
Qed.

Lemma run_plain_refines w cmd s :
  is_plain cmd = true -> db_wf (w_db w) -> kv_equiv (view (w_db w)) s ->
  (run_plain w cmd).1 = (spec_command (now w) cmd s).1 /\
  db_wf (w_db (run_plain w cmd).2) /\
  kv_equiv (view (w_db (run_plain w cmd).2)) (spec_command (now w) cmd s).2 /\
  w_clock (run_plain w cmd).2 = w_clock w /\
  w_ticks (run_plain w cmd).2 = (if reads_clock cmd then S (w_ticks w) else w_ticks w).
Proof.
  intros Hp Hwf Hs. unfold spec_command. destruct (command_op cmd) as [o|] eqn:Ho.
  - rewrite (run_plain_op _ _ o) by done. cbn [fst snd].
    destruct (exec_refines (now w) o (w_db w) Hwf) as (Hr & Hwf' & Hv).
    destruct (spec_exec_proper (now w) o _ _ Hs) as [Hr2 Hs2].
    split_and!; [by rewrite Hr, Hr2|done|by rewrite <- Hs2|by destruct (reads_clock cmd)..].
  - by destruct cmd.
Qed.

(** ** Properties *)

(** In every state a connection can reach, whatever other connections do to
    the shared state, the queue holds no [MULTI], [EXEC] or [DISCARD] and is
    empty outside a transaction; so every dispatched command returns: the
    recursion of [EXEC] is one level deep, and more depth changes nothing. *)
Theorem dispatch_terminates c w cmd fuel :
  reachable c w -> (2 <= fuel)%nat ->
  client_wf c /\ (dispatch c w cmd).1 <> Diverge /\
  execute_command fuel c w cmd = execute_command exec_depth c w cmd.
Proof.
  intros Hr Hf. apply reachable_wf in Hr. split_and!; [done| |by apply execute_fuel].
  destruct (dispatch c w cmd) as [r [c' w']] eqn:Hd. by eapply dispatch_wf in Hd as [_ ?].
Qed.

(** C4: A transaction whose commands succeed is equivalent to running them one
    by one: if the plain commands, dispatched outside a transaction, all succeed
    with replies [rs], then [MULTI], the same commands and [EXEC] answer [Ok], one
    [QUEUED] each, and the array of [rs], and end in the same shared state with
    the transaction closed. *)
Theorem transaction_equals_sequence w cmds rs c' w' :
  Forall (fun cmd => is_plain cmd = true) cmds ->
  dispatch_all Client_new w cmds = (map Ok rs, (c', w')) ->
  dispatch_all Client_new w (MULTI :: cmds ++ [EXEC]) =
    (Ok ok_reply :: replicate (length cmds) (Ok (SimpleString (bs "QUEUED"))) ++ [Ok (Array rs)],
     (Client_new, w')).
Proof.
  intros Hp Hrun. cbn [dispatch_all]. rewrite dispatch_outside by done. simpl.
  rewrite dispatch_all_app, dispatch_all_queue by done. simpl.
  rewrite dispatch_EXEC. unfold exec_depth. rewrite execute_EXEC by done. simpl.
  by rewrite (dispatch_all_run Client_new _ _ _ [] _ _ eq_refl Hp Hrun).
Qed.

(** Commands queued in a transaction and then discarded have no effect:
    each is answered [QUEUED], [DISCARD] is answered [Ok], the shared state is
    exactly as before, and the client is as new. *)
Theorem discard_has_no_effect w cmds :
  Forall (fun cmd => is_plain cmd = true) cmds ->
  dispatch_all Client_new w (MULTI :: cmds ++ [DISCARD]) =
    (Ok ok_reply :: replicate (length cmds) (Ok (SimpleString (bs "QUEUED"))) ++ [Ok ok_reply],
     (Client_new, w)).
Proof.
  intros Hp. cbn [dispatch_all]. rewrite dispatch_outside by done. simpl.
  by rewrite dispatch_all_app, dispatch_all_queue.
Qed.

(** C29: A transaction that fails is neither undone nor closed: when a queued
    command fails, [EXEC] reports its error, the effects of the commands before
    it stay, and the client is still inside the transaction with the whole queue,
    so that the next [EXEC] executes the commands before it a second time. *)
Theorem failed_exec_keeps_transaction_open w w1 pre bad post rs e w2 :
  Forall (fun cmd => is_plain cmd = true) (pre ++ bad :: post) ->
  dispatch_all Client_new w pre = (map Ok rs, (Client_new, w1)) ->
  dispatch Client_new w1 bad = (Err e, (Client_new, w2)) ->
  let queue := pre ++ bad :: post in
  let msg := bs "Failed to execute queued commands. E: " ++ e in
  dispatch (mkClient true queue) w EXEC = (Err msg, (mkClient true queue, w2)) /\
  (forall rs' w3 e' w4,
     dispatch_all Client_new w2 pre = (map Ok rs', (Client_new, w3)) ->
     dispatch Client_new w3 bad = (Err e', (Client_new, w4)) ->
     (dispatch (mkClient true queue) w2 EXEC).2 = (mkClient true queue, w4)).
Proof.
  intros Hp Hpre Hbad queue msg.
  pose proof Hp as [Hpp Hpb]%Forall_app. inversion_clear Hpb as [|? ? Hb _].
  assert (Hexec : forall v rs v1 e v2,
    dispatch_all Client_new v pre = (map Ok rs, (Client_new, v1)) ->
    dispatch Client_new v1 bad = (Err e, (Client_new, v2)) ->
    dispatch (mkClient true queue) v EXEC =
      (Err (bs "Failed to execute queued commands. E: " ++ e), (mkClient true queue, v2))).
  { intros v rs0 v1 e0 v2 H1' H2'. rewrite dispatch_EXEC. unfold exec_depth.
    rewrite execute_EXEC by done. simpl. unfold queue. rewrite run_all_app.
    rewrite (dispatch_all_run Client_new _ _ _ [] _ _ eq_refl Hpp H1'). simpl.
    rewrite dispatch_plain_outside in H2' by done.
    injection H2' as Hr <-. by rewrite Hr. }
  split; [by eapply Hexec|]. intros rs' w3 e' w4 H1' H2'. by erewrite Hexec.
Qed.

(** [EXEC] outside a transaction is not an error: it answers the empty
    array and changes nothing. *)
Lemma exec_without_multi w :
  dispatch Client_new w EXEC = (Ok (Array []), (Client_new, w)).
Proof. done. Qed.

(** C5: A session refines the abstract store: the replies to any sequence of
    plain commands on a connection outside a transaction are those of the
    abstract store with expiry times, at the clock readings of the session, and
    the database ends in the abstract store's state. *)
Theorem session_refines_kv w cmds :
  Forall (fun cmd => is_plain cmd = true) cmds -> db_wf (w_db w) ->
  let '(rs, (c', w')) := dispatch_all Client_new w cmds in
  let '(rs', s') := spec_session (w_clock w) (w_ticks w) (view (w_db w)) cmds in
  rs = rs' /\ c' = Client_new /\ db_wf (w_db w') /\ kv_equiv (view (w_db w')) s'.
Proof.
  intros Hp Hwf. assert (Hs : kv_equiv (view (w_db w)) (view (w_db w))) by done.
  revert Hs. generalize (view (w_db w)) at 2 3 as s. intros s Hs.
  revert w s Hwf Hs. induction Hp as [|cmd cmds Hcmd _ IH]; intros w s Hwf Hs; [done|].
  cbn [dispatch_all spec_session]. rewrite dispatch_plain_outside by done.
  destruct (run_plain_refines w cmd s Hcmd Hwf Hs) as (Hr & Hwf' & Hv & Hc & Ht).
  unfold now in *. destruct (run_plain w cmd) as [r w1].
  destruct (spec_command _ cmd s) as [r' s1]. simpl in *.
  specialize (IH w1 s1 Hwf' Hv). rewrite Hc, Ht in IH.
  destruct (dispatch_all Client_new w1 cmds) as [rs [c2 w2]].
  destruct (spec_session _ _ s1 cmds) as [rs' s2].
  destruct IH as (-> & -> & ? & ?). by subst.
Qed.
End Spec.

(** ** Witnesses *)

Module DispatcherWitness.
#[export] Existing Instance release_profile.

Definition world0 : world (gmap bytes) := mkWorld DatabaseWitness.db0 [] (fun n => Z.of_nat n * 60) 0.

Lemma dispatch_terminates_witness :
  (dispatch (mkClient true [GET (bs "s")]) world0 EXEC).1 <> Diverge.
Proof.
  apply (dispatch_terminates _ _ EXEC 7); [|lia].
  apply (reach_dispatch (mkClient true []) world0 (GET (bs "s"))
           (Ok (SimpleString (bs "QUEUED"))) _ world0); [|by apply (dispatch_queue (mkClient true []))].
  apply (reach_dispatch Client_new world0 MULTI (Ok ok_reply) _ world0); [apply reach_new|reflexivity].
Defined.

Definition txn : list Command :=
  [RPUSH (bs "q") [bs "a"]; GET (bs "s"); LRANGE (bs "q") 0 (-1)].

Lemma transaction_witness :
  (dispatch_all Client_new world0 (MULTI :: txn ++ [EXEC])).1 =
    [Ok ok_reply; Ok (SimpleString (bs "QUEUED")); Ok (SimpleString (bs "QUEUED"));
     Ok (SimpleString (bs "QUEUED"));
     Ok (Array [ok_reply; BulkString (bs "x"); Array [BulkString (bs "a")]])].
Proof.
  pose (w1 := (run_plain world0 (RPUSH (bs "q") [bs "a"])).2).
  pose (w2 := (run_plain w1 (GET (bs "s"))).2).
  rewrite (transaction_equals_sequence world0 txn
    [ok_reply; BulkString (bs "x"); Array [BulkString (bs "a")]] Client_new
    (run_plain w2 (LRANGE (bs "q") 0 (-1))).2); [done|by repeat constructor|].
  simpl dispatch_all. rewrite !dispatch_plain_outside by done. fold w1. fold w2.
  by replace (run_plain world0 (RPUSH (bs "q") [bs "a"])).1 with (@Ok message _ ok_reply) by (by vm_compute);
    replace (run_plain w1 (GET (bs "s"))).1 with (@Ok message _ (BulkString (bs "x"))) by (by vm_compute);
    replace (run_plain w2 (LRANGE (bs "q") 0 (-1))).1
      with (@Ok message _ (Array [BulkString (bs "a")])) by (by vm_compute).
Defined.

Lemma discard_witness :
  (dispatch_all Client_new world0 [MULTI; DELETE (bs "s"); DISCARD]).2 = (Client_new, world0).
Proof.
  change [MULTI; DELETE (bs "s"); DISCARD] with (MULTI :: [DELETE (bs "s")] ++ [DISCARD]).
  rewrite (discard_has_no_effect world0 [DELETE (bs "s")]); [done|by repeat constructor].
Defined.

(** The first command is applied, and applied again by the second [EXEC]. *)
Definition bad_txn : list Command := [RPUSH (bs "q") [bs "a"]; LPUSH (bs "s") [bs "b"]].

Lemma dispatch_one (w : world (gmap bytes)) cmd r :
  is_plain cmd = true -> (run_plain w cmd).1 = Ok r ->
  dispatch_all Client_new w [cmd] = (map Ok [r], (Client_new, (run_plain w cmd).2)).
Proof. intros Hp Hr. simpl. rewrite dispatch_plain_outside by done. by rewrite Hr. Qed.

Lemma dispatch_err (w : world (gmap bytes)) cmd e :
  is_plain cmd = true -> (run_plain w cmd).1 = Err e ->
  dispatch Client_new w cmd = (Err e, (Client_new, (run_plain w cmd).2)).
Proof. intros Hp Hr. rewrite dispatch_plain_outside by done. by rewrite Hr. Qed.

Lemma failed_exec_witness :
  dm_get (data (w_db (dispatch (mkClient true bad_txn)
    (dispatch (mkClient true bad_txn) world0 EXEC).2.2 EXEC).2.2)) (bs "q") =
  Some (RedisObject.List [RedisObject.String (bs "a"); RedisObject.String (bs "a")]).
Proof.
  pose (push := RPUSH (bs "q") [bs "a"]). pose (bad := LPUSH (bs "s") [bs "b"]).
  pose (w1 := (run_plain world0 push).2). pose (w2 := (run_plain w1 bad).2).
  pose (w3 := (run_plain w2 push).2). pose (w4 := (run_plain w3 bad).2).
  destruct (failed_exec_keeps_transaction_open world0 w1 [push] bad [] [ok_reply]
    (failed err_not_list_push) w2) as [H1 H2];
    [by repeat constructor|by apply dispatch_one; vm_compute|by apply dispatch_err; vm_compute|].
  change bad_txn with [push; bad]. cbn [app] in H1, H2. rewrite H1. cbn [snd].
  rewrite (H2 [ok_reply] w3 (failed err_not_list_push) w4);
    [by vm_compute|by apply dispatch_one; vm_compute|by apply dispatch_err; vm_compute].
Defined.

Lemma session_witness :
  (spec_session (w_clock world0) 0 (view (w_db world0))
     [GET (bs "s"); GET (bs "l"); LRANGE (bs "l") 0 0]).1 =
  [Ok (BulkString (bs "x")); Err (bs "Wrong data type. Expected String, got List.");
   Ok (BulkString (bs "nil"))].
Proof.
  pose proof (session_refines_kv world0 [GET (bs "s"); GET (bs "l"); LRANGE (bs "l") 0 0]
    ltac:(by repeat constructor) DatabaseWitness.db0_wf) as Hs.
  destruct (dispatch_all Client_new world0 _) as [rs [c' w']] eqn:E.
  change (w_ticks world0) with 0%nat in Hs.
  destruct (spec_session (w_clock world0) 0 _ _) as [rs' s'].
  destruct Hs as [<- _]. injection E as <- _ _. by vm_compute.
Defined.
End DispatcherWitness.
