(* ===== verification/Rdb.v ===== *)
(** * RDB snapshots (src/src/rdb/writer.rs, src/src/rdb/reader.rs)

    The binary snapshot format: the writer, over any [Write] (its [write_all]
    has the contract of the class [AsyncWrite]), and the reader, over the
    remaining bytes of the file. A [HashMap] is the list of its entries in
    iteration order where it is written and a [gmap] where it is built.

    Each call that converts between [Instant] and [SystemTime] reads both
    clocks; [clocks n] are the readings of the [n]-th such call. Read errors
    other than the end of the file and allocation failure are not modelled. *)
From S2P Require Import Prelude Ints Utf8 RespTypes DashMap Database.
Local Open Scope Z_scope.

Notation SystemTime := Z (only parsing).

(** Readings of the monotonic and of the system clock. *)
Notation clock_pair := (Instant * SystemTime)%type (only parsing).

(** ** Writer *)

Section Writer.
Context {W : Type} `{AsyncWrite W}.
Notation write := (W -> outcome io_error unit * W) (only parsing).

Definition raise {A} (p : panic) (w : W) : outcome io_error A * W := (Panic p, w).

Definition write_length (n : Z) : write :=
  if n <? 64 then write_all [byte_of_Z n]
  else write_all [x80] ?; write_all (to_be_bytes 4 (as_u32 n)).

Definition write_string (s : bytes) : write :=
  write_length (len s) ?; write_all s.

Definition write_value (key value : bytes) : write :=
  write_all [x00] ?; write_string key ?; write_string value.

(** The conversion of an instant to milliseconds since the epoch. *)
Definition expiry_millis (clock : clock_pair) (expire_instant : Instant) : outcome io_error Z :=
  let '(now_instant, now_system) := clock in
  let? expire_system :=
    if now_instant <? expire_instant then time_add now_system (expire_instant - now_instant)
    else Ok now_system in
  if expire_system <? 0 then Panic UnwrapOnErr
  else Ok (as_u64 (expire_system / nanos_per_milli)).

Definition write_expiry (clock : clock_pair) (key : bytes) (expire_instant : Instant) : write :=
  write_string key ?;
  match expiry_millis clock expire_instant with
  | Ok ms => write_all [xfc] ?; write_all (to_le_bytes 8 ms)
  | Err e => fun w => (Err e, w)
  | Panic p => raise p
  | Diverge => fun w => (Diverge, w)
  end.

(** [for item in l { if let RedisObject::String(s) = item { ... } }] *)
Fixpoint write_list_items (key : bytes) (l : list RedisObject) : write :=
  match l with
  | [] => fun w => (Ok tt, w)
  | RedisObject.String s :: l => write_value key s ?; write_list_items key l
  | RedisObject.List _ :: l => write_list_items key l
  end.

Definition write_entry (key : bytes) (value : RedisObject) : write :=
  match value with
  | RedisObject.String s => write_string (bs "string") ?; write_value key s
  | RedisObject.List l =>
      write_string (bs "list") ?; write_length (len l) ?; write_list_items key l
  end.

Fixpoint write_entries (db : list (bytes * RedisObject)) : write :=
  match db with
  | [] => fun w => (Ok tt, w)
  | (key, value) :: db => write_entry key value ?; write_entries db
  end.

Fixpoint write_expiries (clocks : nat -> clock_pair) (n : nat)
    (expirations : list (bytes * Instant)) : write :=
  match expirations with
  | [] => fun w => (Ok tt, w)
  | (key, expire) :: expirations =>
      write_expiry (clocks n) key expire ?; write_expiries clocks (S n) expirations
  end.

Definition write_db (clocks : nat -> clock_pair) (db : list (bytes * RedisObject))
    (expirations : list (bytes * Instant)) : write :=
  write_all [xfe] ?; write_length 0 ?;
  write_entries db ?; write_expiries clocks 0 expirations.

Definition rdb_header : bytes := Eval compute in bs "REDIS0001".

(** The bytes [save_rdb] puts into its file. *)
Definition write_rdb (clocks : nat -> clock_pair) (db : list (bytes * RedisObject))
    (expirations : list (bytes * Instant)) : write :=
  write_all rdb_header ?; write_db clocks db expirations.
End Writer.

(** ** Reader *)

(** A read from the file: the value and the bytes that remain. *)
Notation reader A := (bytes -> outcome message (A * bytes)) (only parsing).

(** The message of the [UnexpectedEof] error of [read_exact]. *)
Definition err_eof : message := Eval compute in bs "failed to fill whole buffer".

Definition read_exact (n : nat) : reader bytes := fun file =>
  if (n <=? length file)%nat then Ok (take n file, drop n file) else Err err_eof.

Definition read_byte : reader byte := fun file =>
  match file with b :: file => Ok (b, file) | [] => Err err_eof end.

Definition hex_digit (d : Z) : byte := if d <? 10 then byte_of_Z (48 + d) else byte_of_Z (55 + d).
Definition hex2 (b : byte) : bytes := [hex_digit (bz b / 16); hex_digit (bz b mod 16)].

Definition read_length_with_first (first : byte) : reader Z := fun file =>
  if bz first <? 64 then Ok (bz first, file)
  else if decide (first = x80) then
    let? (buf, file) := read_exact 4 file in
    Ok (from_be_bytes buf, file)
  else Err (bs "Unsupported length encoding prefix: 0x" ++ hex2 first).

Definition read_length : reader Z := fun file =>
  let? (first, file) := read_byte file in
  read_length_with_first first file.

Definition read_string_with_first_len (first_len_byte : byte) : reader bytes := fun file =>
  let? (n, file) := read_length_with_first first_len_byte file in
  let? (buf, file) := read_exact (Z.to_nat n) file in
  Ok (from_utf8_lossy buf, file).

Definition read_string : reader bytes := fun file =>
  let? (n, file) := read_length file in
  let? (buf, file) := read_exact (Z.to_nat n) file in
  Ok (from_utf8_lossy buf, file).

Definition read_expiry (clock : clock_pair) : reader Instant := fun file =>
  let? (buf, file) := read_exact 8 file in
  let ms := from_le_bytes buf in
  let? target_system_time := time_add 0 (from_millis ms) in
  let '(now_instant, now_system) := clock in
  let duration :=
    if now_system <=? target_system_time then target_system_time - now_system else 0 in
  let? t := time_add now_instant duration in
  Ok (t, file).

Definition read_header (file : bytes) : outcome message bytes :=
  let? (buf, file) := read_exact 9 file in
  if decide (take 5 buf = bs "REDIS") then Ok file else Err (bs "Invalid header.").

(** The item loop of a list entry; [n] items are still to be read. Every item
    takes at least one byte, so the length of the file plus one is enough
    fuel. *)
Fixpoint read_list_items (fuel : nat) (n : Z) (key : option bytes) (values : list RedisObject)
    (file : bytes) : outcome message (option bytes * list RedisObject * bytes) :=
  if n <=? 0 then Ok (key, values, file)
  else
    match fuel with
    | O => Diverge
    | S fuel =>
        let? (value_type, file) := read_byte file in
        if negb (bool_decide (value_type = x00)) then
          Err (bs "Unexpected value type marker for LIST item: " ++ format_int (bz value_type))
        else
          let? (current_key, file) := read_string file in
          let? (item, file) := read_string file in
          let key := match key with None => Some current_key | Some k => Some k end in
          read_list_items fuel (n - 1) key (values ++ [RedisObject.String item]) file
    end.

(** What the reader has built: the two maps, and how many expiries it has
    converted. *)
Record loading : Type := mkLoading {
  l_db : gmap bytes RedisObject;
  l_expirations : gmap bytes Instant;
  l_clock : nat
}.

Section Reader.
Context (clocks : nat -> clock_pair).

(** The [_] arm of the marker match: a data entry, or an expiry that starts
    with its key. *)
Definition read_tagged (marker : byte) (st : loading) : reader loading := fun file =>
  let? (token, file) := read_string_with_first_len marker file in
  let upper := to_ascii_uppercase token in
  if decide (upper = bs "STRING") then
    let? (value_type, file) := read_byte file in
    if negb (bool_decide (value_type = x00)) then
      Err (bs "Unexpected value type marker for STRING: " ++ format_int (bz value_type))
    else
      let? (key, file) := read_string file in
      let? (value, file) := read_string file in
      Ok (mkLoading (<[key := RedisObject.String value]> (l_db st)) (l_expirations st) (l_clock st),
          file)
  else if decide (upper = bs "LIST") then
    let? (n, file) := read_length file in
    let? (key, values, file) := read_list_items (S (length file)) n None [] file in
    match key with
    | Some k => Ok (mkLoading (<[k := RedisObject.List values]> (l_db st)) (l_expirations st) (l_clock st),
                    file)
    | None => Ok (st, file)
    end
  else
    let? (expiry_opcode, file) := read_byte file in
    if negb (bool_decide (expiry_opcode = xfc)) then
      Err (bs "Unknown opcode: " ++ format_int (bz marker))
    else
      let? (expiry, file) := read_expiry (clocks (l_clock st)) file in
      Ok (mkLoading (l_db st) (<[token := expiry]> (l_expirations st)) (S (l_clock st)), file).

(** The marker loop. Every turn takes at least one byte. *)
Fixpoint read_markers (fuel : nat) (st : loading) (file : bytes) : outcome message loading :=
  match fuel with
  | O => Diverge
  | S fuel =>
      match read_byte file with
      | Ok (marker, file) =>
          if decide (marker = xfe) then
            let? (_, file) := read_length file in
            read_markers fuel st file
          else if decide (marker = xfc) then
            let? (key, file) := read_string file in
            let? (expiry, file) := read_expiry (clocks (l_clock st)) file in
            read_markers fuel
              (mkLoading (l_db st) (<[key := expiry]> (l_expirations st)) (S (l_clock st))) file
          else if decide (marker = xff) then Ok st
          else
            let? (st, file) := read_tagged marker st file in
            read_markers fuel st file
      | _ => Ok st
      end
  end.

Definition rdb_parse (file : bytes) : outcome message (gmap bytes RedisObject * gmap bytes Instant) :=
  let? file := read_header file in
  let? st := read_markers (S (length file)) (mkLoading ∅ ∅ 0) file in
  Ok (l_db st, l_expirations st).

(** [load_rdb], on the content of the file, if it exists. *)
Definition load_rdb (file : option bytes) :
    outcome message (gmap bytes RedisObject * gmap bytes Instant) :=
  match file with
  | None => Ok (∅, ∅)
  | Some file => rdb_parse file
  end.

(** The state part of [DB::new]: the loaded entries, or a panic when the file
    cannot be read. *)
Definition DB_new {M : Type -> Type} `{DashMap M} (file : option bytes) : outcome message (DB M) :=
  match load_rdb file with
  | Ok (data_map, exp_map) =>
      Ok (mkDB (dm_from_iter (map_to_list data_map)) (dm_from_iter (map_to_list exp_map)))
  | Err _ => Panic UnwrapOnErr
  | Panic p => Panic p
  | Diverge => Diverge
  end.
End Reader.
