(* ===== verification/RdbFormat.v ===== *)
(** * The snapshot format

    The bytes of a snapshot as pure encoders; the writer of [Rdb.v] emits them
    and its reader inverts them, marker by marker. Also that every read takes
    input or fails, so that the loops of the reader end, and that the reader
    answers on every input. *)
From S2P Require Import Prelude Ints Utf8 RespTypes DashMap Database Rdb.
Local Open Scope Z_scope.

(** ** The format *)

Definition enc_length (n : Z) : bytes :=
  if n <? 64 then [byte_of_Z n] else x80 :: to_be_bytes 4 (as_u32 n).

Definition enc_string (s : bytes) : bytes := enc_length (len s) ++ s.

Definition enc_value (key value : bytes) : bytes := x00 :: enc_string key ++ enc_string value.

Definition enc_item (key : bytes) (item : RedisObject) : bytes :=
  match item with RedisObject.String s => enc_value key s | RedisObject.List _ => [] end.

Definition enc_entry (kv : bytes * RedisObject) : bytes :=
  match kv.2 with
  | RedisObject.String s => enc_string (bs "string") ++ enc_value kv.1 s
  | RedisObject.List l =>
      enc_string (bs "list") ++ enc_length (len l) ++ concat (map (enc_item kv.1) l)
  end.

Definition enc_expiry (kt : bytes * Z) : bytes :=
  enc_string kt.1 ++ xfc :: to_le_bytes 8 kt.2.

(** A snapshot file, from the entries and the deadlines in milliseconds. *)
Definition enc_rdb (db : list (bytes * RedisObject)) (deadlines : list (bytes * Z)) : bytes :=
  rdb_header ++ [xfe; x00] ++ concat (map enc_entry db) ++ concat (map enc_expiry deadlines).

Lemma enc_rdb_app db m1 m2 :
  enc_rdb db (m1 ++ m2) = enc_rdb db m1 ++ concat (map enc_expiry m2).
Proof. unfold enc_rdb. rewrite map_app, concat_app. by rewrite !(assoc_L (++)). Qed.

(** ** Time *)

(** The deadline the writer stores for an expiry, and the instant the reader
    makes of a deadline. *)
Definition saved_millis (c : clock_pair) (e : Instant) : Z :=
  (c.2 + Z.max 0 (e - c.1)) / nanos_per_milli.

Definition loaded_instant (c : clock_pair) (ms : Z) : Instant :=
  c.1 + Z.max 0 (from_millis ms - c.2).

(** The system clock is past its epoch and the deadline fits in [SystemTime]
    and in 64 bits of milliseconds. *)
Definition save_in_range (c : clock_pair) (e : Instant) : Prop :=
  0 <= c.2 /\ c.2 + Z.max 0 (e - c.1) <= instant_max /\ saved_millis c e <= u64_max.

Definition saved_deadlines (clocks : nat -> clock_pair) (n : nat)
    (expirations : list (bytes * Instant)) : list (bytes * Z) :=
  imap (fun i ke => (ke.1, saved_millis (clocks (n + i)%nat) ke.2)) expirations.

Definition loaded_expiries (clocks : nat -> clock_pair) (n : nat)
    (deadlines : list (bytes * Z)) : list (bytes * Instant) :=
  imap (fun i kt => (kt.1, loaded_instant (clocks (n + i)%nat) kt.2)) deadlines.

Lemma as_u64_small z : 0 <= z <= u64_max -> as_u64 z = z.
Proof. apply as_usize_nonneg. Qed.

Lemma expiry_millis_ok c e :
  save_in_range c e -> expiry_millis c e = Ok (saved_millis c e).
Proof.
  unfold save_in_range, saved_millis, expiry_millis. destruct c as [i s]. cbn [fst snd].
  intros (Hs & Hmax & Hms).
  assert ((if i <? e then time_add s (e - i) else Ok s) =
          (Ok (s + Z.max 0 (e - i)) : outcome io_error Z)) as ->.
  { destruct (Z.ltb_spec i e).
    - rewrite (Z.max_r 0 (e - i)) in * by lia. by apply time_add_ok.
    - by rewrite Z.max_l, Z.add_0_r by lia. }
  cbn [obind]. destruct (Z.ltb_spec (s + Z.max 0 (e - i)) 0); [lia|].
  rewrite as_u64_small; [done|]. split; [|done].
  apply Z.div_pos; [lia|done].
Qed.

Lemma saved_millis_nonneg c e : save_in_range c e -> 0 <= saved_millis c e <= u64_max.
Proof. intros (? & ? & ?). split; [|done]. apply Z.div_pos; [lia|done]. Qed.

(** ** The writer emits the format *)

Section WriterSpec.
Context {W : Type} `{AsyncWriteLaws W}.

#[local] Hint Resolve emits_write_all emits_done emits_and_then : emits.

Lemma write_length_emits n : emits (write_length n) (enc_length n).
Proof.
  unfold write_length, enc_length. destruct (n <? 64); [auto with emits|].
  change (x80 :: ?t) with ([x80] ++ t). auto with emits.
Qed.

Lemma write_string_emits s : emits (write_string s) (enc_string s).
Proof. unfold write_string, enc_string. auto using write_length_emits with emits. Qed.

Lemma write_value_emits k v : emits (write_value k v) (enc_value k v).
Proof.
  unfold write_value, enc_value. change (x00 :: ?t) with ([x00] ++ t).
  auto using write_string_emits with emits.
Qed.

Lemma write_list_items_emits k l :
  emits (write_list_items k l) (concat (map (enc_item k) l)).
Proof.
  induction l as [|[s|l'] l IH]; cbn [write_list_items map concat enc_item app];
    auto using write_value_emits with emits.
Qed.

Lemma write_entry_emits k v : emits (write_entry k v) (enc_entry (k, v)).
Proof.
  destruct v as [s|l]; cbn [write_entry enc_entry fst snd];
    auto using write_string_emits, write_value_emits, write_length_emits, write_list_items_emits
      with emits.
Qed.

Lemma write_entries_emits db : emits (write_entries db) (concat (map enc_entry db)).
Proof. induction db as [|[k v] db IH]; simpl; auto using write_entry_emits with emits. Qed.

Lemma write_expiry_emits c k e :
  save_in_range c e -> emits (write_expiry c k e) (enc_expiry (k, saved_millis c e)).
Proof.
  intros Hr. unfold write_expiry, enc_expiry. rewrite expiry_millis_ok by done.
  cbn [fst snd]. change (xfc :: ?t) with ([xfc] ++ t).
  auto using write_string_emits with emits.
Qed.

Lemma write_expiries_emits clocks n el :
  (forall i ke, el !! i = Some ke -> save_in_range (clocks (n + i)%nat) ke.2) ->
  emits (write_expiries clocks n el) (concat (map enc_expiry (saved_deadlines clocks n el))).
Proof.
  revert n. induction el as [|[k e] el IH]; intros n Hr; simpl; [auto with emits|].
  pose proof (Hr 0%nat _ eq_refl) as Hhd. rewrite Nat.add_0_r in *.
  apply emits_and_then; [by apply write_expiry_emits|].
  replace (imap _ el) with (saved_deadlines clocks (S n) el).
  - apply IH. intros i ke Hi. specialize (Hr (S i) ke Hi). by rewrite Nat.add_succ_r in Hr.
  - apply imap_ext. intros i ke _. simpl. by rewrite Nat.add_succ_r.
Qed.

Lemma write_rdb_emits clocks db el :
  (forall i ke, el !! i = Some ke -> save_in_range (clocks i) ke.2) ->
  emits (write_rdb clocks db el) (enc_rdb db (saved_deadlines clocks 0 el)).
Proof.
  intros Hr. unfold write_rdb, write_db, enc_rdb.
  change ([xfe; x00] ++ ?t) with ([xfe] ++ enc_length 0 ++ t).
  auto 10 using write_length_emits, write_entries_emits, write_expiries_emits with emits.
Qed.
End WriterSpec.

(** ** Reading back *)

(** A string the format can hold: valid UTF-8 whose length fits in 32 bits. *)
Definition storable_string (s : bytes) : Prop := utf8_valid s = true /\ len s <= u32_max.

(** A value the format can hold: the items of a list are strings. *)
Definition storable (v : RedisObject) : Prop :=
  match v with
  | RedisObject.String s => storable_string s
  | RedisObject.List l =>
      len l <= u32_max /\
      Forall (fun o => match o with RedisObject.String s => storable_string s
                                  | RedisObject.List _ => False end) l
  end.

(** An empty list is written without its key, so the reader drops it. *)
Definition restored (v : RedisObject) : bool :=
  match v with RedisObject.List [] => false | _ => true end.

(** A key whose expiry the format can hold: it does not read as a type token. *)
Definition type_token (k : bytes) : Prop :=
  to_ascii_uppercase k = bs "STRING" \/ to_ascii_uppercase k = bs "LIST".

Lemma read_exact_app a f n : length a = n -> read_exact n (a ++ f) = Ok (a, f).
Proof.
  intros <-. unfold read_exact. rewrite length_app, (proj2 (Nat.leb_le _ _)) by lia.
  by rewrite take_app_length, drop_app_length.
Qed.

(** The first byte of an encoded length, and that it is no marker. *)
Lemma enc_length_split n :
  0 <= n <= u32_max ->
  exists b r, enc_length n = b :: r /\ b <> xfe /\ b <> xfc /\ b <> xff /\
    forall f, read_length_with_first b (r ++ f) = Ok (n, f).
Proof.
  intros Hn. unfold enc_length, read_length_with_first. destruct (Z.ltb_spec n 64) as [Hlt|Hge].
  - assert (bz (byte_of_Z n) = n) as Hb by (rewrite bz_byte_of_Z, Z.mod_small; lia).
    exists (byte_of_Z n), []. rewrite Hb.
    split_and!; [done|..|intros f; by rewrite (proj2 (Z.ltb_lt n 64))];
      intros E; rewrite E in Hb; cbv in Hb; lia.
  - exists x80, (to_be_bytes 4 (as_u32 n)). split_and!; try done.
    intros f. change (bz x80 <? 64) with false.
    rewrite decide_True by done. cbn [obind].
    rewrite read_exact_app by apply length_to_be_bytes. cbn [obind].
    rewrite from_to_be_bytes. unfold as_u32, wrap_unsigned, u32_max in *.
    rewrite !Z.mod_small; try done; rewrite ?Z.mod_small; lia.
Qed.

Lemma read_length_enc n f :
  0 <= n <= u32_max -> read_length (enc_length n ++ f) = Ok (n, f).
Proof. intros Hn. destruct (enc_length_split n Hn) as (b & r & -> & _ & _ & _ & Hr). apply Hr. Qed.

Lemma read_payload s f :
  storable_string s ->
  (let? (buf, file) := read_exact (Z.to_nat (len s)) (s ++ f) in
   Ok (from_utf8_lossy buf, file)) = (Ok (s, f) : outcome message _).
Proof.
  intros [Hv _]. unfold len. rewrite read_exact_app by lia. cbn [obind].
  by rewrite from_utf8_lossy_valid.
Qed.

Lemma read_string_enc s f :
  storable_string s -> read_string (enc_string s ++ f) = Ok (s, f).
Proof.
  intros Hs. unfold read_string, enc_string. rewrite <- (assoc_L (++)), read_length_enc.
  - cbn [obind]. by apply read_payload.
  - destruct Hs. split; [apply len_nonneg|done].
Qed.

Lemma enc_string_split s :
  storable_string s ->
  exists b r, enc_string s = b :: r /\ b <> xfe /\ b <> xfc /\ b <> xff /\
    forall f, read_string_with_first_len b (r ++ f) = Ok (s, f).
Proof.
  intros Hs. destruct (enc_length_split (len s)) as (b & r & E & ? & ? & ? & Hr).
  { destruct Hs. split; [apply len_nonneg|done]. }
  exists b, (r ++ s). unfold enc_string. rewrite E. split_and!; try done. intros f.
  unfold read_string_with_first_len. rewrite <- (assoc_L (++)), Hr. cbn [obind].
  by apply read_payload.
Qed.

(** Every turn of the loops takes input: fuel beyond the length of the file
    does not matter. *)
Definition shrinks {A} (m : reader A) : Prop :=
  forall f a r, m f = Ok (a, r) -> (length r <= length f)%nat.

Lemma read_exact_shrinks n : shrinks (read_exact n).
Proof.
  intros f a r. unfold read_exact. destruct (n <=? length f)%nat; [|done].
  intros [= _ <-]. rewrite length_drop. lia.
Qed.

Lemma read_byte_shrinks f b r : read_byte f = Ok (b, r) -> (length r < length f)%nat.
Proof. destruct f; simpl; [done|]. intros [= _ <-]. lia. Qed.

(** Takes apart a sequence of reads that succeeded. *)
Ltac inv_reads :=
  repeat (progress inv_ok ||
          match goal with
          | x : _ * _ |- _ => destruct x; cbn [fst snd] in *
          | H : (if ?b then _ else _) = Ok _ |- _ => destruct b eqn:?
          | H : match ?b with Some _ => _ | None => _ end = Ok _ |- _ => destruct b
          end).

#[local] Hint Resolve read_exact_shrinks : shrinks.

(** Compares the input left by reads with the input they had. *)
Ltac shrink :=
  repeat match goal with
  | H : read_byte _ = Ok _ |- _ => apply read_byte_shrinks in H
  | H : ?m ?f = Ok (_, _) |- _ =>
      let S := fresh in assert (shrinks m) as S by auto with shrinks; apply S in H; clear S
  end; try lia.

Lemma read_length_with_first_shrinks b : shrinks (read_length_with_first b).
Proof. intros f a r Hr. unfold read_length_with_first in Hr. inv_reads; shrink. Qed.
#[local] Hint Resolve read_length_with_first_shrinks : shrinks.

Lemma read_length_shrinks : shrinks read_length.
Proof. intros f a r Hr. unfold read_length in Hr. inv_reads; shrink. Qed.

Lemma read_string_with_first_len_shrinks b : shrinks (read_string_with_first_len b).
Proof. intros f a r Hr. unfold read_string_with_first_len in Hr. inv_reads; shrink. Qed.
#[local] Hint Resolve read_length_shrinks read_string_with_first_len_shrinks : shrinks.

Lemma read_string_shrinks : shrinks read_string.
Proof. intros f a r Hr. unfold read_string in Hr. inv_reads; shrink. Qed.

Lemma read_expiry_shrinks c : shrinks (read_expiry c).
Proof. intros f a r Hr. unfold read_expiry in Hr. inv_reads; shrink. Qed.
#[local] Hint Resolve read_string_shrinks read_expiry_shrinks : shrinks.

Lemma read_list_items_shrinks fuel n key vs f key' vs' r :
  read_list_items fuel n key vs f = Ok (key', vs', r) -> (length r <= length f)%nat.
Proof.
  revert n key vs f. induction fuel as [|fuel IH]; intros n key vs f; cbn [read_list_items];
    intros Hr; inv_reads; shrink.
  apply IH in Hr. shrink.
Qed.

Lemma read_tagged_shrinks clocks marker st : shrinks (read_tagged clocks marker st).
Proof.
  intros f a r Hr. unfold read_tagged in Hr. inv_reads; shrink;
    match goal with H : read_list_items _ _ _ _ _ = _ |- _ => apply read_list_items_shrinks in H end;
    shrink.
Qed.
#[local] Hint Resolve read_tagged_shrinks : shrinks.

(** ** Totality *)

(** The computation returns, with a value or an error. *)
Definition answers {E A} (m : outcome E A) : Prop :=
  match m with Ok _ | Err _ => True | Panic _ | Diverge => False end.

Lemma obind_answers {E A B} (m : outcome E A) (k : A -> outcome E B) :
  answers m -> (forall a, m = Ok a -> answers (k a)) -> answers (obind m k).
Proof. destruct m; simpl; auto. Qed.

(** The monotonic clock leaves room for every 64-bit count of milliseconds,
    and the system clock is past its epoch. *)
Definition clock_in_range (c : clock_pair) : Prop :=
  c.1 + from_millis u64_max <= instant_max /\ 0 <= c.2.

(** Steps through a sequence of reads, each of which answers. *)
Ltac answer_reads :=
  repeat first
    [ done
    | apply obind_answers; [solve [auto with answers]|]
    | match goal with
      | |- forall a : _ * _, _ => intros [? ?] ?
      | |- forall _, _ => intros ? ?
      | |- context [if ?b then _ else _] => destruct b eqn:?
      | |- answers (let '(_, _) := ?p in _) => destruct p
      | |- answers (match ?o with Some _ => _ | None => _ end) => destruct o
      end ].

Lemma read_exact_answers n f : answers (read_exact n f).
Proof. unfold read_exact. by destruct (n <=? length f)%nat. Qed.

Lemma read_byte_answers f : answers (read_byte f).
Proof. by destruct f. Qed.
#[local] Hint Resolve read_exact_answers read_byte_answers : answers.

Lemma read_length_with_first_answers b f : answers (read_length_with_first b f).
Proof. unfold read_length_with_first. answer_reads. Qed.
#[local] Hint Resolve read_length_with_first_answers : answers.

Lemma read_length_answers f : answers (read_length f).
Proof. unfold read_length. answer_reads. auto with answers. Qed.

Lemma read_string_with_first_len_answers b f : answers (read_string_with_first_len b f).
Proof. unfold read_string_with_first_len. answer_reads. Qed.
#[local] Hint Resolve read_length_answers read_string_with_first_len_answers : answers.

Lemma read_string_answers f : answers (read_string f).
Proof. unfold read_string. answer_reads. Qed.
#[local] Hint Resolve read_string_answers : answers.

Lemma from_le_bytes_8 buf : length buf = 8%nat -> 0 <= from_le_bytes buf <= u64_max.
Proof.
  intros Hl. pose proof (from_le_bytes_range buf) as Hr. rewrite Hl in Hr.
  change (256 ^ Z.of_nat 8) with (u64_max + 1) in Hr. lia.
Qed.

Lemma read_expiry_exact c f buf r :
  clock_in_range c -> read_exact 8 f = Ok (buf, r) ->
  read_expiry c f = Ok (loaded_instant c (from_le_bytes buf), r).
Proof.
  unfold clock_in_range, read_expiry, loaded_instant. intros [Hc Hs] Hf. rewrite Hf. cbn [obind].
  assert (length buf = 8%nat) as Hl.
  { unfold read_exact in Hf. destruct (Nat.leb_spec 8 (length f)); simplify_eq.
    rewrite length_take. lia. }
  apply from_le_bytes_8 in Hl.
  assert (from_millis (from_le_bytes buf) <= from_millis u64_max) as Hle
    by (unfold from_millis, nanos_per_milli; lia).
  destruct c as [i s]. cbn [fst snd] in *.
  rewrite time_add_ok by (unfold from_millis, instant_max, u64_max, i64_max, nanos_per_milli,
    nanos_per_sec in *; lia).
  cbn [obind]. rewrite Z.add_0_l.
  destruct (Z.leb_spec s (from_millis (from_le_bytes buf))).
  - rewrite Z.max_r by lia. rewrite time_add_ok by lia. done.
  - rewrite Z.max_l by lia. rewrite time_add_ok; [done|].
    unfold from_millis, u64_max, nanos_per_milli in Hc. lia.
Qed.

Lemma read_expiry_answers c f : clock_in_range c -> answers (read_expiry c f).
Proof.
  intros Hc. destruct (read_exact 8 f) as [[buf r]|e|p|] eqn:E.
  - by rewrite (read_expiry_exact c f buf r).
  - unfold read_expiry. by rewrite E.
  - pose proof (read_exact_answers 8 f) as Ha. by rewrite E in Ha.
  - pose proof (read_exact_answers 8 f) as Ha. by rewrite E in Ha.
Qed.

Lemma read_list_items_answers fuel n key vs f :
  (length f < fuel)%nat -> answers (read_list_items fuel n key vs f).
Proof.
  revert n key vs f. induction fuel as [|fuel IH]; intros n key vs f Hf; [lia|].
  cbn [read_list_items]. answer_reads. apply IH. shrink.
Qed.

Section ReaderSpec.
Context (clocks : nat -> clock_pair).
Hypothesis clocks_in_range : forall n, clock_in_range (clocks n).

Lemma read_expiry_clock n f : answers (read_expiry (clocks n) f).
Proof. by apply read_expiry_answers. Qed.
#[local] Hint Resolve read_expiry_clock : answers.

Lemma read_tagged_answers marker st f : answers (read_tagged clocks marker st f).
Proof.
  unfold read_tagged. answer_reads.
  apply obind_answers; [apply read_list_items_answers; lia|]. intros [[key vs] r] _.
  by destruct key.
Qed.
#[local] Hint Resolve read_tagged_answers : answers.

Lemma read_markers_answers fuel st f :
  (length f < fuel)%nat -> answers (read_markers clocks fuel st f).
Proof.
  revert st f. induction fuel as [|fuel IH]; intros st f Hf; [lia|]. cbn [read_markers].
  destruct (read_byte f) as [[marker r]| | |] eqn:E; try done.
  answer_reads; apply IH; shrink.
Qed.

(** A token at the head of the file is read by [read_tagged]. *)
Lemma read_markers_token fuel st tok f :
  storable_string tok ->
  exists b r, read_string_with_first_len b r = Ok (tok, f) /\
    read_markers clocks (S fuel) st (enc_string tok ++ f) =
      (let? (st', f') := read_tagged clocks b st r in read_markers clocks fuel st' f').
Proof.
  intros Ht. destruct (enc_string_split tok Ht) as (b & r & -> & Hfe & Hfc & Hff & Hr).
  exists b, (r ++ f). split; [apply Hr|]. cbn [read_markers read_byte app].
  by rewrite !decide_False.
Qed.

Lemma read_string_entry fuel st k s f :
  storable_string k -> storable_string s ->
  read_markers clocks (S fuel) st (enc_entry (k, RedisObject.String s) ++ f) =
  read_markers clocks fuel
    (mkLoading (<[k := RedisObject.String s]> (l_db st)) (l_expirations st) (l_clock st)) f.
Proof.
  intros Hk Hs. unfold enc_entry, enc_value. cbn [fst snd]. rewrite <- (assoc_L (++)).
  destruct (read_markers_token fuel st (bs "string")
              ((x00 :: enc_string k ++ enc_string s) ++ f)) as (b & r & Hr & ->); [by split|].
  unfold read_tagged. rewrite Hr. cbn [obind].
  rewrite decide_True by done. cbn [app read_byte obind].
  rewrite bool_decide_true by done. cbn [negb].
  rewrite <- (assoc_L (++)), read_string_enc by done. cbn [obind].
  by rewrite read_string_enc by done.
Qed.

Lemma read_list_items_enc k l fuel key vs f :
  storable_string k ->
  Forall (fun o => match o with RedisObject.String s => storable_string s
                              | RedisObject.List _ => False end) l ->
  (length l <= fuel)%nat ->
  read_list_items fuel (len l) key vs (concat (map (enc_item k) l) ++ f) =
    Ok (match l with [] => key | _ => Some (default k key) end, vs ++ l, f).
Proof.
  intros Hk Hl. revert fuel key vs. induction Hl as [|[s|] l Hs Hl IH]; intros fuel key vs Hf.
  - rewrite app_nil_r. by destruct fuel.
  - destruct fuel as [|fuel]; simpl in Hf; [lia|].
    cbn [map concat enc_item read_list_items]. rewrite len_cons.
    rewrite (proj2 (Z.leb_gt _ _)) by (pose proof (len_nonneg l); lia).
    unfold enc_value. cbn [app read_byte obind]. rewrite bool_decide_true by done. cbn [negb].
    rewrite <- !(assoc_L (++)), read_string_enc by done. cbn [obind].
    rewrite read_string_enc by done. cbn [obind].
    replace (len l + 1 - 1) with (len l) by lia. rewrite IH by lia.
    rewrite <- (assoc_L (++)). destruct key, l; done.
  - done.
Qed.

Lemma enc_items_length k l :
  Forall (fun o => match o with RedisObject.String s => storable_string s
                              | RedisObject.List _ => False end) l ->
  (length l <= length (concat (map (enc_item k) l)))%nat.
Proof.
  induction 1 as [|[s|] l Hs Hl IH]; cbn [map concat enc_item length]; [lia| |done].
  rewrite length_app. unfold enc_value. cbn [length]. lia.
Qed.

(** The effect of a data entry on what the reader has built. *)
Definition load_entry (kv : bytes * RedisObject) (st : loading) : loading :=
  if restored kv.2
  then mkLoading (<[kv.1 := kv.2]> (l_db st)) (l_expirations st) (l_clock st)
  else st.

Lemma read_list_entry fuel st k l f :
  storable_string k -> storable (RedisObject.List l) ->
  read_markers clocks (S fuel) st (enc_entry (k, RedisObject.List l) ++ f) =
  read_markers clocks fuel (load_entry (k, RedisObject.List l) st) f.
Proof.
  intros Hk (Hlen & Hl). unfold enc_entry. cbn [fst snd]. rewrite <- !(assoc_L (++)).
  destruct (read_markers_token fuel st (bs "list")
              (enc_length (len l) ++ concat (map (enc_item k) l) ++ f))
    as (b & r & Hr & ->); [by split|].
  unfold read_tagged. rewrite Hr. cbn [obind].
  rewrite decide_False by done. rewrite decide_True by done.
  rewrite read_length_enc by (split; [apply len_nonneg|done]). cbn [obind].
  rewrite read_list_items_enc; [|done..|].
  - by destruct l.
  - rewrite length_app. pose proof (enc_items_length k l Hl). lia.
Qed.

Lemma read_entry fuel st k v f :
  storable_string k -> storable v ->
  read_markers clocks (S fuel) st (enc_entry (k, v) ++ f) =
  read_markers clocks fuel (load_entry (k, v) st) f.
Proof. destruct v; [apply read_string_entry|apply read_list_entry]. Qed.

(** The effect of a deadline. *)
Definition load_deadline (kt : bytes * Z) (st : loading) : loading :=
  mkLoading (l_db st) (<[kt.1 := loaded_instant (clocks (l_clock st)) kt.2]> (l_expirations st))
    (S (l_clock st)).

Lemma read_expiry_entry fuel st k ms f :
  storable_string k -> ~ type_token k -> 0 <= ms <= u64_max ->
  read_markers clocks (S fuel) st (enc_expiry (k, ms) ++ f) =
  read_markers clocks fuel (load_deadline (k, ms) st) f.
Proof.
  intros Hk Ht Hms. unfold enc_expiry. cbn [fst snd]. rewrite <- (assoc_L (++)).
  destruct (read_markers_token fuel st k ((xfc :: to_le_bytes 8 ms) ++ f))
    as (b & r & Hr & ->); [done|].
  unfold read_tagged. rewrite Hr. cbn [obind].
  unfold type_token in Ht. rewrite decide_False by tauto. rewrite decide_False by tauto.
  cbn [app read_byte obind]. rewrite bool_decide_true by done. cbn [negb].
  rewrite (read_expiry_exact _ _ (to_le_bytes 8 ms) f); [|done|].
  - cbn [obind]. rewrite from_to_le_bytes.
    rewrite Z.mod_small; [done|]. change (256 ^ Z.of_nat 8) with (u64_max + 1). lia.
  - apply read_exact_app, length_to_le_bytes.
Qed.

(** The deadline of a key that is spelled like a type is read as an entry of
    that type, and the expiry opcode is neither a value nor a length. *)
Lemma read_type_token_expiry fuel st k ms f :
  storable_string k -> type_token k ->
  exists e, read_markers clocks (S fuel) st (enc_expiry (k, ms) ++ f) = Err e.
Proof.
  intros Hk Ht. unfold enc_expiry. cbn [fst snd]. rewrite <- (assoc_L (++)).
  destruct (read_markers_token fuel st k ((xfc :: to_le_bytes 8 ms) ++ f))
    as (b & r & Hr & ->); [done|].
  unfold read_tagged. rewrite Hr. cbn [obind].
  destruct Ht as [->| ->]; [rewrite decide_True by done|rewrite decide_False, decide_True by done];
    by eexists.
Qed.

Lemma enc_string_nonempty s : (1 <= length (enc_string s))%nat.
Proof. unfold enc_string, enc_length. destruct (_ <? _); simpl; lia. Qed.

Lemma enc_entry_nonempty kv : (1 <= length (enc_entry kv))%nat.
Proof.
  unfold enc_entry. destruct kv.2; rewrite length_app;
    [pose proof (enc_string_nonempty (bs "string"))|pose proof (enc_string_nonempty (bs "list"))];
    lia.
Qed.

Lemma enc_expiry_nonempty kt : (1 <= length (enc_expiry kt))%nat.
Proof. unfold enc_expiry. rewrite length_app. pose proof (enc_string_nonempty kt.1). lia. Qed.

Lemma read_entries fuel st dl f :
  Forall (fun kv => storable_string kv.1 /\ storable kv.2) dl ->
  (length (concat (map enc_entry dl) ++ f) < fuel)%nat ->
  exists fuel', (length f < fuel')%nat /\
    read_markers clocks fuel st (concat (map enc_entry dl) ++ f) =
    read_markers clocks fuel' (foldl (fun st kv => load_entry kv st) st dl) f.
Proof.
  intros Hdl. revert fuel st. induction Hdl as [|[k v] dl [Hk Hv] Hdl IH]; intros fuel st Hf.
  - by exists fuel.
  - destruct fuel as [|fuel]; [lia|]. cbn [map concat] in *. rewrite <- (assoc_L (++)) in *.
    rewrite read_entry by done. rewrite length_app in Hf.
    pose proof (enc_entry_nonempty (k, v)).
    destruct (IH fuel (load_entry (k, v) st)) as (fuel' & ? & ->); [lia|].
    by exists fuel'.
Qed.

(** What a deadline in the file must be for the reader to take it. *)
Definition deadline_ok (kt : bytes * Z) : Prop :=
  storable_string kt.1 /\ ~ type_token kt.1 /\ 0 <= kt.2 <= u64_max.

Lemma read_expiries fuel st ml f :
  Forall deadline_ok ml ->
  (length (concat (map enc_expiry ml) ++ f) < fuel)%nat ->
  exists fuel', (length f < fuel')%nat /\
    read_markers clocks fuel st (concat (map enc_expiry ml) ++ f) =
    read_markers clocks fuel' (foldl (fun st kt => load_deadline kt st) st ml) f.
Proof.
  intros Hml. revert fuel st. induction Hml as [|[k ms] ml (Hk & Ht & Hms) Hml IH]; intros fuel st Hf.
  - by exists fuel.
  - destruct fuel as [|fuel]; [lia|]. cbn [map concat] in *. rewrite <- (assoc_L (++)) in *.
    rewrite read_expiry_entry by done. rewrite length_app in Hf.
    pose proof (enc_expiry_nonempty (k, ms)).
    destruct (IH fuel (load_deadline (k, ms) st)) as (fuel' & ? & ->); [lia|].
    by exists fuel'.
Qed.

(** The maps the two folds build. *)
Lemma foldl_load_entry dl st :
  NoDup dl.*1 ->
  foldl (fun st kv => load_entry kv st) st dl =
    mkLoading (list_to_map (filter (fun kv => restored kv.2 = true) dl) ∪ l_db st)
      (l_expirations st) (l_clock st).
Proof.
  revert st. induction dl as [|[k v] dl IH]; intros st.
  - intros _. simpl. rewrite (left_id_L ∅ (∪)). by destruct st.
  - rewrite fmap_cons. intros [Hk Hnd]%NoDup_cons. cbn [foldl]. rewrite IH by done.
    unfold load_entry. rewrite filter_cons. cbn [fst snd].
    case_decide as Hv; [rewrite Hv|apply not_true_is_false in Hv; by rewrite Hv].
    cbn [l_db l_expirations l_clock list_to_map foldr uncurry].
    f_equal. symmetry.
    change (list_to_map ((k, v) :: ?l)) with (<[k := v]> (list_to_map l : gmap bytes RedisObject)).
    rewrite <- insert_union_l. apply insert_union_r. apply not_elem_of_list_to_map_1.
    intros Hin. apply Hk. apply list_elem_of_fmap in Hin as (y & -> & Hy).
    apply list_elem_of_filter in Hy as [_ Hy]. apply list_elem_of_fmap. by exists y.
Qed.

Lemma foldl_load_deadline ml st :
  NoDup ml.*1 ->
  foldl (fun st kt => load_deadline kt st) st ml =
    mkLoading (l_db st) (list_to_map (loaded_expiries clocks (l_clock st) ml) ∪ l_expirations st)
      (l_clock st + length ml).
Proof.
  revert st. induction ml as [|[k ms] ml IH]; intros st.
  - intros _. simpl. rewrite (left_id_L ∅ (∪)), Nat.add_0_r. by destruct st.
  - rewrite fmap_cons. intros [Hk Hnd]%NoDup_cons. cbn [foldl]. rewrite IH by done. unfold load_deadline.
    cbn [l_db l_expirations l_clock fst snd length]. f_equal; [|lia].
    unfold loaded_expiries. rewrite imap_cons. cbn [fst snd]. rewrite Nat.add_0_r.
    change (list_to_map ((k, ?v) :: ?l)) with (<[k := v]> (list_to_map l : gmap bytes Instant)).
    rewrite <- insert_union_l. symmetry. rewrite insert_union_r.
    + do 2 f_equal. apply imap_ext. intros i kt _. simpl. by rewrite Nat.add_succ_r.
    + apply not_elem_of_list_to_map_1. rewrite fmap_imap. intros Hin. apply Hk.
      apply list_elem_of_lookup in Hin as [i Hi].
      rewrite list_lookup_imap in Hi. apply fmap_Some in Hi as (kt & Hi & ->). simpl.
      apply list_elem_of_fmap_2. by eapply list_elem_of_lookup_2.
Qed.
End ReaderSpec.
