(* ===== verification/RdbSpec.v ===== *)
(** * What a snapshot preserves

    The round trip of the writer and the reader, the deadlines of expiring keys
    across a save and a load, and the database a restart builds from the
    snapshot of another one. Then what the reader does on arbitrary files, and
    the snapshots it does not read back. *)
From S2P Require Import Prelude Ints Utf8 RespTypes RespSpec DashMap Database DatabaseSpec.
From S2P Require Import Rdb RdbFormat.
Local Open Scope Z_scope.

(** ** The round trip *)

(** The entries of a snapshot, and its expiry times at the clock readings of
    the save. *)
Definition entries_ok (dl : list (bytes * RedisObject)) : Prop :=
  NoDup dl.*1 /\ Forall (fun kv => storable_string kv.1 /\ storable kv.2) dl.

Definition expiries_ok (clocks : nat -> clock_pair) (el : list (bytes * Instant)) : Prop :=
  NoDup el.*1 /\ Forall (fun ke => storable_string ke.1) el /\
  forall i ke, el !! i = Some ke -> save_in_range (clocks i) ke.2.

Lemma saved_deadlines_keys clocks n el : (saved_deadlines clocks n el).*1 = el.*1.
Proof.
  unfold saved_deadlines. rewrite fmap_imap. revert n.
  induction el as [|[k e] el IH]; intros n; [done|]. rewrite imap_cons, fmap_cons. f_equal.
  rewrite <- (IH (S n)). apply imap_ext. done.
Qed.

Lemma saved_deadlines_ok clocks el :
  expiries_ok clocks el -> Forall (fun ke => ~ type_token ke.1) el ->
  Forall deadline_ok (saved_deadlines clocks 0 el).
Proof.
  intros (_ & Hs & Hr) Ht. apply Forall_lookup. intros i kt Hi.
  unfold saved_deadlines in Hi. rewrite list_lookup_imap in Hi.
  apply fmap_Some in Hi as ([k e] & Hi & ->). simpl.
  rewrite Forall_lookup in Hs, Ht.
  split_and!; [exact (Hs i _ Hi)|exact (Ht i _ Hi)|apply saved_millis_nonneg, (Hr i _ Hi)..].
Qed.

Section RoundTrip.
Context (rclocks : nat -> clock_pair).
Hypothesis rclocks_in_range : forall n, clock_in_range (rclocks n).

Lemma rdb_parse_prefix dl ml f :
  entries_ok dl -> Forall deadline_ok ml -> NoDup ml.*1 ->
  exists fuel, (length f < fuel)%nat /\
    rdb_parse rclocks (enc_rdb dl ml ++ f) =
      (let? st := read_markers rclocks fuel
         (mkLoading (list_to_map (filter (fun kv => restored kv.2 = true) dl))
            (list_to_map (loaded_expiries rclocks 0 ml)) (length ml)) f in
       Ok (l_db st, l_expirations st)).
Proof.
  intros [Hnd Hdl] Hml Hnm. unfold rdb_parse, enc_rdb, read_header.
  rewrite <- !(assoc_L (++)), (read_exact_app rdb_header) by done. cbn [obind].
  rewrite decide_True by done. cbn [obind].
  set (body := concat (map enc_entry dl) ++ concat (map enc_expiry ml) ++ f).
  change (read_markers rclocks (S (length ([xfe; x00] ++ body))) (mkLoading ∅ ∅ 0) ([xfe; x00] ++ body))
    with (read_markers rclocks (S (S (length body))) (mkLoading ∅ ∅ 0) body).
  subst body.
  edestruct (read_entries rclocks) as (fuel1 & Hf1 & ->); [exact Hdl| |].
  { apply Nat.lt_succ_r, Nat.le_succ_diag_r. }
  destruct (read_expiries rclocks rclocks_in_range fuel1
              (foldl (fun st kv => load_entry kv st) (mkLoading ∅ ∅ 0) dl) ml f)
    as (fuel2 & Hf2 & ->); [done..|].
  exists fuel2. split; [done|].
  rewrite foldl_load_deadline, foldl_load_entry by done.
  cbn [l_db l_expirations l_clock]. by rewrite !(right_id_L ∅ (∪)).
Qed.

Lemma rdb_parse_enc dl ml :
  entries_ok dl -> Forall deadline_ok ml -> NoDup ml.*1 ->
  rdb_parse rclocks (enc_rdb dl ml) =
    Ok (list_to_map (filter (fun kv => restored kv.2 = true) dl),
        list_to_map (loaded_expiries rclocks 0 ml)).
Proof.
  intros Hdl Hml Hnm. destruct (rdb_parse_prefix dl ml []) as (fuel & Hf & He); [done..|].
  rewrite app_nil_r in He. rewrite He. destruct fuel; [lia|]. done.
Qed.

Lemma loaded_expiries_keys n ml : (loaded_expiries rclocks n ml).*1 = ml.*1.
Proof.
  unfold loaded_expiries. rewrite fmap_imap. revert n.
  induction ml as [|[k e] ml IH]; intros n; [done|]. rewrite imap_cons, fmap_cons. f_equal.
  rewrite <- (IH (S n)). apply imap_ext. done.
Qed.
End RoundTrip.

(** The expiry times of a load of a save. *)
Lemma loaded_saved wclocks rclocks el :
  loaded_expiries rclocks 0 (saved_deadlines wclocks 0 el) =
    imap (fun i ke => (ke.1, loaded_instant (rclocks i) (saved_millis (wclocks i) ke.2))) el.
Proof.
  apply list_eq. intros i. unfold loaded_expiries, saved_deadlines.
  rewrite !list_lookup_imap. by destruct (el !! i).
Qed.

Lemma list_filter_all {A} (P : A -> Prop) `{forall x, Decision (P x)} (l : list A) :
  (forall x, x ∈ l -> P x) -> filter P l = l.
Proof.
  induction l as [|x l IH]; intros Hl; [done|]. rewrite filter_cons_True by set_solver.
  f_equal. set_solver.
Qed.

Lemma list_to_map_imap {A B} (F : nat -> A -> B) (l : list (bytes * A)) k :
  NoDup l.*1 ->
  match (list_to_map l : gmap bytes A) !! k with
  | Some a => exists i, (i < length l)%nat /\
      (list_to_map (imap (fun i ka => (ka.1, F i ka.2)) l) : gmap bytes B) !! k = Some (F i a)
  | None => (list_to_map (imap (fun i ka => (ka.1, F i ka.2)) l) : gmap bytes B) !! k = None
  end.
Proof.
  revert F. induction l as [|[k' a'] l IH]; intros F; [done|].
  rewrite fmap_cons. intros [Hk Hnd]%NoDup_cons.
  rewrite imap_cons, !list_to_map_cons. cbn [fst snd].
  destruct (decide (k' = k)) as [->|Hne].
  - rewrite !lookup_insert_eq. exists 0%nat. simpl. split; [lia|done].
  - rewrite !lookup_insert_ne by done. specialize (IH (fun i => F (S i)) Hnd).
    destruct (list_to_map l !! k); [|done].
    destruct IH as (i & Hi & Hl). exists (S i). simpl. split; [lia|done].
Qed.

(** ** Deadlines *)

(** When both clocks of a process advance together, an expiry keeps its
    deadline in system time, rounded down to a millisecond, unless it is past
    at the load. *)
Lemma loaded_saved_instant wc rc e ow or :
  wc.2 = wc.1 + ow -> rc.2 = rc.1 + or ->
  loaded_instant rc (saved_millis wc e) + or =
    Z.max (rc.1 + or) ((Z.max e wc.1 + ow) / nanos_per_milli * nanos_per_milli).
Proof.
  intros Hw Hr. unfold loaded_instant, saved_millis, from_millis. rewrite Hw, Hr.
  replace (wc.1 + ow + Z.max 0 (e - wc.1)) with (Z.max e wc.1 + ow) by lia. lia.
Qed.

Lemma round_down_millis t :
  t - nanos_per_milli < t / nanos_per_milli * nanos_per_milli <= t.
Proof.
  unfold nanos_per_milli. pose proof (Z.div_mod t 1000000 ltac:(lia)).
  pose proof (Z.mod_pos_bound t 1000000 ltac:(lia)). lia.
Qed.

(** ** Properties *)

Section Properties.
Context {W : Type} `{AsyncWriteLaws W}.
Context {M : Type -> Type} `{DashMapLaws M}.
Context (wclocks rclocks : nat -> clock_pair).

Lemma load_saved dl el :
  entries_ok dl -> expiries_ok wclocks el -> Forall (fun ke => ~ type_token ke.1) el ->
  (forall n, clock_in_range (rclocks n)) ->
  load_rdb rclocks (Some (enc_rdb dl (saved_deadlines wclocks 0 el))) =
    Ok (list_to_map (filter (fun kv => restored kv.2 = true) dl),
        list_to_map (imap (fun i ke =>
          (ke.1, loaded_instant (rclocks i) (saved_millis (wclocks i) ke.2))) el)).
Proof.
  intros Hdl Hel Ht Hr. cbn [load_rdb].
  rewrite rdb_parse_enc; [|done|done|by apply saved_deadlines_ok|].
  - by rewrite loaded_saved.
  - rewrite saved_deadlines_keys. apply Hel.
Qed.

(** C8: what [save_rdb] writes, [load_rdb] reads back. For distinct keys,
    valid strings whose lengths fit in 32 bits, lists of strings, and expiry
    times in range whose keys are not spelled like a type token, the writer
    emits one file over every lawful writer, and the reader returns exactly
    the entries that are not empty lists, and for every expiry the instant
    that its deadline has on the clocks of the load. *)
Theorem rdb_roundtrip dl el :
  entries_ok dl -> expiries_ok wclocks el -> Forall (fun ke => ~ type_token ke.1) el ->
  (forall n, clock_in_range (rclocks n)) ->
  exists file,
    emits (write_rdb wclocks dl el) file /\
    load_rdb rclocks (Some file) =
      Ok (list_to_map (filter (fun kv => restored kv.2 = true) dl),
          list_to_map (imap (fun i ke =>
            (ke.1, loaded_instant (rclocks i) (saved_millis (wclocks i) ke.2))) el)).
Proof.
  intros Hdl Hel Ht Hr. eexists. split; [|by apply load_saved].
  apply write_rdb_emits. by destruct Hel as (_ & _ & ?).
Qed.

(** C22: the reader answers on every file, whatever its bytes: it neither
    panics nor loops, as long as the monotonic clock of the load is more than
    2^64 milliseconds below the largest instant. *)
Theorem load_total file :
  (forall n, clock_in_range (rclocks n)) -> answers (load_rdb rclocks (Some file)).
Proof.
  intros Hr. cbn [load_rdb]. unfold rdb_parse, read_header.
  apply obind_answers.
  - apply obind_answers; [apply read_exact_answers|]. intros [buf f] _. by case_decide.
  - intros f _. apply obind_answers; [|done]. apply read_markers_answers; [done|lia].
Qed.

(** The database that [DB::new] builds. *)
Lemma DB_new_lookup file dl el :
  load_rdb rclocks (Some file) = Ok (list_to_map dl, list_to_map el) ->
  exists db', DB_new (M := M) rclocks (Some file) = Ok db' /\
    (forall k, dm_get (data db') k = (list_to_map dl : gmap bytes RedisObject) !! k) /\
    (forall k, dm_get (expirations db') k = (list_to_map el : gmap bytes Instant) !! k).
Proof.
  intros Hl. unfold DB_new. rewrite Hl. eexists. split; [done|]. cbn [data expirations].
  split; intros k; rewrite dm_get_from_iter by apply NoDup_fst_map_to_list;
    by rewrite list_to_map_to_list.
Qed.

(** A snapshot holds each entry of a map once, in some order. *)
Lemma snapshot_lookup {V} (m : M V) l k :
  l ≡ₚ dm_iter m -> (list_to_map l : gmap bytes V) !! k = dm_get m k.
Proof.
  intros Hl. assert (NoDup l.*1) as Hnd by (rewrite Hl; apply dm_iter_NoDup).
  apply option_eq. intros v. rewrite <- elem_of_list_to_map by done. rewrite Hl.
  apply dm_iter_get.
Qed.

(** A database whose snapshot the reader can read back in full. *)
Definition persistent (db : DB M) : Prop :=
  (forall k v, dm_get (data db) k = Some v ->
     storable_string k /\ storable v /\ restored v = true) /\
  (forall k e, dm_get (expirations db) k = Some e -> ~ type_token k).

Lemma persistent_entries db dl :
  persistent db -> dl ≡ₚ dm_iter (data db) ->
  entries_ok dl /\ filter (fun kv => restored kv.2 = true) dl = dl.
Proof.
  intros [Hd _] Hdl.
  assert (forall kv, kv ∈ dl -> storable_string kv.1 /\ storable kv.2 /\ restored kv.2 = true) as Hall.
  { intros [k v] Hin. rewrite Hdl in Hin. apply dm_iter_get in Hin. by apply Hd in Hin. }
  split; [split|].
  - rewrite Hdl. apply dm_iter_NoDup.
  - apply Forall_forall. intros kv Hin. specialize (Hall kv Hin). tauto.
  - apply list_filter_all. intros kv Hin. by apply Hall.
Qed.

Lemma persistent_expiries db el :
  db_wf db -> persistent db -> el ≡ₚ dm_iter (expirations db) ->
  (forall k e n, dm_get (expirations db) k = Some e -> save_in_range (wclocks n) e) ->
  expiries_ok wclocks el /\ Forall (fun ke => ~ type_token ke.1) el.
Proof.
  intros Hwf [Hd He] Hel Hr.
  assert (forall ke, ke ∈ el -> dm_get (expirations db) ke.1 = Some ke.2) as Hall.
  { intros [k e] Hin. rewrite Hel in Hin. by apply dm_iter_get in Hin. }
  split; [split_and!|].
  - rewrite Hel. apply dm_iter_NoDup.
  - apply Forall_forall. intros ke Hin%Hall. destruct (Hwf ke.1) as [v Hv]; [by eexists|].
    by apply Hd in Hv as [? _].
  - intros i ke Hi%list_elem_of_lookup_2%Hall. by eapply Hr.
  - apply Forall_forall. intros ke Hin%Hall. by eapply He.
Qed.

(** Whether an expiry is past after a restart: never later than before it,
    and less than a millisecond earlier. *)
Lemma past_after_restart wc rc ow or e now :
  wc.2 = wc.1 + ow -> rc.2 = rc.1 + or -> wc.2 <= rc.2 -> rc.1 < now ->
  (past now (Some (loaded_instant rc (saved_millis wc e))) = false ->
   past (now + or - ow) (Some e) = false) /\
  (past (now + or - ow + nanos_per_milli) (Some e) = false ->
   past now (Some (loaded_instant rc (saved_millis wc e))) = false).
Proof.
  intros Hw Hr Hle Hnow. pose proof (loaded_saved_instant wc rc e ow or Hw Hr) as Hl.
  pose proof (round_down_millis (Z.max e wc.1 + ow)) as Hq.
  generalize dependent (loaded_instant rc (saved_millis wc e)). intros e' Hl.
  generalize dependent ((Z.max e wc.1 + ow) / nanos_per_milli * nanos_per_milli). intros q Hq Hl.
  unfold past. rewrite !Z.ltb_ge. lia.
Qed.

(** [db'] is [db] after a restart: it has the invariant, and, once the [n]
    expiry times have been loaded, no key lives longer than it would have and no
    key is lost that had a millisecond left. *)
Definition restored_as (n : nat) (ow or : Z) (db db' : DB M) : Prop :=
  db_wf db' /\
  forall k now, (forall i, (i < n)%nat -> (rclocks i).1 < now) ->
    (forall v, live now (view db') k = Some v -> live (now + or - ow) (view db) k = Some v) /\
    (forall v, live (now + or - ow + nanos_per_milli) (view db) k = Some v ->
               live now (view db') k = Some v).

Lemma restart_of_file db dl el ow or :
  db_wf db -> persistent db ->
  dl ≡ₚ dm_iter (data db) -> el ≡ₚ dm_iter (expirations db) ->
  (forall k e n, dm_get (expirations db) k = Some e -> save_in_range (wclocks n) e) ->
  (forall n, clock_in_range (rclocks n)) ->
  (forall n, (wclocks n).2 = (wclocks n).1 + ow) ->
  (forall n, (rclocks n).2 = (rclocks n).1 + or) ->
  (forall n, (wclocks n).2 <= (rclocks n).2) ->
  exists db',
    DB_new rclocks (Some (enc_rdb dl (saved_deadlines wclocks 0 el))) = Ok db' /\
    restored_as (length el) ow or db db'.
Proof.
  intros Hwf Hp Hdl Hel Hrange Hrc Hw Hr Hle.
  destruct (persistent_entries db dl Hp Hdl) as [Hdlok Hall].
  destruct (persistent_expiries db el Hwf Hp Hel Hrange) as [Helok Hnt].
  pose proof (load_saved dl el Hdlok Helok Hnt Hrc) as Hload.
  rewrite Hall in Hload. destruct (DB_new_lookup _ _ _ Hload) as (db' & Hnew & Hd & He).
  exists db'. split_and!; [done|split].
  - intros k. rewrite Hd, He, (snapshot_lookup (data db) dl k Hdl). intros [e Hk].
    apply Hwf. rewrite <- (snapshot_lookup _ _ k Hel).
    pose proof (list_to_map_imap (fun i e => loaded_instant (rclocks i) (saved_millis (wclocks i) e))
                  el k (proj1 Helok)) as Hi.
    destruct (list_to_map el !! k); [by eexists|congruence].
  - intros k now Hnow. unfold live, view.
    rewrite Hd, He, (snapshot_lookup (data db) dl k Hdl).
    destruct (dm_get (data db) k) as [u|]; [|by split].
    pose proof (list_to_map_imap (fun i e => loaded_instant (rclocks i) (saved_millis (wclocks i) e))
                  el k (proj1 Helok)) as Hi.
    rewrite (snapshot_lookup _ _ k Hel) in Hi.
    destruct (dm_get (expirations db) k) as [e|]; [destruct Hi as (i & Hlt & ->)|by rewrite Hi].
    destruct (past_after_restart (wclocks i) (rclocks i) ow or e now) as [H1' H2']; auto.
    split; intros v; repeat case_match; naive_solver.
Qed.

(** C7: a restart restores the database. Saved (in any iteration order of the
    two maps) and loaded into a new process, a database whose entries the
    format can hold comes back with its invariant, and, once the load is over,
    with the same keys alive and the same values: no key lives longer than it
    would have, and no key is lost that had a millisecond left. Times of the
    two processes are compared on the system clock, which runs at a constant
    offset from each monotonic clock and is not set back. *)
Theorem restart_restores_database db dl el ow or :
  db_wf db -> persistent db ->
  dl ≡ₚ dm_iter (data db) -> el ≡ₚ dm_iter (expirations db) ->
  (forall k e n, dm_get (expirations db) k = Some e -> save_in_range (wclocks n) e) ->
  (forall n, clock_in_range (rclocks n)) ->
  (forall n, (wclocks n).2 = (wclocks n).1 + ow) ->
  (forall n, (rclocks n).2 = (rclocks n).1 + or) ->
  (forall n, (wclocks n).2 <= (rclocks n).2) ->
  exists file db',
    emits (write_rdb wclocks dl el) file /\
    DB_new rclocks (Some file) = Ok db' /\ db_wf db' /\
    forall k now, (forall n, (n < length el)%nat -> (rclocks n).1 < now) ->
      (forall v, live now (view db') k = Some v -> live (now + or - ow) (view db) k = Some v) /\
      (forall v, live (now + or - ow + nanos_per_milli) (view db) k = Some v ->
                 live now (view db') k = Some v).
Proof.
  intros Hwf Hp Hdl Hel Hrange Hrc Hw Hr Hle.
  destruct (restart_of_file db dl el ow or) as (db' & Hnew & Hwf' & Hlive); [done..|].
  eexists _, db'. split_and!; [|done..]. apply write_rdb_emits.
  by destruct (persistent_expiries db el Hwf Hp Hel Hrange) as [(_ & _ & ?) _].
Qed.

(** C32: a snapshot in which a key with an expiry is spelled [string] or [list],
    in any case, cannot be read back: the save succeeds like any other, and the
    next start panics, whatever else the snapshot holds. *)
Theorem type_named_key_blocks_restart dl el1 k e el2 :
  entries_ok dl -> expiries_ok wclocks (el1 ++ (k, e) :: el2) ->
  Forall (fun ke => ~ type_token ke.1) el1 -> type_token k ->
  (forall n, clock_in_range (rclocks n)) ->
  exists file,
    emits (write_rdb wclocks dl (el1 ++ (k, e) :: el2)) file /\
    DB_new (M := M) rclocks (Some file) = Panic UnwrapOnErr.
Proof.
  intros Hdl (Hnd & Hs & Hrange) Ht Hk Hrc. eexists. split; [by apply write_rdb_emits|].
  rewrite fmap_app in Hnd. apply NoDup_app in Hnd as (Hnd1 & _ & _).
  apply Forall_app in Hs as [Hs1 [Hsk _]%Forall_cons].
  assert (expiries_ok wclocks el1) as Hel1.
  { split_and!; [done..|]. intros i ke Hi. apply Hrange. by apply lookup_app_l_Some. }
  unfold DB_new. cbn [load_rdb]. unfold saved_deadlines. rewrite imap_app, imap_cons, enc_rdb_app.
  cbn [map concat].
  edestruct (rdb_parse_prefix rclocks Hrc dl (saved_deadlines wclocks 0 el1)) as (fuel & Hf & Hp);
    [done|by apply saved_deadlines_ok|by rewrite saved_deadlines_keys|].
  setoid_rewrite Hp. destruct fuel as [|fuel]; [lia|].
  edestruct (read_type_token_expiry rclocks fuel) as [msg Hmsg]; [exact Hsk|exact Hk|].
  cbn [fst snd] in *. by rewrite Hmsg.
Qed.

(** C33: an empty list (what LPUSH and RPUSH without values leave on a new key)
    does not survive a restart, but its expiry time does: the loaded database
    has an expiry for a key without a value. *)
Theorem empty_list_leaves_orphan_expiry dl el k e :
  entries_ok dl -> expiries_ok wclocks el -> Forall (fun ke => ~ type_token ke.1) el ->
  (forall n, clock_in_range (rclocks n)) ->
  (k, RedisObject.List []) ∈ dl -> (k, e) ∈ el ->
  exists file db',
    emits (write_rdb wclocks dl el) file /\
    DB_new (M := M) rclocks (Some file) = Ok db' /\
    dm_get (data db') k = None /\ is_Some (dm_get (expirations db') k) /\ ~ db_wf db'.
Proof.
  intros Hdl Hel Ht Hrc Hk Hke. pose proof (load_saved dl el Hdl Hel Ht Hrc) as Hload.
  destruct (DB_new_lookup _ _ _ Hload) as (db' & Hnew & Hd & He).
  assert (dm_get (data db') k = None) as HNone.
  { rewrite Hd. apply not_elem_of_list_to_map_1.
    intros ([k' v] & Hk' & [Hv Hin]%list_elem_of_filter)%list_elem_of_fmap. simpl in *. subst k'.
    assert (v = RedisObject.List []) as ->; [|done].
    destruct Hdl as [Hnd _].
    pose proof (elem_of_list_to_map_1 (M := gmap bytes) dl k _ Hnd Hin).
    pose proof (elem_of_list_to_map_1 (M := gmap bytes) dl k _ Hnd Hk). congruence. }
  assert (is_Some (dm_get (expirations db') k)) as HSome.
  { pose proof (list_to_map_imap (fun i e => loaded_instant (rclocks i) (saved_millis (wclocks i) e))
                  el k (proj1 Hel)) as Hi.
    rewrite He. rewrite (elem_of_list_to_map_1 el k e (proj1 Hel) Hke) in Hi.
    destruct Hi as (i & _ & ->). by eexists. }
  eexists _, db'. split_and!; [|done..|].
  - apply write_rdb_emits. by destruct Hel as (_ & _ & ?).
  - intros Hwf. destruct (Hwf k HSome). congruence.
Qed.

(** An expiry set with a negative time, -[d] milliseconds at [t0], becomes
    an instant 2^64 - [d] milliseconds ahead; a later save wraps its deadline
    around to one that is past, so the key, alive before the restart, expires
    at once after it. *)
Theorem negative_expiry_wraps_in_snapshot t0 d wc rc f :
  0 < d <= i64_max -> t0 <= wc.1 -> wc.2 <= from_millis u64_max ->
  from_millis d + (wc.1 - t0) <= wc.2 -> wc.1 + from_millis d < t0 + from_millis u64_max ->
  clock_in_range rc -> wc.2 <= rc.2 ->
  let e := t0 + from_millis (as_u64 (- d)) in
  wc.1 < e /\
  exists ms, expiry_millis wc e = Ok ms /\ read_expiry rc (to_le_bytes 8 ms ++ f) = Ok (rc.1, f).
Proof.
  intros Hd Ht0 Hmax Hlow Hfar Hrc Hle e.
  assert (as_u64 (- d) = u64_max + 1 - d) as Hneg.
  { change (as_u64 (- d)) with (as_usize (- d)). rewrite as_usize_neg by (unfold i64_max in Hd; lia).
    change (2 ^ 64) with (u64_max + 1). lia. }
  assert (e = t0 + from_millis (u64_max + 1) - from_millis d) as He.
  { subst e. rewrite Hneg. unfold from_millis. lia. }
  clearbody e. destruct wc as [i s], rc as [j s']. cbn [fst snd] in *.
  assert (i < e) as Hlt by (unfold from_millis, nanos_per_milli in *; lia).
  split; [done|]. set (q := (s - (i - t0) - from_millis d) / nanos_per_milli).
  pose proof (round_down_millis (s - (i - t0) - from_millis d)) as Hq. fold q in Hq.
  assert (0 <= q <= u64_max) as Hqr.
  { unfold from_millis, nanos_per_milli in *. lia. }
  exists q. split.
  - unfold expiry_millis. rewrite (proj2 (Z.ltb_lt i e) Hlt).
    rewrite time_add_ok by (unfold from_millis, nanos_per_milli, instant_max, u64_max, i64_max,
      nanos_per_sec in *; lia).
    cbn [obind]. rewrite (proj2 (Z.ltb_ge _ _)) by (unfold from_millis, nanos_per_milli in *; lia).
    replace (s + (e - i)) with (s - (i - t0) - from_millis d + (u64_max + 1) * nanos_per_milli)
      by (unfold from_millis in *; lia).
    rewrite Z.div_add by done. fold q. unfold as_u64, wrap_unsigned.
    change (2 ^ 64) with (u64_max + 1). rewrite <- (Z.mul_1_l (u64_max + 1)) at 1.
    rewrite Z.mod_add by done. rewrite Z.mod_small by lia. done.
  - rewrite (read_expiry_exact _ _ (to_le_bytes 8 q) f);
      [|done|apply read_exact_app, length_to_le_bytes].
    rewrite from_to_le_bytes, Z.mod_small
      by (change (256 ^ Z.of_nat 8) with (u64_max + 1); lia).
    unfold loaded_instant. cbn [fst snd].
    rewrite Z.max_l; [by rewrite Z.add_0_r|]. unfold from_millis, nanos_per_milli in *. lia.
Qed.
End Properties.

(** ** Witnesses *)

Module RdbWitness.
Import RespWitness.

(** A process whose monotonic clock reads ten seconds, an hour into the epoch,
    and a later one that started anew. *)
Definition saving (n : nat) : clock_pair := (10000000000, 3600000000000).
Definition loading_at (n : nat) : clock_pair := (2000000000, 3605000000000).

Definition entries : list (bytes * RedisObject) :=
  [(bs "a", RedisObject.List [RedisObject.String (bs "x"); RedisObject.String (bs "y")]);
   (bs "b", RedisObject.String (bs "z")); (bs "c", RedisObject.List [])].

Definition expiries : list (bytes * Instant) := [(bs "b", 17000000000); (bs "c", 11000000000)].

Lemma storable_literal s :
  utf8_valid s = true -> (len s <=? u32_max) = true -> storable_string s.
Proof. intros. split; [done|by apply Z.leb_le]. Qed.

Ltac storable :=
  repeat first [split | apply Forall_cons | apply Forall_nil | apply storable_literal];
  try (by vm_compute).

Lemma entries_are_ok : entries_ok entries.
Proof. split; [apply (bool_decide_unpack _); by vm_compute|]. storable. Qed.

Lemma expiries_are_ok : expiries_ok saving expiries.
Proof.
  split_and!; [apply (bool_decide_unpack _); by vm_compute|storable|].
  intros i ke Hi%list_elem_of_lookup_2. unfold save_in_range.
  unfold expiries in Hi. rewrite !elem_of_cons in Hi.
  destruct Hi as [-> |[-> |Hi]]; [by vm_compute..|by apply not_elem_of_nil in Hi].
Qed.

Lemma expiries_no_token : Forall (fun ke => ~ type_token ke.1) expiries.
Proof. repeat constructor; intros [H|H]; by vm_compute in H. Qed.

Lemma loading_in_range n : clock_in_range (loading_at n).
Proof. by vm_compute. Qed.

Lemma rdb_roundtrip_witness :
  exists file,
    emits (W := sink) (write_rdb saving entries expiries) file /\
    load_rdb loading_at (Some file) =
      Ok (list_to_map (take 2 entries),
          list_to_map [(bs "b", 4000000000); (bs "c", 2000000000)]).
Proof.
  destruct (rdb_roundtrip (W := sink) saving loading_at entries expiries entries_are_ok
              expiries_are_ok expiries_no_token loading_in_range) as (file & Hem & Hl).
  exists file. split; [exact Hem|]. rewrite Hl. reflexivity.
Defined.

Lemma load_total_witness : answers (load_rdb loading_at (Some (rdb_header ++ [x80; xff]))).
Proof. exact (load_total loading_at _ loading_in_range). Defined.

(** A database with the entries that survive. *)
Definition db1 : DB (gmap bytes) :=
  mkDB (list_to_map (take 2 entries)) (list_to_map (take 1 expiries)).

Lemma db1_data k v :
  dm_get (data db1) k = Some v ->
  (k, v) = (bs "a", RedisObject.List [RedisObject.String (bs "x"); RedisObject.String (bs "y")]) \/
  (k, v) = (bs "b", RedisObject.String (bs "z")).
Proof.
  unfold db1. simpl. rewrite !lookup_insert_Some, lookup_empty. naive_solver.
Qed.

Lemma db1_expirations k e :
  dm_get (expirations db1) k = Some e -> (k, e) = (bs "b", 17000000000).
Proof. unfold db1. simpl. rewrite !lookup_insert_Some, lookup_empty. naive_solver. Qed.

Lemma db1_persistent : persistent db1.
Proof.
  split.
  - intros k v [Hkv|Hkv]%db1_data; injection Hkv as -> ->; storable.
  - intros k e Hke%db1_expirations. injection Hke as -> ->. intros [Ht|Ht]; by vm_compute in Ht.
Qed.

Lemma db1_wf : db_wf db1.
Proof. intros k [e Hke%db1_expirations]. injection Hke as -> ->. by eexists. Qed.

Lemma restart_witness :
  exists file db',
    emits (W := sink) (write_rdb saving (map_to_list (data db1)) (map_to_list (expirations db1))) file /\
    DB_new (M := gmap bytes) loading_at (Some file) = Ok db' /\
    live 3998000000 (view db') (bs "b") = Some (RedisObject.String (bs "z")).
Proof.
  destruct (restart_restores_database (W := sink) (M := gmap bytes) saving loading_at db1
              (map_to_list (data db1)) (map_to_list (expirations db1))
              3590000000000 3603000000000)
    as (file & db' & Hem & Hnew & _ & Hlive).
  - exact db1_wf.
  - exact db1_persistent.
  - reflexivity.
  - reflexivity.
  - intros k e n Hke%db1_expirations. injection Hke as -> ->. by vm_compute.
  - exact loading_in_range.
  - reflexivity.
  - reflexivity.
  - by vm_compute.
  - exists file, db'. split_and!; [exact Hem|exact Hnew|].
    apply (Hlive (bs "b") 3998000000); [by vm_compute|]. reflexivity.
Defined.

Lemma type_named_key_witness :
  exists file,
    emits (W := sink) (write_rdb saving entries (take 1 expiries ++ [(bs "List", 17000000000)])) file /\
    DB_new (M := gmap bytes) loading_at (Some file) = Panic UnwrapOnErr.
Proof.
  apply (type_named_key_blocks_restart (W := sink) (M := gmap bytes) saving loading_at entries
           (take 1 expiries) (bs "List") 17000000000 []).
  - exact entries_are_ok.
  - split_and!; [apply (bool_decide_unpack _); by vm_compute|storable|].
    intros i ke Hi%list_elem_of_lookup_2. simpl in Hi. rewrite !elem_of_cons in Hi.
    destruct Hi as [-> |[-> |Hi]]; [by vm_compute..|by apply not_elem_of_nil in Hi].
  - apply Forall_take, expiries_no_token.
  - by right.
  - exact loading_in_range.
Defined.

Lemma empty_list_witness :
  exists file db',
    emits (W := sink) (write_rdb saving entries expiries) file /\
    DB_new (M := gmap bytes) loading_at (Some file) = Ok db' /\
    dm_get (data db') (bs "c") = None /\ is_Some (dm_get (expirations db') (bs "c")) /\ ~ db_wf db'.
Proof.
  apply (empty_list_leaves_orphan_expiry (W := sink) (M := gmap bytes) saving loading_at entries
           expiries (bs "c") 11000000000 entries_are_ok expiries_are_ok expiries_no_token
           loading_in_range).
  - by apply list_elem_of_lookup_2 with 2%nat.
  - by apply list_elem_of_lookup_2 with 1%nat.
Defined.

Lemma negative_expiry_witness :
  exists ms, expiry_millis (saving 0) (9000000000 + from_millis (as_u64 (-1))) = Ok ms /\
    read_expiry (loading_at 0) (to_le_bytes 8 ms ++ []) = Ok (2000000000, []).
Proof.
  destruct (negative_expiry_wraps_in_snapshot 9000000000 1 (saving 0) (loading_at 0) [])
    as [_ Hms]; [by vm_compute..|]. exact Hms.
Defined.
End RdbWitness.
