(* ===== verification/SaveFile.v ===== *)
(** * Saving a snapshot to its file (src/src/rdb/writer.rs)

    [save_rdb]: the snapshot is written through a [BufWriter] to a temporary
    file, which then replaces the snapshot file by a rename. It runs as a task
    ([Tasks.v]) on the file system, one system call per step, so that it can be
    stopped by a crash after any step, and interleaved with another save.

    A file system has names for files and the contents of files; a file that is
    open for writing stays the same file when its name is moved or its content
    is cut off. The directory of the files exists. *)
From S2P Require Import Prelude Ints Tasks RespTypes DashMap Database Rdb.
Local Open Scope Z_scope.

(** ** The buffered writer *)

(** [std::io::BufWriter] over a file: the bytes it holds back, and those it has
    passed on, write by write. *)
Record BufFile : Type := mkBufFile {
  bf_buf : bytes;
  bf_writes : list bytes
}.

(** The default capacity of the buffer. *)
Definition buf_capacity : Z := 8192.

Definition flush_buf (w : BufFile) : BufFile :=
  match bf_buf w with
  | [] => w
  | buf => mkBufFile [] (bf_writes w ++ [buf])
  end.

(** What fits is kept; otherwise the buffer is passed on first, and what is
    larger than the buffer goes directly to the file. *)
Definition buf_write_all (b : bytes) (w : BufFile) : BufFile :=
  if len b <? buf_capacity - len (bf_buf w) then mkBufFile (bf_buf w ++ b) (bf_writes w)
  else
    let w := if buf_capacity - len (bf_buf w) <? len b then flush_buf w else w in
    if buf_capacity <=? len b then mkBufFile (bf_buf w) (bf_writes w ++ [b])
    else mkBufFile (bf_buf w ++ b) (bf_writes w).

#[export] Instance BufFile_write : AsyncWrite BufFile :=
  {| write_all b w := (Ok tt, buf_write_all b w) |}.

(** The outcome of writing a snapshot and the writes to the file it takes, the
    last one by [flush], or by the drop of the writer after a panic. *)
Definition rdb_writes (clocks : nat -> clock_pair) (db : list (bytes * RedisObject))
    (expirations : list (bytes * Instant)) : outcome io_error unit * list bytes :=
  let '(r, w) := write_rdb clocks db expirations (mkBufFile [] []) in
  (r, bf_writes (flush_buf w)).

(** ** The file system *)

Record fs : Type := mkFs {
  names : gmap bytes nat;
  files : gmap nat bytes;
  next_file : nat
}.

Definition contents (path : bytes) (s : fs) : option bytes := i ← names s !! path; files s !! i.

(** [File::create]: an existing file is cut off, and stays the same file. *)
Definition create (path : bytes) (s : fs) : nat * fs :=
  match names s !! path with
  | Some i => (i, mkFs (names s) (<[i := []]> (files s)) (next_file s))
  | None =>
      (next_file s,
       mkFs (<[path := next_file s]> (names s)) (<[next_file s := []]> (files s)) (S (next_file s)))
  end.

(** A write at an offset: a gap is filled with zeros. *)
Definition overwrite (content : bytes) (off : nat) (b : bytes) : bytes :=
  take off (content ++ replicate (off - length content) x00) ++ b ++ drop (off + length b) content.

Definition write_at (i off : nat) (b : bytes) (s : fs) : fs :=
  mkFs (names s) (alter (fun content => overwrite content off b) i (files s)) (next_file s).

Definition err_not_found : io_error := OtherIo 2.

(** [std::fs::rename] *)
Definition rename (from to : bytes) (s : fs) : outcome io_error unit * fs :=
  match names s !! from with
  | Some i => (Ok tt, mkFs (<[to := i]> (base.delete from (names s))) (files s) (next_file s))
  | None => (Err err_not_found, s)
  end.

(** ** The task *)

(** [faults n] is the failure of the [n]-th system call, if it fails, with the
    number of bytes that reach the file nevertheless (before the failure, and
    when the writer is dropped because of it). *)
Section Save.
Context (faults : nat -> option (io_error * nat)).

Fixpoint write_all_task (n i off : nat) (writes : list bytes)
    (k : nat -> prog fs (outcome io_error unit)) : prog fs (outcome io_error unit) :=
  match writes with
  | [] => k n
  | b :: writes =>
      match faults n with
      | Some (e, m) => update (write_at i off (take m b)) (Ret (Err e))
      | None => update (write_at i off b) (write_all_task (S n) i (off + length b) writes k)
      end
  end.

Definition temp_path (file_path : bytes) : bytes := file_path ++ bs ".tmp".

(** The task for a snapshot that is written with outcome [r] by the writes
    [writes]. *)
Definition save_task (file_path : bytes) (r : outcome io_error unit) (writes : list bytes) :
    prog fs (outcome io_error unit) :=
  match faults 0%nat with
  | Some (e, _) => Ret (Err e)
  | None =>
      Atomic (fun s =>
        let '(i, s) := create (temp_path file_path) s in
        (s, write_all_task 1 i 0 writes (fun n =>
              match r with
              | Ok _ =>
                  match faults n with
                  | Some (e, _) => Ret (Err e)
                  | None =>
                      Atomic (fun s =>
                        let '(res, s) := rename (temp_path file_path) file_path s in (s, Ret res))
                  end
              | _ => Ret r
              end)))
  end.

Definition save_rdb_task (file_path : bytes) (clocks : nat -> clock_pair)
    (db : list (bytes * RedisObject)) (expirations : list (bytes * Instant)) :
    prog fs (outcome io_error unit) :=
  let '(r, writes) := rdb_writes clocks db expirations in
  save_task file_path r writes.
End Save.
