(* ===== verification/SaveFileSpec.v ===== *)
(** * What a save leaves on disk

    The writes of the buffered writer are the bytes of the snapshot; a crash or
    a failure at any step of a save leaves the snapshot file as it was, or with
    the whole new snapshot, from which a restart restores the database. Two
    saves at the same time share their temporary file, and can leave a mixture
    of both. *)
From S2P Require Import Prelude Ints Utf8 Tasks RespTypes DashMap Database DatabaseSpec.
From S2P Require Import Rdb RdbFormat RdbSpec SaveFile.
Local Open Scope Z_scope.

(** ** The buffered writer loses nothing *)

Lemma flush_buf_written w :
  concat (bf_writes (flush_buf w)) = concat (bf_writes w) ++ bf_buf w /\ bf_buf (flush_buf w) = [].
Proof.
  unfold flush_buf. destruct w as [[|b buf] ws]; simpl; [by rewrite app_nil_r|].
  rewrite concat_app. simpl. by rewrite app_nil_r.
Qed.

Lemma buf_write_all_written b w :
  concat (bf_writes (buf_write_all b w)) ++ bf_buf (buf_write_all b w) =
    (concat (bf_writes w) ++ bf_buf w) ++ b.
Proof.
  unfold buf_write_all. destruct (_ <? _) eqn:Hfit; [simpl; by rewrite (assoc_L (++))|].
  set (w' := if _ <? _ then flush_buf w else w).
  assert (concat (bf_writes w') ++ bf_buf w' = concat (bf_writes w) ++ bf_buf w) as Hw.
  { subst w'. case_match; [|done]. destruct (flush_buf_written w) as [-> ->].
    by rewrite app_nil_r. }
  destruct (Z.leb_spec buf_capacity (len b)) as [Hbig|Hsmall]; simpl.
  - assert (bf_buf w' = []) as Hnil.
    { subst w'. destruct (Z.ltb_spec (buf_capacity - len (bf_buf w)) (len b)) as [|Hle].
      - apply flush_buf_written.
      - apply len_zero. pose proof (len_nonneg (bf_buf w)). lia. }
    rewrite Hnil, concat_app in *. simpl. rewrite !app_nil_r in *. by rewrite Hw.
  - by rewrite (assoc_L (++)), Hw.
Qed.

#[export] Instance BufFile_laws : AsyncWriteLaws BufFile.
Proof.
  refine {| written w := concat (bf_writes w) ++ bf_buf w |}. intros b w. left. eexists.
  split; [done|]. apply buf_write_all_written.
Defined.

(** A snapshot is written without error when the file takes everything. *)
Section NoError.
Context {W : Type} `{AsyncWrite W}.
Hypothesis write_all_ok : forall b w, exists w', write_all b w = (Ok tt, w').

Definition fails (m : W -> outcome io_error unit * W) : Prop :=
  exists w e w', m w = (Err e, w').

Lemma write_all_fails b : ~ fails (write_all b).
Proof. intros (w & e & w' & E). destruct (write_all_ok b w). congruence. Qed.

Lemma and_then_fails m k : ~ fails m -> ~ fails k -> ~ fails (m ?; k).
Proof.
  intros Hm Hk (w & e & w' & E). unfold and_then in E. destruct (m w) as [[] w1] eqn:Em; try done.
  - apply Hk. by exists w1, e, w'.
  - apply Hm. by exists w, e0, w1.
Qed.

Lemma done_fails : ~ fails (fun w => (Ok tt, w)).
Proof. by intros (w & e & w' & E). Qed.

#[local] Hint Resolve write_all_fails and_then_fails done_fails : fails.

Lemma write_length_fails n : ~ fails (write_length n).
Proof. unfold write_length. case_match; auto with fails. Qed.
#[local] Hint Resolve write_length_fails : fails.

Lemma write_value_fails k v : ~ fails (write_value k v).
Proof. unfold write_value, write_string. auto 10 with fails. Qed.
#[local] Hint Resolve write_value_fails : fails.

Lemma write_list_items_fails k l : ~ fails (write_list_items k l).
Proof. induction l as [|[s|l'] l IH]; cbn [write_list_items]; auto with fails. Qed.
#[local] Hint Resolve write_list_items_fails : fails.

Lemma write_entries_fails db : ~ fails (write_entries db).
Proof.
  induction db as [|[k v] db IH]; cbn [write_entries]; [auto with fails|].
  apply and_then_fails; [|done]. destruct v; cbn [write_entry]; unfold write_string; auto 10 with fails.
Qed.

Lemma expiry_millis_err c e x : expiry_millis c e <> Err x.
Proof.
  unfold expiry_millis, time_add. destruct c. repeat (case_match; simpl; try done).
Qed.

Lemma write_expiries_fails clocks n el : ~ fails (write_expiries clocks n el).
Proof.
  revert n. induction el as [|[k e] el IH]; intros n; cbn [write_expiries]; [auto with fails|].
  apply and_then_fails; [|done]. unfold write_expiry, write_string.
  apply and_then_fails; [auto with fails|].
  destruct (expiry_millis (clocks n) e) eqn:E; [auto with fails|by apply expiry_millis_err in E|..];
    by intros (w & x & w' & ?).
Qed.

Lemma write_rdb_fails clocks db el : ~ fails (write_rdb clocks db el).
Proof.
  unfold write_rdb, write_db. auto 10 using write_entries_fails, write_expiries_fails with fails.
Qed.
End NoError.

Lemma rdb_writes_enc clocks db el :
  (forall i ke, el !! i = Some ke -> save_in_range (clocks i) ke.2) ->
  exists writes, rdb_writes clocks db el = (Ok tt, writes) /\
    concat writes = enc_rdb db (saved_deadlines clocks 0 el).
Proof.
  intros Hr. unfold rdb_writes.
  destruct (write_rdb_emits clocks db el Hr (mkBufFile [] [])) as [(w & -> & Hw)|(e & w & p & E & _)].
  - eexists. split; [done|]. destruct (flush_buf_written w) as [-> _]. exact Hw.
  - exfalso. eapply write_rdb_fails; [|by do 3 eexists]. intros b w'. by eexists.
Qed.

(** ** One save *)

Lemma temp_path_ne path : temp_path path <> path.
Proof.
  unfold temp_path. intros E. apply (f_equal length) in E. rewrite length_app in E.
  simpl in E. lia.
Qed.

Lemma overwrite_end content b : overwrite content (length content) b = content ++ b.
Proof.
  unfold overwrite. rewrite Nat.sub_diag, app_nil_r, firstn_all, drop_ge by lia.
  by rewrite app_nil_r.
Qed.

(** Names lead to files that exist, and the snapshot file and the temporary
    file, if they exist, are different files. *)
Definition fs_ok (path : bytes) (s : fs) : Prop :=
  (forall p i, names s !! p = Some i -> (i < next_file s)%nat) /\
  (forall i, names s !! path = Some i -> names s !! temp_path path <> Some i).

(** The snapshot file is as it was in [s0], and the temporary file, [i], holds
    [content]. *)
Record saving (path : bytes) (s0 : fs) (i : nat) (content : bytes) (s : fs) : Prop := {
  saving_old : names s !! path = names s0 !! path;
  saving_file : forall j, names s !! path = Some j -> j <> i /\ files s !! j = files s0 !! j;
  saving_temp : names s !! temp_path path = Some i;
  saving_content : files s !! i = Some content
}.

Lemma saving_contents path s0 i content s :
  saving path s0 i content s -> contents path s = contents path s0.
Proof.
  intros [Hn Hf _ _]. unfold contents. rewrite <- Hn. destruct (names s !! path) as [j|]; [|done].
  simpl. by destruct (Hf j eq_refl) as [_ ->].
Qed.

Lemma create_saving path s0 :
  fs_ok path s0 ->
  saving path s0 (create (temp_path path) s0).1 [] (create (temp_path path) s0).2.
Proof.
  intros [Hlt Hne]. pose proof (temp_path_ne path) as Hp. unfold create.
  destruct (names s0 !! temp_path path) as [i|] eqn:Hi; simpl; split; simpl.
  - done.
  - intros j Hj. assert (i <> j) by (intros ->; by apply (Hne j)).
    split; [done|by rewrite lookup_insert_ne].
  - done.
  - by rewrite lookup_insert_eq.
  - by rewrite lookup_insert_ne.
  - intros j. rewrite lookup_insert_ne by done. intros Hj%Hlt.
    split; [lia|]. by rewrite lookup_insert_ne by lia.
  - by rewrite lookup_insert_eq.
  - by rewrite lookup_insert_eq.
Qed.

Lemma write_saving path s0 i content b s :
  saving path s0 i content s ->
  saving path s0 i (content ++ b) (write_at i (length content) b s).
Proof.
  intros [Hn Hf Ht Hc]. split; simpl; [done| |done|].
  - intros j Hj. destruct (Hf j Hj) as [Hne Hj']. split; [done|]. by rewrite lookup_alter_ne.
  - by rewrite lookup_alter_eq, Hc; simpl; rewrite overwrite_end.
Qed.

Lemma rename_saving path s0 i content s :
  saving path s0 i content s ->
  exists s', rename (temp_path path) path s = (Ok tt, s') /\ contents path s' = Some content /\
    names s' !! temp_path path = None.
Proof.
  intros [_ _ Ht Hc]. unfold rename. rewrite Ht. eexists. split; [done|].
  unfold contents. simpl. rewrite lookup_insert_eq. simpl. split; [done|].
  rewrite lookup_insert_ne by (pose proof (temp_path_ne path); congruence).
  apply lookup_delete_eq.
Qed.

Section Save.
Context (faults : nat -> option (io_error * nat)) (path : bytes).

(** What the disk holds at any moment of a save: the old snapshot, until the
    save has succeeded, and then the new one. *)
Definition old_or_new (s0 : fs) (new : bytes) (p : prog fs (outcome io_error unit)) (s : fs) : Prop :=
  (p <> Ret (Ok tt) /\ contents path s = contents path s0) \/
  (p = Ret (Ok tt) /\ contents path s = Some new).

Lemma write_all_task_always s0 new i writes k n content s :
  (forall n s, saving path s0 i (content ++ concat writes) s -> always (old_or_new s0 new) (k n) s) ->
  saving path s0 i content s ->
  always (old_or_new s0 new) (write_all_task faults n i (length content) writes k) s.
Proof.
  intros Hk. revert n content s Hk.
  induction writes as [|b writes IH]; intros n content s Hk Hs; cbn [write_all_task concat] in *.
  { apply Hk. by rewrite app_nil_r. }
  pose proof (saving_contents _ _ _ _ _ Hs) as Hold.
  destruct (faults n) as [[e m]|].
  - apply always_atomic; [by left|]. simpl. apply always_ret. left. split; [done|].
    eapply saving_contents. by apply write_saving.
  - apply always_atomic; [by left|]. simpl. rewrite <- length_app. apply IH.
    + intros n' s'. rewrite <- (assoc_L (++)). apply Hk.
    + by apply write_saving.
Qed.

Lemma save_task_always s0 r writes :
  fs_ok path s0 -> always (old_or_new s0 (concat writes)) (save_task faults path r writes) s0.
Proof.
  intros Hok. unfold save_task. destruct (faults 0%nat) as [[e m]|]; [apply always_ret; by left|].
  apply always_atomic; [by left|]. pose proof (create_saving path s0 Hok) as Hc.
  destruct (create (temp_path path) s0) as [i s1]. cbn [fst snd] in *.
  apply (write_all_task_always s0 (concat writes) i writes _ 1 []); [|done]. intros n s Hs.
  simpl in Hs. pose proof (saving_contents _ _ _ _ _ Hs) as Hold.
  destruct r as [[]| | |]; try (apply always_ret; by left).
  destruct (faults n) as [[e m]|]; [apply always_ret; by left|].
  apply always_atomic; [by left|].
  destruct (rename_saving _ _ _ _ _ Hs) as (s' & -> & Hs' & _). apply always_ret. by right.
Qed.

(** Without failures the save runs to its end. *)
Lemma save_task_completes s0 writes :
  fs_ok path s0 -> (forall n, faults n = None) ->
  exists s', run (save_task faults path (Ok tt) writes) s0 = (Ok tt, s') /\
    contents path s' = Some (concat writes) /\ names s' !! temp_path path = None.
Proof.
  intros Hok Hf. unfold save_task. rewrite Hf. cbn [run].
  pose proof (create_saving path s0 Hok) as Hc. destruct (create (temp_path path) s0) as [i s1].
  cbn [fst snd] in *.
  assert (forall k n content s, saving path s0 i content s -> exists n' s',
    run (write_all_task faults n i (length content) writes k) s = run (k n') s' /\
    saving path s0 i (content ++ concat writes) s') as Hw.
  { clear Hc s1. intros k. induction writes as [|b writes IH]; intros n content s Hs; cbn [write_all_task concat].
    - exists n, s. by rewrite app_nil_r.
    - rewrite Hf. cbn [run update]. rewrite <- length_app.
      destruct (IH (S n) (content ++ b) (write_at i (length content) b s)) as (n' & s' & -> & Hs');
        [by apply write_saving|]. exists n', s'. by rewrite (assoc_L (++)). }
  destruct (Hw (fun n => match faults n with
                         | Some (e, _) => Ret (Err e)
                         | None => Atomic (fun s =>
                             let '(res, s) := rename (temp_path path) path s in (s, Ret res))
                         end) 1%nat [] s1 Hc) as (n' & s' & Hrun & Hs').
  simpl in Hrun. rewrite Hrun, Hf. cbn [run].
  destruct (rename_saving _ _ _ _ _ Hs') as (s2 & -> & Hs2 & Ht). by exists s2.
Qed.

End Save.

(** ** Two saves *)

Lemma step_first {St A} f (p p2 : prog St A) s s' :
  f s = (s', p) -> step 0 ([Atomic f; p2], s) = ([p; p2], s').
Proof. intros E. unfold step. simpl. by rewrite E. Qed.

Lemma step_second {St A} f (p p1 : prog St A) s s' :
  f s = (s', p) -> step 1 ([p1; Atomic f], s) = ([p1; p], s').
Proof. intros E. unfold step. simpl. by rewrite E. Qed.

(** ** Properties *)

Section Properties.
Context {M : Type -> Type} `{DashMapLaws M}.
Context (wclocks rclocks : nat -> clock_pair) (path : bytes).

(** C11: a save survives crashes. If the process stops after any number of the
    system calls of a save, or any of them fails, the next start finds the
    snapshot file as it was before the save, or, exactly when the save has
    succeeded, the new snapshot, from which the database is restored; and a save
    none of whose calls fails succeeds. *)
Theorem save_survives_crashes faults db dl el ow or s0 :
  db_wf db -> persistent db ->
  dl ≡ₚ dm_iter (data db) -> el ≡ₚ dm_iter (expirations db) ->
  (forall k e n, dm_get (expirations db) k = Some e -> save_in_range (wclocks n) e) ->
  (forall n, clock_in_range (rclocks n)) ->
  (forall n, (wclocks n).2 = (wclocks n).1 + ow) ->
  (forall n, (rclocks n).2 = (rclocks n).1 + or) ->
  (forall n, (wclocks n).2 <= (rclocks n).2) ->
  fs_ok path s0 ->
  (forall n,
     let '(p, s) := solo n (save_rdb_task faults path wclocks dl el) s0 in
     (p <> Ret (Ok tt) /\ contents path s = contents path s0) \/
     (p = Ret (Ok tt) /\
      exists db', DB_new (M := M) rclocks (contents path s) = Ok db' /\
        restored_as rclocks (length el) ow or db db')) /\
  ((forall n, faults n = None) ->
   exists n s, solo n (save_rdb_task faults path wclocks dl el) s0 = (Ret (Ok tt), s)).
Proof.
  intros Hwf Hp Hdl Hel Hrange Hrc Hw Hr Hle Hok.
  destruct (restart_of_file wclocks rclocks db dl el ow or) as (db' & Hnew & Hres); [done..|].
  destruct (persistent_expiries wclocks db el Hwf Hp Hel Hrange) as [(_ & _ & Hse) _].
  destruct (rdb_writes_enc wclocks dl el Hse) as (writes & Hwr & Henc).
  unfold save_rdb_task. rewrite Hwr. split.
  - intros n. pose proof (save_task_always faults path s0 (Ok tt) writes Hok n) as Hn.
    destruct (solo n _ s0) as [p s]. cbn [fst snd] in Hn.
    destruct Hn as [Hn|[-> Hn]]; [by left|right]. split; [done|]. exists db'.
    by rewrite Hn, Henc.
  - intros Hf. destruct (save_task_completes faults path s0 writes Hok Hf) as (s' & Hrun & _).
    destruct (run_solo (save_task faults path (Ok tt) writes) s0) as [n Hn].
    rewrite Hrun in Hn. by exists n, s'.
Qed.

(** C40: two saves at the same time can destroy the snapshot. They write to the
    same temporary file: when the second one creates it again before the first
    one writes, the file that replaces the snapshot holds the second snapshot
    followed by what the first one has beyond its length. The first save
    succeeds, and the rename of the second one fails. *)
Theorem overlapping_saves_mix s0 a b :
  names s0 !! temp_path path = None ->
  exists sched s',
    run_schedule sched ([save_task (fun _ => None) path (Ok tt) [a];
                         save_task (fun _ => None) path (Ok tt) [b]], s0) =
      ([Ret (Ok tt); Ret (Err err_not_found)], s') /\
    contents path s' = Some (b ++ drop (length b) a).
Proof.
  intros Ht. pose proof (temp_path_ne path) as Hne. exists [0; 1; 0; 1; 0; 1]%nat.
  rewrite !run_schedule_cons. unfold save_task.
  erewrite step_first by (unfold create; by rewrite Ht).
  erewrite step_second by (unfold create; cbn [names]; by rewrite lookup_insert_eq).
  cbn [write_all_task names files next_file]. unfold update.
  erewrite step_first by done. erewrite step_second by done.
  erewrite step_first by (unfold rename; cbn [names write_at]; by rewrite lookup_insert_eq).
  erewrite step_second by (unfold rename; cbn [names write_at];
    by rewrite lookup_insert_ne, lookup_delete_eq by congruence).
  eexists. split; [done|]. unfold contents. cbn [names files next_file write_at].
  rewrite lookup_insert_eq. cbn. rewrite !lookup_alter_eq, lookup_insert_eq. cbn. f_equal.
  unfold overwrite. simpl. by rewrite drop_nil, app_nil_r.
Qed.
End Properties.

(** ** Witnesses *)

Module SaveFileWitness.
Import RdbWitness.

Definition RDB_FILE : bytes := Eval compute in bs "snapshots/dump.rdb".

(** A disk with an old snapshot and the rest of a save that failed. *)
Definition disk : fs :=
  mkFs (<[RDB_FILE := 0%nat]> (<[temp_path RDB_FILE := 1%nat]> ∅))
       (<[0%nat := rdb_header]> (<[1%nat := bs "REDI"]> ∅)) 2.

Lemma disk_ok : fs_ok RDB_FILE disk.
Proof.
  split.
  - intros p i. simpl. rewrite !lookup_insert_Some, lookup_empty. intros [[_ <-]|[_ [[_ <-]|[_ ?]]]];
      [lia|lia|done].
  - intros i. simpl. rewrite lookup_insert_eq. intros [= <-]. by vm_compute.
Qed.

Lemma save_survives_witness :
  exists n s db',
    solo n (save_rdb_task (fun _ => None) RDB_FILE saving
              (map_to_list (data db1)) (map_to_list (expirations db1))) disk = (Ret (Ok tt), s) /\
    DB_new (M := gmap bytes) loading_at (contents RDB_FILE s) = Ok db' /\
    live 3998000000 (view db') (bs "b") = Some (RedisObject.String (bs "z")).
Proof.
  destruct (save_survives_crashes (M := gmap bytes) saving loading_at RDB_FILE (fun _ => None) db1
              (map_to_list (data db1)) (map_to_list (expirations db1))
              3590000000000 3603000000000 disk) as [Hall Hdone].
  - exact db1_wf.
  - exact db1_persistent.
  - reflexivity.
  - reflexivity.
  - intros k e n Hke%db1_expirations. injection Hke as -> ->. by vm_compute.
  - exact loading_in_range.
  - reflexivity.
  - reflexivity.
  - by vm_compute.
  - exact disk_ok.
  - destruct Hdone as (n & s & Hn); [reflexivity|]. specialize (Hall n). rewrite Hn in Hall.
    destruct Hall as [[Hne _]|(_ & db' & Hnew & _ & Hlive)]; [done|].
    exists n, s, db'. split_and!; [exact Hn|exact Hnew|].
    apply (Hlive (bs "b") 3998000000); [by vm_compute|]. reflexivity.
Defined.

(** Two snapshots of one key, and what the server makes of their mixture. *)
Definition long_file : bytes := enc_rdb [(bs "k", RedisObject.String (bs "xyz"))] [].
Definition short_file : bytes := enc_rdb [(bs "k", RedisObject.String (bs "x"))] [].

Lemma overlapping_saves_witness :
  rdb_writes saving [(bs "k", RedisObject.String (bs "xyz"))] [] = (Ok tt, [long_file]) /\
  rdb_writes saving [(bs "k", RedisObject.String (bs "x"))] [] = (Ok tt, [short_file]) /\
  exists sched s',
    run_schedule sched ([save_task (fun _ => None) RDB_FILE (Ok tt) [long_file];
                         save_task (fun _ => None) RDB_FILE (Ok tt) [short_file]], mkFs ∅ ∅ 0) =
      ([Ret (Ok tt); Ret (Err err_not_found)], s') /\
    DB_new (M := gmap bytes) loading_at (contents RDB_FILE s') = Panic UnwrapOnErr.
Proof.
  split; [by vm_compute|]. split; [by vm_compute|].
  destruct (overlapping_saves_mix RDB_FILE (mkFs ∅ ∅ 0) long_file short_file) as (sched & s' & Hs & Hc).
  - reflexivity.
  - exists sched, s'. split; [exact Hs|]. rewrite Hc. by vm_compute.
Defined.
End SaveFileWitness.
