(* ===== verification/ActiveExpiration.v ===== *)
(** * Active expiration (src/src/database/core.rs)

    The background task that samples the expiration map and removes the keys
    that have expired, [active_expiration_cycle]. The clock readings and the
    random draws of its runs are parameters; the iteration order is that of the
    map. The ratio test is in [f64], as in the source. A cycle runs here without
    interference from other tasks, which [Concurrency.v] adds. *)
From Stdlib Require Import SpecFloat.
From S2P Require Import Prelude DashMap Database.
Local Open Scope Z_scope.

Definition SAMPLE_SIZE : nat := 20.

(** [n as f64], and the literal [0.25] *)
Definition as_f64 (n : nat) : spec_float := binary_normalize 53 1024 (Z.of_nat n) 0 false.
Definition quarter : spec_float := Eval compute in binary_normalize 53 1024 1 (-2) false.

(** [(expired as f64 / checked as f64) > 0.25] *)
Definition high_ratio (expired checked : nat) : bool :=
  SFltb quarter (SFdiv 53 1024 (as_f64 expired) (as_f64 checked)).

Section Cycle.
Context {M : Type -> Type} `{DashMap M}.
Implicit Types db : DB M.

(** The keys of [.iter().skip(skip).take(SAMPLE_SIZE)] *)
Definition sample db (skip : nat) : list bytes :=
  (take SAMPLE_SIZE (drop skip (dm_iter (expirations db)))).*1.

(** The loop over the sampled keys, with the count of those removed. *)
Fixpoint remove_expired db (now : Instant) (sampled : list bytes) (expired : nat) : DB M * nat :=
  match sampled with
  | [] => (db, expired)
  | key :: sampled =>
      match dm_get (expirations db) key with
      | Some exp =>
          if exp <? now then
            let db := with_data db (dm_remove (data db) key) in
            let db := with_expirations db (dm_remove (expirations db) key) in
            remove_expired db now sampled (S expired)
          else remove_expired db now sampled expired
      | None => remove_expired db now sampled expired
      end
  end.

(** The [run]-th run of a cycle reads the clock as [clock run] and draws
    [random run total] from [0..total]. *)
Context (clock : nat -> Instant) (random : nat -> nat -> nat).

Fixpoint active_expiration_cycle (fuel run : nat) db : outcome message (DB M) :=
  match fuel with
  | O => Diverge
  | S fuel =>
      let now := clock run in
      let total := dm_len (expirations db) in
      if decide (total = 0%nat) then Ok db
      else
        let skip := random run total in
        let sampled := sample db skip in
        let '(db, expired) := remove_expired db now sampled 0 in
        let checked := Nat.max (length sampled) 1 in
        if high_ratio expired checked then active_expiration_cycle fuel (S run) db
        else Ok db
  end.
End Cycle.

(** [active_expiration_task] for a number of turns: a cycle, and then the sleep
    of 100 ms, in which other tasks change the database as [asleep turn]. *)
Fixpoint active_expiration_task {M : Type -> Type} `{DashMap M}
    (clock : nat -> nat -> Instant) (random : nat -> nat -> nat -> nat)
    (asleep : nat -> DB M -> DB M) (turns turn : nat) (db : DB M) : outcome message (DB M) :=
  match turns with
  | O => Ok db
  | S turns =>
      let? db :=
        active_expiration_cycle (clock turn) (random turn) (S (dm_len (expirations db))) 0 db in
      active_expiration_task clock random asleep turns (S turn) (asleep turn db)
  end.
