(* ===== verification/ActiveExpirationSpec.v ===== *)
(** * What active expiration guarantees

    The cycle ends, since every repetition has removed a key; it removes keys
    that have expired and no others; it repeats exactly when more than a
    quarter of its sample had expired, and so purges a map whose keys have all
    expired. *)
From S2P Require Import Prelude Ints DashMap Database DatabaseSpec ActiveExpiration.
Local Open Scope Z_scope.

(** ** The ratio test *)

(** The division is rounded, but for samples of this size the test is exact. *)
Lemma high_ratio_exact expired checked :
  (expired <= checked)%nat -> (1 <= checked <= SAMPLE_SIZE)%nat ->
  high_ratio expired checked = (checked <? 4 * expired)%nat.
Proof.
  intros He Hc. unfold SAMPLE_SIZE in Hc.
  assert (forallb (fun c => forallb (fun e => Bool.eqb (high_ratio e c) (c <? 4 * e)%nat) (seq 0 (S c)))
            (seq 1 20) = true) as Hall by (vm_compute; reflexivity).
  rewrite forallb_forall in Hall. specialize (Hall checked ltac:(apply in_seq; lia)).
  rewrite forallb_forall in Hall. specialize (Hall expired ltac:(apply in_seq; lia)).
  by apply Bool.eqb_prop.
Qed.

(** ** Sizes *)

Section Spec.
Context {M : Type -> Type} `{DashMapLaws M}.
Implicit Types db : DB M.

Definition dm_contents {V} (m : M V) : gmap bytes V := list_to_map (dm_iter m).

Lemma dm_contents_lookup {V} (m : M V) k : dm_contents m !! k = dm_get m k.
Proof.
  apply option_eq. intros v. unfold dm_contents.
  rewrite <- elem_of_list_to_map by apply dm_iter_NoDup. apply dm_iter_get.
Qed.

Lemma dm_contents_size {V} (m : M V) : size (dm_contents m) = dm_len m.
Proof.
  unfold dm_contents. rewrite map_size_list_to_map by apply dm_iter_NoDup.
  by rewrite dm_len_iter.
Qed.

Lemma dm_len_remove {V} (m : M V) k :
  is_Some (dm_get m k) -> dm_len m = S (dm_len (dm_remove m k)).
Proof.
  intros Hk. rewrite <- !dm_contents_size.
  replace (dm_contents (dm_remove m k)) with (base.delete k (dm_contents m)).
  - rewrite <- dm_contents_lookup in Hk. destruct Hk as [v Hk].
    rewrite map_size_delete_Some by (by eexists).
    assert (size (dm_contents m) <> 0)%nat; [|lia].
    intros E. apply map_size_empty_inv in E. by rewrite E in Hk.
  - apply map_eq. intros k'. rewrite lookup_delete, !dm_contents_lookup, dm_get_remove. done.
Qed.

Lemma dm_len_zero {V} (m : M V) k : dm_len m = 0%nat -> dm_get m k = None.
Proof.
  rewrite <- dm_contents_size, <- dm_contents_lookup. intros ->%map_size_empty_inv. done.
Qed.

(** ** One pass over a sample *)

(** [db'] is [db] without some keys that have expired by [t]. *)
Record purged (t : Instant) db db' : Prop := {
  purged_wf : db_wf db -> db_wf db';
  purged_live : forall later k, t <= later -> live later (view db') k = live later (view db) k;
  purged_cases : forall k,
    (dm_get (expirations db') k = dm_get (expirations db) k /\
     dm_get (data db') k = dm_get (data db) k) \/
    (past t (dm_get (expirations db) k) = true /\
     dm_get (expirations db') k = None /\ dm_get (data db') k = None)
}.

#[local] Instance purged_preorder t : PreOrder (purged t).
Proof.
  split.
  - intros db. split; auto.
  - intros db1 db2 db3 [Hw1 Hl1 Hc1] [Hw2 Hl2 Hc2]. split; [auto|..].
    + intros later k Ht. by rewrite Hl2, Hl1.
    + intros k. destruct (Hc1 k) as [[He1 Hd1]|(He1 & Hn1 & Hd1)], (Hc2 k) as [[He2 Hd2]|(He2 & Hn2 & Hd2)].
      * left. split; congruence.
      * right. rewrite <- He1. by split_and!.
      * right. split_and!; [done|congruence..].
      * right. by split_and!.
Qed.

Lemma purged_remove t db k e :
  dm_get (expirations db) k = Some e -> e < t ->
  purged t db (mkDB (dm_remove (data db) k) (dm_remove (expirations db) k)).
Proof.
  intros Hk He. split.
  - apply remove_both_wf.
  - intros later k' Ht. unfold live. rewrite view_remove_both. unfold kv_update, view.
    case_decide; [subst k'|done]. rewrite Hk. destruct (dm_get (data db) k); [|done]. cbn [past].
    by rewrite (proj2 (Z.ltb_lt e later)) by lia.
  - intros k'. simpl. rewrite !dm_get_remove. case_decide; [subst k'|by left].
    right. rewrite Hk. cbn [past]. split_and!; [by apply Z.ltb_lt|done..].
Qed.

(** One pass removes the keys of the sample that have expired, and counts
    them. *)
Lemma remove_expired_spec t db now sampled n db' n' :
  now <= t -> remove_expired db now sampled n = (db', n') ->
  purged t db db' /\
  (dm_len (expirations db) + n = dm_len (expirations db') + n')%nat /\
  (n <= n' <= n + length sampled)%nat.
Proof.
  intros Ht. revert db n. induction sampled as [|k sampled IH]; intros db n; cbn [remove_expired].
  - intros [= <- <-]. split_and!; [done|lia..].
  - destruct (dm_get (expirations db) k) as [e|] eqn:Hk.
    + destruct (Z.ltb_spec e now).
      * intros (Hp & Hlen & Hn)%IH. cbn [with_data with_expirations data expirations] in *.
        split_and!; [|pose proof (dm_len_remove (expirations db) k ltac:(by eexists)); simpl; lia..].
        etrans; [|exact Hp]. apply (purged_remove t db k e); [done|lia].
      * intros (Hp & Hlen & Hn)%IH. simpl. split_and!; [done|lia..].
    + intros (Hp & Hlen & Hn)%IH. simpl. split_and!; [done|lia..].
Qed.

(** When every expiry is past, a pass removes its whole sample. *)
Lemma remove_expired_all db now sampled n :
  NoDup sampled -> (forall k, k ∈ sampled -> is_Some (dm_get (expirations db) k)) ->
  (forall k e, dm_get (expirations db) k = Some e -> e < now) ->
  (remove_expired db now sampled n).2 = (n + length sampled)%nat.
Proof.
  intros Hnd Hin Hpast. revert db n Hin Hpast.
  induction Hnd as [|k sampled Hk _ IH]; intros db n Hin Hpast; cbn [remove_expired length]; [simpl; lia|].
  destruct (Hin k ltac:(set_solver)) as [e Hke]. rewrite Hke.
  rewrite (proj2 (Z.ltb_lt e now)) by eauto. rewrite IH; [simpl; lia|..].
  - intros k' Hk'. simpl. rewrite dm_get_remove, decide_False by set_solver. apply Hin. set_solver.
  - intros k' e'. simpl. rewrite dm_get_remove. case_decide; [done|apply Hpast].
Qed.

Lemma sample_NoDup db skip : NoDup (sample db skip).
Proof.
  unfold sample. rewrite fmap_take, fmap_drop.
  apply (sublist_NoDup _ _ (dm_iter_NoDup _ (expirations db))). etrans; [apply sublist_take|apply sublist_drop].
Qed.

Lemma sample_stored db skip k : k ∈ sample db skip -> is_Some (dm_get (expirations db) k).
Proof.
  unfold sample. intros ([k' e] & -> & Hin)%list_elem_of_fmap.
  exists e. apply dm_iter_get. apply elem_of_take in Hin as (i & Hi & _).
  rewrite lookup_drop in Hi. by eapply list_elem_of_lookup_2.
Qed.

Lemma sample_length db skip :
  (skip < dm_len (expirations db))%nat -> (1 <= length (sample db skip) <= SAMPLE_SIZE)%nat.
Proof.
  rewrite dm_len_iter. intros Hs. unfold sample, SAMPLE_SIZE.
  rewrite length_fmap, length_take, length_drop. lia.
Qed.

(** ** The cycle *)

Section Cycle.
Context (clock : nat -> Instant) (random : nat -> nat -> nat).
Hypothesis random_range : forall run total, (0 < total)%nat -> (random run total < total)%nat.

(** The keys and the state of a run that samples. *)
Notation sampled run db := (sample db (random run (dm_len (expirations db)))).
Notation pass run db := (remove_expired db (clock run) (sampled run db) 0).

(** The cycle, one run at a time, with the ratio as the comment states it. *)
Lemma cycle_step fuel run db :
  (0 < dm_len (expirations db))%nat ->
  active_expiration_cycle clock random (S fuel) run db =
    (if (length (sampled run db) <? 4 * (pass run db).2)%nat
     then active_expiration_cycle clock random fuel (S run) (pass run db).1
     else Ok (pass run db).1).
Proof.
  intros Hlen. cbn [active_expiration_cycle]. rewrite decide_False by lia.
  destruct (pass run db) as [db' expired] eqn:E. cbn [fst snd].
  destruct (remove_expired_spec (clock run) _ _ _ _ _ _ (Z.le_refl _) E) as (_ & _ & Hn).
  pose proof (sample_length db _ (random_range run _ Hlen)) as Hs.
  rewrite Nat.max_l by lia. by rewrite high_ratio_exact by lia.
Qed.

Lemma cycle_purges fuel run db t :
  (dm_len (expirations db) < fuel)%nat -> (forall n, clock n <= t) ->
  exists db', active_expiration_cycle clock random fuel run db = Ok db' /\ purged t db db'.
Proof.
  intros Hf Ht. revert run db Hf. induction fuel as [|fuel IH]; intros run db Hf; [lia|].
  destruct (decide (dm_len (expirations db) = 0%nat)) as [H0'|Hne].
  - exists db. split; [|done]. cbn [active_expiration_cycle]. by rewrite decide_True.
  - rewrite cycle_step by lia. destruct (pass run db) as [db1 n] eqn:E. cbn [fst snd].
    destruct (remove_expired_spec t _ _ _ _ _ _ (Ht run) E) as (Hp & Hlen & _).
    case_match eqn:Hr; [|by exists db1]. apply Nat.ltb_lt in Hr.
    destruct (IH (S run) db1) as (db2 & Hc & Hp2); [lia|].
    exists db2. split; [done|]. by etrans.
Qed.

(** C16: a cycle of active expiration ends and is sound. Whatever the random
    draws, more runs than there are keys with an expiry are never needed; the
    invariant holds after it; every key it removed had expired by the last
    clock reading, all else is untouched, and no key that is alive at or after
    that reading reads differently. *)
Theorem active_expiration_sound fuel run db t :
  (dm_len (expirations db) < fuel)%nat -> (forall n, clock n <= t) -> db_wf db ->
  exists db',
    active_expiration_cycle clock random fuel run db = Ok db' /\ db_wf db' /\
    (forall later k, t <= later -> live later (view db') k = live later (view db) k) /\
    (forall k, view db' k = view db k \/
       (view db' k = None /\ past t (dm_get (expirations db) k) = true)).
Proof.
  intros Hf Ht Hwf. destruct (cycle_purges fuel run db t Hf Ht) as (db' & Hc & [Hw Hl Hk]).
  exists db'. split_and!; [done|auto|done|].
  intros k. unfold view. destruct (Hk k) as [[-> ->]|(Hp & _ & ->)]; auto.
Qed.

(** The ratio rule of the cycle: with at least one expiry in the map, a run
    removes the expired keys of a sample of 1 to 20 keys, and the next run
    follows at once exactly when more than a quarter of the sample had
    expired; the floating-point division does not change that. *)
Theorem active_expiration_repeats_above_quarter fuel run db :
  (0 < dm_len (expirations db))%nat ->
  let keys := sample db (random run (dm_len (expirations db))) in
  let '(db', expired) := remove_expired db (clock run) keys 0 in
  (1 <= length keys <= 20)%nat /\
  (dm_len (expirations db) = dm_len (expirations db') + expired)%nat /\
  active_expiration_cycle clock random (S fuel) run db =
    (if (length keys <? 4 * expired)%nat
     then active_expiration_cycle clock random fuel (S run) db'
     else Ok db').
Proof.
  intros Hlen keys. pose proof (cycle_step fuel run db Hlen) as Hs. fold keys in Hs.
  destruct (remove_expired db (clock run) keys 0) as [db' expired] eqn:E.
  destruct (remove_expired_spec (clock run) _ _ _ _ _ _ (Z.le_refl _) E) as (_ & Hl & _).
  split_and!; [apply sample_length; auto|apply sample_length; auto|lia|done].
Qed.

(** C26: when every expiry is past, one cycle purges the map: no expiry is
    left, the keys that had one are gone, and the others keep their values. *)
Theorem active_expiration_purges_expired fuel run db :
  (dm_len (expirations db) < fuel)%nat ->
  (forall k e n, dm_get (expirations db) k = Some e -> e < clock n) ->
  exists db',
    active_expiration_cycle clock random fuel run db = Ok db' /\
    forall k,
      dm_get (expirations db') k = None /\
      dm_get (data db') k =
        (if decide (is_Some (dm_get (expirations db) k)) then None else dm_get (data db) k).
Proof.
  intros Hf Hpast. revert run db Hf Hpast.
  induction fuel as [|fuel IH]; intros run db Hf Hpast; [lia|].
  destruct (decide (dm_len (expirations db) = 0%nat)) as [H0'|Hne].
  - exists db. cbn [active_expiration_cycle]. rewrite decide_True by done. split; [done|].
    intros k. rewrite (dm_len_zero _ k H0'). split; [done|]. rewrite decide_False; [done|by intros [? ?]].
  - rewrite cycle_step by lia. pose proof (sample_length db _ (random_range run (dm_len (expirations db)) ltac:(lia))) as Hs.
    assert ((pass run db).2 = length (sampled run db)) as Hall.
    { apply remove_expired_all; [apply sample_NoDup|apply sample_stored|eauto]. }
    rewrite Hall. rewrite (proj2 (Nat.ltb_lt _ _)) by lia.
    destruct (pass run db) as [db1 n] eqn:E. cbn [fst snd] in *.
    destruct (remove_expired_spec (clock run) _ _ _ _ _ _ (Z.le_refl _) E) as ([_ _ Hk] & Hlen & _).
    destruct (IH (S run) db1) as (db2 & Hc & Hall2); [lia| |].
    { intros k e m He. destruct (Hk k) as [[He' _]|(_ & He' & _)]; [|congruence].
      eapply Hpast. by rewrite <- He'. }
    exists db2. split; [done|]. intros k. destruct (Hall2 k) as [-> ->]. split; [done|].
    destruct (Hk k) as [[-> ->]|(Hp & -> & ->)]; [done|].
    destruct (dm_get (expirations db) k); [|done].
    by rewrite decide_False, decide_True by (try intros [? ?]; done).
Qed.
End Cycle.

(** The task never stops of its own: through any number of turns each cycle
    ends, and the invariant holds after them, when the operations that run
    while it sleeps keep it. [ends turn] is the end of a turn. *)
Theorem active_expiration_task_runs clock random asleep (ends : nat -> Instant) turns turn db :
  (forall turn run total, (0 < total)%nat -> (random turn run total < total)%nat) ->
  (forall turn n, clock turn n <= ends turn) ->
  (forall turn db, db_wf db -> db_wf (asleep turn db)) -> db_wf db ->
  exists db', active_expiration_task clock random asleep turns turn db = Ok db' /\ db_wf db'.
Proof.
  intros Hr He Hs. revert turn db. induction turns as [|turns IH]; intros turn db Hwf; [by exists db|].
  cbn [active_expiration_task].
  destruct (cycle_purges (clock turn) (random turn) (Hr turn) (S (dm_len (expirations db))) 0 db (ends turn))
    as (db1 & -> & Hp); [lia|apply He|].
  cbn [obind]. apply IH, Hs, Hp, Hwf.
Qed.
End Spec.

(** ** Witnesses *)

Module ActiveExpirationWitness.
Import DatabaseWitness.

Definition clock200 (n : nat) : Instant := 200.
Definition first (run total : nat) : nat := 0.

Lemma first_range run total : (0 < total)%nat -> (first run total < total)%nat.
Proof. done. Qed.

Lemma db0_expirations k e : dm_get (expirations db0) k = Some e -> e = 100.
Proof.
  unfold db0. simpl. rewrite lookup_delete_Some, lookup_insert_Some, lookup_delete_Some, lookup_empty.
  naive_solver.
Qed.

Lemma active_expiration_sound_witness :
  exists db', active_expiration_cycle clock200 first 2 0 db0 = Ok db' /\
    live 300 (view db') (bs "s") = Some (str (bs "x")).
Proof.
  destruct (active_expiration_sound clock200 first first_range 2 0 db0 200) as (db' & Hc & _ & Hl & _).
  - by vm_compute; lia.
  - by intros n.
  - exact db0_wf.
  - exists db'. split; [exact Hc|]. rewrite Hl by lia. by vm_compute.
Defined.

Lemma active_expiration_repeats_witness :
  active_expiration_cycle clock200 first 2 0 db0 =
    active_expiration_cycle clock200 first 1 1
      (remove_expired db0 200 (sample db0 0) 0).1.
Proof.
  pose proof (active_expiration_repeats_above_quarter clock200 first first_range 1 0 db0) as Hr.
  change (first 0 (dm_len (expirations db0))) with 0%nat in Hr. change (clock200 0) with 200 in Hr.
  assert (sample db0 0 = [bs "l"]) as Hsample by (vm_compute; reflexivity).
  assert ((remove_expired db0 200 [bs "l"] 0).2 = 1%nat) as Hn by (vm_compute; reflexivity).
  cbv zeta in Hr. rewrite Hsample in *.
  destruct (remove_expired db0 200 [bs "l"] 0) as [db' n]. cbn [fst snd] in *. subst n.
  destruct Hr as (_ & _ & Hr); [vm_compute; lia|]. exact Hr.
Defined.

Lemma active_expiration_purges_witness :
  exists db', active_expiration_cycle clock200 first 2 0 db0 = Ok db' /\
    dm_get (data db') (bs "l") = None.
Proof.
  destruct (active_expiration_purges_expired clock200 first first_range 2 0 db0) as (db' & Hc & Hk).
  - by vm_compute; lia.
  - intros k e n ->%db0_expirations. by vm_compute.
  - exists db'. split; [exact Hc|]. rewrite (proj2 (Hk (bs "l"))). reflexivity.
Defined.
End ActiveExpirationWitness.
