(* ===== verification/Concurrency.v ===== *)
(** * The database under concurrent tasks (src/src/database/core.rs)

    Every connection and the expiration task work on the same two maps, with no
    lock around an operation: a step of an operation is one access to one map,
    which holds the lock of a shard of that map while it lasts. Here each
    operation is a program of these accesses ([Tasks.v]), in the order of the
    source. The accesses of one [match] on a guard are one step: the expiry
    check of [get] and [lrange] holds its guard while [is_expired] looks again,
    and a push changes the list through the guard of [get_mut].

    A snapshot is collected shard by shard: the iterator of a map locks one
    shard at a time. Which shard a key is in ([shard_of]) and how many shards
    there are is the map's choice. *)
From S2P Require Import Prelude Ints Tasks DashMap Database DatabaseSpec ActiveExpiration.
Local Open Scope Z_scope.

Section Programs.
Context {M : Type -> Type} `{DashMap M} `{BuildProfile}.
Notation task A := (prog (DB M) A).

(** ** Accesses *)

Definition data_insert {A} (key : bytes) (v : RedisObject) (k : task A) : task A :=
  update (fun db => with_data db (dm_insert (data db) key v)) k.
Definition data_remove {A} (key : bytes) (k : task A) : task A :=
  update (fun db => with_data db (dm_remove (data db) key)) k.
Definition expirations_insert {A} (key : bytes) (t : Instant) (k : task A) : task A :=
  update (fun db => with_expirations db (dm_insert (expirations db) key t)) k.
Definition expirations_remove {A} (key : bytes) (k : task A) : task A :=
  update (fun db => with_expirations db (dm_remove (expirations db) key)) k.

(** ** Operations *)

Definition set_task (key : bytes) (val : RedisObject) (expires_at : option Instant) :
    task (outcome message unit) :=
  expirations_remove key
    (data_insert key val
       match expires_at with
       | Some exp => expirations_insert key exp (Ret (Ok tt))
       | None => Ret (Ok tt)
       end).

(** The expiry check at the head of [get] and [lrange]: under one guard, and
    then the removals. *)
Definition expire_lazily_task {A} (now : Instant) (key : bytes) (expired live : task A) : task A :=
  read (fun db => match dm_get (expirations db) key with
                  | Some _ => is_expired db now key
                  | None => false
                  end)
    (fun is_expired =>
       if is_expired then data_remove key (expirations_remove key expired) else live).

Definition get_task (now : Instant) (key : bytes) : task (outcome message RedisObject) :=
  expire_lazily_task now key (Ret (Ok nil_object))
    (read (fun db => dm_get (data db) key)
       (fun ro => match ro with Some ro => Ret (Ok ro) | None => Ret (Ok nil_object) end)).

Definition delete_task (key : bytes) : task (outcome message unit) :=
  data_remove key (expirations_remove key (Ret (Ok tt))).

(** A push: through the guard of [get_mut], or as an insertion after it found
    nothing. *)
Definition push_task (key : bytes) (fresh : list RedisObject)
    (join : list RedisObject -> list RedisObject) : task (outcome message unit) :=
  Atomic (fun db =>
    match dm_get_mut (data db) key with
    | None => (db, data_insert key (RedisObject.List fresh) (Ret (Ok tt)))
    | Some (RedisObject.List items, put) =>
        (with_data db (put (RedisObject.List (join items))), Ret (Ok tt))
    | Some (RedisObject.String _, _) => (db, Ret (Err err_not_list_push))
    end).

Definition lpush_task (key : bytes) (values : list RedisObject) : task (outcome message unit) :=
  push_task key (rev values) (fun items => values ++ items).

Definition rpush_task (key : bytes) (values : list RedisObject) : task (outcome message unit) :=
  push_task key values (fun items => items ++ values).

Definition lrange_task (now : Instant) (key : bytes) (start stop : Z) :
    task (outcome message RedisObject) :=
  expire_lazily_task now key (Ret (Ok nil_object))
    (read (fun db => dm_get (data db) key)
       (fun ro =>
          match ro with
          | None => Ret (Ok nil_object)
          | Some (RedisObject.List items) =>
              Ret (let? vals := select_range items start stop in Ok (RedisObject.List vals))
          | Some (RedisObject.String _) => Ret (Err err_not_list_range)
          end)).

(** The access that decides whether [expire] updates the expiry. *)
Definition update_expiry_task (key : bytes) (expires_at : Instant) (opt_arg : option bytes)
    (k : bool -> task (outcome message unit)) : task (outcome message unit) :=
  match opt_arg with
  | Some opt =>
      if decide (opt = bs "NX") then
        read (fun db => negb (dm_contains_key (expirations db) key)) k
      else if decide (opt = bs "XX") then
        read (fun db => dm_contains_key (expirations db) key) k
      else if decide (opt = bs "GT") then
        read (fun db => match dm_get (expirations db) key with
                        | Some e => e <? expires_at | None => false end) k
      else if decide (opt = bs "LT") then
        read (fun db => match dm_get (expirations db) key with
                        | Some e => expires_at <? e | None => false end) k
      else Ret (Err err_expire_option)
  | None => k true
  end.

Definition expire_task (key : bytes) (expires_at : Instant) (opt_arg : option bytes) :
    task (outcome message unit) :=
  read (fun db => dm_contains_key (data db) key)
    (fun found =>
       if negb found then Ret (Err err_no_entry)
       else
         update_expiry_task key expires_at opt_arg
           (fun update_expiry =>
              if update_expiry then expirations_insert key expires_at (Ret (Ok tt))
              else Ret (Ok tt))).

(** ** The operations of a client, as one type of task *)

Definition done_task (p : task (outcome message unit)) : task (outcome message reply) :=
  bind p (fun r => Ret (let? _ := r in Ok Done)).
Definition value_task (p : task (outcome message RedisObject)) : task (outcome message reply) :=
  bind p (fun r => Ret (let? v := r in Ok (Value v))).

Definition op_task (now : Instant) (o : op) : task (outcome message reply) :=
  match o with
  | OpSet k v e => done_task (set_task k v e)
  | OpGet k => value_task (get_task now k)
  | OpDelete k => done_task (delete_task k)
  | OpLPush k vs => done_task (lpush_task k vs)
  | OpRPush k vs => done_task (rpush_task k vs)
  | OpLRange k a b => value_task (lrange_task now k a b)
  | OpExpire k t opt => done_task (expire_task k t opt)
  end.

Definition op_key (o : op) : bytes :=
  match o with
  | OpSet k _ _ | OpGet k | OpDelete k | OpLPush k _ | OpRPush k _ | OpLRange k _ _
  | OpExpire k _ _ => k
  end.

(** ** Expiration *)

(** The loop of [active_expiration_cycle] over the sampled keys. *)
Fixpoint remove_expired_task (now : Instant) (sampled : list bytes) (expired : nat) : task nat :=
  match sampled with
  | [] => Ret expired
  | key :: sampled =>
      read (fun db => match dm_get (expirations db) key with
                      | Some exp => exp <? now
                      | None => false
                      end)
        (fun is_expired =>
           if is_expired
           then data_remove key (expirations_remove key (remove_expired_task now sampled (S expired)))
           else remove_expired_task now sampled expired)
  end.

(** What the tasks of the server do to the maps: operations of clients, and
    passes of the expiration task over a sample. *)
Inductive job : Type :=
| Client (now : Instant) (o : op)
| Purge (now : Instant) (sampled : list bytes).

Definition job_task (j : job) : task (outcome message reply) :=
  match j with
  | Client now o => op_task now o
  | Purge now sampled => bind (remove_expired_task now sampled 0) (fun _ => Ret (Ok Done))
  end.

(** ** Snapshots *)

Context (shards : nat) (shard_of : bytes -> nat).

(** [map.iter().map(..).collect()], one shard after the other: [n] are still to
    come. *)
Fixpoint collect_task {V A} (field : DB M -> M V) (n : nat) (acc : list (bytes * V))
    (k : list (bytes * V) -> task A) : task A :=
  match n with
  | O => k acc
  | S n =>
      read (fun db => filter (fun kv => shard_of kv.1 = (shards - S n)%nat) (dm_iter (field db)))
        (fun entries => collect_task field n (acc ++ entries) k)
  end.

(** The collection of [DB::save_rdb]: first the values, then the expiry
    times, handed to what saves them. *)
Definition snapshot_task {A} (k : gmap bytes RedisObject * gmap bytes Instant -> task A) : task A :=
  collect_task data shards []
    (fun data_snapshot =>
       collect_task expirations shards []
         (fun exp_snapshot => k (list_to_map data_snapshot, list_to_map exp_snapshot))).
End Programs.
