(* ===== verification/ConcurrencySpec.v ===== *)
(** * What concurrent tasks can and cannot rely on

    The programs of [Concurrency.v], run alone, are the operations of
    [Database.v]. Operations on different keys do not interfere, in any
    interleaving; a key that is alive and that nobody writes is read as it is in
    all of them, whatever is read and purged meanwhile; and a snapshot is exact for the keys that nobody changes meanwhile. On the
    same key, operations are not atomic: the interleavings that lose an
    acknowledged write, leave an expiry without a value, or bring a key back
    are given. *)
From S2P Require Import Prelude Ints Tasks DashMap Database DatabaseSpec.
From S2P Require Import ActiveExpiration Concurrency.
Local Open Scope Z_scope.

Section Spec.
Context {M : Type -> Type} `{DashMapLaws M} `{BuildProfile}.
Implicit Types db : DB M.
Notation task A := (prog (DB M) A).

(** ** Alone *)

Lemma run_done_task (p : task (outcome message unit)) db :
  run (done_task p) db = as_done (run p db).
Proof. unfold done_task. by rewrite run_bind. Qed.

Lemma run_value_task (p : task (outcome message RedisObject)) db :
  run (value_task p) db = as_value (run p db).
Proof. unfold value_task. by rewrite run_bind. Qed.

Lemma run_expire_lazily {A} now k (expired live : task A) db :
  run (expire_lazily_task now k expired live) db =
    (let '(b, db') := expire_lazily db now k in run (if b then expired else live) db').
Proof.
  unfold expire_lazily_task, expire_lazily, read. cbn [run].
  destruct (dm_get (expirations db) k); [|done]. by destruct (is_expired db now k).
Qed.

Lemma run_push k fresh join db :
  run (push_task k fresh join) db =
    match dm_get_mut (data db) k with
    | None => (Ok tt, with_data db (dm_insert (data db) k (RedisObject.List fresh)))
    | Some (RedisObject.List items, put) =>
        (Ok tt, with_data db (put (RedisObject.List (join items))))
    | Some (RedisObject.String _, _) => (Err err_not_list_push, db)
    end.
Proof. unfold push_task. cbn [run]. by destruct (dm_get_mut (data db) k) as [[[] ?]|]. Qed.

Lemma run_expire k t opt db : run (expire_task k t opt) db = expire db k t opt.
Proof.
  unfold expire_task, expire, read. cbn [run]. destruct (dm_contains_key (data db) k); [|done].
  cbn [negb]. unfold update_expiry_task, read. destruct opt as [o|]; [|done].
  by repeat (case_decide; [cbn [run]; by case_match|]).
Qed.

Lemma run_op_task now o db : run (op_task now o) db = db_exec now o db.
Proof.
  destruct o; cbn [op_task db_exec]; rewrite ?run_done_task, ?run_value_task; f_equal.
  - unfold set_task, set. by destruct e.
  - unfold get_task, get. rewrite run_expire_lazily. destruct (expire_lazily db now k) as [[] db']; [done|].
    cbn [run read]. by destruct (dm_get (data db') k).
  - apply run_push.
  - apply run_push.
  - unfold lrange_task, lrange. rewrite run_expire_lazily.
    destruct (expire_lazily db now k) as [[] db']; [done|].
    cbn [run read]. by destruct (dm_get (data db') k) as [[]|].
  - apply run_expire.
Qed.

Lemma run_remove_expired now sampled n db :
  run (remove_expired_task now sampled n) db =
    ((remove_expired db now sampled n).2, (remove_expired db now sampled n).1).
Proof.
  revert db n. induction sampled as [|k sampled IH]; intros db n; [done|].
  cbn [remove_expired_task remove_expired]. unfold read. cbn [run].
  destruct (dm_get (expirations db) k) as [e|]; [|apply IH].
  destruct (e <? now); [|apply IH]. cbn [run data_remove expirations_remove update]. apply IH.
Qed.

(** ** Confinement to a key *)

Definition cell db (k : bytes) : option RedisObject * option Instant :=
  (dm_get (data db) k, dm_get (expirations db) k).

Lemma cell_view db db' k : cell db k = cell db' k -> view db k = view db' k.
Proof. unfold cell, view. by intros [= -> ->]. Qed.

Ltac cells :=
  intros; unfold cell in *; cbn [data expirations with_data with_expirations fst snd] in *;
  repeat match goal with H : (_, _) = (_, _) |- _ => injection H as ?? end;
  try split; rewrite ?dm_get_insert, ?dm_get_remove; repeat case_decide; congruence.

Lemma confined_read {X A} k (g : DB M -> X) (c : X -> task A) :
  (forall db db', cell db k = cell db' k -> g db = g db') ->
  (forall x, confined cell k (c x)) -> confined cell k (read g c).
Proof.
  intros Hg Hc. apply confined_atomic; [|done|intros; apply Hc].
  intros db db' E. simpl. by rewrite (Hg _ _ E).
Qed.

Lemma confined_data_insert {A} k v (c : task A) :
  confined cell k c -> confined cell k (data_insert k v c).
Proof. intros Hc. apply confined_atomic; [cells|cells|done]. Qed.

Lemma confined_data_remove {A} k (c : task A) :
  confined cell k c -> confined cell k (data_remove k c).
Proof. intros Hc. apply confined_atomic; [cells|cells|done]. Qed.

Lemma confined_expirations_insert {A} k t (c : task A) :
  confined cell k c -> confined cell k (expirations_insert k t c).
Proof. intros Hc. apply confined_atomic; [cells|cells|done]. Qed.

Lemma confined_expirations_remove {A} k (c : task A) :
  confined cell k c -> confined cell k (expirations_remove k c).
Proof. intros Hc. apply confined_atomic; [cells|cells|done]. Qed.

Lemma confined_push k fresh join : confined cell k (push_task k fresh join).
Proof.
  apply confined_atomic.
  - intros db db' [= Ed Ee]. destruct (dm_get (data db) k) as [v|] eqn:Hd.
    + destruct (dm_get_mut_Some _ _ _ _ Hd) as (put & -> & Hput).
      destruct (dm_get_mut_Some _ (data db') k v) as (put' & -> & Hput'); [by rewrite <- Ed|].
      unfold cell. destruct v as [s|items]; simpl; split; try done; [congruence|].
      by rewrite (Hput _ k), (Hput' _ k), !dm_get_insert, Ee, !decide_True.
    + rewrite (dm_get_mut_None _ _ _ Hd), (dm_get_mut_None _ (data db') k) by (by rewrite <- Ed).
      unfold cell. simpl. split; congruence.
  - intros db k' Hne. destruct (dm_get (data db) k) as [v|] eqn:Hd.
    + destruct (dm_get_mut_Some _ _ _ _ Hd) as (put & -> & Hput).
      destruct v as [s|items]; [done|]. unfold cell. simpl.
      by rewrite (Hput _ k'), dm_get_insert, decide_False by congruence.
    + by rewrite (dm_get_mut_None _ _ _ Hd).
  - intros db. destruct (dm_get_mut (data db) k) as [[[] ?]|]; simpl;
      eauto using confined_ret, confined_data_insert.
Qed.

Lemma confined_expire_lazily {A} now k (expired live : task A) :
  confined cell k expired -> confined cell k live ->
  confined cell k (expire_lazily_task now k expired live).
Proof.
  intros He Hl. apply confined_read.
  - unfold is_expired. intros db db' [= _ E]. by rewrite E.
  - intros []; auto using confined_data_remove, confined_expirations_remove.
Qed.

Lemma confined_expire k t opt : confined cell k (expire_task k t opt).
Proof.
  apply confined_read.
  { intros db db' [= E _]. by rewrite !dm_contains_key_get, E. }
  intros []; [|apply confined_ret]. cbn [negb].
  assert (forall b : bool, confined cell k
    (if b then expirations_insert k t (Ret (Ok tt)) else Ret (Ok tt) : task (outcome message unit))) as Hk.
  { intros []; auto using confined_ret, confined_expirations_insert. }
  unfold update_expiry_task. destruct opt as [o|]; [|apply (Hk true)].
  repeat (case_decide; [apply confined_read; [|done]|]); [..|apply confined_ret];
    intros db db' [= _ E]; by rewrite ?dm_contains_key_get, ?E.
Qed.

(** An operation reads and writes the cells of its key only. *)
Lemma confined_op now o : confined cell (op_key o) (op_task now o).
Proof.
  destruct o; cbn [op_task op_key]; unfold done_task, value_task;
    (apply confined_bind; [|intros; apply confined_ret]).
  - unfold set_task. destruct e;
      auto 10 using confined_ret, confined_expirations_remove, confined_data_insert, confined_expirations_insert.
  - apply confined_expire_lazily; [apply confined_ret|]. apply confined_read.
    + by intros db db' [= -> _].
    + intros []; apply confined_ret.
  - unfold delete_task. auto using confined_data_remove, confined_expirations_remove, confined_ret.
  - apply confined_push.
  - apply confined_push.
  - apply confined_expire_lazily; [apply confined_ret|]. apply confined_read.
    + by intros db db' [= -> _].
    + intros [[]|]; apply confined_ret.
  - apply confined_expire.
Qed.

(** Operations one after the other, on different keys. *)
Lemma db_run_disjoint tr db :
  NoDup ((fun to => op_key to.2) <$> tr) ->
  (db_run tr db).1 = ((fun to => (db_exec to.1 to.2 db).1) <$> tr) /\
  (forall now o, (now, o) ∈ tr ->
     cell (db_run tr db).2 (op_key o) = cell (db_exec now o db).2 (op_key o)) /\
  (forall k, k ∉ ((fun to => op_key to.2) <$> tr) -> cell (db_run tr db).2 k = cell db k).
Proof.
  revert db. induction tr as [|[now o] tr IH]; intros db Hnd.
  { split_and!; [done| |done]. by intros ?? ?%not_elem_of_nil. }
  rewrite fmap_cons in Hnd. apply NoDup_cons in Hnd as [Hk Hnd]. cbn [db_run fst snd] in *.
  pose proof (run_op_task now o db) as Hrun. destruct (db_exec now o db) as [r db1] eqn:E.
  assert (forall k, k <> op_key o -> cell db1 k = cell db k) as Hframe.
  { intros k Hne. pose proof (run_other cell (op_key o) k _ db (confined_op now o) Hne) as Ho.
    by rewrite Hrun in Ho. }
  destruct (IH db1 Hnd) as (Hrs & Hin & Hout). destruct (db_run tr db1) as [rs db2]. cbn [fst snd] in *.
  assert (forall now' o', (now', o') ∈ tr ->
    (db_exec now' o' db1).1 = (db_exec now' o' db).1 /\
    cell (db_exec now' o' db1).2 (op_key o') = cell (db_exec now' o' db).2 (op_key o')) as Hsame.
  { intros now' o' Hin'. rewrite <- !run_op_task. apply run_cell; [apply confined_op|].
    apply Hframe. intros Heq. apply Hk. rewrite <- Heq.
    by apply (list_elem_of_fmap_2 (fun to => op_key to.2) tr (now', o')). }
  split_and!.
  - rewrite fmap_cons. cbn [fst snd]. rewrite E. cbn [fst]. f_equal. rewrite Hrs. apply list_fmap_ext.
    intros i [now' o'] Hi%list_elem_of_lookup_2. by apply Hsame.
  - intros now' o' [[= -> ->]|Hin']%elem_of_cons.
    + rewrite Hout by done. by rewrite E.
    + rewrite (Hin now' o') by done. by apply Hsame.
  - intros k. rewrite fmap_cons. intros [Hne Hnin]%not_elem_of_cons. rewrite Hout by done. by apply Hframe.
Qed.

(** ** Snapshots *)

Section Snapshot.
Context (shards : nat) (shard_of : bytes -> nat).

(** The entries of the shards that are still to come when [n] are. *)
Fixpoint collected {V} (m : M V) (n : nat) : list (bytes * V) :=
  match n with
  | O => []
  | S n => filter (fun kv => shard_of kv.1 = (shards - S n)%nat) (dm_iter m) ++ collected m n
  end.

Lemma run_schedule_collect {V A} (field : DB M -> M V) n acc (k : list (bytes * V) -> task A) rest db :
  run_schedule (replicate n 0%nat) (collect_task shards shard_of field n acc k :: rest, db) =
    (k (acc ++ collected (field db) n) :: rest, db).
Proof.
  revert acc. induction n as [|n IH]; intros acc; [by rewrite app_nil_r|].
  cbn [replicate collect_task collected]. rewrite run_schedule_cons.
  unfold step. cbn [fst snd lookup list_lookup read]. cbn [insert list_insert].
  rewrite IH. by rewrite (assoc_L (++)).
Qed.

Lemma shard_lookup {V} (m : M V) sh k :
  (list_to_map (filter (fun kv => shard_of kv.1 = sh) (dm_iter m)) : gmap bytes V) !! k =
    if decide (shard_of k = sh) then dm_get m k else None.
Proof.
  assert (NoDup (filter (fun kv : bytes * V => shard_of kv.1 = sh) (dm_iter m)).*1) as Hnd.
  { eapply sublist_NoDup; [apply dm_iter_NoDup|]. apply fmap_sublist, sublist_filter. }
  apply option_eq. intros v. rewrite <- elem_of_list_to_map by done.
  rewrite list_elem_of_filter, dm_iter_get. case_decide; naive_solver.
Qed.

Lemma collected_lookup {V} (m : M V) n k :
  (n <= shards)%nat -> (shard_of k < shards)%nat ->
  (list_to_map (collected m n) : gmap bytes V) !! k =
    if decide (shards - n <= shard_of k)%nat then dm_get m k else None.
Proof.
  intros Hn Hk. induction n as [|n IH].
  - simpl. rewrite lookup_empty, decide_False by lia. done.
  - cbn [collected]. rewrite list_to_map_app, lookup_union, shard_lookup, IH by lia.
    repeat case_decide; try lia; destruct (dm_get m k); done.
Qed.

Lemma collected_all {V} (m : M V) k :
  (shard_of k < shards)%nat ->
  (list_to_map (collected m shards) : gmap bytes V) !! k = dm_get m k.
Proof. intros Hk. rewrite collected_lookup by lia. by rewrite decide_True by lia. Qed.

(** A snapshot among other tasks. *)
Definition snapshot_pool (jobs : list job) :
    list (task (outcome message reply + gmap bytes RedisObject * gmap bytes Instant)) :=
  snapshot_task shards shard_of (fun snap => Ret (inr snap)) ::
  ((fun j => bind (job_task j) (fun r => Ret (inl r))) <$> jobs).

(** The keys a task may touch. *)
Definition job_keys (j : job) : list bytes :=
  match j with Client _ o => [op_key o] | Purge _ sampled => sampled end.

Lemma confined_frame {A} l k c (p : task A) :
  confined cell l p -> k <> l -> safe (fun db => cell db k = c) (fun _ => True) p.
Proof.
  intros Hp Hne. induction p as [a|f IH] using prog_nested_ind; [by apply safe_ret|].
  inversion Hp as [|? _ Hother Hnext]; subst. apply safe_atomic. intros db Hdb.
  split; [by rewrite Hother|]. by apply IH.
Qed.

Lemma job_frame j k c :
  k ∉ job_keys j -> safe (fun db => cell db k = c) (fun _ => True) (job_task j).
Proof.
  destruct j as [now o|now sampled]; cbn [job_keys job_task].
  - intros Hk%not_elem_of_cons. destruct Hk as [Hk _].
    apply (confined_frame (op_key o)); [apply confined_op|done].
  - intros Hk. apply safe_bind with (fun _ => True); [|by intros; apply safe_ret].
    generalize 0%nat as n. induction sampled as [|k' sampled IH]; intros n; [by apply safe_ret|].
    apply not_elem_of_cons in Hk as [Hne Hk]. cbn [remove_expired_task]. apply safe_read. intros db _.
    generalize (match dm_get (expirations db) k' with Some exp => exp <? now | None => false end).
    intros []; [|by apply IH]. apply safe_update; [|apply safe_update; [|by apply IH]]; cells.
Qed.

(** The residual collection of a map, with [n] shards to come, finds the entry
    of a key that does not change. *)
Lemma collect_safe {V A} (field : DB M -> M V) k (Q : A -> Prop) (I : DB M -> Prop) o
    (cont : list (bytes * V) -> task A) :
  (shard_of k < shards)%nat -> (forall db, I db -> dm_get (field db) k = o) ->
  (forall acc, (list_to_map acc : gmap bytes V) !! k = o -> safe I Q (cont acc)) ->
  safe I Q (collect_task shards shard_of field shards [] cont).
Proof.
  intros Hk HI Hcont.
  assert (forall n acc, (n <= shards)%nat ->
    (list_to_map acc : gmap bytes V) !! k = (if decide (shard_of k < shards - n)%nat then o else None) ->
    safe I Q (collect_task shards shard_of field n acc cont)) as Hn.
  { induction n as [|n IH]; intros acc Hle Hacc; cbn [collect_task].
    - apply Hcont. rewrite Hacc. by rewrite decide_True by lia.
    - apply safe_read. intros db Hdb. apply IH; [lia|].
      rewrite list_to_map_app, lookup_union, Hacc, shard_lookup, (HI db Hdb).
      repeat case_decide; try lia; by destruct o. }
  apply Hn; [done|]. by rewrite decide_False by lia.
Qed.

Lemma snapshot_safe {A} (Q : A -> Prop) (cont : _ -> task A) k c :
  (shard_of k < shards)%nat ->
  (forall snap, snap.1 !! k = c.1 /\ snap.2 !! k = c.2 ->
     safe (fun db => cell db k = c) Q (cont snap)) ->
  safe (fun db => cell db k = c) Q (snapshot_task shards shard_of cont).
Proof.
  intros Hk Hcont. unfold snapshot_task. apply (collect_safe data k _ _ c.1); [done|by intros db <-|].
  intros acc1 H1'. apply (collect_safe expirations k _ _ c.2); [done|by intros db <-|].
  intros acc2 H2'. by apply Hcont.
Qed.
End Snapshot.

(** ** Live keys *)

(** What a read of a key with value [v] that is alive returns. *)
Definition read_reply (v : RedisObject) (o : op) : outcome message reply :=
  match o with
  | OpGet _ => Ok (Value v)
  | OpLRange _ a b =>
      match v with
      | RedisObject.List l => let? vals := select_range l a b in Ok (Value (RedisObject.List vals))
      | RedisObject.String _ => Err err_not_list_range
      end
  | _ => Ok Done
  end.

Definition is_read (o : op) : bool :=
  match o with OpGet _ | OpLRange _ _ _ => true | _ => false end.

(** The task does not write [k] before time [t]. *)
Definition only_reads (t : Instant) (k : bytes) (j : job) : Prop :=
  match j with
  | Client now o => op_key o = k -> now <= t /\ is_read o = true
  | Purge now _ => now <= t
  end.

Lemma live_cell t db k v :
  live t (view db) k = Some v -> exists e, cell db k = (Some v, e) /\ past t e = false.
Proof.
  unfold live, view, cell. destruct (dm_get (data db) k) as [v'|]; [|done].
  destruct (past t (dm_get (expirations db) k)) eqn:Hp; [done|]. intros [= ->]. by eexists.
Qed.

Lemma past_mono now t e : now <= t -> past t e = false -> past now e = false.
Proof. destruct e as [e|]; [|done]. cbn [past]. rewrite !Z.ltb_ge. lia. Qed.

Section Live.
Context (t : Instant) (k : bytes) (v : RedisObject) (e : option Instant) (alive : past t e = false).
Notation unchanged := (fun db => cell db k = (Some v, e)).

Lemma expire_lazily_live {A} (Q : A -> Prop) now expired live :
  now <= t -> safe unchanged Q live -> safe unchanged Q (expire_lazily_task now k expired live).
Proof.
  intros Hnow Hl. apply safe_read. intros db [= _ He]. unfold is_expired. rewrite He.
  pose proof (past_mono now t e Hnow alive) as Hp. destruct e as [x|]; [|done].
  cbn [past] in Hp. by rewrite Hp.
Qed.

Lemma read_live now o :
  now <= t -> op_key o = k -> is_read o = true ->
  safe unchanged (fun r => r = read_reply v o) (op_task now o).
Proof.
  intros Hnow Ho Hr. destruct o; try discriminate Hr; cbn [op_task op_key] in *; rewrite Ho;
    unfold value_task.
  - apply safe_bind with (fun r => r = Ok v); [|intros r ->; by apply safe_ret].
    apply expire_lazily_live; [done|]. apply safe_read. intros db [= -> _]. by apply safe_ret.
  - apply safe_bind with (fun r => (let? u := r in Ok (Value u)) = read_reply v (OpLRange k start stop));
      [|intros r Hv; by apply safe_ret].
    apply expire_lazily_live; [done|]. apply safe_read. intros db [= -> _].
    destruct v; apply safe_ret; [done|]. simpl. by destruct (select_range _ _ _).
Qed.

Lemma purge_live now sampled n :
  now <= t -> safe unchanged (fun _ => True) (remove_expired_task now sampled n).
Proof.
  intros Hnow. revert n. induction sampled as [|k' sampled IH]; intros n; [by apply safe_ret|].
  cbn [remove_expired_task]. apply safe_read. intros db [= _ He].
  destruct (decide (k' = k)) as [->|Hne].
  - rewrite He. pose proof (past_mono now t e Hnow alive) as Hp. destruct e as [x|]; [|apply IH].
    cbn [past] in Hp. rewrite Hp. apply IH.
  - generalize (match dm_get (expirations db) k' with Some exp => exp <? now | None => false end).
    intros []; [|apply IH]. apply safe_update; [|apply safe_update; [|by apply IH]]; cells.
Qed.

Lemma only_reads_safe j :
  only_reads t k j ->
  safe unchanged
    (fun r => forall now o, j = Client now o -> op_key o = k -> r = read_reply v o) (job_task j).
Proof.
  destruct j as [now o|now sampled]; cbn [only_reads job_task]; intros Hj.
  - destruct (decide (op_key o = k)) as [Ho|Hne].
    + destruct (Hj Ho) as [Hnow Hr]. eapply safe_weaken; [|by apply (read_live now)].
      by intros r -> ?? [= <- <-].
    + eapply safe_weaken; [|apply (confined_frame (op_key o)); [apply confined_op|done]].
      by intros r _ ?? [= <- <-].
  - apply safe_bind with (fun _ => True); [by apply purge_live|]. intros. by apply safe_ret.
Qed.
End Live.

(** ** Properties *)

(** C10: operations on different keys do not interfere. In every interleaving of
    any number of operations on pairwise different keys that runs to its end,
    every operation returns the reply, and the database is in the state, of the
    operations run one after the other. *)
Theorem disjoint_keys_serializable tr sched db pool' db' rs :
  NoDup ((fun to => op_key to.2) <$> tr) ->
  run_schedule sched ((fun to => op_task to.1 to.2) <$> tr, db) = (pool', db') ->
  finished pool' rs ->
  rs = (db_run tr db).1 /\
  dm_equiv (data db') (data (db_run tr db).2) /\
  dm_equiv (expirations db') (expirations (db_run tr db).2).
Proof.
  intros Hnd Hs Hfin. unfold finished in Hfin. subst pool'.
  destruct (db_run_disjoint tr db Hnd) as (Hrs & Hin & Hout).
  assert (Forall2 (confined cell) ((fun to => op_key to.2) <$> tr)
            ((fun to => op_task to.1 to.2) <$> tr)) as Hconf.
  { apply Forall2_fmap, Forall_Forall2_diag, Forall_true. intros to. apply confined_op. }
  destruct (confined_solo cell sched _ _ db _ db' Hnd Hconf Hs) as [Hsolo Hother].
  assert (forall i now o, tr !! i = Some (now, o) -> exists r,
    rs !! i = Some r /\ r = (db_exec now o db).1 /\
    cell db' (op_key o) = cell (db_exec now o db).2 (op_key o)) as Hi.
  { intros i now o Hi. destruct (Hsolo i (op_key o) (op_task now o)) as [Hp Hc];
      [by rewrite list_lookup_fmap, Hi..|].
    rewrite list_lookup_fmap in Hp. destruct (rs !! i) as [r|]; [|done]. injection Hp as Hp.
    symmetry in Hp. apply solo_run in Hp. rewrite run_op_task in Hp. exists r. by rewrite Hp. }
  assert (length rs = length tr) as Hlen.
  { pose proof (length_run_schedule sched ((fun to => op_task to.1 to.2) <$> tr, db)) as Hl.
    rewrite Hs in Hl. cbn [fst] in Hl. by rewrite !length_fmap in Hl. }
  assert (forall k, cell db' k = cell (db_run tr db).2 k) as Hcell.
  { intros k. destruct (decide (k ∈ ((fun to => op_key to.2) <$> tr))) as [Hk|Hk].
    - apply list_elem_of_fmap in Hk as ([now o] & -> & Hk). cbn [snd].
      rewrite (Hin now o Hk).
      apply list_elem_of_lookup in Hk as [i Hk]. by destruct (Hi i now o Hk) as (r & _ & _ & Hc).
    - by rewrite Hother, Hout. }
  split_and!.
  - rewrite Hrs. apply list_eq. intros i. rewrite list_lookup_fmap.
    destruct (tr !! i) as [[now o]|] eqn:Ht.
    + by destruct (Hi i now o Ht) as (r & -> & -> & _).
    + apply lookup_ge_None. apply lookup_ge_None in Ht. lia.
  - intros k. by injection (Hcell k).
  - intros k. by injection (Hcell k).
Qed.

(** C14: a live key that nobody writes is read consistently. Take a key that is
    alive until [t], and tasks of which none writes it: any operations on other
    keys, GET and LRANGE of the key, and expiration passes over any sample, with
    clocks up to [t]. In every interleaving of their accesses, also while they
    are under way, the key keeps its value and its expiry; every GET of it
    returns the value, and every LRANGE the range of the list that Redis
    documents (for the indices of [lrange_selects_range]). *)
Theorem live_key_read_consistently jobs sched db pool' db' k v t :
  live t (view db) k = Some v -> Forall (only_reads t k) jobs ->
  run_schedule sched (job_task <$> jobs, db) = (pool', db') ->
  dm_get (data db') k = Some v /\ dm_get (expirations db') k = dm_get (expirations db) k /\
  (forall i now r,
     jobs !! i = Some (Client now (OpGet k)) -> pool' !! i = Some (Ret r) -> r = Ok (Value v)) /\
  (forall i now l a b r,
     v = RedisObject.List l -> len l <= i32_max -> is_i32 a -> is_i32 b -> - len l <= a -> - len l <= b ->
     jobs !! i = Some (Client now (OpLRange k a b)) -> pool' !! i = Some (Ret r) ->
     r = Ok (Value (RedisObject.List (redis_range l a b)))).
Proof.
  intros Hlive Hj Hs. destruct (live_cell t db k v Hlive) as (e & Hc & He).
  set (Q := fun (i : nat) r => forall now o, jobs !! i = Some (Client now o) -> op_key o = k -> r = read_reply v o).
  assert (forall i p, (job_task <$> jobs) !! i = Some p -> safe (fun db => cell db k = (Some v, e)) (Q i) p)
    as Hsafe.
  { intros i p. rewrite list_lookup_fmap. destruct (jobs !! i) as [j|] eqn:Hi; [|done]. intros [= <-].
    eapply safe_weaken; [|by apply (only_reads_safe t k v e), (Forall_lookup_1 _ _ _ _ Hj Hi)].
    intros r Hr now o Hi' Ho. simplify_eq. by eapply Hr. }
  destruct (pool_safe _ Q _ _ _ _ _ Hc Hsafe Hs) as [[= Hd He'] _].
  assert (forall i now o r, jobs !! i = Some (Client now o) -> op_key o = k ->
    pool' !! i = Some (Ret r) -> r = read_reply v o) as Hres.
  { intros i now o r Hi Ho Hp. exact (pool_safe_result _ Q _ _ _ _ _ i r Hc Hsafe Hs Hp now o Hi Ho). }
  split_and!; [done|by injection Hc as _ ->|..].
  { intros i now r Hi Hp. exact (Hres i now (OpGet k) r Hi eq_refl Hp). }
  intros i now l a b r -> Hl Ha Hb Ha' Hb' Hi Hp. rewrite (Hres i now (OpLRange k a b) r) by done.
  simpl. by rewrite select_range_redis.
Qed.

(** C15: a snapshot is exact for the keys that do not change. Whatever other
    tasks do while a snapshot is collected shard by shard, for every key that
    none of them touches it holds the value and the expiry time of the key. *)
Theorem snapshot_exact_on_quiet_keys shards shard_of jobs sched db pool' db' snap k :
  (forall k, shard_of k < shards)%nat -> Forall (fun j => k ∉ job_keys j) jobs ->
  run_schedule sched (snapshot_pool shards shard_of jobs, db) = (pool', db') ->
  pool' !! 0%nat = Some (Ret (inr snap)) ->
  snap.1 !! k = dm_get (data db) k /\ snap.2 !! k = dm_get (expirations db) k.
Proof.
  intros Hsh Hj Hs Hp.
  set (Q := fun (i : nat) (r : outcome message reply + gmap bytes RedisObject * gmap bytes Instant) =>
    match i, r with O, inr snap => snap.1 !! k = (cell db k).1 /\ snap.2 !! k = (cell db k).2
                  | _, _ => True end).
  apply (pool_safe_result (fun db' => cell db' k = cell db k) Q sched _ db _ db' 0 (inr snap))
    with (3 := Hs) (4 := Hp); [done|].
  intros [|i] p.
  - intros [= <-]. apply snapshot_safe; [done|]. intros sn Hsn. by apply safe_ret.
  - unfold snapshot_pool. rewrite lookup_cons, list_lookup_fmap. destruct (jobs !! i) as [j|] eqn:Hi; [|done].
    intros [= <-]. eapply safe_bind; [apply job_frame; exact (Forall_lookup_1 _ _ _ _ Hj Hi)|].
    intros r _. by apply safe_ret.
Qed.

(** C39: a snapshot is not taken at a point in time. When a key with an expiry is
    deleted between the collection of the values and that of the expiry times,
    the snapshot holds the key, without its expiry: a state the database was
    never in, in which a key that was about to expire lives for ever. *)
Theorem snapshot_resurrects_key shards shard_of db now k v e :
  (forall k, shard_of k < shards)%nat ->
  dm_get (data db) k = Some v -> dm_get (expirations db) k = Some e ->
  exists sched db' snap,
    run_schedule sched (snapshot_pool shards shard_of [Client now (OpDelete k)], db) =
      ([Ret (inr snap); Ret (inl (Ok Done))], db') /\
    dm_get (data db') k = None /\
    snap.1 !! k = Some v /\ snap.2 !! k = None.
Proof.
  intros Hsh Hd He.
  exists (replicate shards 0%nat ++ [1; 1]%nat ++ replicate shards 0%nat).
  unfold snapshot_pool, snapshot_task. rewrite !run_schedule_app, run_schedule_collect.
  rewrite !run_schedule_cons. cbn. rewrite run_schedule_collect.
  do 2 eexists. split; [done|]. cbn [fst snd data expirations with_data with_expirations app].
  rewrite !collected_all by done. simpl. rewrite !dm_get_remove. case_decide; [auto|done].
Qed.

(** Runs a schedule over a pool of known tasks, by the results [Hs] of their
    reads. *)
Ltac run_tasks :=
  cbv [run_schedule foldl step lookup list_lookup insert list_insert fmap list_fmap fst snd
       op_task job_task done_task value_task bind set_task get_task delete_task expire_task
       rpush_task push_task expire_lazily_task update_expiry_task remove_expired_task read update
       data_insert data_remove expirations_insert expirations_remove
       is_expired data expirations with_data with_expirations].

(** C37: an acknowledged SET can be lost. When the key has expired, a GET of it,
    or a pass of the expiration task over it, that found it expired before the
    SET removes the new value after it: both tasks succeed and the key is gone,
    though in either order of the two, the SET with the same expiry, it has the
    new value. *)
Theorem set_lost_to_expiration db k v ex e now remover :
  dm_get (expirations db) k = Some e -> e < now -> past now ex = false ->
  remover = Client now (OpGet k) \/ remover = Purge now [k] ->
  let setter := Client now (OpSet k v ex) in
  (exists sched db' r,
     run_schedule sched ([job_task remover; job_task setter], db) =
       ([Ret (Ok r); Ret (Ok Done)], db') /\ dm_get (data db') k = None) /\
  dm_get (data (run (job_task setter) (run (job_task remover) db).2).2) k = Some v /\
  dm_get (data (run (job_task remover) (run (job_task setter) db).2).2) k = Some v.
Proof.
  intros He Hlt Hex Hrem setter. apply Z.ltb_lt in Hlt. destruct db as [d x]. cbn [expirations] in He.
  assert (forall r, (remover = Client now (OpGet k) /\ r = Value nil_object) \/
                    (remover = Purge now [k] /\ r = Done) ->
    exists sched db',
      run_schedule sched ([job_task remover; job_task setter], mkDB d x) =
        ([Ret (Ok r); Ret (Ok Done)], db') /\ dm_get (data db') k = None) as Hrace.
  { intros r Hr. exists [0; 1; 1; 1; 0; 0]%nat. unfold setter.
    destruct Hr as [[-> ->]|[-> ->]]; run_tasks; rewrite He, Hlt; destruct ex;
      (eexists; split; [done|]); cbn [data]; by rewrite dm_get_remove, decide_True. }
  split_and!.
  - destruct Hrem as [->| ->]; edestruct Hrace as (sched & db' & Hs); eauto.
  - unfold setter. destruct Hrem as [->| ->]; run_tasks; cbv [run]; rewrite He, Hlt; destruct ex;
      cbn [data]; by rewrite dm_get_insert, decide_True.
  - unfold setter. destruct Hrem as [->| ->]; run_tasks; cbv [run]; destruct ex as [t|]; cbn [past] in Hex;
      repeat (rewrite ?dm_get_insert, ?dm_get_remove, ?decide_True, ?Hex by done; cbn [data]); done.
Qed.

(** C38: the accesses of one operation can be split by another on the same key.
    EXPIRE and DELETE can leave an expiry without a value, and the next list
    pushed to the key then dies with it; two RPUSH of a new key can keep the
    items of one only. All of them succeed. *)
Theorem same_key_races db k v t a b now :
  (dm_get (data db) k = Some v ->
   exists sched db',
     run_schedule sched ([op_task now (OpExpire k t None); op_task now (OpDelete k)], db) =
       ([Ret (Ok Done); Ret (Ok Done)], db') /\
     ~ db_wf db' /\
     (db_exec now (OpRPush k a) db').1 = Ok Done /\
     forall later, t < later -> live later (view (db_exec now (OpRPush k a) db').2) k = None) /\
  (dm_get (data db) k = None ->
   exists sched db',
     run_schedule sched ([op_task now (OpRPush k a); op_task now (OpRPush k b)], db) =
       ([Ret (Ok Done); Ret (Ok Done)], db') /\
     dm_get (data db') k = Some (RedisObject.List b)).
Proof.
  destruct db as [d x]. cbn [data]. split.
  - intros Hd. exists [0; 1; 1; 0]%nat. run_tasks. rewrite dm_contains_key_get, Hd.
    rewrite bool_decide_true by (by eexists). cbn [negb]. eexists. split; [done|].
    set (db' := mkDB _ _).
    assert (dm_get (data db') k = None) as Hnone by (simpl; by rewrite dm_get_remove, decide_True).
    assert (dm_get (expirations db') k = Some t) as Ht by (simpl; by rewrite dm_get_insert, decide_True).
    clearbody db'. split_and!.
    + intros Hwf. destruct (Hwf k); [by eexists|congruence].
    + simpl. unfold rpush. by rewrite dm_get_mut_None.
    + intros later Hl. simpl. unfold rpush. rewrite dm_get_mut_None by done.
      unfold live, view. simpl. rewrite dm_get_insert, decide_True, Ht by done. simpl.
      by rewrite (proj2 (Z.ltb_lt t later)).
  - intros Hd. exists [0; 1; 0; 1]%nat. run_tasks. rewrite (dm_get_mut_None _ _ _ Hd). run_tasks.
    rewrite ?(dm_get_mut_None _ _ _ Hd). run_tasks. eexists. split; [done|]. cbn [data]. by rewrite dm_get_insert, decide_True.
Qed.
End Spec.

(** ** Witnesses *)

Module ConcurrencyWitness.
Import DatabaseWitness.

Definition tr : list (Instant * op) :=
  [(200, OpGet (bs "l")); (200, OpSet (bs "n") (str (bs "v")) (Some 300));
   (200, OpRPush (bs "m") [str (bs "w")])].

(** The three operations with their accesses interleaved. *)
Definition interleaved : list nat := [0; 1; 2; 1; 0; 2; 1; 0]%nat.

Lemma disjoint_keys_witness :
  (db_run tr db0).1 = [Ok (Value nil_object); Ok Done; Ok Done].
Proof.
  destruct (run_schedule interleaved ((fun to => op_task to.1 to.2) <$> tr, db0)) as [pool' db'] eqn:E.
  assert (finished pool' [Ok (Value nil_object); Ok Done; Ok Done]) as Hf.
  { change pool' with ((pool', db').1). rewrite <- E. vm_compute. reflexivity. }
  destruct (disjoint_keys_serializable tr interleaved db0 pool' db'
              [Ok (Value nil_object); Ok Done; Ok Done]) as [Hrs _].
  - apply (bool_decide_unpack _). by vm_compute.
  - exact E.
  - exact Hf.
  - symmetry. exact Hrs.
Defined.

Lemma db0_data k v :
  dm_get (data db0) k = Some v ->
  (k, v) = (bs "l", RedisObject.List [str (bs "a"); str (bs "b"); str (bs "c")]) \/
  (k, v) = (bs "s", str (bs "x")).
Proof. unfold db0. simpl. rewrite !lookup_insert_Some, lookup_empty. naive_solver. Qed.

(** A read of [s] while [l] is purged and pushed to. *)
Lemma live_key_witness :
  let c := run_schedule [0; 1; 2; 0; 2; 1; 0; 1]%nat
    (job_task <$> [Purge 200 [bs "l"; bs "s"]; Client 200 (OpLPush (bs "l") [str (bs "d")]);
                   Client 200 (OpGet (bs "s"))], db0) in
  c.1 !! 2%nat = Some (Ret (Ok (Value (str (bs "x"))))) /\ dm_get (data c.2) (bs "s") = Some (str (bs "x")).
Proof.
  intros c. unfold c. clear c. destruct (run_schedule _ _) as [pool' db'] eqn:E.
  assert (exists r, pool' !! 2%nat = Some (Ret r)) as [r Hr].
  { change pool' with ((pool', db').1). rewrite <- E. by eexists. }
  destruct (live_key_read_consistently
              [Purge 200 [bs "l"; bs "s"]; Client 200 (OpLPush (bs "l") [str (bs "d")]);
               Client 200 (OpGet (bs "s"))]
              [0; 1; 2; 0; 2; 1; 0; 1]%nat db0 pool' db' (bs "s") (str (bs "x")) 200)
    as (Hd & _ & Hg & _).
  - by vm_compute.
  - repeat constructor; by vm_compute.
  - exact E.
  - cbn [fst snd]. rewrite Hr. split; [|exact Hd]. do 2 f_equal. exact (Hg 2%nat 200 r eq_refl Hr).
Defined.

Definition one_shard (k : bytes) : nat := 0.

Lemma snapshot_exact_witness :
  exists snap,
    (run_schedule [0; 1; 1; 0]%nat
       (snapshot_pool 1 one_shard [Client 200 (OpDelete (bs "l"))], db0)).1 !! 0%nat =
      Some (Ret (inr snap)) /\
    snap.1 !! bs "s" = Some (str (bs "x")) /\ snap.2 !! bs "s" = None.
Proof.
  destruct (run_schedule [0; 1; 1; 0]%nat (snapshot_pool 1 one_shard [Client 200 (OpDelete (bs "l"))], db0))
    as [pool' db'] eqn:E.
  assert (exists snap, pool' !! 0%nat = Some (Ret (inr snap))) as [snap Hsnap].
  { change pool' with ((pool', db').1). rewrite <- E. by eexists. }
  destruct (snapshot_exact_on_quiet_keys 1 one_shard [Client 200 (OpDelete (bs "l"))]
              [0; 1; 1; 0]%nat db0 pool' db' snap (bs "s")) as [Hd He].
  - intros k. unfold one_shard. lia.
  - repeat constructor. apply (bool_decide_unpack _). by vm_compute.
  - exact E.
  - exact Hsnap.
  - exists snap. split_and!; [exact Hsnap|rewrite Hd; by vm_compute|rewrite He; by vm_compute].
Defined.

Lemma snapshot_resurrects_witness :
  exists sched db' snap,
    run_schedule sched (snapshot_pool 1 one_shard [Client 50 (OpDelete (bs "l"))], db0) =
      ([Ret (inr snap); Ret (inl (Ok Done))], db') /\
    dm_get (data db') (bs "l") = None /\
    snap.1 !! bs "l" = Some (RedisObject.List [str (bs "a"); str (bs "b"); str (bs "c")]) /\
    snap.2 !! bs "l" = None.
Proof.
  apply (snapshot_resurrects_key 1 one_shard db0 50 (bs "l")
           (RedisObject.List [str (bs "a"); str (bs "b"); str (bs "c")]) 100).
  - intros k. unfold one_shard. lia.
  - by vm_compute.
  - by vm_compute.
Defined.

Lemma set_lost_witness :
  exists sched db' r,
    run_schedule sched
      ([job_task (Purge 200 [bs "l"]); job_task (Client 200 (OpSet (bs "l") (str (bs "v")) (Some 300)))], db0) =
      ([Ret (Ok r); Ret (Ok Done)], db') /\ dm_get (data db') (bs "l") = None.
Proof.
  apply (set_lost_to_expiration db0 (bs "l") (str (bs "v")) (Some 300) 100 200 (Purge 200 [bs "l"]));
    [by vm_compute|lia|done|by right].
Defined.

Lemma same_key_races_witness :
  exists sched db',
    run_schedule sched
      ([op_task 1 (OpRPush (bs "n") [str (bs "a")]); op_task 1 (OpRPush (bs "n") [str (bs "b")])], db0) =
      ([Ret (Ok Done); Ret (Ok Done)], db') /\
    dm_get (data db') (bs "n") = Some (RedisObject.List [str (bs "b")]).
Proof.
  apply (same_key_races db0 (bs "n") (str (bs "v")) 100 [str (bs "a")] [str (bs "b")] 1).
  by vm_compute.
Defined.
End ConcurrencyWitness.
