(* ===== verification/ClientLoop.v ===== *)
(** * The connection loop (src/src/config/client.rs)

    [Client::handle]: reads from the socket into a buffer, and drains the
    complete requests at its front, parsing, extracting, dispatching and
    answering each. Socket options, logging and the capacity of the buffer have
    no effect on what is computed and are not modelled.

    What the socket has at each read is a list of events. A read that is awaited
    and finds nothing suspends the task ([Waiting]); one that is tried returns
    at once, and the turn of the outer loop goes on. The writer is any
    [BufWriter]. One clock reading is taken for the
    extraction of each request. The database is changed by this connection
    only. *)
From S2P Require Import Prelude Ints RespTypes RespParser DashMap Database Command Dispatcher.
Local Open Scope Z_scope.

(** [tokio::io::BufWriter]: a writer with a buffer that can be flushed. *)
Class BufWriter (W : Type) `{AsyncWrite W} : Type := {
  flush : W -> outcome io_error unit * W;
  (** [writer.buffer().is_empty()] *)
  buffer_is_empty : W -> bool
}.

Definition MAX_PIPELINE_DEPTH : nat := Z.to_nat 1000.

(** What the socket has when it is read: bytes (none at the end of the stream),
    nothing yet, or an error. *)
Inductive read_event : Type :=
| Read (b : bytes)
| NotReady
| ReadError (e : io_error).

(** A future that is polled: its value, or nothing yet, which suspends the task
    that awaits it. *)
Inductive poll (A : Type) : Type :=
| Ready (a : A)
| Pending.
Arguments Ready {A} a.
Arguments Pending {A}.

(** [reader.read_buf(&mut buf)], which is awaited, and
    [reader.try_read_buf(&mut buf)], which is not: the bytes put into the
    buffer. *)
Definition read_buf (ev : read_event) : poll (outcome io_error bytes) :=
  match ev with
  | Read b => Ready (Ok b)
  | NotReady => Pending
  | ReadError e => Ready (Err e)
  end.

Definition try_read_buf (ev : read_event) : outcome io_error bytes :=
  match ev with
  | Read b => Ok b
  | NotReady => Err WouldBlock
  | ReadError e => Err e
  end.

(** How the inner loop ends: by [break], by [break 'outer], by [return], or by
    a panic of the task. *)
Inductive drain_exit : Type :=
| Drained (made_progress : bool)
| BreakOuter
| Returned
| DrainPanic (p : panic)
| DrainDiverge.

(** Where the task is: between two turns of the outer loop, suspended in the
    awaited read, or at its end. *)
Inductive status : Type :=
| Open
| Waiting
| Closed
| Crashed (p : panic)
| Diverged.

Record connection (M : Type -> Type) (W : Type) : Type := mkConnection {
  c_buf : bytes;
  c_client : Client;
  c_world : world M;
  c_writer : W
}.
Arguments mkConnection {M W} c_buf c_client c_world c_writer.
Arguments c_buf {M W} c.
Arguments c_client {M W} c.
Arguments c_world {M W} c.
Arguments c_writer {M W} c.

Section Loop.
Context {M : Type -> Type} `{DashMap M} {W : Type} `{BufWriter W}.
Context `{BuildProfile} `{TargetLayout}.
Implicit Types st : connection M W.

Definition with_buf st (buf : bytes) : connection M W :=
  mkConnection buf (c_client st) (c_world st) (c_writer st).
Definition with_writer st (w : W) : connection M W :=
  mkConnection (c_buf st) (c_client st) (c_world st) w.
Definition with_state st (client : Client) (w : world M) : connection M W :=
  mkConnection (c_buf st) client w (c_writer st).

(** [r.write_to(&mut writer).await] *)
Definition send (r : RespType) st : outcome io_error unit * connection M W :=
  let '(o, w) := write_to r (c_writer st) in (o, with_writer st w).

(** [writer.flush().await] *)
Definition flush_writer st : outcome io_error unit * connection M W :=
  let '(o, w) := flush (c_writer st) in (o, with_writer st w).

(** [buf.advance(n)] *)
Definition advance (n : Z) (buf : bytes) : option bytes :=
  if n <=? len buf then Some (drop (Z.to_nat n) buf) else None.

(** The inner loop. Every turn that continues takes a byte of the buffer, so
    its length plus one is enough fuel. *)
Fixpoint drain (fuel : nat) (pipeline_count : nat) (made_progress : bool) st :
    drain_exit * connection M W :=
  match fuel with
  | O => (DrainDiverge, st)
  | S fuel =>
      if decide (c_buf st = []) then (Drained made_progress, st)
      else
        match parse (c_buf st) with
        | Err Incomplete => (Drained made_progress, st)
        | Err (Invalid msg) =>
            let '(_, st) := send (SimpleError msg) st in
            let '(_, st) := flush_writer st in
            (Drained made_progress, with_buf st [])
        | Panic p => (DrainPanic p, st)
        | Diverge => (DrainDiverge, st)
        | Ok (resp, consumed) =>
            match advance consumed (c_buf st) with
            | None => (DrainPanic SliceOutOfRange, st)
            | Some buf =>
                let st := with_buf st buf in
                let pipeline_count := S pipeline_count in
                let t := now (c_world st) in
                let st := with_state st (c_client st) (tick (c_world st)) in
                match extract_command t resp with
                | Err e =>
                    let '(_, st) := send (SimpleError e) st in
                    drain fuel pipeline_count true st
                | Panic p => (DrainPanic p, st)
                | Diverge => (DrainDiverge, st)
                | Ok cmd =>
                    let '(res, (client, w)) := dispatch (c_client st) (c_world st) cmd in
                    let st := with_state st client w in
                    match res with
                    | Err e =>
                        let '(_, st) := send (SimpleError e) st in
                        drain fuel pipeline_count true st
                    | Panic p => (DrainPanic p, st)
                    | Diverge => (DrainDiverge, st)
                    | Ok res =>
                        match send res st with
                        | (Ok _, st) =>
                            if (MAX_PIPELINE_DEPTH <=? pipeline_count)%nat then
                              match flush_writer st with
                              | (Ok _, st) => drain fuel 0 true st
                              | (_, st) => (BreakOuter, st)
                              end
                            else drain fuel pipeline_count true st
                        | (_, st) => (Returned, st)
                        end
                    end
                end
            end
        end
  end.

(** [break 'outer], then the flush after the loop. *)
Definition finish st : status * connection M W :=
  let '(_, st) := flush_writer st in (Closed, st).

(** A turn of the outer loop after its read. *)
Definition process st : status * connection M W :=
  match drain (S (length (c_buf st))) 0 false st with
  | (Drained made_progress, st) =>
      if made_progress && negb (buffer_is_empty (c_writer st)) then
        match flush_writer st with
        | (Ok _, st) => (Open, st)
        | (_, st) => (Closed, st)
        end
      else (Open, st)
  | (BreakOuter, st) => finish st
  | (Returned, st) => (Closed, st)
  | (DrainPanic p, st) => (Crashed p, st)
  | (DrainDiverge, st) => (Diverged, st)
  end.

(** A turn of the outer loop. With an empty buffer the read is awaited, so
    nothing happens until the socket is ready; otherwise it is tried, and a
    socket that has nothing does not stop the turn. *)
Definition handle_turn (ev : read_event) st : status * connection M W :=
  if decide (c_buf st = []) then
    match read_buf ev with
    | Pending => (Waiting, st)
    | Ready (Ok []) => finish st
    | Ready (Ok b) => process (with_buf st (c_buf st ++ b))
    | Ready _ => finish st
    end
  else
    match try_read_buf ev with
    | Ok [] => finish st
    | Ok b => process (with_buf st (c_buf st ++ b))
    | Err WouldBlock => process st
    | _ => finish st
    end.

(** [Client::handle] on the events of its socket so far, [Open] as long as the
    task has not ended. *)
Fixpoint handle_events (events : list read_event) st : status * connection M W :=
  match events with
  | [] => (Open, st)
  | ev :: events =>
      match handle_turn ev st with
      | (Open, st) | (Waiting, st) => handle_events events st
      | r => r
      end
  end.

Definition handle (events : list read_event) (w : world M) (writer : W) :
    status * connection M W :=
  handle_events events (mkConnection [] Client_new w writer).
End Loop.
