(* ===== verification/ClientLoopSpec.v ===== *)
(** * What the connection loop guarantees

    The requests of a byte stream and the replies to them, one after the other,
    as the reference; the loop computes them however the network cuts the
    stream into reads and however requests are pipelined, and sends every reply
    before it waits for more. Then what it does with a request that has only
    partly arrived, and with input that is no request. *)
From S2P Require Import Prelude Ints Utf8 RespTypes RespParser RespParserFacts RespSpec.
From S2P Require Import DashMap Database DatabaseSpec Command Dispatcher DispatcherSpec ClientLoop.
Local Open Scope Z_scope.

(** ** Extraction returns *)

Lemma index_no_diverge {E A} (l : list A) i : @index E A l i <> Diverge.
Proof. unfold index. by case_match. Qed.

Lemma time_add_no_diverge {E} t d : @time_add E t d <> Diverge.
Proof. unfold time_add. by case_match. Qed.

Lemma extract_command_no_diverge `{BuildProfile} t r : extract_command t r <> Diverge.
Proof.
  unfold extract_command, parse_command, parse_keyed, parse_set, parse_lrange, parse_expire,
    expiry_instant, i32_mul, arith_result.
  repeat first
    [ done
    | apply index_no_diverge
    | apply time_add_no_diverge
    | apply obind_no_diverge; [|intros ?]
    | case_match ].
Qed.

(** ** The loop returns, over any writer *)

Section Total.
Context {M : Type -> Type} `{DashMapLaws M} {W : Type} `{BufWriter W}.
Context `{BuildProfile} `{TargetLayout}.
Implicit Types st : connection M W.

Lemma send_frame r st o st' :
  send r st = (o, st') -> c_buf st' = c_buf st /\ c_client st' = c_client st.
Proof. unfold send. destruct (write_to r (c_writer st)). by intros [= _ <-]. Qed.

Lemma flush_frame st o st' :
  flush_writer st = (o, st') -> c_buf st' = c_buf st /\ c_client st' = c_client st.
Proof. unfold flush_writer. destruct (flush (c_writer st)). by intros [= _ <-]. Qed.

Definition returns (r : drain_exit * connection M W) : Prop :=
  r.1 <> DrainDiverge /\ client_wf (c_client r.2).

Lemma drain_returns fuel count made st :
  client_wf (c_client st) -> (length (c_buf st) < fuel)%nat -> returns (drain fuel count made st).
Proof.
  revert count made st. induction fuel as [|fuel IH]; intros count made st Hc Hf; [lia|].
  cbn [drain]. case_decide as Hne; [done|].
  destruct (parse (c_buf st)) as [[r n]|[|msg]| |] eqn:Hp;
    [|done| |done|by apply parse_no_diverge in Hp].
  2: { destruct (send _ st) as [o1 st1] eqn:E1. destruct (flush_writer st1) as [o2 st2] eqn:E2.
       apply send_frame in E1 as [_ E1]. apply flush_frame in E2 as [_ E2].
       split; [done|]. simpl. congruence. }
  pose proof (parse_bounded _ _ _ Hp) as Hb. unfold advance.
  rewrite (proj2 (Z.leb_le n _)) by lia. cbn [with_buf with_state c_buf c_client c_world c_writer].
  assert (length (drop (Z.to_nat n) (c_buf st)) < fuel)%nat as Hlen
    by (rewrite length_drop; unfold len in Hb; lia).
  assert (forall o st1 rep count' w1 c1, client_wf c1 ->
    send rep (mkConnection (drop (Z.to_nat n) (c_buf st)) c1 w1 (c_writer st)) = (o, st1) ->
    returns (drain fuel count' true st1)) as Hcont.
  { intros o st1 rep count' w1 c1 Hc1 [E1 E2]%send_frame. simpl in *. apply IH; congruence. }
  pose proof (extract_command_no_diverge (now (c_world st)) r) as Hx.
  destruct (extract_command (now (c_world st)) r) as [cmd|e| |]; [|case_match; eauto|done|done].
  destruct (dispatch _ _ cmd) as [res [c1 w1]] eqn:Hd.
  apply dispatch_wf in Hd as [Hc1 Hres]; [|done].
  destruct res as [res|e| |]; [|case_match; eauto|done|done]. unfold with_state. simpl.
  destruct (send res _) as [o st1] eqn:Es.
  destruct o; [|by apply send_frame in Es as [_ Es]; split; simpl; [|rewrite Es]..].
  case_match; [|eauto].
  destruct (flush_writer st1) as [o st2] eqn:Ef. apply flush_frame in Ef as [Ef1 Ef2].
  apply send_frame in Es as [Es1 Es2]. simpl in *.
  destruct o; [apply IH; congruence|split; simpl; [done|congruence]..].
Qed.

(** The two reads put the same bytes into the buffer. *)
Lemma handle_turn_read b st :
  b <> [] -> handle_turn (Read b) st = process (with_buf st (c_buf st ++ b)).
Proof. unfold handle_turn. destruct b; [done|]. by case_decide. Qed.

Lemma handle_turn_returns ev st :
  client_wf (c_client st) ->
  (handle_turn ev st).1 <> Diverged /\ client_wf (c_client (handle_turn ev st).2).
Proof.
  intros Hc. assert (forall st', c_client st' = c_client st ->
    (finish st').1 <> Diverged /\ client_wf (c_client (finish st').2)) as Hfin.
  { intros st' E. unfold finish. destruct (flush_writer st') as [o st2] eqn:Ef.
    apply flush_frame in Ef as [_ Ef]. split; [done|]. simpl. congruence. }
  assert (forall st', c_client st' = c_client st ->
    (process st').1 <> Diverged /\ client_wf (c_client (process st').2)) as Hproc.
  { intros st' E. unfold process.
    destruct (drain_returns (S (length (c_buf st'))) 0 false st') as [Hd Hw]; [congruence|lia|].
    destruct (drain _ 0 false st') as [[made| | | |] st1]; simpl in *; try done.
    - case_match; [|done]. destruct (flush_writer st1) as [o st2] eqn:Ef.
      apply flush_frame in Ef as [_ Ef]. destruct o; split; simpl; congruence.
    - unfold finish. destruct (flush_writer st1) as [o st2] eqn:Ef.
      apply flush_frame in Ef as [_ Ef]. split; simpl; congruence. }
  unfold handle_turn. case_decide; destruct ev as [[|b0 b]| |[]]; cbn [read_buf try_read_buf]; auto.
Qed.

(** C19: the connection loop returns from every turn, over any writer: on any
    bytes, in any chunks, with read errors and failing writes, the inner loop
    comes to an end, and the transaction state it leaves is well-formed. *)
Theorem handle_returns events (w : world M) (writer : W) :
  (handle events w writer).1 <> Diverged /\ client_wf (c_client (handle events w writer).2).
Proof.
  unfold handle. assert (client_wf (c_client (mkConnection [] Client_new w writer))) as Hc
    by apply Client_new_wf.
  generalize dependent (mkConnection [] Client_new w writer). intros st Hc.
  revert st Hc. induction events as [|ev events IH]; intros st Hc; [done|]. cbn [handle_events].
  pose proof (handle_turn_returns ev st Hc) as [Hd Hw].
  destruct (handle_turn ev st) as [[] st']; simpl in *; auto.
Qed.

(** The status after each event, and the state after all of them. *)
Fixpoint handle_trace (events : list read_event) st : list status * connection M W :=
  match events with
  | [] => ([], st)
  | ev :: events =>
      let '(s, st) := handle_turn ev st in
      let '(trace, st) := handle_trace events st in
      (s :: trace, st)
  end.

Lemma handle_trace_fixed s ev st n :
  handle_turn ev st = (s, st) -> handle_trace (replicate n ev) st = (replicate n s, st).
Proof. intros Ht. induction n as [|n IH]; [done|]. cbn [replicate handle_trace]. by rewrite Ht, IH. Qed.

(** C31: a request that has partly arrived is waited for by polling. As long as
    the socket has nothing new, with part of a request in the buffer the loop
    completes a turn for every look at the socket and is never suspended, and
    each turn leaves everything as it was, the writer included; with an empty
    buffer it is suspended in the awaited read and completes none. *)
Theorem incomplete_request_polls st n :
  c_buf st <> [] -> parse (c_buf st) = Err Incomplete ->
  handle_trace (replicate n NotReady) st = (replicate n Open, st) /\
  handle_trace (replicate n NotReady) (with_buf st []) = (replicate n Waiting, with_buf st []).
Proof.
  intros Hne Hp. split; apply handle_trace_fixed; unfold handle_turn; [|done].
  rewrite decide_False by done. cbn [try_read_buf]. unfold process. cbn [drain].
  by rewrite decide_False, Hp.
Qed.
End Total.

(** ** A connection without faults *)

(** A writer that accepts everything: [sent] are the bytes it was given, and a
    flush leaves its buffer empty. *)
Class ReliableWriter (W : Type) `{BufWriter W} : Type := {
  sent : W -> bytes;
  write_all_sent : forall b w, exists w', write_all b w = (Ok tt, w') /\ sent w' = sent w ++ b;
  flush_sent : forall w, exists w',
    flush w = (Ok tt, w') /\ sent w' = sent w /\ buffer_is_empty w' = true
}.

Section Writer.
Context {W : Type} `{ReliableWriter W}.

#[local] Instance reliable_laws : AsyncWriteLaws W.
Proof. refine {| written := sent |}. intros b w. left. apply write_all_sent. Defined.

Definition succeeds (m : W -> outcome io_error unit * W) : Prop :=
  forall w, exists w', m w = (Ok tt, w').

Lemma succeeds_write_all b : succeeds (write_all b).
Proof. intros w. destruct (write_all_sent b w) as (w' & ? & _). by exists w'. Qed.

Lemma succeeds_and_then m k : succeeds m -> succeeds k -> succeeds (m ?; k).
Proof. intros Hm Hk w. unfold and_then. destruct (Hm w) as [w' ->]. apply Hk. Qed.

Lemma succeeds_write_to r : succeeds (write_to r).
Proof.
  induction r as [s|s|n|s|arr IH| |b] using RespType_rect_nested; [..|rewrite write_to_Array| |];
    cbn [write_to]; repeat case_match;
    repeat first [apply succeeds_and_then | apply succeeds_write_all].
  induction IH as [|r arr Hr _ IHarr]; cbn [write_items]; [by eexists|].
  by apply succeeds_and_then.
Qed.

Lemma write_to_sent r w :
  exists w', write_to r w = (Ok tt, w') /\ sent w' = sent w ++ to_bytes r.
Proof.
  destruct (write_to_emits r w) as [Hok|(e & w' & p & He & _)]; [exact Hok|].
  destruct (succeeds_write_to r w) as [w'' Hs]. congruence.
Qed.
End Writer.

(** ** The reference *)

Section Spec.
Context {M : Type -> Type} `{DashMapLaws M} {W : Type} `{ReliableWriter W}.
Context `{BuildProfile} `{TargetLayout}.
Implicit Types st : connection M W.

(** The requests of a stream, and the part of one that has not fully arrived. *)
Inductive requests : bytes -> list RespType -> bytes -> Prop :=
| requests_end rest : rest = [] \/ parse rest = Err Incomplete -> requests rest [] rest
| requests_next stream r n rs rest :
    stream <> [] -> parse stream = Ok (r, n) -> requests (drop (Z.to_nat n) stream) rs rest ->
    requests stream (r :: rs) rest.

(** The bytes that answer a request, and the state after it, unless it
    panics. *)
Definition answer (c : Client) (w : world M) (req : RespType) : option (bytes * (Client * world M)) :=
  match extract_command (now w) req with
  | Ok cmd =>
      match dispatch c (tick w) cmd with
      | (Ok r, s) => Some (to_bytes r, s)
      | (Err e, s) => Some (to_bytes (SimpleError e), s)
      | _ => None
      end
  | Err e => Some (to_bytes (SimpleError e), (c, tick w))
  | _ => None
  end.

Fixpoint serve (c : Client) (w : world M) (reqs : list RespType) :
    option (bytes * (Client * world M)) :=
  match reqs with
  | [] => Some ([], (c, w))
  | req :: reqs =>
      match answer c w req with
      | Some (out, (c, w)) =>
          match serve c w reqs with
          | Some (outs, s) => Some (out ++ outs, s)
          | None => None
          end
      | None => None
      end
  end.

(** ** The inner loop *)

Definition idle st : Prop := c_buf st = [] \/ parse (c_buf st) = Err Incomplete.

Lemma send_sent r st :
  exists w', send r st = (Ok tt, with_writer st w') /\
    sent w' = sent (c_writer st) ++ to_bytes r.
Proof. unfold send. destruct (write_to_sent r (c_writer st)) as (w' & -> & ?). by exists w'. Qed.

Lemma flush_writer_sent st :
  exists w', flush_writer st = (Ok tt, with_writer st w') /\
    sent w' = sent (c_writer st) /\ buffer_is_empty w' = true.
Proof. unfold flush_writer. destruct (flush_sent (c_writer st)) as (w' & -> & ? & ?). by exists w'. Qed.

(** One turn of the inner loop on a complete request. *)
Lemma drain_turn fuel count made st r n out c w :
  c_buf st <> [] -> parse (c_buf st) = Ok (r, n) ->
  answer (c_client st) (c_world st) r = Some (out, (c, w)) ->
  exists count' w',
    drain (S fuel) count made st =
      drain fuel count' true (mkConnection (drop (Z.to_nat n) (c_buf st)) c w w') /\
    sent w' = sent (c_writer st) ++ out.
Proof.
  intros Hne Hp Ha. cbn [drain]. rewrite decide_False by done. rewrite Hp. unfold advance.
  apply parse_bounded in Hp. rewrite (proj2 (Z.leb_le n _)) by lia.
  unfold answer in Ha. cbn [with_buf c_world c_client with_state].
  destruct (extract_command (now (c_world st)) r) as [cmd|e| |]; try discriminate Ha.
  - cbn [c_client c_world with_state with_buf].
    destruct (dispatch (c_client st) (tick (c_world st)) cmd) as [[res|e| |] [c1 w1]];
      try discriminate Ha; injection Ha as <- <- <-.
    + edestruct (send_sent res) as (w' & -> & Hs). cbn [c_writer with_state with_buf] in Hs.
      case_match.
      * edestruct flush_writer_sent as (w'' & -> & Hs' & _). cbn [c_writer with_writer] in Hs'.
        exists 0%nat, w''. split; [done|]. by rewrite Hs'.
      * by exists (S count), w'.
    + edestruct (send_sent (SimpleError e)) as (w' & -> & Hs).
      by exists (S count), w'.
  - injection Ha as <- <- <-. edestruct (send_sent (SimpleError e)) as (w' & -> & Hs).
    by exists (S count), w'.
Qed.

(** The loop takes the complete requests from the buffer, whatever follows it
    in the stream. *)
Lemma drain_serves fuel count made st ext rs rest out s :
  (length (c_buf st) < fuel)%nat -> len (c_buf st ++ ext) <= isize_max ->
  requests (c_buf st ++ ext) rs rest ->
  serve (c_client st) (c_world st) rs = Some (out, s) ->
  exists made' st' rs' out1 out2,
    drain fuel count made st = (Drained made', st') /\ idle st' /\
    requests (c_buf st' ++ ext) rs' rest /\ len (c_buf st') <= len (c_buf st) /\
    serve (c_client st') (c_world st') rs' = Some (out2, s) /\
    out = out1 ++ out2 /\ sent (c_writer st') = sent (c_writer st) ++ out1 /\
    (made' = true \/ (made' = made /\ st' = st)).
Proof.
  revert count made st rs out. induction fuel as [|fuel IH]; intros count made st rs out Hf Hl Hr Hs; [lia|].
  assert (idle st -> exists made' st' rs' out1 out2,
    (Drained made, st) = (Drained made', st') /\ idle st' /\
    requests (c_buf st' ++ ext) rs' rest /\ len (c_buf st') <= len (c_buf st) /\
    serve (c_client st') (c_world st') rs' = Some (out2, s) /\
    out = out1 ++ out2 /\ sent (c_writer st') = sent (c_writer st) ++ out1 /\
    (made' = true \/ (made' = made /\ st' = st))) as Hstop.
  { intros Hi. exists made, st, rs, [], out. rewrite app_nil_r. split_and!; auto. lia. }
  destruct (decide (c_buf st = [])) as [He|Hne].
  { cbn [drain]. rewrite decide_True by done. apply Hstop. by left. }
  destruct (decide (parse (c_buf st) = Err Incomplete)) as [Hi|Hni].
  { cbn [drain]. rewrite decide_False, Hi by done. apply Hstop. by right. }
  pose proof (parse_app (c_buf st) ext Hl Hni) as Happ.
  inversion Hr as [? [Hnil|Hinc]|? r n rs1 ? _ Hp Hr1]; subst; clear Hr.
  { by apply app_eq_nil in Hnil as [? _]. }
  { rewrite Happ in Hinc. done. }
  rewrite Happ in Hp. pose proof (parse_bounded _ _ _ Hp) as Hb. cbn [serve] in Hs.
  destruct (answer (c_client st) (c_world st) r) as [[o1 [c1 w1]]|] eqn:Ha; [|done].
  destruct (serve c1 w1 rs1) as [[o2 s2]|] eqn:Hs1; [|done]. injection Hs as <- <-.
  destruct (drain_turn fuel count made st r n o1 c1 w1 Hne Hp Ha) as (count' & w' & -> & Hw).
  assert ((Z.to_nat n <= length (c_buf st))%nat) as Hn by (unfold len in Hb; lia).
  rewrite drop_app_le in Hr1 by done.
  edestruct (IH count' true (mkConnection (drop (Z.to_nat n) (c_buf st)) c1 w1 w') rs1 o2)
    as (made' & st' & rs' & out1 & out2 & Hd & Hi' & Hr' & Hl' & Hs' & -> & Hw' & Hm);
    [..|exact Hs1|]; cbn [c_buf c_client c_world c_writer] in *.
  - rewrite length_drop. lia.
  - rewrite len_app in *. rewrite len_drop. lia.
  - exact Hr1.
  - exists made', st', rs', (o1 ++ out1), out2. rewrite len_drop in Hl'. split_and!; auto.
    + lia.
    + by rewrite (assoc_L (++)).
    + by rewrite Hw', Hw, (assoc_L (++)).
    + destruct Hm as [->|[-> _]]; auto.
Qed.

(** ** The outer loop *)

Lemma process_serves st ext rs rest out s :
  len (c_buf st ++ ext) <= isize_max -> requests (c_buf st ++ ext) rs rest ->
  serve (c_client st) (c_world st) rs = Some (out, s) ->
  exists st' rs' out1 out2,
    process st = (Open, st') /\ idle st' /\
    requests (c_buf st' ++ ext) rs' rest /\ len (c_buf st') <= len (c_buf st) /\
    serve (c_client st') (c_world st') rs' = Some (out2, s) /\
    out = out1 ++ out2 /\ sent (c_writer st') = sent (c_writer st) ++ out1 /\
    (buffer_is_empty (c_writer st) = true -> buffer_is_empty (c_writer st') = true).
Proof.
  intros Hl Hr Hs. unfold process.
  destruct (drain_serves (S (length (c_buf st))) 0 false st ext rs rest out s)
    as (made & st1 & rs' & out1 & out2 & -> & Hi & Hr' & Hl' & Hs' & -> & Hw & Hm);
    [lia|done..|].
  destruct (made && negb (buffer_is_empty (c_writer st1))) eqn:Hf.
  - destruct (flush_writer_sent st1) as (w' & -> & Hw' & He).
    exists (with_writer st1 w'), rs', out1, out2. split_and!; try done. by rewrite <- Hw.
  - exists st1, rs', out1, out2. split_and!; try done.
    destruct Hm as [->|[-> ->]]; [|done]. by apply negb_false_iff in Hf.
Qed.

(** An event that delivers bytes, or none yet. *)
Definition delivers (ev : read_event) : Prop :=
  match ev with Read b => b <> [] | NotReady => True | ReadError _ => False end.

Definition event_bytes (ev : read_event) : bytes :=
  match ev with Read b => b | _ => [] end.

Lemma handle_turn_serves ev st ext rs rest out s :
  delivers ev -> idle st ->
  len (c_buf st ++ event_bytes ev ++ ext) <= isize_max ->
  requests (c_buf st ++ event_bytes ev ++ ext) rs rest ->
  serve (c_client st) (c_world st) rs = Some (out, s) ->
  exists st' rs' out1 out2,
    (forall events, handle_events (ev :: events) st = handle_events events st') /\ idle st' /\
    requests (c_buf st' ++ ext) rs' rest /\ len (c_buf st' ++ ext) <= isize_max /\
    serve (c_client st') (c_world st') rs' = Some (out2, s) /\
    out = out1 ++ out2 /\ sent (c_writer st') = sent (c_writer st) ++ out1 /\
    (buffer_is_empty (c_writer st) = true -> buffer_is_empty (c_writer st') = true).
Proof.
  intros Hev Hi Hl Hr Hs. destruct ev as [b| |e]; cbn [handle_events event_bytes app] in *; [|  |done].
  - rewrite handle_turn_read by done. rewrite (assoc_L (++)) in Hl, Hr.
    destruct (process_serves (with_buf st (c_buf st ++ b)) ext rs rest out s)
      as (st' & rs' & out1 & out2 & -> & Hi' & Hr' & Hl' & Hs' & Ho & Hw & Hb); [done..|].
    exists st', rs', out1, out2. cbn [c_buf with_buf c_writer] in *. rewrite !len_app in *.
    split_and!; try done. lia.
  - unfold handle_turn. cbn [read_buf try_read_buf]. case_decide as He.
    + exists st, rs, [], out. rewrite app_nil_r. by split_and!.
    + destruct (process_serves st ext rs rest out s)
        as (st' & rs' & out1 & out2 & -> & Hi' & Hr' & Hl' & Hs' & Ho & Hw & Hb); [done..|].
      exists st', rs', out1, out2. rewrite !len_app in *. split_and!; try done. lia.
Qed.

Lemma requests_idle st rs rest : idle st -> requests (c_buf st) rs rest -> rs = [] /\ rest = c_buf st.
Proof.
  intros Hi Hr. inversion Hr as [|? r n rs1 ? Hne Hp _]; subst; [done|].
  destruct Hi as [?|Hi]; [done|]. congruence.
Qed.

Lemma handle_events_serves events st rs rest out c w :
  Forall delivers events -> idle st ->
  len (c_buf st ++ concat (map event_bytes events)) <= isize_max ->
  requests (c_buf st ++ concat (map event_bytes events)) rs rest ->
  serve (c_client st) (c_world st) rs = Some (out, (c, w)) ->
  exists w',
    handle_events events st = (Open, mkConnection rest c w w') /\
    sent w' = sent (c_writer st) ++ out /\
    (buffer_is_empty (c_writer st) = true -> buffer_is_empty w' = true).
Proof.
  intros Hev. revert st rs out. induction Hev as [|ev events Hev Hevs IH]; intros st rs out Hi Hl Hr Hs.
  - cbn [map concat] in *. rewrite app_nil_r in *. apply requests_idle in Hr as [-> ->]; [|done].
    injection Hs as <- <- <-. exists (c_writer st). rewrite app_nil_r. by destruct st.
  - cbn [map concat] in *.
    destruct (handle_turn_serves ev st _ rs rest out (c, w) Hev Hi Hl Hr Hs)
      as (st' & rs' & out1 & out2 & -> & Hi' & Hr' & Hl' & Hs' & -> & Hw & Hb).
    destruct (IH st' rs' out2 Hi' Hl' Hr' Hs') as (w' & -> & Hw' & Hb').
    exists w'. split_and!; [done| |auto]. by rewrite Hw', Hw, (assoc_L (++)).
Qed.

(** ** Properties *)

(** C6: the cutting of the input into reads and the pipelining of requests do
    not matter. However the bytes of a stream of requests arrive, in chunks of
    any size and with any pauses between them, the connection sends the replies
    to its complete requests, in their order, each computed from the state the
    one before left; it keeps the bytes of an incomplete last request; and it
    has flushed its writer when it waits for more. *)
Theorem handle_serves_requests events w writer rs rest out c' w' :
  Forall delivers events ->
  len (concat (map event_bytes events)) <= isize_max ->
  requests (concat (map event_bytes events)) rs rest ->
  serve Client_new w rs = Some (out, (c', w')) ->
  buffer_is_empty writer = true ->
  exists writer',
    handle events w writer = (Open, mkConnection rest c' w' writer') /\
    sent writer' = sent writer ++ out /\ buffer_is_empty writer' = true.
Proof.
  intros Hev Hl Hr Hs Hb. unfold handle.
  destruct (handle_events_serves events (mkConnection [] Client_new w writer) rs rest out c' w')
    as (writer' & Hh & Hw & He); [done|by left|done..|].
  exists writer'. auto.
Qed.

(** C27: input that is no request is answered by an error, and everything that
    has arrived with it is dropped, also the complete requests after it; the
    state is unchanged and the connection stays open. *)
Theorem invalid_input_drops_buffer st b msg ext :
  b <> [] -> parse (c_buf st ++ b) = Err (Invalid msg) ->
  len (c_buf st ++ b ++ ext) <= isize_max ->
  exists writer',
    handle_turn (Read (b ++ ext)) st =
      (Open, mkConnection [] (c_client st) (c_world st) writer') /\
    sent writer' = sent (c_writer st) ++ to_bytes (SimpleError msg) /\
    buffer_is_empty writer' = true.
Proof.
  intros Hb Hp Hl. rewrite (assoc_L (++)) in Hl.
  pose proof (parse_app _ ext Hl) as Happ. rewrite Hp in Happ. specialize (Happ ltac:(done)).
  rewrite handle_turn_read by (by destruct b). unfold process.
  rewrite <- (assoc_L (++)) in Happ. destruct b as [|b0 b]; [done|]. cbn [drain with_buf c_buf app] in *.
  rewrite decide_False by (by intros [_ ?]%app_eq_nil). rewrite Happ.
  edestruct (send_sent (SimpleError msg)) as (w1 & -> & Hw1).
  edestruct flush_writer_sent as (w2 & -> & Hw2 & He2). simpl in *.
  exists w2. split_and!; [done|congruence|done].
Qed.

(** The requests of a stream of encoded values. *)
Lemma requests_encoded reqs :
  Forall (fun r => resp_wf r = true /\ error_free r = true /\
                   fits_capacity size_of_RespType r = true) reqs ->
  len (concat (map to_bytes reqs)) <= isize_max ->
  requests (concat (map to_bytes reqs)) reqs [].
Proof.
  induction 1 as [|r reqs (Hw & He & Hc) _ IH]; intros Hl; [by constructor; left|].
  cbn [map concat] in *. apply requests_next with (n := len (to_bytes r)).
  - intros [Hn _]%app_eq_nil. by apply to_bytes_nonempty in Hn.
  - rewrite parse_encoded by done. by rewrite decoded_error_free.
  - unfold len. rewrite Nat2Z.id, drop_app_length. apply IH.
    rewrite len_app in Hl. pose proof (len_nonneg (to_bytes r)). lia.
Qed.
End Spec.

(** ** Witnesses *)

Module ClientLoopWitness.
Import RespWitness DispatcherWitness.

(** A writer in memory. *)
Record mem_writer : Type := MemWriter { pending : bytes; flushed : bytes }.

#[export] Instance mem_write : AsyncWrite mem_writer :=
  {| write_all b w := (Ok tt, MemWriter (pending w ++ b) (flushed w)) |}.

#[export] Instance mem_buf : BufWriter mem_writer :=
  {| flush w := (Ok tt, MemWriter [] (flushed w ++ pending w));
     buffer_is_empty w := bool_decide (pending w = []) |}.

#[export] Program Instance mem_reliable : ReliableWriter mem_writer :=
  {| sent w := flushed w ++ pending w |}.
Next Obligation. intros b w. eexists. split; [done|]. simpl. by rewrite (assoc_L (++)). Qed.
Next Obligation. intros w. eexists. split_and!; [done| |done]. simpl. by rewrite app_nil_r. Qed.

Definition request (l : list bytes) : RespType := Array (map BulkString l).
Definition reqs : list RespType :=
  [request [bs "multi"]; request [bs "ECHO"; bs "hi"]; request [bs "EXEC"]].

Definition stream : bytes := Eval vm_compute in concat (map to_bytes reqs).

(** The stream in three reads that cut requests, with pauses. *)
Definition reads : list read_event :=
  [NotReady; Read (take 5 stream); NotReady; NotReady; Read (take 30 (drop 5 stream));
   Read (drop 35 stream); NotReady].

Definition replies : bytes :=
  Eval vm_compute in
    concat (map to_bytes [SimpleString (bs "Ok"); SimpleString (bs "QUEUED");
                          Array [BulkString (bs "hi")]]).

Lemma handle_serves_witness :
  exists writer',
    handle reads world0 (MemWriter [] []) =
      (Open, mkConnection [] Client_new (tick (tick (tick world0))) writer') /\
    sent writer' = replies /\ buffer_is_empty writer' = true.
Proof.
  assert (concat (map event_bytes reads) = concat (map to_bytes reqs)) as Hstream
    by (vm_compute; reflexivity).
  destruct (handle_serves_requests reads world0 (MemWriter [] []) reqs [] replies Client_new
              (tick (tick (tick world0)))) as (writer' & Hh & Hs & Hb);
    [..|exists writer'; split_and!; [exact Hh|exact Hs|exact Hb]].
  - repeat (constructor; [done|]). constructor.
  - rewrite Hstream. by vm_compute.
  - rewrite Hstream. apply requests_encoded; [repeat constructor; by vm_compute|by vm_compute].
  - reflexivity.
  - reflexivity.
Defined.

Lemma invalid_input_witness :
  exists writer',
    handle_turn (Read (bs ":x" ++ CRLF ++ bs "PING" ++ CRLF))
      (mkConnection [] Client_new world0 (MemWriter [] [])) =
      (Open, mkConnection [] Client_new world0 writer') /\
    sent writer' = bs "-Invalid integer value." ++ CRLF /\ buffer_is_empty writer' = true.
Proof.
  destruct (invalid_input_drops_buffer (mkConnection [] Client_new world0 (MemWriter [] []))
              (bs ":x" ++ CRLF) (bs "Invalid integer value.") (bs "PING" ++ CRLF)) as (writer' & Hh & Hs & Hb);
    [..|exists writer'; split_and!; [exact Hh|exact Hs|exact Hb]].
  - done.
  - by vm_compute.
  - by vm_compute.
Defined.

Lemma incomplete_request_witness :
  handle_trace (replicate 1000 NotReady)
    (mkConnection (bs "*1") Client_new world0 (MemWriter [] [])) =
  (replicate 1000 Open, mkConnection (bs "*1") Client_new world0 (MemWriter [] [])).
Proof.
  refine (proj1 (incomplete_request_polls
    (mkConnection (bs "*1") Client_new world0 (MemWriter [] [])) 1000 _ _)); [done|by vm_compute].
Defined.
End ClientLoopWitness.
