(* ===== verification/Server.v ===== *)
(** * Start-up and listening (src/src/server.rs, src/src/main.rs)

    The port from the command line; [Server::new], which loads the database and
    looks for a port it can bind; [build_listener]; [Server::run], which builds
    one listener per worker; and the accept loop. What the operating system
    answers to each system call is a parameter. Logging has no effect on the
    rest and is left out. *)
From S2P Require Import Prelude Ints RespTypes DashMap Database Rdb Dispatcher.
Local Open Scope Z_scope.

(** ** The command line (main.rs) *)

Definition DEFAULT_PORT : Z := 6379.

Definition port_flag : bytes := Eval compute in bs "--port".

(** The loop of [parse_args] over [std::env::args()]. The index grows in every
    turn, so the number of arguments plus one is enough fuel. *)
Fixpoint parse_args_loop {E} (fuel : nat) (args : list bytes) (i : nat) (port : Z) :
    outcome E Z :=
  match fuel with
  | O => Diverge
  | S fuel =>
      if (i <? length args)%nat then
        let? arg := index args i in
        if decide (arg = port_flag) then
          if (i + 1 <? length args)%nat then
            let? value := index args (i + 1) in
            parse_args_loop fuel args (i + 2) (default DEFAULT_PORT (parse_u16 value))
          else parse_args_loop fuel args (i + 1) port
        else parse_args_loop fuel args (i + 1) port
      else Ok port
  end.

Definition parse_args {E} (args : list bytes) : outcome E Z :=
  parse_args_loop (S (length args)) args 1 DEFAULT_PORT.

(** ** Addresses *)

(** A socket address; the host of an IPv6 address is its text. *)
Inductive SocketAddr : Type :=
| V4 (a b c d : Z) (port : Z)
| V6 (host : bytes) (port : Z).

Definition is_ipv6 (addr : SocketAddr) : bool :=
  match addr with V4 _ _ _ _ _ => false | V6 _ _ => true end.

Definition addr_to_string (addr : SocketAddr) : bytes :=
  match addr with
  | V4 a b c d port =>
      format_int a ++ bs "." ++ format_int b ++ bs "." ++ format_int c ++ bs "." ++ format_int d ++
      bs ":" ++ format_int port
  | V6 host port => bs "[" ++ host ++ bs "]:" ++ format_int port
  end.

(** The number at the head of a text, with its digits, at most [hi]. *)
Fixpoint read_digits (hi : Z) (s : bytes) (acc : Z) (count : nat) : option (Z * nat * bytes) :=
  match s with
  | b :: rest =>
      match to_digit b with
      | Some d => if acc * 10 + d <=? hi then read_digits hi rest (acc * 10 + d) (S count) else None
      | None => Some (acc, count, s)
      end
  | [] => Some (acc, count, [])
  end.

(** [read_number] of the address parser of the standard library. *)
Definition read_number (hi : Z) (max_digits : option nat) (allow_zero_prefix : bool) (s : bytes) :
    option (Z * bytes) :=
  '(v, count, rest) ← read_digits hi s 0 0;
  if decide (count = 0%nat) then None
  else if match max_digits with Some m => (m <? count)%nat | None => false end then None
  else if negb allow_zero_prefix && bool_decide (head s = Some x30) && (1 <? count)%nat then None
  else Some (v, rest).

Definition read_char (c : byte) (s : bytes) : option bytes :=
  match s with b :: rest => if decide (b = c) then Some rest else None | [] => None end.

Definition read_octet : bytes -> option (Z * bytes) := read_number 255 (Some 3%nat) false.

(** [str::parse::<SocketAddr>()] of a text that begins like an IPv4 address. *)
Definition parse_socket_addr (s : bytes) : option SocketAddr :=
  '(a, s) ← read_octet s; s ← read_char x2e s;
  '(b, s) ← read_octet s; s ← read_char x2e s;
  '(c, s) ← read_octet s; s ← read_char x2e s;
  '(d, s) ← read_octet s; s ← read_char x3a s;
  '(port, s) ← read_number u16_max None true s;
  match s with [] => Some (V4 a b c d port) | _ => None end.

(** ** Errors *)

(** An [anyhow::Error]: the contexts that were added, the last one first, and
    the cause at the end of its chain. *)
Inductive cause : Type :=
| Io (e : io_error)
| AddrParseError.

Record error : Type := mkError {
  contexts : list bytes;
  root_cause : cause
}.

(** [.context(msg)] on an error that is one already, and on an [io::Error]. *)
Definition add_context {A} (msg : bytes) (r : outcome error A) : outcome error A :=
  map_err (fun e => mkError (msg :: contexts e) (root_cause e)) r.
Definition io_context (msg : bytes) (r : option io_error) : outcome error unit :=
  match r with Some e => Err (mkError [msg] (Io e)) | None => Ok tt end.

(** [e.chain().any(|cause| ... kind() == ErrorKind::AddrInUse)] *)
Definition is_in_use (e : error) : bool :=
  match root_cause e with Io AddrInUse => true | _ => false end.

(** ** Listeners *)

Inductive Domain : Type := IPV4 | IPV6.

(** What the system answers to the calls that make a listener: the error of
    each that fails. *)
Record listener_calls : Type := mkCalls {
  call_socket : Domain -> option io_error;
  call_reuse_port : option io_error;
  call_reuse_address : option io_error;
  call_nonblocking : option io_error;
  call_bind : option io_error;
  call_listen : option io_error;
  call_from_std : option io_error
}.

Definition build_listener (os : listener_calls) (addr : SocketAddr) : outcome error unit :=
  let domain := if is_ipv6 addr then IPV6 else IPV4 in
  let? _ := io_context (bs "socket() failed") (call_socket os domain) in
  let? _ := io_context (bs "SO_REUSEPORT not supported on this platform") (call_reuse_port os) in
  let? _ := io_context (bs "SO_REUSEADDR failed") (call_reuse_address os) in
  let? _ := io_context (bs "O_NONBLOCK failed") (call_nonblocking os) in
  let? _ := io_context (bs "bind() to " ++ addr_to_string addr ++ bs " failed") (call_bind os) in
  let? _ := io_context (bs "listen() failed") (call_listen os) in
  io_context (bs "Tokio TcpListener conversion failed") (call_from_std os).

(** ** The server *)

Record Server (M : Type -> Type) : Type := mkServer {
  s_addr : SocketAddr;
  s_db : DB M
}.
Arguments mkServer {M} s_addr s_db.
Arguments s_addr {M} s.
Arguments s_db {M} s.

Section Server.
Context {M : Type -> Type} `{DashMap M} `{BuildProfile}.

(** [os n addr] are the answers at the [n]-th listener that is built. *)
Context (os : nat -> SocketAddr -> listener_calls).

(** The clock readings of the snapshot reader. *)
Context (rclocks : nat -> clock_pair).

(** The loop of [Server::new] for a port; its [n]-th turn builds the [n]-th
    listener. *)
Fixpoint bind_loop (fuel n : nat) (port : Z) : outcome error SocketAddr :=
  match fuel with
  | O => Diverge
  | S fuel =>
      match parse_socket_addr (bs "127.0.0.1:" ++ format_int port) with
      | None => Err (mkError [bs "invalid port: " ++ format_int port] AddrParseError)
      | Some addr =>
          match build_listener (os n addr) addr with
          | Ok _ => Ok addr
          | Err e =>
              if is_in_use e then
                let? port := u16_add port 1 in
                bind_loop fuel (S n) port
              else add_context (bs "failed to bind to port " ++ format_int port) (Err e)
          | Panic p => Panic p
          | Diverge => Diverge
          end
      end
  end.

(** [Server::new], on the content of the snapshot file: one that cannot be read
    ends the process before a port is bound. *)
Definition Server_new (fuel : nat) (file : option bytes) (port : Z) : outcome error (Server M) :=
  match DB_new (M := M) rclocks file with
  | Ok db => let? addr := bind_loop fuel 0 port in Ok (mkServer addr db)
  | Err _ => Panic UnwrapOnErr
  | Panic p => Panic p
  | Diverge => Diverge
  end.

(** The loop of [Server::run] that builds a listener for each worker and spawns
    its accept loop; [n] listeners have been built before. The result are the
    workers. *)
Fixpoint spawn_acceptors (n : nat) (addr : SocketAddr) (worker_id num_workers : nat) :
    outcome error (list nat) :=
  match num_workers with
  | O => Ok []
  | S num_workers =>
      let? _ := add_context (bs "worker " ++ format_int (Z.of_nat worker_id) ++ bs " failed to bind")
                  (build_listener (os n addr) addr) in
      let? workers := spawn_acceptors (S n) addr (S worker_id) num_workers in
      Ok (worker_id :: workers)
  end.

Definition run_server (n : nat) (s : Server M) (num_cpus : nat) : outcome error (list nat) :=
  spawn_acceptors n (s_addr s) 0 num_cpus.
End Server.

(** [main], up to the point where the accept loops run: the server, and the
    workers that accept connections for it. [os_new] and [os_run] are the
    answers to the listeners of [Server::new] and of [Server::run]. *)
Definition main {M} `{DashMap M} `{BuildProfile} (os_new os_run : nat -> SocketAddr -> listener_calls)
    (rclocks : nat -> clock_pair) (fuel : nat) (args : list bytes) (file : option bytes)
    (num_cpus : nat) : outcome error (Server M * list nat) :=
  let? port := parse_args args in
  let? server := Server_new os_new rclocks fuel file port in
  let? workers := run_server os_run 0 server num_cpus in
  Ok (server, workers).

(** ** The accept loop *)

(** What [accept] yields, for sockets of a type [S]. *)
Inductive accept_event (S : Type) : Type :=
| Accepted (socket : S)
| AcceptError (e : io_error).
Arguments Accepted {S} socket.
Arguments AcceptError {S} e.

(** What the loop does: a task that serves the socket as a client of its own,
    or a pause. *)
Inductive accept_action (S : Type) : Type :=
| SpawnHandler (client : Client) (socket : S)
| SleepMillis (ms : Z).
Arguments SpawnHandler {S} client socket.
Arguments SleepMillis {S} ms.

(** The turns of the loop on the events so far. *)
Fixpoint accept_loop {S} (events : list (accept_event S)) : list (accept_action S) :=
  match events with
  | [] => []
  | Accepted socket :: events => SpawnHandler Client_new socket :: accept_loop events
  | AcceptError _ :: events => SleepMillis 10 :: accept_loop events
  end.
