(* ===== verification/ServerSpec.v ===== *)
(** * Properties of start-up and listening

    The port the command line asks for, the address the server listens on, the
    workers it starts and the accept loop. *)
From S2P Require Import Prelude Ints RespTypes DashMap Database Rdb Dispatcher Server.
Local Open Scope Z_scope.

(** ** The command line *)

(** The reference: [args] without the program name, read from left to right.
    Every [--port] takes the argument after it. *)
Fixpoint requested_port (args : list bytes) (port : Z) : Z :=
  match args with
  | flag :: ((value :: rest) as tail) =>
      if decide (flag = port_flag) then requested_port rest (default DEFAULT_PORT (parse_u16 value))
      else requested_port tail port
  | _ => port
  end.

Lemma requested_port_step flag value rest port :
  requested_port (flag :: value :: rest) port =
  if decide (flag = port_flag) then requested_port rest (default DEFAULT_PORT (parse_u16 value))
  else requested_port (value :: rest) port.
Proof. done. Qed.

Lemma requested_port_range args port :
  0 <= port <= u16_max -> 0 <= requested_port args port <= u16_max.
Proof.
  revert port. induction args as [args IH] using (induction_ltof1 _ length).
  unfold ltof in IH. intros port Hp. destruct args as [|flag [|value rest]]; [done..|].
  rewrite requested_port_step. case_decide; apply IH; simpl; try lia.
  destruct (parse_u16 value) eqn:E; simpl; [by apply parse_int_range_range in E|].
  unfold DEFAULT_PORT, u16_max. lia.
Qed.

(** From index [i] on, the loop does what the reference does on the arguments
    that are left. *)
Lemma parse_args_loop_spec {E} fuel args i port :
  (length args - i < fuel)%nat ->
  @parse_args_loop E fuel args i port = Ok (requested_port (drop i args) port).
Proof.
  revert i port. induction fuel as [|fuel IH]; intros i port Hf; [lia|].
  cbn [parse_args_loop]. destruct (Nat.ltb_spec i (length args)) as [Hi|Hi];
    [|by rewrite drop_ge by lia].
  destruct (lookup_lt_is_Some_2 args i Hi) as [arg Ha].
  rewrite (proj2 (index_lookup args i arg) Ha), (drop_S _ _ _ Ha). cbn [obind].
  destruct (Nat.ltb_spec (i + 1) (length args)) as [Hi1|Hi1].
  - destruct (lookup_lt_is_Some_2 args (i + 1) Hi1) as [value Hv].
    rewrite (proj2 (index_lookup args (i + 1) value) Hv). cbn [obind].
    rewrite Nat.add_1_r in Hv. rewrite (drop_S _ _ _ Hv), requested_port_step.
    case_decide; rewrite IH by lia; do 2 f_equal.
    + f_equal. lia.
    + rewrite Nat.add_1_r. by rewrite (drop_S _ _ _ Hv).
  - rewrite (drop_ge args (S i)) by lia. cbn [requested_port].
    case_decide; rewrite IH by lia; by rewrite drop_ge by lia.
Qed.

(** C36: The index loop over the command line returns, without running past its
    end, the port that a scan of the arguments after the program name finds:
    each "--port" takes the argument that follows, the last one wins, and one
    without a value is ignored. The result is a valid port: a value that is not
    a number from 0 to 65535 stands for the default. *)
Theorem parse_args_scans_flags {E} (args : list bytes) :
  @parse_args E args = Ok (requested_port (tail args) DEFAULT_PORT) /\
  0 <= requested_port (tail args) DEFAULT_PORT <= u16_max /\
  (forall prog port, 0 <= port <= u16_max ->
   @parse_args E [prog; port_flag; format_int port] = Ok port).
Proof.
  assert (Hs : forall args, @parse_args E args = Ok (requested_port (tail args) DEFAULT_PORT)).
  { intros l. unfold parse_args. rewrite parse_args_loop_spec by lia. by destruct l. }
  split; [done|]. split; [apply requested_port_range; unfold DEFAULT_PORT, u16_max; lia|].
  intros prog port Hp. rewrite Hs. cbn [tail]. rewrite requested_port_step.
  rewrite decide_True by done. unfold parse_u16.
  by rewrite parse_format_int by (unfold u16_max, u64_max in *; lia).
Qed.

(** ** Addresses *)

(** The digits of a number that fits are read up to the first other byte. *)
Lemma read_format_digits hi fuel n acc rest :
  0 <= n < 10 ^ Z.of_nat fuel -> n <= hi ->
  exists k, length (format_digits fuel n acc) = (k + length acc)%nat /\
  forall c, read_digits hi (format_digits fuel n acc ++ rest) 0 c =
            read_digits hi (acc ++ rest) n (c + k).
Proof.
  revert n acc. induction fuel as [|fuel IH]; intros n acc Hn Hhi; cbn [format_digits].
  - exists 0%nat. replace n with 0 by lia. split; [done|]. intros c. by rewrite Nat.add_0_r.
  - rewrite Nat2Z.inj_succ, Z.pow_succ_r in Hn by lia.
    pose proof (Z.mod_pos_bound n 10 ltac:(lia)). pose proof (Z.div_mod n 10 ltac:(lia)).
    destruct (Z.ltb_spec n 10).
    + exists 1%nat. split; [done|]. intros c. cbn -[Z.mul Z.add]. rewrite to_digit_ascii_digit by lia.
      rewrite Z.mod_small by lia. rewrite (proj2 (Z.leb_le _ _)) by lia.
      f_equal; lia.
    + destruct (IH (n / 10) (ascii_digit (n mod 10) :: acc)) as (k & Hk & Hr); [|lia|].
      { split; [apply Z.div_pos; lia|apply Z.div_lt_upper_bound; lia]. }
      exists (S k). rewrite Hk. split; [simpl; lia|]. intros c. rewrite Hr.
      cbn -[Z.mul Z.add]. rewrite to_digit_ascii_digit by lia.
      rewrite (proj2 (Z.leb_le _ _)) by lia. f_equal; lia.
Qed.

Lemma length_format_digits fuel k n acc :
  0 <= n < 10 ^ Z.of_nat (S k) -> (length (format_digits fuel n acc) <= S k + length acc)%nat.
Proof.
  revert fuel n acc. induction k as [|k IH]; intros [|fuel] n acc Hn; cbn [format_digits];
    try lia; destruct (Z.ltb_spec n 10); cbn [length]; try lia.
  rewrite Nat2Z.inj_succ, Z.pow_succ_r in Hn by lia.
  assert (Hd : 0 <= n / 10 < 10 ^ Z.of_nat (S k)).
  { split; [apply Z.div_pos; lia|apply Z.div_lt_upper_bound; lia]. }
  pose proof (IH fuel (n / 10) (ascii_digit (n mod 10) :: acc) Hd). simpl in *. lia.
Qed.

(** Only the number zero starts with the digit zero. *)
Lemma format_digits_no_zero_prefix fuel n acc :
  0 < n < 10 ^ Z.of_nat fuel -> head (format_digits fuel n acc) <> Some x30.
Proof.
  revert n acc. induction fuel as [|fuel IH]; intros n acc Hn; cbn [format_digits]; [lia|].
  rewrite Nat2Z.inj_succ, Z.pow_succ_r in Hn by lia.
  destruct (Z.ltb_spec n 10).
  - rewrite Z.mod_small by lia. intros [= Hx%(f_equal bz)].
    rewrite bz_ascii_digit in Hx by lia. change (bz x30) with 48 in Hx. lia.
  - apply IH. split; [apply Z.div_str_pos; lia|apply Z.div_lt_upper_bound; lia].
Qed.

(** A number in decimal is read back, whatever follows it that is not a digit. *)
Lemma read_number_format hi max_digits zero n rest :
  0 <= n <= hi -> n <= u64_max ->
  (forall m, max_digits = Some (S m) -> n < 10 ^ Z.of_nat (S m)) -> max_digits <> Some 0%nat ->
  (forall b, head rest = Some b -> to_digit b = None) ->
  read_number hi max_digits zero (format_int n ++ rest) = Some (n, rest).
Proof.
  intros Hn Hu Hm Hm0 Hrest. unfold u64_max in Hu.
  unfold format_int. rewrite (proj2 (Z.ltb_ge n 0)) by lia.
  destruct (read_format_digits hi 20 n [] rest) as (k & Hk & Hr); [simpl Z.of_nat; lia|lia|].
  rewrite app_nil_l, Nat.add_0_r in *.
  assert (Hk0 : k <> 0%nat).
  { destruct (format_digits_head 20 n [] ltac:(lia)) as (? & ? & E & _). rewrite E in Hk. by destruct k. }
  assert (Hz : head (format_digits 20 n [] ++ rest) = Some x30 -> k = 1%nat).
  { intros Hh. destruct (decide (n = 0)) as [->|Hn0]; [by vm_compute in Hk|].
    destruct (format_digits_head 20 n [] ltac:(lia)) as (? & ? & E & _).
    exfalso. eapply (format_digits_no_zero_prefix 20 n []); [simpl Z.of_nat; lia|].
    rewrite E in Hh |- *. exact Hh. }
  unfold read_number. rewrite Hr.
  assert (Hd : read_digits hi rest n k = Some (n, k, rest)).
  { destruct rest as [|b rest]; [done|]. cbn [read_digits]. by rewrite (Hrest b). }
  simpl Nat.add. rewrite Hd. cbn [mbind option_bind]. rewrite decide_False by done.
  destruct max_digits as [[|m]|]; [done| |].
  - specialize (Hm m eq_refl). pose proof (length_format_digits 20 m n [] ltac:(lia)) as Hl.
    rewrite Hk in Hl. simpl length in Hl.
    destruct (Nat.ltb_spec (S m) k); [lia|].
    destruct zero; [done|]. case_bool_decide as Hh; [|done]. by rewrite (Hz Hh).
  - destruct zero; [done|]. case_bool_decide as Hh; [|done]. by rewrite (Hz Hh).
Qed.

Lemma read_octet_format n b rest :
  0 <= n <= 255 -> to_digit b = None ->
  read_octet (format_int n ++ b :: rest) = Some (n, b :: rest).
Proof.
  intros Hn Hb. apply read_number_format; [lia|unfold u64_max; lia| |done|by intros ? [= <-]].
  intros m [= <-]. simpl. lia.
Qed.

(** Printing an IPv4 address and parsing it gives it back. *)
Lemma parse_socket_addr_to_string a b c d port :
  Forall (fun n => 0 <= n <= 255) [a; b; c; d] -> 0 <= port <= u16_max ->
  parse_socket_addr (addr_to_string (V4 a b c d port)) = Some (V4 a b c d port).
Proof.
  intros Ho Hp. unfold u16_max in Hp.
  repeat (apply Forall_cons_1 in Ho as [? Ho]).
  unfold parse_socket_addr, addr_to_string.
  change (bs ".") with [x2e]. change (bs ":") with [x3a]. cbn [app].
  do 4 (rewrite read_octet_format by done; cbn [mbind option_bind read_char];
        rewrite decide_True by done; cbn [mbind option_bind]).
  rewrite <- (app_nil_r (format_int port)).
  rewrite read_number_format; [done|unfold u16_max; lia|unfold u64_max; lia|done..].
Qed.

Definition localhost (port : Z) : SocketAddr := V4 127 0 0 1 port.

Lemma parse_localhost port :
  0 <= port <= u16_max ->
  parse_socket_addr (bs "127.0.0.1:" ++ format_int port) = Some (localhost port).
Proof.
  intros Hp. refine (parse_socket_addr_to_string 127 0 0 1 port _ Hp).
  repeat constructor; lia.
Qed.

(** ** Listeners *)

(** The outcome of the [n]-th listener, on a port of the local host. *)
Definition listen_on (os : nat -> SocketAddr -> listener_calls) (n : nat) (port : Z) :
    outcome error unit :=
  build_listener (os n (localhost port)) (localhost port).

Definition port_in_use (os : nat -> SocketAddr -> listener_calls) (n : nat) (port : Z) : Prop :=
  exists e, listen_on os n port = Err e /\ is_in_use e = true.

(** A listener is built or an error is returned. *)
Lemma build_listener_returns calls addr :
  build_listener calls addr = Ok tt \/ exists e, build_listener calls addr = Err e.
Proof.
  unfold build_listener, io_context. repeat (case_scrutinee; cbn [obind]; eauto).
Qed.

(** ** The search for a port *)

Section Ports.
Context `{BuildProfile} (os : nat -> SocketAddr -> listener_calls).

Lemma u16_add_ok {E} a b : 0 <= a + b <= u16_max -> @u16_add _ E a b = Ok (a + b).
Proof. apply arith_result_ok. Qed.

Lemma bind_loop_step fuel n port :
  0 <= port <= u16_max ->
  bind_loop os (S fuel) n port =
  match listen_on os n port with
  | Ok _ => Ok (localhost port)
  | Err e =>
      if is_in_use e then let? port := u16_add port 1 in bind_loop os fuel (S n) port
      else Err (mkError ((bs "failed to bind to port " ++ format_int port) :: contexts e) (root_cause e))
  | Panic p => Panic p
  | Diverge => Diverge
  end.
Proof. intros Hp. cbn [bind_loop]. by rewrite parse_localhost. Qed.

(** Ports in use are passed over one by one. *)
Lemma bind_loop_skip k fuel n port :
  0 <= port -> port + Z.of_nat k <= u16_max ->
  (forall i, (i < k)%nat -> port_in_use os (n + i) (port + Z.of_nat i)) ->
  bind_loop os (k + fuel) n port = bind_loop os fuel (n + k) (port + Z.of_nat k).
Proof.
  revert n port. induction k as [|k IH]; intros n port Hp Hk Huse.
  - by rewrite Nat.add_0_r, Z.add_0_r.
  - destruct (Huse 0%nat ltac:(lia)) as (e & He & Hin).
    rewrite Nat.add_0_r, Z.add_0_r in He.
    rewrite Nat.add_succ_l, bind_loop_step, He, Hin, u16_add_ok by lia. cbn [obind].
    rewrite IH; [f_equal; lia|lia..|].
    intros i Hi. specialize (Huse (S i) ltac:(lia)).
    by replace (S n + i)%nat with (n + S i)%nat by lia;
      replace (port + 1 + Z.of_nat i) with (port + Z.of_nat (S i)) by lia.
Qed.

(** C34: The search of [Server::new] passes over every port in use and settles
    the first other one: the server gets that port when a listener can be
    built there, any other failure there is returned with the port in its
    message, and no number of a port is ever rejected as an address. When all
    ports up to 65535 are in use, the increment of the port overflows: it
    panics with overflow checks, and without them the search goes on at port
    0, which asks the system for an arbitrary port. *)
Theorem server_binds_first_free_port port k fuel :
  0 <= port -> port + Z.of_nat k <= u16_max ->
  (forall i, (i < k)%nat -> port_in_use os i (port + Z.of_nat i)) ->
  let found := port + Z.of_nat k in
  (listen_on os k found = Ok tt -> bind_loop os (k + S fuel) 0 port = Ok (localhost found)) /\
  (forall e, listen_on os k found = Err e -> is_in_use e = false ->
   bind_loop os (k + S fuel) 0 port =
   Err (mkError ((bs "failed to bind to port " ++ format_int found) :: contexts e) (root_cause e))) /\
  (found = u16_max -> port_in_use os k found ->
   bind_loop os (k + S fuel) 0 port =
   if overflow_checks then Panic ArithmeticOverflow else bind_loop os fuel (S k) 0).
Proof.
  intros Hp Hk Huse found.
  rewrite bind_loop_skip by done. fold found. rewrite bind_loop_step by lia. cbn [Nat.add].
  split_and!.
  - by intros ->.
  - by intros e -> ->.
  - intros Hmax (e & -> & ->). rewrite Hmax. unfold u16_add, arith_result.
    by destruct overflow_checks.
Qed.

(** C35: With overflow checks the search for a port ends: 65536 turns are
    enough, whatever the system answers. Without them it does not end while
    every port stays in use. *)
Theorem port_search_ends port :
  0 <= port <= u16_max ->
  if overflow_checks then
    forall fuel, (Z.to_nat (u16_max - port) < fuel)%nat -> bind_loop os fuel 0 port <> Diverge
  else
    (forall n p, port_in_use os n p) -> forall fuel, bind_loop os fuel 0 port = Diverge.
Proof.
  generalize 0%nat as n. intros n Hp. destruct overflow_checks eqn:Ho.
  - intros fuel Hf. revert n port Hp Hf. induction fuel as [|fuel IH]; intros n port Hp Hf; [lia|].
    rewrite bind_loop_step by done. unfold listen_on.
    destruct (build_listener_returns (os n (localhost port)) (localhost port)) as [->|[e ->]]; [done|].
    destruct (is_in_use e); [|done].
    destruct (decide (port = u16_max)) as [->|Hne].
    + unfold u16_add, arith_result. by rewrite Ho.
    + rewrite u16_add_ok by lia. cbn [obind]. apply IH; lia.
  - intros Huse fuel. revert n port Hp. induction fuel as [|fuel IH]; intros n port Hp; [done|].
    rewrite bind_loop_step by done. destruct (Huse n port) as (e & -> & ->).
    unfold u16_add, arith_result. destruct (_ && _) eqn:E; cbn [obind].
    + apply andb_prop in E as [?%Z.leb_le ?%Z.leb_le]. by apply IH.
    + rewrite Ho. cbn [obind]. apply IH. unfold wrap_unsigned, u16_max.
      pose proof (Z.mod_pos_bound (port + 1) (2 ^ 16)). lia.
Qed.
End Ports.

(** ** Start-up *)

(** The workers before the first whose listener fails are started. *)
Lemma spawn_acceptors_ok os addr n w m :
  (forall i, (i < m)%nat -> build_listener (os (n + i)%nat addr) addr = Ok tt) ->
  spawn_acceptors os n addr w m = Ok (seq w m).
Proof.
  revert n w. induction m as [|m IH]; intros n w Hl; [done|]. cbn [spawn_acceptors seq].
  rewrite <- (Nat.add_0_r n) at 1. rewrite Hl by lia. cbn [add_context map_err obind].
  rewrite IH; [done|]. intros i Hi. specialize (Hl (S i) ltac:(lia)).
  by rewrite Nat.add_succ_r in Hl.
Qed.

Lemma spawn_acceptors_fails os addr n w m k e :
  (forall i, (i < k)%nat -> build_listener (os (n + i)%nat addr) addr = Ok tt) -> (k < m)%nat ->
  build_listener (os (n + k)%nat addr) addr = Err e ->
  spawn_acceptors os n addr w m =
  Err (mkError ((bs "worker " ++ format_int (Z.of_nat (w + k)) ++ bs " failed to bind") :: contexts e)
         (root_cause e)).
Proof.
  revert n w m. induction k as [|k IH]; intros n w [|m] Hl Hm He; try lia; cbn [spawn_acceptors].
  - rewrite Nat.add_0_r in *. by rewrite He.
  - rewrite <- (Nat.add_0_r n) at 1. rewrite Hl by lia. cbn [add_context map_err obind].
    rewrite (IH (S n) (S w) m); [cbn [obind]; by rewrite Nat.add_succ_r| |lia|by rewrite Nat.add_succ_r in He].
    intros i Hi. specialize (Hl (S i) ltac:(lia)). by rewrite Nat.add_succ_r in Hl.
Qed.

Section Main.
Context {M : Type -> Type} `{DashMap M} `{BuildProfile}.
Context (os_new os_run : nat -> SocketAddr -> listener_calls) (rclocks : nat -> clock_pair).

(** C12: The program starts on the first port from the requested one on that is
    not in use, with the database of the snapshot file and one worker per
    processor, all on the same address; a worker whose listener fails stops
    the start with an error that names it. A snapshot that cannot be read ends
    the program, whatever the command line and the ports. *)
Theorem main_starts_on_first_free_port args file port k fuel num_cpus :
  requested_port (tail args) DEFAULT_PORT = port ->
  port + Z.of_nat k <= u16_max ->
  (forall i, (i < k)%nat -> port_in_use os_new i (port + Z.of_nat i)) ->
  let addr := localhost (port + Z.of_nat k) in
  listen_on os_new k (port + Z.of_nat k) = Ok tt ->
  (forall db, DB_new (M := M) rclocks file = Ok db ->
   ((forall w, (w < num_cpus)%nat -> build_listener (os_run w addr) addr = Ok tt) ->
    main os_new os_run rclocks (k + S fuel) args file num_cpus =
      Ok (mkServer addr db, seq 0 num_cpus)) /\
   (forall w e, (w < num_cpus)%nat ->
    (forall i, (i < w)%nat -> build_listener (os_run i addr) addr = Ok tt) ->
    build_listener (os_run w addr) addr = Err e ->
    exists msgs, main (M := M) os_new os_run rclocks (k + S fuel) args file num_cpus =
      Err (mkError ((bs "worker " ++ format_int (Z.of_nat w) ++ bs " failed to bind") :: msgs)
             (root_cause e)))) /\
  (DB_new (M := M) rclocks file = Panic UnwrapOnErr ->
   main (M := M) os_new os_run rclocks (k + S fuel) args file num_cpus = Panic UnwrapOnErr).
Proof.
  intros Hport Hk Huse addr Hl.
  assert (Hr : 0 <= port <= u16_max).
  { rewrite <- Hport. apply requested_port_range. unfold DEFAULT_PORT, u16_max. lia. }
  assert (Hb : bind_loop os_new (k + S fuel) 0 port = Ok addr).
  { rewrite bind_loop_skip by (done || lia). rewrite bind_loop_step by lia. cbn [Nat.add]. by rewrite Hl. }
  assert (Ha : @parse_args error args = Ok port).
  { unfold parse_args. rewrite parse_args_loop_spec by lia. subst port. by destruct args. }
  unfold main, Server_new, run_server. rewrite Ha. cbn [obind]. split.
  - intros db ->. rewrite Hb. cbn [obind s_addr]. split.
    + intros Hw. by rewrite spawn_acceptors_ok.
    + intros w e Hw Hi He. rewrite (spawn_acceptors_fails _ _ _ _ _ w e) by done. by eexists.
  - by intros ->.
Qed.
End Main.

(** ** The accept loop *)

Definition accepted_socket {S} (ev : accept_event S) : option S :=
  match ev with Accepted socket => Some socket | AcceptError _ => None end.

(** The loop serves every accepted socket, in order and each as a client of its
    own, pauses once for every error, and never ends: whatever came before, a
    socket that is accepted next is served. *)
Theorem accept_loop_serves_every_socket {S} (events : list (accept_event S)) :
  omap (fun a => match a with SpawnHandler client s => Some (client, s) | SleepMillis _ => None end)
    (accept_loop events) = (fun s => (Client_new, s)) <$> omap accepted_socket events /\
  length (accept_loop events) = length events /\
  forall socket, accept_loop (events ++ [Accepted socket]) =
    accept_loop events ++ [SpawnHandler Client_new socket].
Proof.
  induction events as [|[socket|e] events (IH1 & IH2 & IH3)]; [done| |]; cbn; rewrite IH1, IH2;
    (split_and!; [done..|]); intros s; by rewrite IH3.
Qed.

(** ** Concrete runs *)

Module ServerWitness.
#[local] Existing Instance debug_profile.

Definition answers (bind : option io_error) : listener_calls :=
  mkCalls (fun _ => None) None None None bind None None.

(** A system on which another program holds port 6379. *)
Definition busy_6379 (_ : nat) (addr : SocketAddr) : listener_calls :=
  match addr with
  | V4 _ _ _ _ port => answers (if decide (port = 6379) then Some AddrInUse else None)
  | V6 _ _ => answers None
  end.

Lemma port_in_use_6379 i : (i < 1)%nat -> port_in_use busy_6379 i (6379 + Z.of_nat i).
Proof. intros Hi. replace i with 0%nat by lia. eexists. split; reflexivity. Defined.

Lemma parse_args_witness :
  @parse_args unit [bs "ember"; port_flag; format_int 7000] = Ok 7000.
Proof.
  refine (proj2 (proj2 (parse_args_scans_flags [])) (bs "ember") 7000 _). unfold u16_max. lia.
Defined.

Lemma first_free_port_witness :
  bind_loop busy_6379 2 0 6379 = Ok (localhost 6380).
Proof.
  refine (proj1 (server_binds_first_free_port busy_6379 6379 1 0 _ _ port_in_use_6379) _);
    [lia|unfold u16_max; lia|reflexivity].
Defined.

Lemma port_search_ends_witness :
  bind_loop (fun _ _ => answers (Some AddrInUse)) (Z.to_nat 65536) 0 6379 <> Diverge.
Proof.
  refine (port_search_ends (fun _ _ => answers (Some AddrInUse)) 6379 _ (Z.to_nat 65536) _);
    unfold u16_max; lia.
Defined.

Lemma main_starts_witness :
  main (M := gmap bytes) busy_6379 busy_6379 (fun _ => (0, 0)) 2 [bs "ember"] None 4 =
  Ok (mkServer (localhost 6380) (mkDB ∅ ∅), [0; 1; 2; 3]%nat).
Proof.
  refine (proj1 (proj1 (main_starts_on_first_free_port busy_6379 busy_6379 (fun _ => (0, 0))
            [bs "ember"] None 6379 1 0 4 _ _ port_in_use_6379 _) (mkDB ∅ ∅) _) _);
    [reflexivity|unfold u16_max; lia|reflexivity..].
Defined.
End ServerWitness.
